(* ===== verification/_CoqProject ===== *)
-Q . S2P
Prelude.v
Strconv.v
Sort.v
HeapSort.v
QuickSort.v
RedditIdSlice.v
Collaborators.v
HandlePost.v
RunBot.v
Protocol.v
Plugin.v
Goroutine.v
Feed.v
PostFetcher.v
