(* ===== verification/Prelude.v ===== *)
(** * Verification of the reddit feed bot ([src/reddit/redditbot.go])

    ** The program

    [redditbot.go] is the reddit plugin of a Discord bot.  Its parts:

    - [StartFeed] starts a goroutine that runs [runBot]; [StopFeed] sends a
      wait group on [stopFeedChan] and blocks until a loop receives it.
    - [runBot], the dispatch loop.  It builds the reddit client
      ([setupClient], [UserAgent], the four variables read from the process
      environment), takes a redis client (a panic if there is none), loads
      the stored ids ([getLastIds]), makes the post fetcher and a ticker of
      five seconds.  Then it waits in a [select]: on a tick it asks the
      fetcher for the new posts and calls [handlePost] on each of them; on
      a wait group it calls [Done] and returns.
    - [handlePost] looks up the subscriptions of the post's subreddit in
      redis, collects the distinct destination channels (an empty channel
      stands for the guild), builds one Discord embed and sends it to every
      channel, logging a send that fails and going on.
    - [RedditIdSlice], the [sort.Interface] over ids.  [Less] decodes both
      ids with [strconv.ParseInt(_, 36, 64)], logs a parse failure and
      compares the decoded values with [>].

    The post fetcher ([NewPostFetcher], [GetNewPosts]), [GetConfig] and the
    packages [common], [discordgo], [reddit], [strconv] and [sort] are not
    part of [src/].

    ** The development, file by file

    - [Prelude] (this file): what every component shares.  A Go [error] is
      the inductive [error]; a 64-bit unsigned integer is a [Z] reduced by
      [wrap64], a signed one is obtained with [int64_of_uint64] and negated
      with [neg64]; an access [s[i]] is [slice_index] and a store is
      [slice_store], both [None] where Go panics, and [slice_swap] is the
      exchange of two cells; a logrus call is a [LogEntry].  Effectful code is written in the state monad
      [Go S A = S -> A * S] with the notation [x <- c ;; k] of the scope
      [go_scope], and [for_range] is Go's [for _, x := range].  The hint
      database [go] and the tactics [go_step] and [go_case] serve the
      routine cases.
    - [Strconv]: [strconv.ParseUint] and [strconv.ParseInt], from the
      library's text.  The loop keeps its accumulator at 64 bits behind the
      library's two overflow guards; [ParseUint_loop_exact] shows that the
      guards make the wrapped arithmetic exact, and [ParseInt_outcome] gives
      the value and the error on every branch.
    - [Sort], [HeapSort], [QuickSort]: the package [sort] of the Go library,
      from the text of its [sort.go].  [Sort] has [sort.Interface] as a
      class, the programs over a value of it as the monad [sort.Sorter]
      (the data as state, [None] for a panic, the lines [Less] logs as
      output) with the loops [for_index], [while_index] and [loop_until],
      the library's [insertionSort], the class [sort.Lawful] (the contract
      between the sort and an implementation), the weakest precondition
      [sort.wp] with one rule per construct and the tactic [wp_step], and
      the predicates on a range of cells ([perm_on], [range],
      [sorted_on]).  [HeapSort] has [siftDown] and [heapSort] with the heap
      invariant [heap_on]; [QuickSort] has [medianOfThree], [doPivot] with
      its scans and its three loops, the pass of ShellSort, [quickSort]
      with its depth budget [maxDepth], and [Sort].  Each is proved totally
      correct against the contract: it returns, without a panic, the cells
      of its range permuted and sorted ([insertionSort_range],
      [heapSort_sorts], [doPivot_spec], [quickSort_rec_spec],
      [Sort_sorts]); [Sort_isort] is the equivalence with the reference
      sort [isort] of a list.
    - [RedditIdSlice]: [Len], [Less], [Swap] (lines 171-198), the index
      panics as [None], the lines [Less] logs as part of its result.
      Theorems: [Less] is a strict weak order on any slice; it orders
      well-formed ids by their number; an id that overflows sorts first and
      an id with a syntax error as [0]; the number compared is always an
      [int64]; [Swap] exchanges two cells, is a permutation and its own
      inverse; both methods panic exactly on an index out of range.
      [RedditIdSlice] is an instance of [sort.Interface] and keeps the
      contract ([RedditIdSlice_Lawful]); the theorems of the sort are then
      theorems on ids: [sort.Sort] returns the ids newest first
      ([sort_ids_newest_first]), it agrees with a plain insertion sort
      when no two ids decode to the same number and not otherwise
      ([Sort_ids_insertionSort], [Sort_ids_not_stable]), [quickSort]
      returns for every depth ([quickSort_ids_terminates]) and [doPivot]
      cuts a range in three ([doPivot_ids_partitions]).
    - [Collaborators]: the records of the external packages with the fields
      the source reads or writes; one class per package ([Common],
      [GoStrings], [Redis], [Discord], [Environ], [RedditLib], [RedisPool],
      [Fetcher]) with the calls the source makes, of whose answers nothing
      is assumed; the [World], an environment and the trace of the [Event]s
      the program caused; the class [Traced] of the computations that only
      add to the trace, with its instances and the tactic [solve_traced];
      [Sim], a concrete environment on which the theorems are instantiated.
    - [HandlePost]: [handlePost] (lines 91-169) and its pieces
      [configKey], [resolveChannel], [containsChannel], [addChannel],
      [collectChannels], [buildEmbed], [sendEmbed], [sendEmbeds].  Theorems:
      the destinations are duplicate free and are the first occurrences of
      the resolved channels ([collectChannels_refines]); with a successful
      look-up there is one send per destination, in order, whatever the
      sends return ([handlePost_delivers]); each failed send is logged and
      none stops the loop; the result on the error path and without
      subscribers; the embed determines the id, the author, the subreddit
      and the kind of its post ([buildEmbed_inj]).
    - [RunBot]: lines 18-23, 33-41 and 43-89.  [runBot_start] is the code
      before the loop, [tick] the body after the [select], [runBot_loop] the
      loop over the list of the signals its [select] receives ([SigTick],
      [SigStop wg]); a loop that has consumed its signals is [Running], that
      is blocked in the [select].  The same loop is the relation [step].
      Theorems: the function computes the relation
      ([runBot_loop_refines_step]); a stop request is served between ticks
      and acknowledged once; a tick delivers every fetched post once to each
      destination when the subscriptions are stable ([tick_delivers]); a
      failed fetch is logged and skipped; every send of a run carries a post
      fetched earlier in the run ([runBot_sends_fetched], through the
      executable check [justified]); the start of the loop with and without
      redis and with stored ids.
    - [Protocol]: the order of the calls of a run of [runBot] as a monitor
      of its trace.  [monitor] reads a trace event by event and computes
      from the answers the events carry what may come next: the client of
      redis, the stored ids, the ticker, then for each tick one call of the
      fetcher, for each post one look-up and one send per destination, the
      log line of each failure, and the acknowledgement of a stop between
      two ticks.  Theorems: every trace of [runBot] is accepted and leaves
      the monitor in the mode of the state of the loop
      ([runBot_trace_conforms]); the sends of an accepted trace are
      justified ([monitor_sound]).
    - [Plugin]: [StartFeed] and [StopFeed] (lines 25-31), coarsely.  The
      plugin is the world, the goroutines started and the callers blocked
      in [StopFeed]; [pstep] is its labelled step relation and
      [plugin_step] the same as a function.  A step of a goroutine is a
      whole iteration of its loop, and the receive of a wait group is one
      step with its [Done]: this is an abstraction of the program, whose
      goroutines interleave everywhere, and the file only states what does
      not depend on it: [StopFeed] blocks when no feed runs
      ([StopFeed_blocks_without_feed]).  [Feed] is the plugin without the
      abstraction and simulates this one.
    - [Goroutine]: [runBot], [getLastIds] and [handlePost] once more, cut
      at every call of a collaborator.  A goroutine is at a program point
      [Pc] that holds its live variables; [goroutine_step] makes the call
      at that point, which is one event, and [goroutine_recv] is the
      [select].  Theorems: the steps from a tick to the [select] are
      [tick] and are as many as its events; a goroutine given its signals
      computes [runBot] ([goroutine_refines_runBot]); each step is a step
      of the monitor of [Protocol]; the steps of a goroutine always end
      ([goroutine_terminates]); a goroutine acknowledges the wait group it
      holds and nothing else ([gstep_accounts]).
    - [Feed]: the plugin with its goroutines interleaved at every call.
      [fstep] is the relation of its moves (a call of [StartFeed] or
      [StopFeed], a step of a goroutine, a tick, the receipt of a wait
      group) and [feed_step] the same as a function; the feed records
      which goroutine caused each event.  Theorems, for every sequence of
      moves: the events of each goroutine follow the protocol
      ([feed_conforms]); every send carries a post fetched earlier in the
      trace ([feed_sends_fetched]); the steps of [Plugin] are moves of the
      feed ([feed_simulates_plugin]); every wait group passed to
      [StopFeed] is received in the order of the calls, held by the
      goroutine that received it or acknowledged once, and each
      acknowledgement is the return of one goroutine
      ([stop_requests_accounted]), while the acknowledgements need not come
      in the order of the calls ([stop_acks_out_of_order]); a goroutine in
      its loop can always be run to its [select] and serve a caller of
      [StopFeed] ([stop_can_be_served]).
    - [PostFetcher]: the fetcher, written from the specification of the
      repository (sections 4.1 and 6) and not from code:
      [computeNewItems], the poll that stores the updated ids, and the
      instance [PostFetcher_Fetcher] of the class [runBot] is written
      against; the header of the file lists the choices it makes where
      the specification leaves one.  Theorems: the window keeps the newest
      ids ([computeNewItems_keeps_newest]); the same snapshot gives
      nothing new against the updated ids when the window has room
      ([computeNewItems_idempotent]); a snapshot without a new item leaves
      a window as it is ([computeNewItems_nothing_new]); [updateLastSeen],
      the window computed with [sort.Sort] over [RedditIdSlice], refines
      the window of [computeNewItems] ([updateLastSeen_refines]).  The
      sections [delivery] and [restart] compose the files.  They assume an
      environment that behaves, and say how: the look-ups of
      subscriptions succeed and answer from one configuration, the
      listings of reddit have no id twice, the writes of the ids succeed
      and, for a restart, redis is reachable and returns the ids last
      written (the class [Persistent]).  Then, while the window has not
      overflowed, the sends of a run of [runBot_loop] are the deliveries
      of the fetched posts, each post is fetched once and no send occurs
      twice ([runBot_delivers_once]), and the same holds over a call of
      [runBot] stopped by [StopFeed] and a second call started from what
      the first has stored ([restart_no_redelivery]).  [Sim] is such an
      environment, on which the witnesses run.

    ** Bounds and recursion

    All integers of the program are 64 bits wide; [wrap64] and
    [int64_of_uint64] are the only places where a value is reduced, and the
    indices of a slice are in range or the access is a panic.  Every loop
    of the source ranges over a slice or a string and is a structural
    [Fixpoint] or a fold.  [runBot] does not terminate by itself:
    [runBot_loop] recurses on the signals received so far, and its result
    says whether the loop has returned.  [goroutine_run] takes the number
    of steps it may make and stops earlier where the goroutine blocks or
    ends; [goroutine_refines_runBot] shows that a fuel as large as the
    number of events of the trace is enough, and [tick_nsteps] that an
    iteration makes exactly as many steps as it has events.

    The loops of the package [sort] are not structural.  Each is written
    with [for_index], [while_index] or [loop_until], which take the number
    of iterations the loop may make, computed from its arguments where the
    loop is called: [b - a - 1] and [i - a] for the two loops of
    [insertionSort], [hi - lo] for [siftDown], the distance between the
    two indices for the scans and the two loops of [doPivot].  A loop that
    would go on after its bound returns [None], as a panic does; the
    theorems on these programs are total, so they show that the bounds are
    enough: the result is always [Some].  The loop of [quickSort] continues
    on one side of the pivot what its recursive call does on the other,
    both with the depth budget decremented: [quickSort_rec] is the two as
    one recursion on that budget, which [Sort] sets to [maxDepth n], twice
    the number of bits of [n] ([maxDepth_spec]); at depth [0] the source
    calls [heapSort].  The midpoint is written [int(uint(lo+hi) >> 1)], as
    the later releases with this quicksort have it, and computed at 64
    bits; the releases of the time of the program wrote [lo + (hi-lo)/2].
    [midpoint_spec] and [midpoint_early] show that both are
    [(lo + hi) / 2] for the indices of a slice, which is why the theorems on [doPivot], [quickSort] and [Sort]
    ask that the length of the slice is at most the largest [int64], as the
    length of every Go slice is.

    ** Not modelled

    The HTTP clients of reddit and Discord, redis, the ticker and logrus are
    the environment: their answers are the members of the classes of
    [Collaborators], and their effects are the events of the trace.
    [setupClient] is the record of the arguments it passes to the OAuth
    library; what the library does with them is not modelled.  That
    [common.MustGetRedisClient] panics when the pool has no client is its
    documented behaviour, not code of [src/].  [stopFeedChan], whose
    [make] is not in [src/], is the queue of the wait groups whose senders
    are blocked, oldest first.  A [sync.WaitGroup] is a name and [Done] an
    event: its counter, the panic of a counter below zero and the [Wait]
    of the caller of [StopFeed] are not modelled; [stop_requests_accounted]
    shows that every call of [Done] is for a wait group that was passed,
    and [acks_submseteq] that it is called at most as often as the wait
    group was passed.  The post fetcher is not code of [src/]: [PostFetcher] is
    a model of the specification, and the theorems that use it say so.  Of
    the package [sort] only what [sort.Sort] runs is modelled, the quicksort
    that the library had until Go 1.18 (median of three and ninther,
    heapsort at depth [0], insertion sort and one pass of ShellSort up to
    12 cells); [sort.Stable] and the pattern-defeating quicksort of later
    releases are not.  Goroutines are
    interleaved at the calls of the collaborators, which are the only
    accesses to what they share; the memory model of Go, the scheduler and
    the time at which the ticker fires are not modelled: a tick is a move
    that may happen whenever a goroutine is in its [select].  In [buildEmbed] the strings are sequences
    of bytes, as in Go. *)

From Stdlib Require Import ZArith Lia.
From stdpp Require Import base tactics option list strings.

#[local] Open Scope Z_scope.

(** ** Go errors *)

(** The [Err] field of a [*strconv.NumError]. *)
Inductive ErrKind : Type :=
| ErrSyntax
| ErrRange
| ErrBase (base : Z).

(** A Go [error] value that is not [nil]; [nil] is [None] of [option error]. *)
Inductive error : Type :=
| NumError (func num : string) (err : ErrKind)
| ExtError (msg : string).

#[export] Instance ErrKind_eq_dec : EqDecision ErrKind.
Proof. solve_decision. Defined.

#[export] Instance error_eq_dec : EqDecision error.
Proof. solve_decision. Defined.

(** ** Machine integers *)

Definition maxUint64 : Z := 2 ^ 64 - 1.
Definition maxInt64 : Z := 2 ^ 63 - 1.
Definition minInt64 : Z := - 2 ^ 63.

(** Arithmetic on [uint64] is modulo [2 ^ 64]. *)
Definition wrap64 (z : Z) : Z := z mod 2 ^ 64.

(** The conversion [int64(u)] of a [uint64]. *)
Definition int64_of_uint64 (u : Z) : Z :=
  if u <? 2 ^ 63 then u else u - 2 ^ 64.

(** The conversion [uint64(n)] of an [int64]. *)
Definition uint64_of_int64 (n : Z) : Z := wrap64 n.

(** Unary minus on [int64]: [- minInt64] is [minInt64]. *)
Definition neg64 (n : Z) : Z := int64_of_uint64 (wrap64 (- n)).

Definition is_uint64 (z : Z) : Prop := 0 <= z <= maxUint64.
Definition is_int64 (z : Z) : Prop := minInt64 <= z <= maxInt64.

(** The value of a byte of a Go string. *)
Definition byte_val (c : Ascii.ascii) : Z := Z.of_N (Ascii.N_of_ascii c).

(** ** Slices *)

(** [s[i]] for an [int] index: [None] is the run-time panic. *)
Definition slice_index {A : Type} (s : list A) (i : Z) : option A :=
  if bool_decide (0 <= i < Z.of_nat (length s)) then s !! Z.to_nat i else None.

(** [s[i] = x]: [None] is the run-time panic. *)
Definition slice_store {A : Type} (s : list A) (i : Z) (x : A) : option (list A) :=
  if bool_decide (0 <= i < Z.of_nat (length s)) then Some (<[Z.to_nat i := x]> s)
  else None.

(** The two stores [s[i], s[j] = s[j], s[i]] of an exchange of cells. *)
Definition slice_swap {A : Type} (s : list A) (i j : Z) : list A :=
  match slice_index s i, slice_index s j with
  | Some x, Some y => <[Z.to_nat j := x]> (<[Z.to_nat i := y]> s)
  | _, _ => s
  end.

(** ** Log lines *)

Inductive Level : Type := ErrorLevel | InfoLevel.

Inductive FieldVal : Type :=
| FStr (s : string)
| FInt (n : Z).

(** One call of logrus: [WithError(err)] and [WithFields(...)] fill
    [log_err] and [log_fields]. *)
Record LogEntry : Type := mkLog {
  log_level : Level;
  log_msg : string;
  log_err : option error;
  log_fields : list (string * FieldVal)
}.

#[export] Instance Level_eq_dec : EqDecision Level.
Proof. solve_decision. Defined.

#[export] Instance FieldVal_eq_dec : EqDecision FieldVal.
Proof. solve_decision. Defined.

#[export] Instance LogEntry_eq_dec : EqDecision LogEntry.
Proof. solve_decision. Defined.

(** [logrus.WithError(err).Error(msg)]. *)
Definition log_error (err : error) (msg : string) : LogEntry :=
  mkLog ErrorLevel msg (Some err) [].

(** [logrus.Info(msg)]. *)
Definition log_info (msg : string) : LogEntry :=
  mkLog InfoLevel msg None [].

(** ** The state monad of effectful Go code *)

Definition Go (S A : Type) : Type := S -> A * S.

Definition ret {S A : Type} (a : A) : Go S A := fun s => (a, s).

Definition bind {S A B : Type} (c : Go S A) (k : A -> Go S B) : Go S B :=
  fun s => let '(a, s') := c s in k a s'.

(** [for _, x := range l { body x }]. *)
Fixpoint for_range {S A : Type} (l : list A) (body : A -> Go S unit) : Go S unit :=
  match l with
  | [] => ret tt
  | x :: l' => bind (body x) (fun _ => for_range l' body)
  end.

Declare Scope go_scope.
Delimit Scope go_scope with go.

Notation "x <- c ;; k" := (bind c (fun x => k))
  (at level 100, c at next level, right associativity) : go_scope.
Notation "c ;; k" := (bind c (fun _ => k))
  (at level 100, right associativity) : go_scope.

(** ** Automation *)

Create HintDb go discriminated.
Create Rewrite HintDb go.

(** Linear arithmetic with the divisions of Go by a constant. *)
Ltac div_lia := Z.div_mod_to_equations; Z.quot_rem_to_equations; lia.

(** Two hypotheses that read the same cell of a slice read the same value. *)
Lemma slice_index_inj {A : Type} (s : list A) (i j : Z) (x y : A) :
  slice_index s i = Some x -> slice_index s j = Some y -> j = i -> y = x.
Proof. intros Hi Hj ->. congruence. Qed.

Ltac same_cells :=
  repeat match goal with
  | H1 : slice_index ?l ?i = Some ?x, H2 : slice_index ?l ?j = Some ?y |- _ =>
    lazymatch x with y => fail | _ => idtac end;
    let E := fresh in
    assert (y = x) as E by (apply (slice_index_inj l i j x y H1 H2); lia);
    simplify_eq
  end.

(** Case analysis on the guard of the innermost [if] or [match] of the goal. *)
Ltac go_case :=
  match goal with
  | |- context [bool_decide ?P] => destruct (bool_decide_reflect P)
  | |- context [if ?b then _ else _] => destruct b eqn:?
  | |- context [match ?x with _ => _ end] => destruct x eqn:?
  end.

(** One step of a monadic computation. *)
Ltac go_step :=
  unfold bind, ret in *; simpl in *;
  repeat match goal with
  | H : (_, _) = (_, _) |- _ => injection H as ? ?; subst
  | H : context [let '(_, _) := ?c in _] |- _ => destruct c eqn:?; simpl in H
  | |- context [let '(_, _) := ?c in _] => destruct c eqn:?; simpl
  end.

(** ** Lemmas on machine integers *)

Lemma wrap64_range z : 0 <= wrap64 z <= maxUint64.
Proof. unfold wrap64, maxUint64. pose proof (Z.mod_pos_bound z (2 ^ 64)). lia. Qed.

Lemma wrap64_small z : 0 <= z <= maxUint64 -> wrap64 z = z.
Proof. unfold wrap64, maxUint64. intros. apply Z.mod_small. lia. Qed.

Lemma wrap64_idemp z : wrap64 (wrap64 z) = wrap64 z.
Proof. apply wrap64_small, wrap64_range. Qed.

Lemma int64_of_uint64_range u : is_uint64 u -> is_int64 (int64_of_uint64 u).
Proof.
  unfold is_uint64, is_int64, int64_of_uint64, maxUint64, minInt64, maxInt64.
  intros. destruct (Z.ltb_spec u (2 ^ 63)); lia.
Qed.

Lemma int64_of_uint64_small u : 0 <= u <= maxInt64 -> int64_of_uint64 u = u.
Proof.
  unfold int64_of_uint64, maxInt64. intros.
  destruct (Z.ltb_spec u (2 ^ 63)); lia.
Qed.

Lemma uint64_of_int64_of_uint64 u :
  is_uint64 u -> uint64_of_int64 (int64_of_uint64 u) = u.
Proof.
  unfold is_uint64, uint64_of_int64, int64_of_uint64, wrap64, maxUint64. intros.
  destruct (Z.ltb_spec u (2 ^ 63)).
  - apply Z.mod_small. lia.
  - replace (u - 2 ^ 64) with (u + (-1) * 2 ^ 64) by lia.
    rewrite Z.mod_add by lia. apply Z.mod_small. lia.
Qed.

Lemma neg64_range n : is_int64 (neg64 n).
Proof. apply int64_of_uint64_range, wrap64_range. Qed.

Lemma neg64_exact n : minInt64 < n <= maxInt64 -> neg64 n = - n.
Proof.
  unfold neg64, int64_of_uint64, wrap64, minInt64, maxInt64. intros.
  destruct (Z.eq_dec n 0) as [->|]; [reflexivity|].
  destruct (Z_lt_le_dec n 0).
  - rewrite Z.mod_small by lia. destruct (Z.ltb_spec (- n) (2 ^ 63)); lia.
  - replace (- n) with (2 ^ 64 - n + (-1) * 2 ^ 64) by lia.
    rewrite Z.mod_add by lia. rewrite Z.mod_small by lia.
    destruct (Z.ltb_spec (2 ^ 64 - n) (2 ^ 63)); lia.
Qed.

Lemma neg64_minInt64 : neg64 minInt64 = minInt64.
Proof. reflexivity. Qed.

Lemma ltb_bool_decide (x y : Z) : (x <? y) = bool_decide (x < y).
Proof.
  destruct (Z.ltb_spec x y).
  - by rewrite bool_decide_true.
  - rewrite bool_decide_false; [done|lia].
Qed.

Lemma byte_val_range c : 0 <= byte_val c < 256.
Proof.
  unfold byte_val. pose proof (Ascii.N_ascii_bounded c). lia.
Qed.

(** ** Lemmas on strings *)

Lemma string_app_cons c s1 s2 : String c s1 +:+ s2 = String c (s1 +:+ s2).
Proof. reflexivity. Qed.

Lemma string_app_assoc s1 s2 s3 : (s1 +:+ s2) +:+ s3 = s1 +:+ (s2 +:+ s3).
Proof.
  induction s1 as [|c s1 IH]; [done|]. by rewrite !string_app_cons, IH.
Qed.

Lemma string_app_nil_r s : s +:+ "" = s.
Proof.
  induction s as [|c s IH]; [done|]. by rewrite string_app_cons, IH.
Qed.

Lemma string_app_length s1 s2 :
  String.length (s1 +:+ s2) = (String.length s1 + String.length s2)%nat.
Proof.
  induction s1 as [|c s1 IH]; [done|]. rewrite string_app_cons. simpl. by rewrite IH.
Qed.

(** ** Lemmas on slices *)

Section slices.
Context {A : Type}.
Implicit Types (s : list A) (i j : Z) (x : A).

Lemma slice_index_Some s i x :
  slice_index s i = Some x <->
  0 <= i < Z.of_nat (length s) /\ s !! Z.to_nat i = Some x.
Proof.
  unfold slice_index. go_case; [tauto|].
  split; [discriminate|tauto].
Qed.

Lemma slice_index_None s i :
  slice_index s i = None <-> ~ (0 <= i < Z.of_nat (length s)).
Proof.
  unfold slice_index. go_case.
  - split; [|done]. intros Hn. apply lookup_ge_None in Hn. lia.
  - done.
Qed.

Lemma slice_index_is_Some s i :
  is_Some (slice_index s i) <-> 0 <= i < Z.of_nat (length s).
Proof.
  rewrite <- not_eq_None_Some, slice_index_None.
  destruct (decide (0 <= i < Z.of_nat (length s))); tauto.
Qed.

Lemma slice_index_nat s (n : nat) : slice_index s (Z.of_nat n) = s !! n.
Proof.
  unfold slice_index. rewrite Nat2Z.id. go_case; [done|].
  symmetry. apply lookup_ge_None. lia.
Qed.

Lemma slice_ext s s' : (forall i, slice_index s i = slice_index s' i) -> s = s'.
Proof.
  intros H. apply list_eq. intros n. specialize (H (Z.of_nat n)).
  by rewrite !slice_index_nat in H.
Qed.

Lemma slice_store_Some s i x s' :
  slice_store s i x = Some s' <->
  0 <= i < Z.of_nat (length s) /\ s' = <[Z.to_nat i := x]> s.
Proof.
  unfold slice_store. go_case.
  - split; [intros [= <-]; done|intros [_ ->]; done].
  - split; [discriminate|tauto].
Qed.

Lemma slice_store_length s i x s' :
  slice_store s i x = Some s' -> length s' = length s.
Proof. rewrite slice_store_Some. intros [_ ->]. apply length_insert. Qed.

Lemma slice_index_insert_eq s i x :
  0 <= i < Z.of_nat (length s) -> slice_index (<[Z.to_nat i := x]> s) i = Some x.
Proof.
  intros Hi. unfold slice_index. rewrite length_insert, bool_decide_true by done.
  apply list_lookup_insert_eq. lia.
Qed.

Lemma slice_index_insert_ne s i k x :
  0 <= i -> k <> i -> slice_index (<[Z.to_nat i := x]> s) k = slice_index s k.
Proof.
  intros Hi Hk. unfold slice_index. rewrite length_insert. go_case; [|done].
  apply list_lookup_insert_ne. lia.
Qed.

Lemma slice_index_middle pre x post i :
  i = Z.of_nat (length pre) -> slice_index (pre ++ x :: post) i = Some x.
Proof.
  intros ->. rewrite slice_index_nat. by apply list_lookup_middle.
Qed.

Lemma insert_middle pre x post n y :
  n = length pre -> <[n := y]> (pre ++ x :: post) = pre ++ y :: post.
Proof.
  intros ->. by rewrite <- (Nat.add_0_r (length pre)), insert_app_r.
Qed.

(** Two stores that exchange adjacent cells. *)
Lemma swap_adjacent pre x y post n :
  n = length pre ->
  <[n := y]> (<[S n := x]> (pre ++ x :: y :: post)) = pre ++ y :: x :: post.
Proof.
  intros ->. rewrite <- (Nat.add_1_r (length pre)), insert_app_r. simpl.
  by apply insert_middle.
Qed.

Lemma slice_swap_length s i j : length (slice_swap s i j) = length s.
Proof.
  unfold slice_swap. repeat case_match; by rewrite ?length_insert.
Qed.

Lemma slice_swap_perm s i j : slice_swap s i j ≡ₚ s.
Proof.
  unfold slice_swap.
  destruct (slice_index s i) as [x|] eqn:Hi; [|done].
  destruct (slice_index s j) as [y|] eqn:Hj; [|done].
  apply slice_index_Some in Hi as [_ Hi], Hj as [_ Hj].
  by apply Permutation_insert_swap.
Qed.

(** The cell [k] after an exchange of the cells [i] and [j]. *)
Lemma slice_swap_lookup s i j k :
  0 <= i < Z.of_nat (length s) -> 0 <= j < Z.of_nat (length s) ->
  slice_index (slice_swap s i j) k =
    if decide (k = j) then slice_index s i
    else if decide (k = i) then slice_index s j else slice_index s k.
Proof.
  intros Hi Hj. unfold slice_swap.
  destruct (proj2 (slice_index_is_Some s i) Hi) as [x Hx].
  destruct (proj2 (slice_index_is_Some s j) Hj) as [y Hy]. rewrite Hx, Hy.
  destruct (decide (k = j)) as [->|].
  { rewrite slice_index_insert_eq; [done|]. by rewrite length_insert. }
  rewrite slice_index_insert_ne by lia.
  destruct (decide (k = i)) as [->|]; [by apply slice_index_insert_eq|].
  by apply slice_index_insert_ne; lia.
Qed.

End slices.

(** ** Lemmas on lists *)

Section lists.
Context {A : Type}.
Implicit Types (l : list A) (P Q : A -> Prop).

Lemma filter_ext_in P Q `{!forall x, Decision (P x), !forall x, Decision (Q x)} l :
  (forall x, x ∈ l -> P x <-> Q x) -> filter P l = filter Q l.
Proof.
  induction l as [|x l IH]; intros Heq; [done|].
  rewrite !filter_cons, IH by (intros y Hy; apply Heq; by right).
  pose proof (Heq x ltac:(by left)).
  destruct (decide (P x)), (decide (Q x)); done || tauto.
Qed.

Lemma NoDup_fmap_filter {B} (f : A -> B) (P : A -> Prop) `{forall x, Decision (P x)} l :
  NoDup (f <$> l) -> NoDup (f <$> filter P l).
Proof.
  induction l as [|x l IH]; [done|]. rewrite fmap_cons, filter_cons, NoDup_cons.
  intros [Hx Hl]. case_decide; [|by apply IH]. rewrite fmap_cons. constructor; [|by apply IH].
  rewrite list_elem_of_fmap in *. intros (y & Hy & [_ Hin]%list_elem_of_filter).
  apply Hx. eauto.
Qed.

Lemma NoDup_fmap_inj_on {B} (f : A -> B) l x y :
  NoDup (f <$> l) -> x ∈ l -> y ∈ l -> f x = f y -> x = y.
Proof.
  induction l as [|z l IH]; [by intros _ ?%elem_of_nil|].
  rewrite fmap_cons, NoDup_cons, list_elem_of_fmap.
  intros [Hz Hl] [->|Hx]%elem_of_cons [->|Hy]%elem_of_cons Heq; eauto.
  - destruct Hz. eauto.
  - destruct Hz. eauto.
Qed.

Lemma filter_all P `{!forall x, Decision (P x)} l :
  (forall x, x ∈ l -> P x) -> filter P l = l.
Proof.
  induction l as [|x l IH]; intros Hall; [done|].
  rewrite filter_cons_True by (apply Hall; by left).
  f_equal. apply IH. intros y Hy. apply Hall. by right.
Qed.

(** Replacing a cell: what a partial map collects from the list, and how
    many cells satisfy a predicate. *)
Lemma omap_insert_perm {B} (f : A -> option B) l k x y :
  l !! k = Some x ->
  omap f (<[k := y]> l) ++ option_list (f x) ≡ₚ omap f l ++ option_list (f y).
Proof.
  revert k. induction l as [|a l IH]; intros [|k] Hk; simplify_eq/=.
  - destruct (f x), (f y); simpl; rewrite ?app_nil_r; try done.
    + rewrite <- !Permutation_cons_append. apply perm_swap.
    + by rewrite <- Permutation_cons_append.
    + by rewrite <- Permutation_cons_append.
  - destruct (f a); simpl; [f_equiv|]; by apply IH.
Qed.

Lemma length_filter_insert P `{!forall x, Decision (P x)} l k x y :
  l !! k = Some x ->
  (length (filter P (<[k := y]> l)) + (if decide (P x) then 1 else 0) =
   length (filter P l) + (if decide (P y) then 1 else 0))%nat.
Proof.
  revert k. induction l as [|a l IH]; intros [|k] Hk; simplify_eq/=.
  - rewrite !filter_cons. destruct (decide (P x)), (decide (P y)); simpl; lia.
  - specialize (IH _ Hk). rewrite !filter_cons. destruct (decide (P a)); simpl; lia.
Qed.

End lists.

(** ** Lemmas on the monad *)

Section monad.
Context {S : Type}.

Lemma bind_ret_l {A B} (a : A) (k : A -> Go S B) s : bind (ret a) k s = k a s.
Proof. reflexivity. Qed.

Lemma bind_assoc {A B C} (c : Go S A) (k : A -> Go S B) (h : B -> Go S C) s :
  bind (bind c k) h s = bind c (fun a => bind (k a) h) s.
Proof. unfold bind. destruct (c s). reflexivity. Qed.

(** The state after a range loop is the fold of the body's state change. *)
Lemma for_range_foldl {A} (l : list A) (body : A -> Go S unit) s :
  for_range l body s = (tt, foldl (fun s x => snd (body x s)) s l).
Proof.
  revert s. induction l as [|x l IH]; intros s; simpl; [reflexivity|].
  unfold bind. destruct (body x s) as [[] s1]. simpl. apply IH.
Qed.

Lemma for_range_app {A} (l1 l2 : list A) (body : A -> Go S unit) s :
  for_range (l1 ++ l2) body s =
  bind (for_range l1 body) (fun _ => for_range l2 body) s.
Proof.
  unfold bind. rewrite !for_range_foldl, foldl_app. reflexivity.
Qed.

End monad.

#[export] Hint Resolve wrap64_range neg64_range : go.
#[export] Hint Rewrite wrap64_idemp string_app_assoc string_app_nil_r : go.
#[export] Hint Rewrite @slice_index_nat : go.
