(* ===== verification/Strconv.v ===== *)
(** * [strconv.ParseUint] and [strconv.ParseInt]

    The two functions of the Go library that [RedditIdSlice.Less] calls.
    The model follows the library's code: the digit switch, the syntax
    check, the two overflow guards of the accumulation loop on a 64-bit
    accumulator, the sign handling and the signed cutoff of [ParseInt].
    [parse_ref] is the reference on unbounded integers; the theorems show
    that the machine-width loop computes it, and give the result of
    [ParseInt] on every branch. *)

From Stdlib Require Import ZArith Lia Ascii.
From stdpp Require Import base tactics option list strings.
From S2P Require Import Prelude.

#[local] Open Scope Z_scope.

(** ** The functions *)

(** The switch on the byte [d] in the loop of [ParseUint]:
    ['0'..'9'] is [d - '0'], ['a'..'z'] is [d - 'a' + 10], ['A'..'Z'] is
    [d - 'A' + 10], anything else is a syntax error ([None]). *)
Definition digit_val (d : Ascii.ascii) : option Z :=
  let c := byte_val d in
  if (48 <=? c) && (c <=? 57) then Some (c - 48)
  else if (97 <=? c) && (c <=? 122) then Some (c - 97 + 10)
  else if (65 <=? c) && (c <=? 90) then Some (c - 65 + 10)
  else None.

(** The loop of [ParseUint] from the accumulator [n]: the result and the
    error kind it leaves the loop with. *)
Fixpoint ParseUint_loop (base cutoff maxVal : Z) (s : string) (n : Z)
  : Z * option ErrKind :=
  match s with
  | EmptyString => (n, None)
  | String d s' =>
    match digit_val d with
    | None => (0, Some ErrSyntax)
    | Some v =>
      if base <=? v then (0, Some ErrSyntax)
      else if cutoff <=? n then (maxUint64, Some ErrRange)
      else
        let n := wrap64 (n * base) in
        let n1 := wrap64 (n + v) in
        if (n1 <? n) || (maxVal <? n1) then (maxUint64, Some ErrRange)
        else ParseUint_loop base cutoff maxVal s' n1
    end
  end.

(** The prefix switch of base 0: ["0x"] and ["0X"] select base 16 and skip
    two bytes, a leading ["0"] selects base 8 and skips one, anything else is
    base 10.  [None] is the syntax error of a bare ["0x"]. *)
Definition base_prefix (s : string) : option (Z * string) :=
  match s with
  | String "0"%char (String c rest) =>
    if bool_decide (c = "x"%char \/ c = "X"%char) then
      match rest with
      | EmptyString => None
      | _ => Some (16, rest)
      end
    else Some (8, String c rest)
  | String "0"%char EmptyString => Some (8, EmptyString)
  | _ => Some (10, s)
  end.

(** [maxVal = 1<<uint(bitSize) - 1] on [uint64]: the shift wraps to [0] when
    [bitSize] is 64. *)
Definition maxVal_of (bitSize : Z) : Z :=
  wrap64 (wrap64 (Z.shiftl 1 bitSize) - 1).

(** [strconv.ParseUint(s, base, bitSize)] up to the wrapping of the error
    kind into a [*NumError]. *)
Definition ParseUint_kind (s : string) (base bitSize : Z) : Z * option ErrKind :=
  let bitSize := if bitSize =? 0 then 64 else bitSize in
  let run base digits :=
    ParseUint_loop base (maxUint64 / base + 1) (maxVal_of bitSize) digits 0 in
  match s with
  | EmptyString => (0, Some ErrSyntax)
  | _ =>
    if (2 <=? base) && (base <=? 36) then run base s
    else if base =? 0 then
      match base_prefix s with
      | None => (0, Some ErrSyntax)
      | Some (base, digits) => run base digits
      end
    else (0, Some (ErrBase base))
  end.

(** [strconv.ParseUint(s, base, bitSize)]. *)
Definition ParseUint (s : string) (base bitSize : Z) : Z * option error :=
  let '(n, k) := ParseUint_kind s base bitSize in
  (n, NumError "ParseUint" s <$> k).

(** The end of [ParseInt]: the unsigned value [un] against the signed
    cutoff [1 << (bitSize-1)], the conversion to [int64] and the sign. *)
Definition ParseInt_signed (s0 : string) (neg : bool) (bitSize un : Z)
  : Z * option error :=
  let cutoff := wrap64 (Z.shiftl 1 (bitSize - 1)) in
  if negb neg && (cutoff <=? un) then
    (int64_of_uint64 (wrap64 (cutoff - 1)), Some (NumError "ParseInt" s0 ErrRange))
  else if neg && (cutoff <? un) then
    (neg64 (int64_of_uint64 cutoff), Some (NumError "ParseInt" s0 ErrRange))
  else
    let n := int64_of_uint64 un in
    (if neg then neg64 n else n, None).

(** [strconv.ParseInt(s, base, bitSize)]. *)
Definition ParseInt (s : string) (base bitSize : Z) : Z * option error :=
  let bitSize := if bitSize =? 0 then 64 else bitSize in
  match s with
  | EmptyString => (0, Some (NumError "ParseInt" s ErrSyntax))
  | String c rest =>
    let neg := bool_decide (c = "-"%char) in
    let s1 := if bool_decide (c = "+"%char \/ c = "-"%char) then rest else s in
    let '(un, err) := ParseUint_kind s1 base bitSize in
    match err with
    | Some k =>
      if bool_decide (k <> ErrRange) then (0, Some (NumError "ParseInt" s k))
      else ParseInt_signed s neg bitSize un
    | None => ParseInt_signed s neg bitSize un
    end
  end.

(** ** The reference on unbounded integers *)

(** The loop without wrap-around: a digit that is no digit of the base is a
    syntax error, a value above [maxVal] a range error, whichever comes first
    in the string. *)
Fixpoint parse_ref (base maxVal : Z) (s : string) (n : Z) : Z * option ErrKind :=
  match s with
  | EmptyString => (n, None)
  | String d s' =>
    match digit_val d with
    | None => (0, Some ErrSyntax)
    | Some v =>
      if base <=? v then (0, Some ErrSyntax)
      else if maxVal <? n * base + v then (maxUint64, Some ErrRange)
      else parse_ref base maxVal s' (n * base + v)
    end
  end.

(** A string whose bytes are all digits of the base. *)
Fixpoint all_digits (base : Z) (s : string) : bool :=
  match s with
  | EmptyString => true
  | String d s' =>
    match digit_val d with
    | Some v => (v <? base) && all_digits base s'
    | None => false
    end
  end.

(** The number a digit string denotes, from the accumulator [n]. *)
Fixpoint digits_value (base : Z) (s : string) (n : Z) : Z :=
  match s with
  | EmptyString => n
  | String d s' => digits_value base s' (n * base + default 0 (digit_val d))
  end.

(** ** Digits *)

Lemma digit_val_range d v : digit_val d = Some v -> 0 <= v < 36.
Proof.
  unfold digit_val. pose proof (byte_val_range d).
  repeat go_case; intros [= <-]; lia.
Qed.

Lemma maxVal_of_64 : maxVal_of 64 = maxUint64.
Proof. reflexivity. Qed.

Lemma maxVal_of_range bitSize : 0 <= maxVal_of bitSize <= maxUint64.
Proof. apply wrap64_range. Qed.

(** ** The overflow guards are exact *)

Section loop.
Context (base maxVal : Z).
Context (Hbase : 2 <= base <= 36) (HmaxVal : 0 <= maxVal <= maxUint64).

Lemma cutoff_spec n :
  0 <= n -> (maxUint64 / base + 1 <=? n) = (maxUint64 <? n * base).
Proof.
  intros Hn. unfold maxUint64.
  destruct (Z.leb_spec ((2 ^ 64 - 1) / base + 1) n);
    destruct (Z.ltb_spec (2 ^ 64 - 1) (n * base)); try reflexivity;
    exfalso; Z.div_mod_to_equations; nia.
Qed.

(** One iteration: the two tests on wrapped values decide whether the exact
    value exceeds [maxVal]. *)
Lemma guards_exact n v :
  0 <= n <= maxUint64 -> 0 <= v < base ->
  (maxUint64 / base + 1 <=? n) = false ->
  let m := wrap64 (n * base) in
  let n1 := wrap64 (m + v) in
  ((n1 <? m) || (maxVal <? n1)) = (maxVal <? n * base + v) /\
  (n * base + v <= maxVal -> n1 = n * base + v).
Proof.
  intros Hn Hv Hcut. rewrite cutoff_spec in Hcut by lia.
  apply Z.ltb_ge in Hcut. cbv zeta.
  rewrite (wrap64_small (n * base)) by nia.
  unfold wrap64, maxUint64 in *.
  destruct (Z_le_gt_dec (n * base + v) (2 ^ 64 - 1)).
  - rewrite Z.mod_small by nia. split; [|done].
    destruct (Z.ltb_spec (n * base + v) (n * base)); [lia|]. done.
  - replace (n * base + v) with (n * base + v - 2 ^ 64 + 1 * 2 ^ 64) at 1 2 by lia.
    rewrite Z.mod_add by lia. rewrite Z.mod_small by lia.
    split; [|lia].
    destruct (Z.ltb_spec (n * base + v - 2 ^ 64) (n * base)); [|lia].
    destruct (Z.ltb_spec maxVal (n * base + v)); [done|lia].
Qed.

Lemma ParseUint_loop_exact s n :
  0 <= n <= maxVal ->
  ParseUint_loop base (maxUint64 / base + 1) maxVal s n = parse_ref base maxVal s n.
Proof.
  revert n. induction s as [|d s IH]; intros n Hn; simpl; [done|].
  destruct (digit_val d) as [v|] eqn:Hd; [|done].
  pose proof (digit_val_range _ _ Hd).
  destruct (Z.leb_spec base v); [done|].
  destruct (maxUint64 / base + 1 <=? n) eqn:Hcut.
  - rewrite cutoff_spec in Hcut by lia. apply Z.ltb_lt in Hcut.
    destruct (Z.ltb_spec maxVal (n * base + v)); [done|lia].
  - destruct (guards_exact n v) as [-> Hn1]; [lia..|done|].
    destruct (Z.ltb_spec maxVal (n * base + v)); [done|].
    rewrite Hn1 by lia. apply IH. nia.
Qed.

Lemma digits_value_ge s n : 0 <= n -> n <= digits_value base s n.
Proof.
  revert n. induction s as [|d s IH]; intros n Hn; simpl; [lia|].
  destruct (digit_val d) as [v|] eqn:Hd; simpl.
  - pose proof (digit_val_range _ _ Hd). etrans; [|apply IH]; nia.
  - etrans; [|apply IH]; nia.
Qed.

(** The reference on a string of digits: the number it denotes, or a range
    error when that number exceeds [maxVal]. *)
Lemma parse_ref_digits s n :
  0 <= n <= maxVal -> all_digits base s = true ->
  parse_ref base maxVal s n =
    if maxVal <? digits_value base s n then (maxUint64, Some ErrRange)
    else (digits_value base s n, None).
Proof.
  revert n. induction s as [|d s IH]; intros n Hn Hs; simpl in *.
  - destruct (Z.ltb_spec maxVal n); [lia|done].
  - destruct (digit_val d) as [v|] eqn:Hd; [|done]. simpl.
    pose proof (digit_val_range _ _ Hd).
    apply andb_prop in Hs as [Hv Hs]. apply Z.ltb_lt in Hv.
    destruct (Z.leb_spec base v); [lia|].
    destruct (Z.ltb_spec maxVal (n * base + v)); [|apply IH; [nia|done]].
    pose proof (digits_value_ge s (n * base + v)).
    destruct (Z.ltb_spec maxVal (digits_value base s (n * base + v))); [done|nia].
Qed.

(** The three ways the loop ends. *)
Inductive parse_outcome : Z * option ErrKind -> Prop :=
| po_ok v : 0 <= v <= maxVal -> parse_outcome (v, None)
| po_syntax : parse_outcome (0, Some ErrSyntax)
| po_range : parse_outcome (maxUint64, Some ErrRange).

Lemma parse_ref_outcome s n :
  0 <= n <= maxVal -> parse_outcome (parse_ref base maxVal s n).
Proof.
  revert n. induction s as [|d s IH]; intros n Hn; simpl.
  - by constructor.
  - destruct (digit_val d) as [v|] eqn:Hd; [|constructor].
    pose proof (digit_val_range _ _ Hd).
    destruct (Z.leb_spec base v); [constructor|].
    destruct (Z.ltb_spec maxVal (n * base + v)); [constructor|].
    apply IH. nia.
Qed.

(** A string with a byte that is no digit of the base never parses. *)
Lemma parse_ref_not_digits s n :
  all_digits base s = false -> (parse_ref base maxVal s n).2 <> None.
Proof.
  revert n. induction s as [|d s IH]; intros n Hs; simpl in *; [done|].
  destruct (digit_val d) as [v|] eqn:Hd; [|done].
  destruct (Z.leb_spec base v); [done|].
  destruct (Z.ltb_spec maxVal (n * base + v)); [done|].
  apply IH. destruct (Z.ltb_spec v base); [done|lia].
Qed.

End loop.

(** ** At 64 bits *)

Lemma ParseUint_kind_digits s base :
  2 <= base <= 36 -> s <> EmptyString ->
  ParseUint_kind s base 64 = parse_ref base maxUint64 s 0.
Proof.
  intros Hb Hs. unfold ParseUint_kind. destruct s as [|c s]; [done|].
  destruct (Z.leb_spec 2 base); [|lia]. destruct (Z.leb_spec base 36); [|lia].
  simpl andb. cbv iota. change (if 64 =? 0 then 64 else 64) with 64.
  rewrite maxVal_of_64. apply ParseUint_loop_exact; unfold maxUint64; lia.
Qed.

(** What [ParseUint] returns whatever the base: a value with no error, or
    one of the three errors with the value the library pairs it with. *)
Inductive uint_outcome : Z * option ErrKind -> Prop :=
| uo_parse r : parse_outcome maxUint64 r -> uint_outcome r
| uo_base b : uint_outcome (0, Some (ErrBase b)).

Lemma ParseUint_kind_outcome s base : uint_outcome (ParseUint_kind s base 64).
Proof.
  assert (H0 : 0 <= 0 <= maxUint64) by (unfold maxUint64; lia).
  assert (Hm : 0 <= maxUint64 <= maxUint64) by (unfold maxUint64; lia).
  unfold ParseUint_kind. change (if 64 =? 0 then 64 else 64) with 64.
  rewrite maxVal_of_64.
  destruct s as [|c s]; [apply uo_parse; constructor|].
  destruct (Z.leb_spec 2 base); simpl andb; cbv iota.
  - destruct (Z.leb_spec base 36).
    + rewrite ParseUint_loop_exact by lia.
      apply uo_parse, parse_ref_outcome; lia.
    + destruct (Z.eqb_spec base 0); [lia|]. apply uo_base.
  - destruct (Z.eqb_spec base 0); [|apply uo_base].
    destruct (base_prefix (String c s)) as [[b digits]|] eqn:Hp;
      [|apply uo_parse; constructor].
    assert (2 <= b <= 36).
    { unfold base_prefix in Hp. repeat case_match; simplify_eq; lia. }
    rewrite ParseUint_loop_exact by lia.
    apply uo_parse, parse_ref_outcome; lia.
Qed.

Lemma ParseInt_signed_64 s0 (neg : bool) un :
  0 <= un <= maxUint64 ->
  ParseInt_signed s0 neg 64 un =
    if neg then
      if 2 ^ 63 <? un then (minInt64, Some (NumError "ParseInt" s0 ErrRange))
      else (- un, None)
    else
      if 2 ^ 63 <=? un then (maxInt64, Some (NumError "ParseInt" s0 ErrRange))
      else (un, None).
Proof.
  intros Hun. unfold ParseInt_signed.
  change (wrap64 (Z.shiftl 1 (64 - 1))) with (2 ^ 63).
  change (int64_of_uint64 (wrap64 (2 ^ 63 - 1))) with maxInt64.
  change (neg64 (int64_of_uint64 (2 ^ 63))) with minInt64.
  unfold maxUint64 in Hun. destruct neg; simpl.
  - destruct (Z.ltb_spec (2 ^ 63) un); [done|]. f_equal.
    destruct (Z.eq_dec un (2 ^ 63)) as [->|]; [reflexivity|].
    rewrite int64_of_uint64_small by (unfold maxInt64; lia).
    apply neg64_exact. unfold minInt64, maxInt64. lia.
  - destruct (Z.leb_spec (2 ^ 63) un); [done|].
    rewrite int64_of_uint64_small by (unfold maxInt64; lia). done.
Qed.

(** What [ParseInt] returns: a value of [int64] with no error, [0] with a
    syntax or base error, or the nearest bound with a range error. *)
Inductive int_outcome (s : string) : Z * option error -> Prop :=
| io_ok v : is_int64 v -> int_outcome s (v, None)
| io_fail k : k <> ErrRange -> int_outcome s (0, Some (NumError "ParseInt" s k))
| io_max : int_outcome s (maxInt64, Some (NumError "ParseInt" s ErrRange))
| io_min : int_outcome s (minInt64, Some (NumError "ParseInt" s ErrRange)).

Lemma ParseInt_signed_outcome s0 neg un :
  0 <= un <= maxUint64 -> int_outcome s0 (ParseInt_signed s0 neg 64 un).
Proof.
  intros Hun. rewrite ParseInt_signed_64 by done. unfold maxUint64 in Hun.
  destruct neg.
  - destruct (Z.ltb_spec (2 ^ 63) un); [constructor|].
    constructor. unfold is_int64, minInt64, maxInt64. lia.
  - destruct (Z.leb_spec (2 ^ 63) un); [constructor|].
    constructor. unfold is_int64, minInt64, maxInt64. lia.
Qed.

Lemma ParseInt_outcome s base : int_outcome s (ParseInt s base 64).
Proof.
  unfold ParseInt. change (if 64 =? 0 then 64 else 64) with 64.
  destruct s as [|c rest]; [by constructor|].
  set (s1 := if bool_decide (c = "+"%char \/ c = "-"%char) then rest else String c rest).
  destruct (ParseUint_kind_outcome s1 base) as [r Hr|b].
  - destruct Hr as [v Hv| |].
    + by apply ParseInt_signed_outcome.
    + rewrite bool_decide_true by done. by constructor.
    + rewrite bool_decide_false by (intros Hk; by apply Hk).
      apply ParseInt_signed_outcome. unfold maxUint64. lia.
  - rewrite bool_decide_true by done. by constructor.
Qed.

(** The result of [ParseInt] is an [int64] on every path. *)
Lemma ParseInt_int64 s base : is_int64 (ParseInt s base 64).1.
Proof.
  destruct (ParseInt_outcome s base); simpl; [done|..];
    unfold is_int64, minInt64, maxInt64; lia.
Qed.

(** A value that comes with an error is [0] or a bound of [int64]. *)
Lemma ParseInt_error_value s base v e :
  ParseInt s base 64 = (v, Some e) -> v = 0 \/ v = maxInt64 \/ v = minInt64.
Proof.
  intros H. pose proof (ParseInt_outcome s base) as Ho. rewrite H in Ho.
  inversion Ho; auto.
Qed.

Lemma all_digits_not_sign base c s :
  all_digits base (String c s) = true -> ~ (c = "+"%char \/ c = "-"%char).
Proof. intros H [-> | ->]; discriminate H. Qed.

(** An unsigned digit string decodes to the number it denotes, or to
    [maxInt64] with a range error when that number is no [int64]. *)
Lemma ParseInt_digits s base :
  2 <= base <= 36 -> s <> EmptyString -> all_digits base s = true ->
  ParseInt s base 64 =
    if maxInt64 <? digits_value base s 0
    then (maxInt64, Some (NumError "ParseInt" s ErrRange))
    else (digits_value base s 0, None).
Proof.
  intros Hb Hs Hd. unfold ParseInt. change (if 64 =? 0 then 64 else 64) with 64.
  destruct s as [|c rest]; [done|].
  pose proof (all_digits_not_sign _ _ _ Hd) as Hsign.
  rewrite (bool_decide_false _ Hsign).
  rewrite (bool_decide_false (c = "-"%char)) by tauto.
  rewrite ParseUint_kind_digits by done.
  rewrite parse_ref_digits by (done || unfold maxUint64; lia).
  assert (Hge : 0 <= digits_value base (String c rest) 0)
    by (apply digits_value_ge; lia).
  set (v := digits_value base (String c rest) 0) in *.
  unfold maxInt64, maxUint64 in *.
  destruct (Z.ltb_spec (2 ^ 64 - 1) v).
  - rewrite bool_decide_false by (intros Hk; by apply Hk).
    rewrite ParseInt_signed_64 by (unfold maxUint64; lia). simpl.
    destruct (Z.ltb_spec (2 ^ 63 - 1) v); [done|lia].
  - rewrite ParseInt_signed_64 by (unfold maxUint64; lia).
    destruct (Z.leb_spec (2 ^ 63) v), (Z.ltb_spec (2 ^ 63 - 1) v); done || lia.
Qed.

(** A digit string after a minus sign decodes to the negated number, or to
    [minInt64] with a range error. *)
Lemma ParseInt_neg_digits s base :
  2 <= base <= 36 -> s <> EmptyString -> all_digits base s = true ->
  ParseInt (String "-" s) base 64 =
    if 2 ^ 63 <? digits_value base s 0
    then (minInt64, Some (NumError "ParseInt" (String "-" s) ErrRange))
    else (- digits_value base s 0, None).
Proof.
  intros Hb Hs Hd. unfold ParseInt. change (if 64 =? 0 then 64 else 64) with 64.
  rewrite bool_decide_true by tauto. rewrite (bool_decide_true ("-"%char = _)) by done.
  rewrite ParseUint_kind_digits by done.
  rewrite parse_ref_digits by (done || unfold maxUint64; lia).
  assert (Hge : 0 <= digits_value base s 0) by (apply digits_value_ge; lia).
  set (v := digits_value base s 0) in *. unfold maxUint64 in *.
  destruct (Z.ltb_spec (2 ^ 64 - 1) v).
  - rewrite bool_decide_false by (intros Hk; by apply Hk).
    rewrite ParseInt_signed_64 by (unfold maxUint64; lia). simpl.
    destruct (Z.ltb_spec (2 ^ 63) v); [done|lia].
  - by rewrite ParseInt_signed_64 by (unfold maxUint64; lia).
Qed.

(** A byte that is no digit of the base, in a string that is not too long to
    reach it, is a syntax error; in every case such a string has an error. *)
Lemma ParseInt_not_digits s base :
  2 <= base <= 36 -> s <> EmptyString -> all_digits base s = false ->
  (forall c rest, s = String c rest -> ~ (c = "+"%char \/ c = "-"%char)) ->
  (ParseInt s base 64).2 <> None.
Proof.
  intros Hb Hs Hd Hsign. unfold ParseInt. change (if 64 =? 0 then 64 else 64) with 64.
  destruct s as [|c rest]; [done|].
  rewrite (bool_decide_false _ (Hsign _ _ eq_refl)).
  rewrite ParseUint_kind_digits by done.
  pose proof (parse_ref_not_digits base maxUint64 _ 0 Hd) as Hne.
  assert (Ho : parse_outcome maxUint64 (parse_ref base maxUint64 (String c rest) 0))
    by (apply parse_ref_outcome; unfold maxUint64; lia).
  destruct Ho as [v Hv| |]; [done|..].
  - by rewrite bool_decide_true.
  - rewrite bool_decide_false by (intros Hk; by apply Hk).
    rewrite ParseInt_signed_64 by (unfold maxUint64; lia).
    rewrite (bool_decide_false (c = "-"%char)) by (specialize (Hsign _ _ eq_refl); tauto).
    done.
Qed.
