(* ===== verification/Sort.v ===== *)
(** * [sort.Interface], the sorters of package [sort] and their logic

    [RedditIdSlice] exists to be sorted by the Go library.  This file holds
    the library's side: [sort.Interface] as a class; [Sorter], the monad of
    the routines of the library, which call the three methods on the data,
    may panic and collect the lines that [Less] logs; the two kinds of [for]
    loop the routines are written with; and [insertionSort], the routine the
    library finishes every sort with.  The library is not part of the
    repository; the definitions follow the text of its [sort.go] with the
    quicksort that it had until Go 1.18.  The releases with that quicksort
    differ in details that do not change what is computed, such as the
    way the midpoint of a range is written ([QuickSort]).

    What an implementation of the interface promises is the class [Lawful]:
    the methods act on a list of elements, [Less] decides a relation on
    them.  The routines are proved against [Lawful] with a weakest
    precondition [wp] on the list of elements, which also says that the
    routine does not panic; its rules are the lemmas [wp_ret], [wp_bind],
    [wp_less], [wp_swap] and one rule per loop.  [RedditIdSlice] discharges
    the contract in its own file.

    The second half holds what the sorts of the library share: [perm_on],
    [range] and [sorted_on] speak of the cells [a, b) of a slice, as the
    routines do. *)

From Stdlib Require Import ZArith Lia.
From stdpp Require Import base tactics option list strings sorting.
From S2P Require Import Prelude.

#[local] Open Scope Z_scope.

Module sort.

(** [sort.Interface].  A method that panics returns [None]; [Less] returns
    the lines it logged with its result. *)
Class Interface (T : Type) : Type := {
  Len : T -> Z;
  Less : T -> Z -> Z -> option (bool * list LogEntry);
  Swap : T -> Z -> Z -> option T
}.

(** ** Sorters *)

(** A routine of the library on data of type [T]: it panics ([None]) or
    returns a result, the data as it left it and the lines logged. *)
Definition Sorter (T A : Type) : Type := T -> option (A * T * list LogEntry).

#[export] Instance Sorter_ret {T} : MRet (Sorter T) :=
  fun A x data => Some (x, data, []).

#[export] Instance Sorter_bind {T} : MBind (Sorter T) :=
  fun A B k c data =>
    match c data with
    | Some (x, data', logs) =>
      match k x data' with
      | Some (y, data'', logs') => Some (y, data'', logs ++ logs')
      | None => None
      end
    | None => None
    end.

Section sorters.
Context {T : Type} {I : Interface T}.

(** [data.Len()], [data.Less(i, j)] and [data.Swap(i, j)]. *)
Definition len : Sorter T Z := fun data => Some (Len data, data, []).

Definition less (i j : Z) : Sorter T bool :=
  fun data => '(b, logs) ← Less data i j; Some (b, data, logs).

Definition swap (i j : Z) : Sorter T unit :=
  fun data => data' ← Swap data i j; Some (tt, data', []).

(** A loop that has used up the iterations its bound allows.  The bounds
    are computed from the arguments of the loops; the theorems show that no
    loop gets here. *)
Definition out_of_bound {A : Type} : Sorter T A := fun _ => None.

(** [for i := i0; ...; i += step { body }] with [n] iterations. *)
Fixpoint for_index (step : Z) (body : Z -> Sorter T unit) (i : Z) (n : nat)
  : Sorter T unit :=
  match n with
  | O => mret tt
  | S n' => body i;; for_index step body (i + step) n'
  end.

(** [for ; i within its bound && cond; i += step { body }], where [n]
    iterations remain before [i] reaches its bound; the result is the final
    value of [i]. *)
Fixpoint while_index (cond : Z -> Sorter T bool) (step : Z)
    (body : Z -> Sorter T unit) (i : Z) (n : nat) : Sorter T Z :=
  match n with
  | O => mret i
  | S n' =>
    c ← cond i;
    if c : bool then body i;; while_index cond step body (i + step) n'
    else mret i
  end.

(** [for { body }], where the body ends the loop with a result ([inr]) or
    goes on with new values of the variables of the loop ([inl]); [n]
    bounds the number of times it goes on. *)
Fixpoint loop_until {St R : Type} (body : St -> Sorter T (St + R)) (s : St) (n : nat)
  : Sorter T R :=
  r ← body s;
  match r with
  | inr res => mret res
  | inl s' =>
    match n with
    | O => out_of_bound
    | S n' => loop_until body s' n'
    end
  end.

(** [func insertionSort(data Interface, a, b int)]:
    [for i := a + 1; i < b; i++ {
       for j := i; j > a && data.Less(j, j-1); j-- { data.Swap(j, j-1) } }]. *)
Definition insertionSort_inner (a i : Z) : Sorter T Z :=
  while_index (fun j => less j (j - 1)) (-1) (fun j => swap j (j - 1))
    i (Z.to_nat (i - a)).

Definition insertionSort (a b : Z) : Sorter T unit :=
  for_index 1 (fun i => insertionSort_inner a i;; mret tt)
    (a + 1) (Z.to_nat (b - (a + 1))).

End sorters.

(** ** The contract of an implementation *)

(** The data is a list of elements: [Len] is its length, [Less] decides
    [before] on two of its cells and [Swap] exchanges two cells. *)
Class Lawful {T K : Type} {I : Interface T} (elems : T -> list K)
    (before : K -> K -> bool) : Prop := {
  Len_elems data : Len data = Z.of_nat (length (elems data));
  Less_elems data i j x y :
    slice_index (elems data) i = Some x -> slice_index (elems data) j = Some y ->
    fst <$> Less data i j = Some (before x y);
  Swap_elems data i j x y :
    slice_index (elems data) i = Some x -> slice_index (elems data) j = Some y ->
    exists data', Swap data i j = Some data' /\
      elems data' = <[Z.to_nat j := x]> (<[Z.to_nat i := y]> (elems data))
}.

(** ** Insertion on lists, as reference *)

Section reference.
Context {K : Type} (before : K -> K -> bool).

(** Insert [x] after the cells [prev], given nearest first: [x] moves down
    past the cells it is before. *)
Fixpoint insert_rev (x : K) (prev : list K) : list K :=
  match prev with
  | [] => [x]
  | y :: prev' => if before x y then y :: insert_rev x prev' else x :: prev
  end.

(** The insertion sort of [rest] after the sorted cells [acc]. *)
Definition isort_rev (acc rest : list K) : list K :=
  foldl (fun acc x => insert_rev x acc) acc rest.

(** No cell is before a cell that precedes it. *)
Definition sorted (l : list K) : Prop :=
  StronglySorted (fun x y => before y x = false) l.

(** [before] is a strict weak order. *)
Definition strict_weak : Prop :=
  (forall x, before x x = false) /\
  (forall x y z, before x y = true -> before y z = true -> before x z = true) /\
  (forall x y z, before x y = false -> before y z = false -> before x z = false).

End reference.

(** The insertion sort of a list. *)
Definition isort {K : Type} (before : K -> K -> bool) (l : list K) : list K :=
  reverse (isort_rev before [] l).

(** ** The reference sorts *)

Section reference_lemmas.
Context {K : Type} (before : K -> K -> bool).
Hypothesis Hsw : strict_weak before.

Lemma before_asym x y : before x y = true -> before y x = false.
Proof.
  destruct Hsw as (Hirr & Htr & _). intros Hxy.
  destruct (before y x) eqn:Hyx; [|done]. by rewrite <- (Hirr x), (Htr x y x).
Qed.

Lemma before_irrefl x : before x x = false.
Proof. by destruct Hsw as (Hirr & _). Qed.

Lemma before_ntrans x y z :
  before x y = false -> before y z = false -> before x z = false.
Proof. destruct Hsw as (_ & _ & Hnt). apply Hnt. Qed.

Lemma insert_rev_perm x prev : insert_rev before x prev ≡ₚ x :: prev.
Proof.
  induction prev as [|y prev IH]; simpl; [done|].
  destruct (before x y); [|done]. by rewrite IH, Permutation_swap.
Qed.

Lemma insert_rev_length x prev : length (insert_rev before x prev) = S (length prev).
Proof. by rewrite insert_rev_perm. Qed.

Lemma isort_rev_perm acc rest : isort_rev before acc rest ≡ₚ acc ++ rest.
Proof.
  revert acc. induction rest as [|x rest IH]; intros acc; simpl.
  - by rewrite app_nil_r.
  - unfold isort_rev in *. rewrite IH, insert_rev_perm. apply Permutation_middle.
Qed.

(** Sortedness of a list given nearest first. *)
Definition sorted_rev (acc : list K) : Prop :=
  StronglySorted (fun x y => before x y = false) acc.

Lemma insert_rev_sorted x prev :
  sorted_rev prev -> sorted_rev (insert_rev before x prev).
Proof.
  destruct Hsw as (_ & _ & Hnt). unfold sorted_rev.
  induction 1 as [|y prev Hs IH Hy]; simpl; [by repeat constructor|].
  destruct (before x y) eqn:Hxy.
  - constructor; [done|]. rewrite insert_rev_perm. constructor; [|done].
    by apply before_asym.
  - constructor; [by constructor|]. constructor; [done|].
    eapply Forall_impl; [apply Hy|]. intros z Hz. by eapply Hnt.
Qed.

Lemma isort_rev_sorted acc rest :
  sorted_rev acc -> sorted_rev (isort_rev before acc rest).
Proof.
  revert acc. induction rest as [|x rest IH]; intros acc Hacc; [done|].
  change (sorted_rev (isort_rev before (insert_rev before x acc) rest)).
  by apply IH, insert_rev_sorted.
Qed.

Lemma sorted_rev_reverse acc : sorted_rev acc -> sorted before (reverse acc).
Proof.
  unfold sorted_rev, sorted. induction 1 as [|y acc Hs IH Hy]; [constructor|].
  rewrite reverse_cons. apply StronglySorted_app. split_and!; [|done|by repeat constructor].
  intros x1 x2 Hx1 ->%list_elem_of_singleton. rewrite elem_of_reverse in Hx1.
  by apply (proj1 (Forall_forall _ _) Hy).
Qed.

Lemma isort_sorted l : sorted before (isort before l).
Proof. apply sorted_rev_reverse, isort_rev_sorted. constructor. Qed.

Lemma isort_perm l : isort before l ≡ₚ l.
Proof. unfold isort. by rewrite reverse_Permutation, isort_rev_perm. Qed.

(** The insertion sort leaves a sorted list as it is, ties included. *)
Lemma isort_rev_sorted_id acc rest :
  sorted before (reverse acc ++ rest) -> isort_rev before acc rest = reverse rest ++ acc.
Proof.
  revert acc. induction rest as [|x rest IH]; intros acc Hs; [done|].
  change (isort_rev before acc (x :: rest))
    with (isort_rev before (insert_rev before x acc) rest).
  assert (insert_rev before x acc = x :: acc) as ->.
  { destruct acc as [|y acc]; [done|]. simpl.
    apply StronglySorted_app in Hs as [Hs _]. rewrite (Hs y x); [done|..].
    - rewrite reverse_cons, elem_of_app. right. by left.
    - by left. }
  rewrite IH, reverse_cons, <- app_assoc; [done|].
  by rewrite reverse_cons, <- app_assoc.
Qed.

Lemma isort_sorted_id l : sorted before l -> isort before l = l.
Proof.
  intros Hs. unfold isort. rewrite isort_rev_sorted_id by done.
  by rewrite app_nil_r, reverse_involutive.
Qed.

End reference_lemmas.

(** ** The logic of sorters *)

(** [wp elems before c Q l]: on data whose elements are [l], the sorter [c]
    does not panic, and [Q] holds of its result and of the elements it
    leaves.  [before] is the order the data is lawful for: the rules need
    it, the definition only names it. *)
Definition wp {T K A : Type} (elems : T -> list K) (before : K -> K -> bool)
    (c : Sorter T A) (Q : A -> list K -> Prop) (l : list K) : Prop :=
  forall data, elems data = l ->
    exists x data' logs, c data = Some (x, data', logs) /\ Q x (elems data').

Section logic.
Context {T K : Type} {I : Interface T} (elems : T -> list K) (before : K -> K -> bool).
Context {L : Lawful elems before}.
Implicit Types (l : list K) (i j : Z).


Lemma wp_ret {A} (x : A) Q l : Q x l -> wp elems before (mret x) Q l.
Proof. intros HQ data <-. by exists x, data, []. Qed.

Lemma wp_bind {A B} (c : Sorter T A) (k : A -> Sorter T B) Q l :
  wp elems before c (fun x l' => wp elems before (k x) Q l') l -> wp elems before (c ≫= k) Q l.
Proof.
  intros Hc data Hd. destruct (Hc data Hd) as (x & data1 & logs1 & Hrun & Hk).
  destruct (Hk data1 eq_refl) as (y & data2 & logs2 & Hrun2 & HQ).
  exists y, data2, (logs1 ++ logs2). split; [|done].
  unfold mbind, Sorter_bind. by rewrite Hrun, Hrun2.
Qed.

Lemma wp_mono {A} (c : Sorter T A) (Q Q' : A -> list K -> Prop) l :
  wp elems before c Q l -> (forall x l', Q x l' -> Q' x l') -> wp elems before c Q' l.
Proof.
  intros Hc HQ data Hd. destruct (Hc data Hd) as (x & data' & logs & Hrun & H).
  exists x, data', logs. auto.
Qed.

Lemma wp_len Q l : Q (Z.of_nat (length l)) l -> wp elems before len Q l.
Proof.
  intros HQ data <-. exists (Len data), data, []. split; [done|].
  by rewrite (Len_elems (Lawful := L)).
Qed.

Lemma wp_less i j x y Q l :
  slice_index l i = Some x -> slice_index l j = Some y ->
  Q (before x y) l -> wp elems before (less i j) Q l.
Proof.
  intros Hi Hj HQ data <-. pose proof (Less_elems data i j x y Hi Hj) as H.
  unfold less. destruct (Less data i j) as [[b logs]|]; simplify_eq/=.
  by exists (before x y), data, logs.
Qed.

Lemma wp_swap i j Q l :
  0 <= i < Z.of_nat (length l) -> 0 <= j < Z.of_nat (length l) ->
  Q tt (slice_swap l i j) -> wp elems before (swap i j) Q l.
Proof.
  intros [x Hx]%slice_index_is_Some [y Hy]%slice_index_is_Some HQ data <-.
  destruct (Swap_elems data i j x y Hx Hy) as (data' & Hrun & Hd).
  exists tt, data', []. unfold swap. rewrite Hrun. split; [done|].
  unfold slice_swap in HQ. by rewrite Hx, Hy, <- Hd in HQ.
Qed.

(** The rule of [for_index]: [P i n] holds of the index and of the number
    of iterations that remain. *)
Lemma wp_for_index step body (P : Z -> nat -> list K -> Prop) Q i n l :
  P i n l ->
  (forall j m l, P j (S m) l -> wp elems before (body j) (fun _ l' => P (j + step) m l') l) ->
  (forall j l, P j 0%nat l -> Q tt l) ->
  wp elems before (for_index step body i n) Q l.
Proof.
  intros HP Hbody HQ. revert i l HP. induction n as [|n IH]; intros i l HP.
  - apply wp_ret. eauto.
  - apply wp_bind. eapply wp_mono; [by apply Hbody|]. intros ? l'. apply IH.
Qed.

(** The rule of [while_index]. *)
Lemma wp_while_index cond step body (P : Z -> nat -> list K -> Prop) Q i n l :
  P i n l ->
  (forall j m l, P j (S m) l ->
     wp elems before (cond j) (fun c l' =>
       if c : bool then wp elems before (body j) (fun _ l'' => P (j + step) m l'') l'
       else Q j l') l) ->
  (forall j l, P j 0%nat l -> Q j l) ->
  wp elems before (while_index cond step body i n) Q l.
Proof.
  intros HP Hstep HQ. revert i l HP. induction n as [|n IH]; intros i l HP.
  - apply wp_ret. eauto.
  - apply wp_bind. eapply wp_mono; [by apply Hstep|]. intros [] l' H.
    + apply wp_bind. eapply wp_mono; [done|]. intros ? l''. apply IH.
    + by apply wp_ret.
Qed.

(** The rule of [loop_until]: the body may go on only while [P] leaves it an
    iteration. *)
Lemma wp_loop_until {St R} (body : St -> Sorter T (St + R))
    (P : St -> nat -> list K -> Prop) Q s n l :
  P s n l ->
  (forall s m l, P s m l ->
     wp elems before (body s) (fun r l' =>
       match r with
       | inl s' => exists m', m = S m' /\ P s' m' l'
       | inr res => Q res l'
       end) l) ->
  wp elems before (loop_until body s n) Q l.
Proof.
  intros HP Hbody. revert s l HP. induction n as [|n IH]; intros s l HP;
    (apply wp_bind; eapply wp_mono; [by apply Hbody|]); intros [s'|res] l' H;
    try (by apply wp_ret); destruct H as (m' & [=] & H); subst. by apply IH.
Qed.

End logic.

(** One step of a proof in the logic: the rule of the sorter at the head of
    the goal. *)
Ltac wp_step :=
  lazymatch goal with
  | |- wp _ _ (mret _) _ _ => apply wp_ret
  | |- wp _ _ (_ ≫= _) _ _ => apply wp_bind
  | |- wp _ _ len _ _ => apply wp_len
  | |- wp _ _ (swap _ _) _ _ => apply wp_swap
  | |- wp _ _ (less _ _) _ _ => eapply wp_less
  | |- wp _ _ (if ?b then _ else _) _ _ => destruct b eqn:?
  | |- wp _ _ (match (if ?b then _ else _) with _ => _ end) _ _ => destruct b eqn:?
  end;
  lazymatch goal with
  | |- Lawful _ _ => exact _
  | _ => cbv beta iota
  end.

(** The value of a cell after exchanges. *)
Ltac swap_cells :=
  rewrite ?slice_swap_lookup by (rewrite ?slice_swap_length; lia);
  repeat first [rewrite decide_True by lia | rewrite decide_False by lia].

Tactic Notation "swap_cells" "in" hyp(H) :=
  rewrite ?slice_swap_lookup in H by (rewrite ?slice_swap_length; lia);
  repeat first [rewrite decide_True in H by lia | rewrite decide_False in H by lia].

(** The cases of the cell [k] of a range after exchanges; [tac] ends each. *)
Ltac range_cells tac :=
  let k := fresh "k" in let x := fresh "x" in
  let Hk := fresh "Hk" in let Hx := fresh "Hx" in
  intros k x Hk Hx;
  repeat first [progress (swap_cells in Hx) | case_decide];
  subst; same_cells; tac.

(** The tests [!data.Less(i, j)] as they are decided. *)
Ltac negb_hyps :=
  repeat match goal with
  | H : negb _ = true |- _ => apply negb_true_iff in H
  | H : negb _ = false |- _ => apply negb_false_iff in H
  end.

(** The steps of a straight-line sorter whose indices are in range. *)
Ltac wp_steps :=
  repeat (wp_step;
          try solve [swap_cells; eassumption | rewrite ?slice_swap_length; lia]).

(** ** The insertion sort is the reference *)

Section insertion.
Context {T K : Type} {I : Interface T} (elems : T -> list K) (before : K -> K -> bool).
Context {L : Lawful elems before}.

(** The inner loop moves the cell after the sorted ones to its place. *)
Lemma insertionSort_inner_spec pre q x post :
  wp elems before (insertionSort_inner (Z.of_nat (length pre))
              (Z.of_nat (length pre + length q)))
    (fun _ l' => l' = pre ++ reverse (insert_rev before x q) ++ post)
    (pre ++ reverse q ++ x :: post).
Proof.
  unfold insertionSort_inner.
  replace (Z.to_nat _) with (length q) by lia.
  revert post. induction q as [|y q IH]; intros post; [by apply wp_ret|].
  rewrite reverse_cons, <- !app_assoc. cbn [app length while_index].
  set (j := Z.of_nat (length pre + S (length q))).
  assert (Z.to_nat (j - 1) = length (pre ++ reverse q)) as Hj1
    by (rewrite length_app, length_reverse; lia).
  assert (slice_index (pre ++ reverse q ++ y :: x :: post) j = Some x) as Hx.
  { change (y :: x :: post) with ([y] ++ x :: post).
    rewrite !app_assoc. apply slice_index_middle.
    rewrite !length_app, length_reverse. simpl. lia. }
  assert (slice_index (pre ++ reverse q ++ y :: x :: post) (j - 1) = Some y) as Hy.
  { rewrite app_assoc. apply slice_index_middle. lia. }
  wp_step. wp_step; [exact Hx|exact Hy|].
  destruct (before x y) eqn:Hxy; cbn [insert_rev]; rewrite Hxy.
  - wp_step. wp_step; [apply slice_index_is_Some; eauto..|].
    unfold slice_swap. rewrite Hx, Hy.
    replace (Z.to_nat j) with (S (Z.to_nat (j - 1))) by lia.
    rewrite (app_assoc pre (reverse q)), swap_adjacent, <- app_assoc by done.
    replace (j + -1) with (Z.of_nat (length pre + length q)) by lia.
    eapply wp_mono; [apply (IH (y :: post))|]. intros _ l' ->.
    by rewrite reverse_cons, <- !app_assoc.
  - wp_step. by rewrite !reverse_cons, <- !app_assoc.
Qed.

(** [insertionSort] on the cells [seg] between [pre] and [post] gives the
    reference sort of [seg]. *)
Lemma insertionSort_spec pre seg post :
  wp elems before (insertionSort (Z.of_nat (length pre))
              (Z.of_nat (length pre + length seg)))
    (fun _ l' => l' = pre ++ isort before seg ++ post)
    (pre ++ seg ++ post).
Proof.
  unfold insertionSort. destruct seg as [|x seg].
  { replace (Z.to_nat _) with 0%nat by (simpl; lia). by apply wp_ret. }
  cbn [length]. replace (Z.to_nat _) with (length seg) by lia.
  apply wp_for_index with (P := fun i n l => exists acc rest,
    l = pre ++ reverse acc ++ rest ++ post /\ n = length rest /\
    i = Z.of_nat (length pre + length acc) /\
    isort_rev before [x] seg = isort_rev before acc rest).
  - exists [x], seg. split_and!; [done..|simpl; lia|done].
  - intros i n l (acc & [|y rest] & -> & [=] & -> & Heq); subst. wp_step.
    eapply wp_mono; [apply insertionSort_inner_spec|]. intros _ l' ->. wp_step.
    exists (insert_rev before y acc), rest. rewrite insert_rev_length.
    split_and!; [done..|lia|done].
  - intros i l (acc & [|??] & -> & [=] & _ & Heq). unfold isort.
    change (isort_rev before [] (x :: seg)) with (isort_rev before [x] seg).
    by rewrite Heq.
Qed.

(** [insertionSort] over a lawful implementation whose [Less] decides a
    strict weak order: it does not panic, it leaves the cells outside
    [a, b) as they are, and the cells of [a, b) are afterwards a permutation
    of what they were in which no cell is before a cell that precedes it. *)
Theorem insertionSort_sorts pre seg post :
  strict_weak before ->
  wp elems before (insertionSort (Z.of_nat (length pre))
              (Z.of_nat (length pre + length seg)))
    (fun _ l' => exists seg',
       l' = pre ++ seg' ++ post /\ seg' ≡ₚ seg /\ sorted before seg')
    (pre ++ seg ++ post).
Proof.
  intros Hsw. eapply wp_mono; [apply insertionSort_spec|]. intros _ l' ->.
  exists (isort before seg). split_and!; [done| |].
  - by apply isort_perm.
  - by apply isort_sorted.
Qed.

End insertion.

(** ** The cells [a, b) of a slice *)

Lemma StronglySorted_lookup {A} (R : A -> A -> Prop) (l : list A) :
  StronglySorted R l <->
  forall (i j : nat) x y, (i < j)%nat -> l !! i = Some x -> l !! j = Some y -> R x y.
Proof.
  split.
  - induction 1 as [|z l Hs IH Hz]; intros i j x y Hij Hi Hj; [done|].
    destruct j as [|j]; [lia|]. destruct i as [|i]; simplify_eq/=.
    + by apply (proj1 (Forall_lookup _ _) Hz j).
    + apply (IH i j); [lia|done..].
  - induction l as [|z l IH]; intros H; constructor.
    + apply IH. intros i j x y Hij. apply (H (S i) (S j)). lia.
    + apply Forall_lookup. intros j y. by apply (H 0%nat (S j)); [lia|].
Qed.


Section ranges.
Context {K : Type}.
Implicit Types (l : list K) (a b i j k : Z) (P : K -> Prop).

(** The cells [a, b) of [l]. *)
Definition segment l a b : list K :=
  take (Z.to_nat b - Z.to_nat a) (drop (Z.to_nat a) l).

(** [l'] is [l] with the cells of [a, b) permuted. *)
Definition perm_on a b l l' : Prop :=
  l' ≡ₚ l /\ forall k, ~ (a <= k < b) -> slice_index l' k = slice_index l k.

(** [P] holds of the cells of [a, b). *)
Definition range P l a b : Prop :=
  forall k x, a <= k < b -> slice_index l k = Some x -> P x.

Lemma segment_lookup l a b (n : nat) :
  0 <= a ->
  segment l a b !! n =
    if decide (a + Z.of_nat n < b) then slice_index l (a + Z.of_nat n) else None.
Proof.
  intros Ha. unfold segment. case_decide.
  - rewrite lookup_take_lt, lookup_drop by lia.
    rewrite <- slice_index_nat. f_equal. lia.
  - apply lookup_take_ge. lia.
Qed.

Lemma segment_split l a b :
  0 <= a <= b -> l = take (Z.to_nat a) l ++ segment l a b ++ drop (Z.to_nat b) l.
Proof.
  intros Hab. unfold segment.
  rewrite <- (take_drop (Z.to_nat a) l) at 1. f_equal.
  rewrite <- (take_drop (Z.to_nat b - Z.to_nat a) (drop (Z.to_nat a) l)) at 1.
  f_equal. rewrite drop_drop. f_equal. lia.
Qed.

Lemma segment_all l : segment l 0 (Z.of_nat (length l)) = l.
Proof. unfold segment. rewrite drop_0. apply take_ge. lia. Qed.

Lemma perm_on_length a b l l' : perm_on a b l l' -> length l' = length l.
Proof. intros [Hp _]. by rewrite Hp. Qed.

Lemma perm_on_refl a b l : perm_on a b l l.
Proof. by split. Qed.

Lemma perm_on_trans a b l1 l2 l3 :
  perm_on a b l1 l2 -> perm_on a b l2 l3 -> perm_on a b l1 l3.
Proof.
  intros [Hp1 Ho1] [Hp2 Ho2]. split; [by rewrite Hp2|].
  intros k Hk. by rewrite Ho2, Ho1.
Qed.

Lemma perm_on_weaken a b a' b' l l' :
  a' <= a -> b <= b' -> perm_on a b l l' -> perm_on a' b' l l'.
Proof. intros Ha Hb [Hp Ho]. split; [done|]. intros k Hk. apply Ho. lia. Qed.

Lemma perm_on_swap a b l i j :
  a <= i < b -> a <= j < b ->
  0 <= i < Z.of_nat (length l) -> 0 <= j < Z.of_nat (length l) ->
  perm_on a b l (slice_swap l i j).
Proof.
  intros Hi Hj Hi' Hj'. split; [apply slice_swap_perm|]. intros k Hk.
  rewrite slice_swap_lookup by done. by rewrite !decide_False by lia.
Qed.

(** What [perm_on] says of the three parts of the slice. *)
Lemma perm_on_segment a b l l' :
  0 <= a <= b -> perm_on a b l l' ->
  take (Z.to_nat a) l' = take (Z.to_nat a) l /\
  segment l' a b ≡ₚ segment l a b /\
  drop (Z.to_nat b) l' = drop (Z.to_nat b) l.
Proof.
  intros Hab [Hp Ho].
  assert (take (Z.to_nat a) l' = take (Z.to_nat a) l) as Ht.
  { apply list_eq. intros n. destruct (decide (n < Z.to_nat a)%nat).
    - rewrite !lookup_take_lt, <- !slice_index_nat by done. apply Ho. lia.
    - by rewrite !lookup_take_ge by lia. }
  assert (drop (Z.to_nat b) l' = drop (Z.to_nat b) l) as Hd.
  { apply list_eq. intros n. rewrite !lookup_drop, <- !slice_index_nat.
    apply Ho. lia. }
  split_and!; [done| |done].
  rewrite (segment_split l a b), (segment_split l' a b), Ht, Hd in Hp by done.
  by apply Permutation_app_inv_l, Permutation_app_inv_r in Hp.
Qed.

Lemma range_segment P l a b : 0 <= a -> range P l a b <-> Forall P (segment l a b).
Proof.
  intros Ha. rewrite Forall_lookup. split.
  - intros Hr n x. rewrite segment_lookup by done. case_decide; [|done].
    apply Hr. lia.
  - intros Hf k x Hk Hx. apply (Hf (Z.to_nat (k - a))).
    rewrite segment_lookup, decide_True by lia. rewrite <- Hx. f_equal. lia.
Qed.

(** A property of the cells of [a, b) survives their permutation. *)
Lemma range_perm P a b l l' :
  0 <= a <= b -> perm_on a b l l' -> range P l a b -> range P l' a b.
Proof.
  intros Hab (_ & Hp & _)%perm_on_segment; [|done].
  rewrite !range_segment by lia. by rewrite Hp.
Qed.

(** It also survives a permutation of other cells. *)
Lemma range_perm_out P a b a' b' l l' :
  perm_on a' b' l l' -> b <= a' \/ b' <= a -> range P l a b -> range P l' a b.
Proof.
  intros [_ Ho] Hd Hr k x Hk Hx. apply (Hr k); [done|]. rewrite <- Ho; [done|lia].
Qed.

Lemma range_weaken P a b a' b' l :
  a <= a' -> b' <= b -> range P l a b -> range P l a' b'.
Proof. intros Ha Hb Hr k x Hk. apply Hr. lia. Qed.

Lemma range_impl P (Q : K -> Prop) a b l :
  (forall x, P x -> Q x) -> range P l a b -> range Q l a b.
Proof. intros HPQ Hr k x Hk Hx. eauto. Qed.

Lemma range_empty P a b l : b <= a -> range P l a b.
Proof. intros Hab k x Hk. lia. Qed.

Lemma range_snoc P a b l :
  range P l a b -> (forall x, slice_index l b = Some x -> P x) ->
  range P l a (b + 1).
Proof.
  intros Hr Hb k x Hk Hx. destruct (decide (k = b)) as [->|]; [eauto|].
  apply (Hr k); [lia|done].
Qed.

Lemma range_cons P a b l :
  range P l a b -> (forall x, slice_index l (a - 1) = Some x -> P x) ->
  range P l (a - 1) b.
Proof.
  intros Hr Ha k x Hk Hx. destruct (decide (k = a - 1)) as [->|]; [eauto|].
  apply (Hr k); [lia|done].
Qed.

Lemma range_app P a b c l : range P l a b -> range P l b c -> range P l a c.
Proof.
  intros H1 H2 k x Hk Hx.
  destruct (decide (k < b)); [apply (H1 k)|apply (H2 k)]; done || lia.
Qed.

(** A property of the cells of [a, b) after an exchange of two cells. *)
Lemma range_swap P a b l i j :
  0 <= i < Z.of_nat (length l) -> 0 <= j < Z.of_nat (length l) ->
  (forall k x, a <= k < b -> k <> i -> k <> j -> slice_index l k = Some x -> P x) ->
  (a <= i < b -> forall x, slice_index l j = Some x -> P x) ->
  (a <= j < b -> forall x, slice_index l i = Some x -> P x) ->
  range P (slice_swap l i j) a b.
Proof.
  intros Hi Hj Hk Hi' Hj' k x Hab. rewrite slice_swap_lookup by done.
  repeat case_decide; subst; eauto.
Qed.

End ranges.

Section sorted_ranges.
Context {K : Type} (before : K -> K -> bool).
Hypothesis Hsw : strict_weak before.
Implicit Types (l : list K) (a b : Z).

(** No cell of [a, b) is before a cell of [a, b) that precedes it. *)
Definition sorted_on a b l : Prop :=
  forall p q x y, a <= p -> p < q -> q < b ->
    slice_index l p = Some x -> slice_index l q = Some y -> before y x = false.

Lemma sorted_on_segment l a b :
  0 <= a -> sorted_on a b l <-> sorted before (segment l a b).
Proof.
  intros Ha. unfold sorted. rewrite StronglySorted_lookup. split.
  - intros Hs p q x y Hpq. rewrite !segment_lookup by done.
    repeat case_decide; try done. apply Hs; lia.
  - intros Hs p q x y Hp Hpq Hq Hx Hy.
    apply (Hs (Z.to_nat (p - a)) (Z.to_nat (q - a))); [lia|..];
      rewrite segment_lookup, decide_True by lia;
      [rewrite <- Hx|rewrite <- Hy]; f_equal; lia.
Qed.

Lemma sorted_on_empty a b l : b <= a + 1 -> sorted_on a b l.
Proof. intros Hab p q x y Hp Hpq Hq. lia. Qed.

(** A sorted range stays sorted when other cells are permuted. *)
Lemma sorted_on_perm_out a b a' b' l l' :
  perm_on a' b' l l' -> b <= a' \/ b' <= a -> sorted_on a b l -> sorted_on a b l'.
Proof.
  intros [_ Ho] Hd Hs p q x y Hp Hpq Hq Hx Hy.
  apply (Hs p q); [done..| |]; (rewrite <- Ho; [done|lia]).
Qed.

(** Two sorted ranges around cells that are equivalent to [pv], with the
    cells before them not after [pv] and the cells after them not before
    [pv], are one sorted range. *)
Lemma sorted_on_join a m1 m2 b pv l :
  a <= m1 -> m1 <= m2 -> m2 <= b ->
  sorted_on a m1 l -> sorted_on m2 b l ->
  range (fun x => before pv x = false) l a m2 ->
  range (fun x => before x pv = false) l m1 b ->
  sorted_on a b l.
Proof.
  destruct Hsw as (_ & _ & Hnt).
  intros Ham Hmm Hmb Hs1 Hs2 Hlo Hhi p q x y Hp Hpq Hq Hx Hy.
  destruct (decide (q < m1)); [by apply (Hs1 p q)|].
  destruct (decide (m2 <= p)); [by apply (Hs2 p q)|].
  apply (Hnt y pv x); [apply (Hhi q)|apply (Hlo p)]; done || lia.
Qed.

Lemma segment_app (pre seg post : list K) :
  segment (pre ++ seg ++ post) (Z.of_nat (length pre))
    (Z.of_nat (length pre + length seg)) = seg.
Proof.
  unfold segment. rewrite !Nat2Z.id, drop_app_length.
  replace (_ - _)%nat with (length seg) by lia. apply take_app_length.
Qed.

Lemma perm_on_app (pre seg seg' post : list K) :
  seg' ≡ₚ seg ->
  perm_on (Z.of_nat (length pre)) (Z.of_nat (length pre + length seg))
    (pre ++ seg ++ post) (pre ++ seg' ++ post).
Proof.
  intros Hp. split; [by rewrite Hp|]. intros k Hk. unfold slice_index.
  pose proof (Permutation_length Hp) as Hlen.
  rewrite !length_app, Hlen. case_bool_decide; [|done].
  destruct (decide (k < Z.of_nat (length pre))).
  - by rewrite !lookup_app_l by lia.
  - rewrite !lookup_app_r, Hlen by lia. done.
Qed.

End sorted_ranges.

(** [insertionSort] on a range of a slice. *)
Lemma insertionSort_range {T K : Type} {I : Interface T} (elems : T -> list K)
    (before : K -> K -> bool) {L : Lawful elems before} a b (l : list K) :
  strict_weak before -> 0 <= a <= b -> b <= Z.of_nat (length l) ->
  wp elems before (insertionSort a b)
    (fun _ l' => perm_on a b l l' /\ sorted_on before a b l') l.
Proof.
  intros Hsw Hab Hlen. pose proof (segment_split l a b Hab) as Hl.
  set (pre := take (Z.to_nat a) l) in *. set (seg := segment l a b) in *.
  set (post := drop (Z.to_nat b) l) in *.
  assert (a = Z.of_nat (length pre)) as Ha by (unfold pre; rewrite length_take; lia).
  assert (b = Z.of_nat (length pre + length seg)) as Hb.
  { unfold seg, segment. rewrite length_take, length_drop. lia. }
  clearbody pre seg post. subst a b l.
  eapply wp_mono; [by apply insertionSort_sorts|].
  intros _ l' (seg' & -> & Hp & Hs). split; [by apply perm_on_app|].
  apply sorted_on_segment; [lia|].
  by rewrite <- (Permutation_length Hp), segment_app.
Qed.

(** Arithmetic on the indices of permuted slices, which have one length. *)
Ltac perm_lengths :=
  repeat match goal with
  | H : perm_on _ _ ?l ?l' |- _ =>
    lazymatch goal with
    | _ : length l' = length l |- _ => fail
    | _ => pose proof (perm_on_length _ _ _ _ H)
    end
  end;
  rewrite ?slice_swap_length.

Ltac perm_lia := perm_lengths; div_lia.

(** [perm_on] of a slice after exchanges of cells of the range. *)
Ltac perm_on_swaps :=
  repeat first
    [ apply perm_on_refl
    | eapply perm_on_trans; [|apply perm_on_swap; rewrite ?slice_swap_length; lia] ].

End sort.
