(* ===== verification/HeapSort.v ===== *)
(** * The heap sort of package [sort]

    [siftDown] and [heapSort], which [quickSort] falls back to when its
    recursion is too deep, written as sorters over [sort.Interface] after
    the text of the library (file [sort.go], as it stood until Go 1.18).  The
    heap is the
    part [first + lo, first + hi) of the data; the cell [first + p] has the
    children [first + 2p + 1] and [first + 2p + 2].

    The theorems are proved against the contract [Lawful] with an order that
    is a strict weak order: [siftDown] makes a heap of a range that is a
    heap but at its root ([siftDown_spec]); [heapSort] does not panic and
    leaves the cells of [a, b) sorted and permuted, and the other cells as
    they were ([heapSort_sorts]).  The loop of [siftDown] is bounded by
    [hi - lo]; the proof shows that the bound is never what stops it. *)

From Stdlib Require Import ZArith Lia.
From stdpp Require Import base tactics option list strings sorting.
From S2P Require Import Prelude Sort.
Import Sort.sort.

#[local] Open Scope Z_scope.

Module sort.

Section heap.
Context {T : Type} {I : Interface T}.

(** The child of [root] that [siftDown] compares the root with:
    [child := 2*root + 1;
     if child+1 < hi && data.Less(first+child, first+child+1) { child++ }]. *)
Definition larger_child (hi first root : Z) : Sorter T Z :=
  let child := 2 * root + 1 in
  lt ← (if child + 1 <? hi then less (first + child) (first + child + 1)
        else mret false);
  mret (if lt : bool then child + 1 else child).

(** One iteration of the loop of [siftDown]: it returns ([inr]) or goes on
    with the child as the root ([inl]). *)
Definition siftDown_body (hi first root : Z) : Sorter T (Z + unit) :=
  let child := 2 * root + 1 in
  if child >=? hi then mret (inr tt)
  else
    child ← larger_child hi first root;
    lt ← less (first + root) (first + child);
    if negb lt then mret (inr tt)
    else swap (first + root) (first + child);; mret (inl child).

(** [func siftDown(data Interface, lo, hi, first int)]. *)
Definition siftDown (lo hi first : Z) : Sorter T unit :=
  loop_until (siftDown_body hi first) lo (Z.to_nat (hi - lo)).

(** [func heapSort(data Interface, a, b int)]: build the heap with the
    greatest element at the top, then pop the elements, largest first, into
    the end of the data. *)
Definition heapSort (a b : Z) : Sorter T unit :=
  let first := a in
  let lo := 0 in
  let hi := b - a in
  for_index (-1) (fun i => siftDown i hi first)
    ((hi - 1) `quot` 2) (Z.to_nat ((hi - 1) `quot` 2 + 1));;
  for_index (-1) (fun i => swap first (first + i);; siftDown lo i first)
    (hi - 1) (Z.to_nat hi).

End heap.

(** ** Heaps *)

Section heaps.
Context {K : Type} (before : K -> K -> bool).
Hypothesis Hsw : strict_weak before.
Implicit Types (l : list K) (first lo hi root p c : Z).

Definition child_of p c : Prop := c = 2 * p + 1 \/ c = 2 * p + 2.

(** No cell of the heap [lo, hi) is before one of its children. *)
Definition heap_on first lo hi l : Prop :=
  forall p c x y, lo <= p -> child_of p c -> c < hi ->
    slice_index l (first + p) = Some x -> slice_index l (first + c) = Some y ->
    before x y = false.

(** The same but for the cell [root], whose children are still not after
    its parent. *)
Definition heap_but first lo hi root l : Prop :=
  (forall p c x y, lo <= p -> p <> root -> child_of p c -> c < hi ->
     slice_index l (first + p) = Some x -> slice_index l (first + c) = Some y ->
     before x y = false) /\
  (forall p c x y, lo <= p -> child_of p root -> child_of root c -> c < hi ->
     slice_index l (first + p) = Some x -> slice_index l (first + c) = Some y ->
     before x y = false).

(** The cells of [m, b) are not before the cells of [a, m). *)
Definition dominated a m b l : Prop :=
  forall p q x y, a <= p < m -> m <= q < b ->
    slice_index l p = Some x -> slice_index l q = Some y -> before y x = false.

Lemma heap_on_but first lo hi l :
  0 <= lo -> heap_on first (lo + 1) hi l -> heap_but first lo hi lo l.
Proof.
  intros Hlo H. split; intros p c x y ?; unfold child_of; intros;
    [apply (H p c)|]; done || lia.
Qed.

Lemma heap_on_empty first lo hi l : 0 <= lo -> hi <= 2 * lo + 1 -> heap_on first lo hi l.
Proof. intros Hlo Hhi p c x y Hp Hc. unfold child_of in *. lia. Qed.

(** The root may stay where it is when no child of it is after it. *)
Lemma heap_but_done first lo hi root l :
  heap_but first lo hi root l ->
  (forall c x y, child_of root c -> c < hi ->
     slice_index l (first + root) = Some x -> slice_index l (first + c) = Some y ->
     before x y = false) ->
  heap_on first lo hi l.
Proof.
  intros [H1 _] Hr p c x y Hp Hc Hhi Hx Hy.
  destruct (decide (p = root)) as [->|]; [by apply (Hr c)|by apply (H1 p c)].
Qed.

(** The exchange of the root with the child that no child is after. *)
Lemma heap_but_swap first lo hi root big l xr yb :
  0 <= first -> 0 <= lo <= root -> first + hi <= Z.of_nat (length l) ->
  heap_but first lo hi root l -> child_of root big -> big < hi ->
  slice_index l (first + root) = Some xr ->
  slice_index l (first + big) = Some yb ->
  before xr yb = true ->
  (forall c y, child_of root c -> c < hi ->
     slice_index l (first + c) = Some y -> before yb y = false) ->
  heap_but first lo hi big (slice_swap l (first + root) (first + big)).
Proof.
  intros Hf Hlo Hlen [H1 H2] Hbig Hhi Hxr Hyb Hlt Hdom. unfold child_of in *.
  split; intros p c x y Hp; unfold child_of; intros;
    rewrite !slice_swap_lookup in * by lia;
    repeat case_decide; simplify_eq; try lia;
    solve [ by apply (before_asym before Hsw)
          | eapply Hdom; [..|eassumption]; lia
          | eapply H1; [..|eassumption|eassumption]; lia
          | eapply H2; [..|eassumption|eassumption]; lia ].
Qed.

(** The root of a heap is not before any cell of the heap. *)
Lemma heap_root_max first hi l r c y :
  0 <= first -> first + hi <= Z.of_nat (length l) ->
  heap_on first 0 hi l -> 0 <= c < hi ->
  slice_index l first = Some r -> slice_index l (first + c) = Some y ->
  before r y = false.
Proof.
  intros Hf Hlen Hheap [Hc0 Hc] Hr. revert Hc y. pattern c.
  apply Zlt_0_ind; [|done]. clear c Hc0. intros c IH Hc0 Hc y Hy.
  destruct (decide (c = 0)) as [->|].
  { rewrite Z.add_0_r in Hy. simplify_eq. by apply before_irrefl. }
  destruct (proj2 (slice_index_is_Some l (first + (c - 1) / 2))) as [z Hz]; [div_lia|].
  apply (before_ntrans before Hsw r z y).
  - apply (IH ((c - 1) / 2)); [div_lia|div_lia|done].
  - apply (Hheap ((c - 1) / 2) c); unfold child_of; done || div_lia.
Qed.

(** The exchange of the root with the last cell of the heap leaves a heap
    but at its root, one cell shorter. *)
Lemma heap_on_pop first i l :
  0 <= first -> 0 <= i -> first + i < Z.of_nat (length l) ->
  heap_on first 0 (i + 1) l -> heap_on first 1 i (slice_swap l first (first + i)).
Proof.
  intros Hf Hi Hlen Hheap p c x y Hp Hc Hci. unfold child_of in *.
  rewrite !slice_swap_lookup, !decide_False by lia. apply Hheap; unfold child_of; lia.
Qed.

(** It puts the greatest cell of the heap before the sorted cells. *)
Lemma heap_pop_sorted first hi i l :
  0 <= first -> 0 <= i < hi -> first + hi <= Z.of_nat (length l) ->
  heap_on first 0 (i + 1) l ->
  sorted_on before (first + i + 1) (first + hi) l ->
  dominated first (first + i + 1) (first + hi) l ->
  sorted_on before (first + i) (first + hi) (slice_swap l first (first + i)) /\
  dominated first (first + i) (first + hi) (slice_swap l first (first + i)).
Proof.
  intros Hf Hi Hlen Hheap Hs Hdom.
  destruct (proj2 (slice_index_is_Some l first)) as [r Hr]; [lia|].
  assert (forall k x, first <= k < first + i + 1 -> slice_index l k = Some x ->
            before r x = false) as Hmax.
  { intros k x Hk Hx. apply (heap_root_max first (i + 1) l r (k - first) x); try done || lia.
    by replace (first + (k - first)) with k by lia. }
  split; intros p q x y; intros; rewrite !slice_swap_lookup in * by lia;
    repeat case_decide; simplify_eq; try lia; same_cells;
    solve [ eapply Hmax; [|eassumption]; lia
          | eapply Hdom; [..|eassumption|eassumption]; lia
          | eapply Hs; [..|eassumption|eassumption]; lia ].
Qed.

(** The cells that dominate stay so when the dominated cells are permuted. *)
Lemma dominated_perm a m b l l' :
  0 <= a <= m -> perm_on a m l l' -> dominated a m b l -> dominated a m b l'.
Proof.
  intros Ham Hp Hdom p q x y Hpm Hq Hx Hy.
  rewrite (proj2 Hp q) in Hy by lia. revert p x Hpm Hx.
  change (range (fun x => before y x = false) l' a m).
  apply (range_perm _ a m l l'); [done..|]. intros p x Hpm Hx. by apply (Hdom p q).
Qed.

End heaps.

(** ** The sort *)

Section correctness.
Context {T K : Type} {I : Interface T} (elems : T -> list K) (before : K -> K -> bool).
Context {L : Lawful elems before}.
Hypothesis Hsw : strict_weak before.
Implicit Types (l : list K) (first lo hi root : Z).

(** The child chosen is a child of the root within the heap, and no child
    of the root is after it. *)
Lemma larger_child_spec hi first root l :
  0 <= first -> 0 <= root -> 2 * root + 1 < hi ->
  first + hi <= Z.of_nat (length l) ->
  wp elems before (larger_child hi first root)
    (fun big l' => l' = l /\ child_of root big /\ big < hi /\
       forall c yb y, child_of root c -> c < hi ->
         slice_index l (first + big) = Some yb ->
         slice_index l (first + c) = Some y -> before yb y = false) l.
Proof.
  intros Hf Hroot Hc Hlen. unfold larger_child, child_of.
  destruct (Z.ltb_spec (2 * root + 1 + 1) hi) as [H1|H1].
  - destruct (proj2 (slice_index_is_Some l (first + (2 * root + 1)))) as [y0 Hy0]; [lia|].
    destruct (proj2 (slice_index_is_Some l (first + (2 * root + 1) + 1))) as [y1 Hy1]; [lia|].
    wp_step. wp_step; [done..|]. wp_step.
    destruct (before y0 y1) eqn:Hlt; (split_and!; [done|lia|lia|]);
      intros c yb y [->| ->] Hhi Hb Hy; same_cells;
      auto using before_irrefl, before_asym.
  - wp_step. wp_step. wp_step. split_and!; [done|lia|lia|].
    intros c yb y [->| ->] Hhi Hb Hy; [|lia]. same_cells. by apply before_irrefl.
Qed.

(** One iteration of [siftDown]: it returns with a heap, or exchanges the
    root with a child and goes on with a heap but at this child. *)
Lemma siftDown_body_spec lo hi first root l :
  0 <= first -> 0 <= lo <= root -> first + hi <= Z.of_nat (length l) ->
  heap_but before first lo hi root l ->
  wp elems before (siftDown_body hi first root)
    (fun r l' =>
       match r with
       | inr _ => l' = l /\ heap_on before first lo hi l
       | inl child => root < child < hi /\
           l' = slice_swap l (first + root) (first + child) /\
           heap_but before first lo hi child l'
       end) l.
Proof.
  intros Hf Hlo Hlen Hb. unfold siftDown_body.
  destruct (Z.geb_spec (2 * root + 1) hi) as [Hge|Hlt].
  { wp_step. split; [done|]. eapply heap_but_done; [done|]. unfold child_of. lia. }
  wp_step. eapply wp_mono; [by apply larger_child_spec; lia|].
  intros big l' (-> & Hbig & Hhi & Hdom).
  assert (root < big) as Hbig' by (unfold child_of in Hbig; lia).
  destruct (proj2 (slice_index_is_Some l (first + root))) as [xr Hxr]; [lia|].
  destruct (proj2 (slice_index_is_Some l (first + big))) as [yb Hyb]; [lia|].
  wp_step. wp_step; [done..|]. destruct (before xr yb) eqn:Hlt'; cbn [negb].
  - wp_step. wp_step; [lia..|]. wp_step. split_and!; [lia..|done|].
    eapply heap_but_swap; eauto.
  - wp_step. split; [done|]. eapply heap_but_done; [done|].
    intros c x y Hc Hchi Hx Hy. same_cells.
    eapply before_ntrans; [done|exact Hlt'|]. by eapply Hdom.
Qed.

(** [siftDown] makes a heap of the cells [lo, hi) that are one but for
    [lo], exchanging cells of the heap only. *)
Lemma siftDown_spec lo hi first l :
  0 <= first -> 0 <= lo -> first + hi <= Z.of_nat (length l) ->
  heap_on before first (lo + 1) hi l ->
  wp elems before (siftDown lo hi first)
    (fun _ l' => perm_on (first + lo) (first + hi) l l' /\
                 heap_on before first lo hi l') l.
Proof.
  intros Hf Hlo Hlen Hheap. unfold siftDown.
  apply wp_loop_until with (P := fun root m l' =>
    perm_on (first + lo) (first + hi) l l' /\ heap_but before first lo hi root l' /\
    lo <= root /\ hi - root <= Z.of_nat m).
  { split_and!; [apply perm_on_refl|by apply heap_on_but|lia..]. }
  intros root m l1 (Hp & Hb & Hroot & Hm).
  eapply wp_mono; [apply (siftDown_body_spec lo); try done || lia|].
  { by rewrite (perm_on_length _ _ _ _ Hp). }
  intros [child|[]] l2; [intros (Hc & -> & Hb2)|by intros [-> ?]].
  exists (Nat.pred m). split_and!; [lia| |done|lia..].
  eapply perm_on_trans; [done|].
  apply perm_on_swap; rewrite ?(perm_on_length _ _ _ _ Hp); lia.
Qed.

(** One iteration of the second loop of [heapSort]. *)
Lemma heapSort_pop_spec first hi i l :
  0 <= first -> 0 <= i < hi -> first + hi <= Z.of_nat (length l) ->
  heap_on before first 0 (i + 1) l ->
  sorted_on before (first + i + 1) (first + hi) l ->
  dominated before first (first + i + 1) (first + hi) l ->
  wp elems before (swap first (first + i);; siftDown 0 i first)
    (fun _ l' => perm_on first (first + hi) l l' /\
       heap_on before first 0 i l' /\
       sorted_on before (first + i) (first + hi) l' /\
       dominated before first (first + i) (first + hi) l') l.
Proof.
  intros Hf Hi Hlen Hheap Hs Hdom. wp_step. wp_step; [lia..|].
  destruct (heap_pop_sorted before Hsw first hi i l) as [Hs1 Hdom1]; [done..|].
  pose proof (perm_on_swap first (first + hi) l first (first + i)) as Hp1.
  eapply wp_mono; [apply siftDown_spec; rewrite ?slice_swap_length; try lia|].
  { apply heap_on_pop; [lia..|done]. }
  intros _ l2 [Hp2 Hh2]. rewrite Z.add_0_r in Hp2. split_and!; [|done| |].
  - eapply perm_on_trans; [apply Hp1; lia|]. by eapply perm_on_weaken; [..|done]; lia.
  - by eapply sorted_on_perm_out; [done|lia|].
  - by eapply dominated_perm; [lia|done|].
Qed.

(** [heapSort] does not panic, permutes the cells of [a, b) only, and
    leaves them sorted. *)
Theorem heapSort_sorts a b l :
  0 <= a <= b -> b <= Z.of_nat (length l) ->
  wp elems before (heapSort a b)
    (fun _ l' => perm_on a b l l' /\ sorted_on before a b l') l.
Proof.
  intros Hab Hlen. unfold heapSort. cbv zeta. wp_step.
  apply wp_for_index with (P := fun i m l' =>
    perm_on a b l l' /\ heap_on before a (i + 1) (b - a) l' /\
    m = Z.to_nat (i + 1) /\ -1 <= i).
  { split_and!; [apply perm_on_refl| |done|div_lia]. apply heap_on_empty; div_lia. }
  { intros i m l1 (Hp & Hh & Hm & Hi).
    eapply wp_mono; [apply siftDown_spec; try done || lia|].
    { rewrite (perm_on_length _ _ _ _ Hp). lia. }
    intros _ l2 [Hp2 Hh2]. split_and!; [|by replace (i + -1 + 1) with i by lia|lia..].
    eapply perm_on_trans; [done|]. by eapply perm_on_weaken; [..|done]; lia. }
  intros i l1 (Hp & Hh & Hm & Hi). assert (i = -1) as -> by lia. clear Hm Hi.
  apply wp_for_index with (P := fun i m l' =>
    perm_on a b l l' /\ heap_on before a 0 (i + 1) l' /\
    sorted_on before (a + i + 1) b l' /\ dominated before a (a + i + 1) b l' /\
    m = Z.to_nat (i + 1) /\ -1 <= i < b - a).
  { replace (b - a - 1 + 1) with (b - a) by lia.
    split_and!; [done|done| | |lia..].
    - apply sorted_on_empty. lia.
    - intros p q x y ??. lia. }
  { intros i m l2 (Hp2 & Hh2 & Hs2 & Hd2 & Hm & Hi).
    replace b with (a + (b - a)) in Hs2, Hd2 by lia.
    eapply wp_mono; [apply (heapSort_pop_spec a (b - a)); try done || lia|].
    { rewrite (perm_on_length _ _ _ _ Hp2). lia. }
    replace (a + (b - a)) with b by lia. replace (a + (i + -1) + 1) with (a + i) by lia.
    replace (i + -1 + 1) with i by lia.
    intros _ l3 (Hp3 & ? & ? & ?). split_and!; try done || lia.
    by eapply perm_on_trans. }
  intros i l2 (Hp2 & _ & Hs2 & _ & Hm' & Hi'). assert (i = -1) as -> by lia.
  by replace (a + -1 + 1) with a in Hs2 by lia.
Qed.

End correctness.

End sort.
