(* ===== verification/QuickSort.v ===== *)
(** * [sort.Sort]: the quicksort of package [sort]

    [Sort] and the routines it is made of ([maxDepth], [quickSort],
    [doPivot], [medianOfThree]), written as sorters over [sort.Interface]
    after the text of the library (file [sort.go], with the quicksort it had
    until Go 1.18): a quicksort
    that chooses its pivot as a median, finishes ranges of at most 12 cells
    with a pass of Shell sort and an insertion sort, and falls back to
    [heapSort] when it has recursed [maxDepth] times.

    The theorems are proved against the contract [Lawful] with an order that
    is a strict weak order, for a slice whose length is an [int]:
    [doPivot] partitions its range around the pivot ([doPivot_spec]);
    [quickSort] sorts its range and leaves the other cells as they were;
    [Sort] does not panic and leaves a sorted permutation of the data
    ([Sort_sorts]).  [quickSort] recurses on [maxDepth], which decreases;
    the loops of [doPivot] are bounded by the number of cells between their
    two indices, and the proofs show that the bounds are never what stops
    them. *)

From Stdlib Require Import ZArith Lia.
From stdpp Require Import base tactics option list strings sorting.
From S2P Require Import Prelude Sort HeapSort.
Import Sort.sort HeapSort.sort.

#[local] Open Scope Z_scope.

Module sort.

(** [int(uint(lo+hi) >> 1)]: the sum is taken modulo [2 ^ 64] and halved as
    an unsigned number.  Earlier releases of the library wrote
    [lo + (hi-lo)/2], which is the same number on the indices of a slice
    ([midpoint_early]). *)
Definition midpoint (lo hi : Z) : Z :=
  int64_of_uint64 (Z.shiftr (wrap64 (lo + hi)) 1).

(** [for i := n; i > 0; i >>= 1 { depth++ }]: one iteration for each binary
    digit of [n]. *)
Fixpoint maxDepth_loop (i : positive) : Z :=
  match i with
  | xH => 1
  | xO i' | xI i' => maxDepth_loop i' + 1
  end.

(** [func maxDepth(n int) int]: a threshold at which quicksort should
    switch to heapsort. *)
Definition maxDepth (n : Z) : Z :=
  let depth := match n with Zpos i => maxDepth_loop i | _ => 0 end in
  depth * 2.

Section quick.
Context {T : Type} {I : Interface T}.

(** [func medianOfThree(data Interface, m1, m0, m2 int)] moves the median
    of the three values [data[m0]], [data[m1]], [data[m2]] into
    [data[m1]]. *)
Definition medianOfThree (m1 m0 m2 : Z) : Sorter T unit :=
  lt ← less m1 m0;
  (if lt : bool then swap m1 m0 else mret tt);;
  lt ← less m2 m1;
  if lt : bool then
    swap m2 m1;;
    lt ← less m1 m0;
    if lt : bool then swap m1 m0 else mret tt
  else mret tt.

(** The choice of the pivot of [doPivot]: the median of three cells, or of
    three medians of three for more than 40 cells, is moved to [lo]. *)
Definition choosePivot (lo hi m : Z) : Sorter T unit :=
  (if hi - lo >? 40 then
     let s := (hi - lo) `quot` 8 in
     medianOfThree lo (lo + s) (lo + 2 * s);;
     medianOfThree m (m - s) (m + s);;
     medianOfThree (hi - 1) (hi - 1 - s) (hi - 1 - 2 * s)
   else mret tt);;
  medianOfThree lo m (hi - 1).

(** The loops of [doPivot] that only move an index:
    [for ; a < c && data.Less(a, pivot); a++ {}],
    [for ; b < c && !data.Less(pivot, b); b++ {}],
    [for ; b < c && data.Less(pivot, c-1); c-- {}] and
    [for ; a < b && !data.Less(b-1, pivot); b-- {}]. *)
Definition skip_less (pivot a c : Z) : Sorter T Z :=
  while_index (fun a => less a pivot) 1 (fun _ => mret tt) a (Z.to_nat (c - a)).

Definition skip_not_greater (pivot b c : Z) : Sorter T Z :=
  while_index (fun b => lt ← less pivot b; mret (negb lt)) 1 (fun _ => mret tt)
    b (Z.to_nat (c - b)).

Definition skip_greater_down (pivot b c : Z) : Sorter T Z :=
  while_index (fun c => less pivot (c - 1)) (-1) (fun _ => mret tt)
    c (Z.to_nat (c - b)).

Definition skip_not_less_down (pivot a b : Z) : Sorter T Z :=
  while_index (fun b => lt ← less (b - 1) pivot; mret (negb lt)) (-1)
    (fun _ => mret tt) b (Z.to_nat (b - a)).

(** The first [for] loop of [doPivot]: the cells up to [b] are not after
    the pivot, the cells from [c] on are. *)
Definition partition (pivot b c : Z) : Sorter T (Z * Z) :=
  loop_until (fun '(b, c) =>
      b ← skip_not_greater pivot b c;
      c ← skip_greater_down pivot b c;
      if b >=? c then mret (inr (b, c))
      else swap b (c - 1);; mret (inl (b + 1, c - 1)))
    (b, c) (Z.to_nat (c - b)).

(** The test of some points for equality to the pivot: two of them mean a
    skewed distribution. *)
Definition count_dups (lo hi m pivot b c : Z) : Sorter T (Z * Z * bool) :=
  let dups := 0 in
  lt ← less pivot (hi - 1);
  '(c, dups) ← (if negb lt then swap c (hi - 1);; mret (c + 1, dups + 1)
                else mret (c, dups));
  lt ← less (b - 1) pivot;
  let '(b, dups) := if negb lt then (b - 1, dups + 1) else (b, dups) in
  lt ← less m pivot;
  '(b, dups) ← (if negb lt then swap m (b - 1);; mret (b - 1, dups + 1)
                else mret (b, dups));
  mret (b, c, dups >? 1).

(** The protection against a lot of duplicates: the cells equal to the
    pivot are gathered before [c]. *)
Definition gather_dups (pivot a b : Z) : Sorter T Z :=
  loop_until (fun '(a, b) =>
      b ← skip_not_less_down pivot a b;
      a ← skip_less pivot a b;
      if a >=? b then mret (inr b)
      else swap a (b - 1);; mret (inl (a + 1, b - 1)))
    (a, b) (Z.to_nat (b - a)).

(** [func doPivot(data Interface, lo, hi int) (midlo, midhi int)]. *)
Definition doPivot (lo hi : Z) : Sorter T (Z * Z) :=
  let m := midpoint lo hi in
  choosePivot lo hi m;;
  let pivot := lo in
  let a := lo + 1 in
  let c := hi - 1 in
  a ← skip_less pivot a c;
  let b := a in
  '(b, c) ← partition pivot b c;
  let protect := hi - c <? 5 in
  '(b, c, protect) ←
    (if negb protect && (hi - c <? (hi - lo) `quot` 4)
     then count_dups lo hi m pivot b c
     else mret (b, c, protect));
  b ← (if protect : bool then gather_dups pivot a b else mret b);
  swap pivot (b - 1);;
  mret (b - 1, c).

(** The pass of Shell sort with gap 6 on a range of at most 12 cells:
    [for i := a + 6; i < b; i++ {
       if data.Less(i, i-6) { data.Swap(i, i-6) } }]. *)
Definition shellPass (a b : Z) : Sorter T unit :=
  for_index 1 (fun i =>
      lt ← less i (i - 6);
      if lt : bool then swap i (i - 6) else mret tt)
    (a + 6) (Z.to_nat (b - (a + 6))).

(** [func quickSort(data Interface, a, b, maxDepth int)].  An iteration of
    its loop continues as a call of [quickSort] on one side of the pivot
    and as the next iteration on the other side, which is the same call;
    both are made with the decremented [maxDepth], on which the definition
    recurses. *)
Fixpoint quickSort_rec (maxDepth : nat) (a b : Z) : Sorter T unit :=
  if b - a >? 12 then
    match maxDepth with
    | O => heapSort a b
    | S maxDepth =>
      '(mlo, mhi) ← doPivot a b;
      if mlo - a <? b - mhi then
        quickSort_rec maxDepth a mlo;; quickSort_rec maxDepth mhi b
      else
        quickSort_rec maxDepth mhi b;; quickSort_rec maxDepth a mlo
    end
  else if b - a >? 1 then shellPass a b;; insertionSort a b
  else mret tt.

Definition quickSort (a b maxDepth : Z) : Sorter T unit :=
  quickSort_rec (Z.to_nat maxDepth) a b.

(** [func Sort(data Interface)]. *)
Definition Sort : Sorter T unit :=
  n ← len;
  quickSort 0 n (maxDepth n).

End quick.

(** ** Arithmetic *)

(** The midpoint is computed without overflow for the indices of a slice,
    whose sum may not be an [int]. *)
Lemma midpoint_spec lo hi :
  0 <= lo <= hi -> hi <= maxInt64 -> midpoint lo hi = (lo + hi) / 2.
Proof.
  unfold maxInt64. intros Hlo Hhi. unfold midpoint.
  rewrite wrap64_small by (unfold maxUint64; lia).
  rewrite Z.shiftr_div_pow2 by lia. change (2 ^ 1) with 2.
  apply int64_of_uint64_small. unfold maxInt64. div_lia.
Qed.

(** It is the midpoint of the releases that wrote [lo + (hi-lo)/2]. *)
Lemma midpoint_early lo hi :
  0 <= lo <= hi -> hi <= maxInt64 -> midpoint lo hi = lo + (hi - lo) `quot` 2.
Proof. intros Hlo Hhi. rewrite midpoint_spec by done. div_lia. Qed.

Lemma maxDepth_loop_spec i : maxDepth_loop i = Z.log2 (Zpos i) + 1.
Proof.
  induction i as [i IH|i IH|]; cbn [maxDepth_loop]; [| |done]; rewrite IH.
  - rewrite Pos2Z.inj_xI, Z.log2_succ_double by lia. lia.
  - rewrite Pos2Z.inj_xO, Z.log2_double by lia. lia.
Qed.

(** ** The order around a pivot *)

Section pivot.
Context {K : Type} (before : K -> K -> bool).
Hypothesis Hsw : strict_weak before.
Implicit Types (l : list K) (pv : K) (lo hi b c : Z).

(** A cell that is not after, not before, neither after nor before [pv]. *)
Definition le_pv pv (x : K) : Prop := before pv x = false.
Definition ge_pv pv (x : K) : Prop := before x pv = false.
Definition eq_pv pv (x : K) : Prop := le_pv pv x /\ ge_pv pv x.

(** The state of [doPivot] from its first loop on: the pivot is at [lo],
    the cells before [b] are not after it, the cells of [b, c) are
    equivalent to it and the cells from [c] on are not before it. *)
Definition parted lo hi pv b c l : Prop :=
  slice_index l lo = Some pv /\ lo + 1 <= b <= c /\ c <= hi /\
  range (le_pv pv) l (lo + 1) b /\ range (eq_pv pv) l b c /\
  range (ge_pv pv) l c hi.

(** The result of [doPivot]. *)
Definition partitioned lo hi mlo mhi pv l : Prop :=
  lo <= mlo < mhi /\ mhi <= hi /\
  range (le_pv pv) l lo mlo /\ range (eq_pv pv) l mlo mhi /\
  range (ge_pv pv) l mhi hi.

Lemma lt_le_pv pv x : before x pv = true -> le_pv pv x.
Proof. by apply before_asym. Qed.

Lemma gt_ge_pv pv x : before pv x = true -> ge_pv pv x.
Proof. by apply before_asym. Qed.

Lemma eq_pv_refl pv : eq_pv pv pv.
Proof. split; by apply before_irrefl. Qed.

(** A partition survives the permutation of the cells on one side of the
    pivot. *)
Lemma partitioned_perm lo hi mlo mhi pv a b l l' :
  0 <= lo -> partitioned lo hi mlo mhi pv l -> perm_on a b l l' ->
  a = lo /\ b = mlo \/ a = mhi /\ b = hi ->
  partitioned lo hi mlo mhi pv l'.
Proof.
  intros Hlo (Hm & Hhi & Hle & Heq & Hge) Hp Hab. split_and!; [lia..| | |].
  - destruct Hab as [[-> ->]|[-> ->]];
      [apply (range_perm _ _ _ l l')|apply (range_perm_out _ _ _ _ _ l l' Hp)];
      done || lia.
  - apply (range_perm_out _ _ _ _ _ l l' Hp); done || lia.
  - destruct Hab as [[-> ->]|[-> ->]];
      [apply (range_perm_out _ _ _ _ _ l l' Hp)|apply (range_perm _ _ _ l l')];
      done || lia.
Qed.

(** A partition whose two sides are sorted is sorted. *)
Lemma partitioned_sorted lo hi mlo mhi pv l :
  partitioned lo hi mlo mhi pv l ->
  sorted_on before lo mlo l -> sorted_on before mhi hi l ->
  sorted_on before lo hi l.
Proof.
  intros (Hm & Hhi & Hle & Heq & Hge) Hs1 Hs2.
  apply (sorted_on_join before Hsw lo mlo mhi hi pv); [lia..|done|done| |].
  - apply (range_app _ _ mlo); [done|]. by eapply range_impl; [|done]; intros ? [].
  - apply (range_app _ _ mhi); [|done]. by eapply range_impl; [|done]; intros ? [].
Qed.

(** The two sides of a partition are sorted one after the other, in any
    order: the range is sorted. *)
Lemma partitioned_sort_sides lo hi mlo mhi pv a1 b1 a2 b2 l1 l2 l3 :
  0 <= lo -> partitioned lo hi mlo mhi pv l1 ->
  a1 = lo /\ b1 = mlo /\ a2 = mhi /\ b2 = hi \/
  a1 = mhi /\ b1 = hi /\ a2 = lo /\ b2 = mlo ->
  perm_on a1 b1 l1 l2 -> sorted_on before a1 b1 l2 ->
  perm_on a2 b2 l2 l3 -> sorted_on before a2 b2 l3 ->
  perm_on lo hi l1 l3 /\ sorted_on before lo hi l3.
Proof.
  intros Hlo Hpart Hab Hp2 Hs2 Hp3 Hs3. pose proof Hpart as (Hm & Hhi & _).
  assert (partitioned lo hi mlo mhi pv l3) as Hpart3.
  { apply (partitioned_perm lo hi mlo mhi pv a2 b2 l2); [done| |done|lia].
    apply (partitioned_perm lo hi mlo mhi pv a1 b1 l1); [done..|lia]. }
  assert (sorted_on before a1 b1 l3) as Hs2'.
  { apply (sorted_on_perm_out _ _ _ a2 b2 l2); [done|lia|done]. }
  split.
  - apply (perm_on_trans _ _ _ l2);
      [apply (perm_on_weaken a1 b1)|apply (perm_on_weaken a2 b2)]; done || lia.
  - apply (partitioned_sorted lo hi mlo mhi pv); [done|..];
      destruct Hab as [(-> & -> & -> & ->)|(-> & -> & -> & ->)]; done.
Qed.

End pivot.

(** ** The loops that move an index *)

Section scans.
Context {T K : Type} {I : Interface T} (elems : T -> list K) (before : K -> K -> bool).
Context {L : Lawful elems before}.
Implicit Types (l : list K) (p : K -> bool).

(** The condition [cond j] reads the cell [ix j] and returns [p] of it. *)
Definition reads (cond : Z -> Sorter T bool) (ix : Z -> Z) p l : Prop :=
  forall j x (Q : bool -> list K -> Prop),
    slice_index l (ix j) = Some x -> Q (p x) l -> wp elems before (cond j) Q l.

(** A loop that moves its index up from [a] while [p] holds of the cell at
    the index, and to [c] at most. *)
Lemma wp_scan_up cond p a c l (Q : Z -> list K -> Prop) :
  reads cond (fun j => j) p l -> 0 <= a -> c <= Z.of_nat (length l) ->
  (forall a', a <= a' -> a' <= Z.max a c ->
     range (fun x => p x = true) l a a' ->
     (a' < c -> forall x, slice_index l a' = Some x -> p x = false) -> Q a' l) ->
  wp elems before
    (while_index cond 1 (fun _ => mret tt) a (Z.to_nat (c - a))) Q l.
Proof.
  intros Hreads Ha Hc HQ.
  apply wp_while_index with (P := fun j m l' =>
    l' = l /\ a <= j <= Z.max a c /\ m = Z.to_nat (c - j) /\
    range (fun x => p x = true) l a j).
  - split_and!; [done|lia..|by apply range_empty].
  - intros j m ? (-> & Hj & Hm & Hr).
    destruct (proj2 (slice_index_is_Some l j)) as [x Hx]; [lia|].
    apply (Hreads j x); [done|]. destruct (p x) eqn:Hp.
    + wp_step. split_and!; [done|lia..|]. apply range_snoc; [done|]. congruence.
    + apply HQ; [lia..|done|]. congruence.
  - intros j ? (-> & Hj & Hm & Hr). apply HQ; [lia..|done|lia].
Qed.

(** A loop that moves its index down from [c] while [p] holds of the cell
    before the index, and to [b] at most. *)
Lemma wp_scan_down cond p b c l (Q : Z -> list K -> Prop) :
  reads cond (fun j => j - 1) p l -> 0 <= b -> c <= Z.of_nat (length l) ->
  (forall c', Z.min b c <= c' -> c' <= c ->
     range (fun x => p x = true) l c' c ->
     (b < c' -> forall x, slice_index l (c' - 1) = Some x -> p x = false) -> Q c' l) ->
  wp elems before
    (while_index cond (-1) (fun _ => mret tt) c (Z.to_nat (c - b))) Q l.
Proof.
  intros Hreads Hb Hc HQ.
  apply wp_while_index with (P := fun j m l' =>
    l' = l /\ Z.min b c <= j <= c /\ m = Z.to_nat (j - b) /\
    range (fun x => p x = true) l j c).
  - split_and!; [done|lia..|by apply range_empty].
  - intros j m ? (-> & Hj & Hm & Hr).
    destruct (proj2 (slice_index_is_Some l (j - 1))) as [x Hx]; [lia|].
    apply (Hreads j x); [done|]. destruct (p x) eqn:Hp.
    + wp_step. split_and!; [done|lia..|].
      replace (j + -1) with (j - 1) by lia. apply range_cons; [done|]. congruence.
    + apply HQ; [lia..|done|]. congruence.
  - intros j ? (-> & Hj & Hm & Hr). apply HQ; [lia..|done|lia].
Qed.

Lemma reads_less_l pivot pv l :
  slice_index l pivot = Some pv ->
  reads (fun a => less a pivot) (fun j => j) (fun x => before x pv) l.
Proof. intros Hpv j x Q Hx HQ. by wp_steps. Qed.

Lemma reads_not_less_r pivot pv l :
  slice_index l pivot = Some pv ->
  reads (fun b => lt ← less pivot b; mret (negb lt)) (fun j => j)
    (fun x => negb (before pv x)) l.
Proof. intros Hpv j x Q Hx HQ. by wp_steps. Qed.

Lemma reads_less_r_down pivot pv l :
  slice_index l pivot = Some pv ->
  reads (fun c => less pivot (c - 1)) (fun j => j - 1) (fun x => before pv x) l.
Proof. intros Hpv j x Q Hx HQ. by wp_steps. Qed.

Lemma reads_not_less_l_down pivot pv l :
  slice_index l pivot = Some pv ->
  reads (fun b => lt ← less (b - 1) pivot; mret (negb lt)) (fun j => j - 1)
    (fun x => negb (before x pv)) l.
Proof. intros Hpv j x Q Hx HQ. by wp_steps. Qed.

End scans.

(** ** The choice of the pivot *)

Section median.
Context {T K : Type} {I : Interface T} (elems : T -> list K) (before : K -> K -> bool).
Context {L : Lawful elems before}.
Hypothesis Hsw : strict_weak before.
Implicit Types (l : list K).

(** [medianOfThree] leaves the three cells in order, the median at [m1]. *)
Lemma medianOfThree_spec lo hi m1 m0 m2 l :
  0 <= lo -> hi <= Z.of_nat (length l) ->
  lo <= m0 < hi -> lo <= m1 < hi -> lo <= m2 < hi ->
  m0 <> m1 -> m1 <> m2 -> m0 <> m2 ->
  wp elems before (medianOfThree m1 m0 m2)
    (fun _ l' => perm_on lo hi l l' /\
       forall x0 x1 x2, slice_index l' m0 = Some x0 ->
         slice_index l' m1 = Some x1 -> slice_index l' m2 = Some x2 ->
         before x1 x0 = false /\ before x2 x1 = false) l.
Proof.
  intros Hlo Hhi H0 H1 H2 H01 H12 H02. unfold medianOfThree.
  destruct (proj2 (slice_index_is_Some l m0)) as [y0 Hy0]; [lia|].
  destruct (proj2 (slice_index_is_Some l m1)) as [y1 Hy1]; [lia|].
  destruct (proj2 (slice_index_is_Some l m2)) as [y2 Hy2]; [lia|].
  wp_steps; (split; [perm_on_swaps|]); intros x0 x1 x2 Hx0 Hx1 Hx2;
    swap_cells in Hx0; swap_cells in Hx1; swap_cells in Hx2; same_cells;
    split; first [assumption | by apply before_asym].
Qed.

(** [choosePivot] leaves at [lo] a pivot that the last cell is not
    before. *)
Lemma choosePivot_spec lo hi l :
  0 <= lo -> hi <= Z.of_nat (length l) -> 12 < hi - lo ->
  wp elems before (choosePivot lo hi ((lo + hi) / 2))
    (fun _ l' => perm_on lo hi l l' /\
       forall x y, slice_index l' lo = Some x -> slice_index l' (hi - 1) = Some y ->
         before y x = false) l.
Proof.
  intros Hlo Hhi Hn. unfold choosePivot. wp_step.
  apply wp_mono with (Q := fun _ l' => perm_on lo hi l l').
  - destruct (Z.gtb_spec (hi - lo) 40) as [H40|H40]; [|by wp_step]. cbv zeta.
    wp_step. eapply wp_mono; [apply (medianOfThree_spec lo hi); div_lia|].
    intros _ l1 [Hp1 _]. wp_step.
    eapply wp_mono; [apply (medianOfThree_spec lo hi); perm_lia|].
    intros _ l2 [Hp2 _].
    eapply wp_mono; [apply (medianOfThree_spec lo hi); perm_lia|].
    intros _ l3 [Hp3 _]. eauto using perm_on_trans.
  - intros _ l1 Hp1.
    eapply wp_mono; [apply (medianOfThree_spec lo hi); perm_lia|].
    intros _ l2 [Hp2 Hm]. split; [by eapply perm_on_trans|]. intros x y Hx Hy.
    destruct (proj2 (slice_index_is_Some l2 ((lo + hi) / 2))) as [z Hz]; [perm_lia|].
    by destruct (Hm z x y).
Qed.

End median.

(** ** The partition *)

Section partition.
Context {T K : Type} {I : Interface T} (elems : T -> list K) (before : K -> K -> bool).
Context {L : Lawful elems before}.
Hypothesis Hsw : strict_weak before.
Implicit Types (l : list K) (pv : K) (lo hi a b c : Z).

(** One iteration of the first loop: the two indices have met, or they
    move over two cells that are exchanged. *)
Lemma partition_body_spec lo hi pv b c l :
  0 <= lo -> hi <= Z.of_nat (length l) -> slice_index l lo = Some pv ->
  lo + 1 <= b <= c -> c <= hi - 1 ->
  range (le_pv before pv) l (lo + 1) b -> range (ge_pv before pv) l c hi ->
  wp elems before
    (b ← skip_not_greater lo b c;
     c ← skip_greater_down lo b c;
     if b >=? c then mret (inr (b, c))
     else swap b (c - 1);; mret (inl (b + 1, c - 1)))
    (fun r l' =>
       match r with
       | inr (b', c') => l' = l /\ b' = c' /\ parted before lo hi pv b' c' l
       | inl (b', c') => b < b' /\ b' <= c' /\ c' < c /\
           perm_on (lo + 1) (hi - 1) l l' /\
           range (le_pv before pv) l' (lo + 1) b' /\
           range (ge_pv before pv) l' c' hi
       end) l.
Proof.
  intros Hlo Hhi Hpv Hb Hc Hle Hge. wp_step.
  apply wp_scan_up with (p := fun x => negb (before pv x));
    [by apply reads_not_less_r|lia..|].
  intros b2 Hb2 Hb2' Hr Hstop. wp_step.
  apply wp_scan_down with (p := fun x => before pv x);
    [by apply reads_less_r_down|lia..|].
  intros c2 Hc2 Hc2' Hr2 Hstop2.
  assert (range (le_pv before pv) l (lo + 1) b2) as Hle2.
  { apply (range_app _ _ b); [done|]. eapply range_impl; [|done].
    intros x. by rewrite negb_true_iff. }
  assert (range (ge_pv before pv) l c2 hi) as Hge2.
  { apply (range_app _ _ c); [|done]. eapply range_impl; [|done].
    intros x. by apply gt_ge_pv. }
  destruct (Z.geb_spec b2 c2) as [Hbc|Hbc].
  { wp_step. split_and!; [done|lia|]. assert (b2 = c2) as <- by lia.
    split_and!; [done|lia..|done|by apply range_empty|done]. }
  destruct (proj2 (slice_index_is_Some l b2)) as [xb Hxb]; [lia|].
  destruct (proj2 (slice_index_is_Some l (c2 - 1))) as [xc Hxc]; [lia|].
  pose proof (Hstop ltac:(lia) xb Hxb) as Hgt. apply negb_false_iff in Hgt.
  pose proof (Hstop2 ltac:(lia) xc Hxc) as Hngt.
  assert (b2 <> c2 - 1) by (intros ->; congruence).
  wp_steps. split_and!; [lia..|apply perm_on_swap; lia| |].
  - apply range_swap; [lia..| | |].
    + intros k x Hk ??. apply Hle2. lia.
    + intros _ x Hx. by same_cells.
    + lia.
  - apply range_swap; [lia..| | |].
    + intros k x Hk ??. apply Hge2. lia.
    + lia.
    + intros _ x Hx. same_cells. by apply gt_ge_pv.
Qed.

(** The first loop of [doPivot] ends with the cells before [b] not after
    the pivot and the cells from [b] on not before it. *)
Lemma partition_spec lo hi pv b c l :
  0 <= lo -> hi <= Z.of_nat (length l) -> slice_index l lo = Some pv ->
  lo + 1 <= b <= c -> c <= hi - 1 ->
  range (le_pv before pv) l (lo + 1) b -> range (ge_pv before pv) l c hi ->
  wp elems before (partition lo b c)
    (fun '(b', c') l' => perm_on (lo + 1) (hi - 1) l l' /\ b' = c' /\
       parted before lo hi pv b' c' l') l.
Proof.
  intros Hlo Hhi Hpv Hb Hc Hle Hge. unfold partition.
  apply wp_loop_until with (P := fun '(b, c) m l' =>
    perm_on (lo + 1) (hi - 1) l l' /\ lo + 1 <= b <= c /\ c <= hi - 1 /\
    range (le_pv before pv) l' (lo + 1) b /\ range (ge_pv before pv) l' c hi /\
    c - b <= Z.of_nat m).
  { split_and!; [apply perm_on_refl|lia..|done|done|lia]. }
  intros [b1 c1] m l1 (Hp & Hb1 & Hc1 & Hle1 & Hge1 & Hm).
  eapply wp_mono; [apply (partition_body_spec lo hi pv); try done; try perm_lia|].
  { rewrite (proj2 Hp); [done|lia]. }
  intros [[b2 c2]|[b2 c2]] l2.
  - intros (? & ? & ? & Hp2 & ? & ?). exists (Nat.pred m).
    split_and!; [lia|by eapply perm_on_trans|lia..|done|done|lia].
  - by intros (-> & -> & ?).
Qed.

(** The tests for equality to the pivot keep the state of [doPivot]: the
    cells found equal are moved between [b] and [c]. *)
Lemma count_dups_spec lo hi pv b l :
  0 <= lo -> hi <= Z.of_nat (length l) -> 12 < hi - lo ->
  5 <= hi - b -> hi - b < (hi - lo) `quot` 4 ->
  parted before lo hi pv b b l ->
  wp elems before (count_dups lo hi ((lo + hi) / 2) lo b b)
    (fun '(b', c', _) l' => perm_on (lo + 1) hi l l' /\
       parted before lo hi pv b' c' l') l.
Proof.
  intros Hlo Hhi Hn H5 H4 (Hpv & Hb & Hc & Hle & Heq & Hge).
  assert (lo + 6 <= (lo + hi) / 2 < b - 2) as Hm by div_lia.
  generalize dependent ((lo + hi) / 2). intros m Hm. clear H4.
  destruct (proj2 (slice_index_is_Some l (hi - 1))) as [xh Hxh]; [lia|].
  destruct (proj2 (slice_index_is_Some l (b - 1))) as [xb Hxb]; [lia|].
  destruct (proj2 (slice_index_is_Some l m)) as [xm Hxm]; [lia|].
  pose proof (Hge (hi - 1) xh ltac:(lia) Hxh) as Hxh_ge.
  pose proof (Hle (b - 1) xb ltac:(lia) Hxb) as Hxb_le.
  pose proof (Hle m xm ltac:(lia) Hxm) as Hxm_le.
  unfold count_dups. wp_steps; negb_hyps; (split; [perm_on_swaps|]);
    (split_and!; [by swap_cells|lia..| | |]);
    range_cells ltac:(
      first [ lia
            | eapply Hle; [|eassumption]; lia
            | eapply Hge; [|eassumption]; lia
            | by split ]).
Qed.

(** One iteration of the loop that gathers the duplicates of the pivot. *)
Lemma gather_dups_body_spec lo hi pv a b c l :
  0 <= lo -> hi <= Z.of_nat (length l) -> lo + 1 <= a ->
  parted before lo hi pv b c l ->
  wp elems before
    (b ← skip_not_less_down lo a b;
     a ← skip_less lo a b;
     if a >=? b then mret (inr b)
     else swap a (b - 1);; mret (inl (a + 1, b - 1)))
    (fun r l' =>
       match r with
       | inr b' => l' = l /\ parted before lo hi pv b' c l
       | inl (a', b') => a < a' /\ a' <= b' /\ b' < b /\
           perm_on (lo + 1) hi l l' /\ parted before lo hi pv b' c l'
       end) l.
Proof.
  intros Hlo Hhi Ha (Hpv & Hb & Hc & Hle & Heq & Hge). wp_step.
  apply wp_scan_down with (p := fun x => negb (before x pv));
    [by apply reads_not_less_l_down|lia..|].
  intros b2 Hb2 Hb2' Hr Hstop. wp_step.
  apply wp_scan_up with (p := fun x => before x pv);
    [by apply reads_less_l|lia..|].
  intros a2 Ha2 Ha2' _ Hstop2.
  assert (parted before lo hi pv b2 c l) as Hparted.
  { split_and!; [done|lia..| | |done].
    - eapply range_weaken; [..|done]; lia.
    - apply (range_app _ _ b); [|done]. intros k x Hk Hx. split.
      + apply (Hle k); [lia|done].
      + apply negb_true_iff. by apply (Hr k). }
  destruct (Z.geb_spec a2 b2) as [Hab|Hab]; [by wp_step|].
  destruct (proj2 (slice_index_is_Some l a2)) as [xa Hxa]; [lia|].
  destruct (proj2 (slice_index_is_Some l (b2 - 1))) as [xb Hxb]; [lia|].
  pose proof (Hstop ltac:(lia) xb Hxb) as Hlt. apply negb_false_iff in Hlt.
  pose proof (Hstop2 ltac:(lia) xa Hxa) as Hge_a.
  pose proof (Hle a2 xa ltac:(lia) Hxa) as Hle_a.
  assert (a2 <> b2 - 1) by (intros ->; congruence).
  destruct Hparted as (_ & _ & _ & Hle2 & Heq2 & _).
  wp_steps.
  split_and!; [lia|lia|lia|apply perm_on_swap; lia|].
  split_and!; [by swap_cells|lia|lia|lia| | |];
    range_cells ltac:(
      first [ lia
            | by apply lt_le_pv
            | eapply Hle2; [|eassumption]; lia
            | eapply Heq2; [|eassumption]; lia
            | eapply Hge; [|eassumption]; lia
            | by split ]).
Qed.

(** The cells equal to the pivot are gathered between [b] and [c]. *)
Lemma gather_dups_spec lo hi pv a b c l :
  0 <= lo -> hi <= Z.of_nat (length l) -> lo + 1 <= a ->
  parted before lo hi pv b c l ->
  wp elems before (gather_dups lo a b)
    (fun b' l' => perm_on (lo + 1) hi l l' /\ parted before lo hi pv b' c l') l.
Proof.
  intros Hlo Hhi Ha Hparted. unfold gather_dups.
  apply wp_loop_until with (P := fun '(a, b) m l' =>
    perm_on (lo + 1) hi l l' /\ lo + 1 <= a /\ parted before lo hi pv b c l' /\
    b - a <= Z.of_nat m).
  { split_and!; [apply perm_on_refl|lia|done|lia]. }
  intros [a1 b1] m l1 (Hp & Ha1 & Hparted1 & Hm).
  eapply wp_mono; [apply (gather_dups_body_spec lo hi pv a1 b1 c); try done; perm_lia|].
  intros [[a2 b2]|b2] l2.
  - intros (? & ? & ? & Hp2 & ?). exists (Nat.pred m).
    split_and!; [lia|by eapply perm_on_trans|lia|done|lia].
  - by intros (-> & ?).
Qed.

(** The pivot is exchanged with the last cell that is not after it. *)
Lemma parted_partitioned lo hi pv b c l :
  0 <= lo -> hi <= Z.of_nat (length l) ->
  parted before lo hi pv b c l ->
  partitioned before lo hi (b - 1) c pv (slice_swap l lo (b - 1)).
Proof.
  intros Hlo Hhi (Hpv & Hb & Hc & Hle & Heq & Hge).
  split_and!; [lia..| | |];
    range_cells ltac:(
      first [ lia
            | by apply before_irrefl
            | by apply eq_pv_refl
            | eapply Hle; [|eassumption]; lia
            | eapply Heq; [|eassumption]; lia
            | eapply Hge; [|eassumption]; lia ]).
Qed.

(** [doPivot] permutes the cells of [lo, hi) into three parts: the cells
    that are not after the pivot, cells equivalent to the pivot, of which
    there is one at least, and the cells that are not before it. *)
Theorem doPivot_spec lo hi l :
  0 <= lo -> hi <= Z.of_nat (length l) -> Z.of_nat (length l) <= maxInt64 ->
  12 < hi - lo ->
  wp elems before (doPivot lo hi)
    (fun '(mlo, mhi) l' => perm_on lo hi l l' /\
       exists pv, partitioned before lo hi mlo mhi pv l') l.
Proof.
  intros Hlo Hhi Hmax Hn. unfold doPivot. cbv zeta.
  rewrite midpoint_spec by lia. wp_step.
  eapply wp_mono; [by apply choosePivot_spec|]. intros _ l1 [Hp1 Hlast].
  destruct (proj2 (slice_index_is_Some l1 lo)) as [pv Hpv]; [perm_lia|].
  wp_step. apply wp_scan_up with (p := fun x => before x pv);
    [by apply reads_less_l|perm_lia..|].
  intros a Ha Ha' Hr _. wp_step.
  eapply wp_mono; [apply (partition_spec lo hi pv); try done; try perm_lia|].
  { eapply range_impl; [|done]. apply lt_le_pv, Hsw. }
  { intros k x Hk Hx. assert (k = hi - 1) as -> by lia. by apply (Hlast pv). }
  intros [b c] l2 (Hp2 & <- & Hparted). wp_step.
  apply wp_mono with (Q := fun '(b', c', _) l' =>
    perm_on (lo + 1) hi l2 l' /\ parted before lo hi pv b' c' l').
  { destruct Hparted as (? & ? & ? & ?).
    destruct (negb (hi - b <? 5) && (hi - b <? (hi - lo) `quot` 4)) eqn:Hd.
    - apply andb_true_iff in Hd as [H5%negb_true_iff%Z.ltb_ge H4%Z.ltb_lt].
      apply count_dups_spec; try done; perm_lia.
    - wp_step. split; [apply perm_on_refl|done]. }
  intros [[b3 c3] protect] l3 [Hp3 Hparted3]. wp_step.
  apply wp_mono with (Q := fun b' l' =>
    perm_on (lo + 1) hi l3 l' /\ parted before lo hi pv b' c3 l').
  { destruct protect; [|by wp_step; split; [apply perm_on_refl|]].
    apply (gather_dups_spec lo hi pv); try done; perm_lia. }
  intros b4 l4 [Hp4 Hparted4]. pose proof Hparted4 as (? & ? & ? & ?).
  wp_step. wp_step; [perm_lia..|]. wp_step. split.
  - apply (perm_on_trans _ _ _ l1); [done|].
    apply (perm_on_trans _ _ _ l2); [by eapply perm_on_weaken; [..|done]; lia|].
    apply (perm_on_trans _ _ _ l3); [by eapply perm_on_weaken; [..|done]; lia|].
    apply (perm_on_trans _ _ _ l4); [by eapply perm_on_weaken; [..|done]; lia|].
    apply perm_on_swap; perm_lia.
  - exists pv. apply parted_partitioned; [done|perm_lia|done].
Qed.

End partition.

(** ** The sort *)

Section correctness.
Context {T K : Type} {I : Interface T} (elems : T -> list K) (before : K -> K -> bool).
Context {L : Lawful elems before}.
Hypothesis Hsw : strict_weak before.
Implicit Types (l : list K) (a b : Z).

Lemma shellPass_spec a b l :
  0 <= a -> b <= Z.of_nat (length l) ->
  wp elems before (shellPass a b) (fun _ l' => perm_on a b l l') l.
Proof.
  intros Ha Hb. unfold shellPass.
  apply wp_for_index with (P := fun i m l' =>
    perm_on a b l l' /\ m = Z.to_nat (b - i) /\ a + 6 <= i).
  - split_and!; [apply perm_on_refl|lia..].
  - intros i m l1 (Hp & Hm & Hi).
    destruct (proj2 (slice_index_is_Some l1 i)) as [x Hx]; [perm_lia|].
    destruct (proj2 (slice_index_is_Some l1 (i - 6))) as [y Hy]; [perm_lia|].
    wp_step. wp_step; [done..|]. destruct (before x y).
    + wp_step; [perm_lia..|]. split_and!; [|lia..].
      eapply perm_on_trans; [done|]. apply perm_on_swap; perm_lia.
    + wp_step. split_and!; [done|lia..].
  - by intros i l1 (Hp & _).
Qed.

(** A range of at most 12 cells. *)
Lemma quickSort_small_spec a b l :
  0 <= a <= b -> b <= Z.of_nat (length l) ->
  wp elems before
    (if b - a >? 1 then shellPass a b;; insertionSort a b else mret tt)
    (fun _ l' => perm_on a b l l' /\ sorted_on before a b l') l.
Proof.
  intros Hab Hlen. destruct (Z.gtb_spec (b - a) 1) as [H1|H1].
  - wp_step. eapply wp_mono; [apply shellPass_spec; lia|]. intros ? l1 Hp1.
    cbv beta in Hp1.
    eapply wp_mono; [apply (insertionSort_range elems before); [done|done|perm_lia]|].
    intros _ l2 [Hp2 Hs2]. split; [by eapply perm_on_trans|done].
  - wp_step. split; [apply perm_on_refl|]. apply sorted_on_empty. lia.
Qed.

(** [quickSort] does not panic, permutes the cells of [a, b) only, and
    leaves them sorted, whatever [maxDepth] is. *)
Lemma quickSort_rec_spec maxDepth a b l :
  0 <= a <= b -> b <= Z.of_nat (length l) -> Z.of_nat (length l) <= maxInt64 ->
  wp elems before (quickSort_rec maxDepth a b)
    (fun _ l' => perm_on a b l l' /\ sorted_on before a b l') l.
Proof.
  revert a b l. induction maxDepth as [|d IH]; intros a b l Hab Hlen Hmax;
    cbn [quickSort_rec]; (destruct (Z.gtb_spec (b - a) 12) as [H12|H12];
      [|by apply quickSort_small_spec]).
  { by apply heapSort_sorts. }
  wp_step. eapply wp_mono; [by apply doPivot_spec; try lia|].
  intros [mlo mhi] l1 (Hp1 & pv & Hpart). pose proof Hpart as (Hm & Hhi & _).
  assert (forall a1 b1 a2 b2,
    a1 = a /\ b1 = mlo /\ a2 = mhi /\ b2 = b \/
    a1 = mhi /\ b1 = b /\ a2 = a /\ b2 = mlo ->
    wp elems before (quickSort_rec d a1 b1;; quickSort_rec d a2 b2)
      (fun _ l' => perm_on a b l l' /\ sorted_on before a b l') l1) as Hsides.
  { intros a1 b1 a2 b2 Hsides. wp_step.
    eapply wp_mono; [apply IH; perm_lia|]. intros _ l2 [Hp2 Hs2].
    eapply wp_mono; [apply IH; perm_lia|]. intros _ l3 [Hp3 Hs3].
    destruct (partitioned_sort_sides before Hsw a b mlo mhi pv a1 b1 a2 b2 l1 l2 l3)
      as [Hp Hs]; [lia|done..|].
    split; [by eapply perm_on_trans|done]. }
  destruct (mlo - a <? b - mhi); apply Hsides; lia.
Qed.

(** [Sort] on a lawful implementation whose [Less] decides a strict weak
    order, for data whose length is an [int]: it does not panic, and
    leaves a permutation of the data in which no cell is before a cell that
    precedes it. *)
Theorem Sort_sorts l :
  Z.of_nat (length l) <= maxInt64 ->
  wp elems before Sort (fun _ l' => l' ≡ₚ l /\ sorted before l') l.
Proof.
  intros Hmax. unfold Sort, quickSort. wp_step. wp_step.
  eapply wp_mono; [by apply quickSort_rec_spec; try lia|].
  intros _ l' [Hp Hs]. split; [apply Hp|].
  apply sorted_on_segment in Hs; [|lia].
  by rewrite <- (perm_on_length _ _ _ _ Hp), segment_all in Hs.
Qed.

(** Where no two cells are equivalent for the order, [Sort] computes the
    reference sort: the quicksort of the library and the insertion sort of
    a list give the same slice. *)
Theorem Sort_isort l :
  Z.of_nat (length l) <= maxInt64 ->
  (forall x y, x ∈ l -> y ∈ l -> before x y = false -> before y x = false -> x = y) ->
  wp elems before Sort (fun _ l' => l' = isort before l) l.
Proof.
  intros Hmax Hanti. eapply wp_mono; [by apply Sort_sorts|]. intros _ l' [Hp Hs].
  apply (StronglySorted_unique_strong (fun x y => before y x = false));
    [|done|by apply isort_sorted|by rewrite isort_perm].
  intros x y Hx Hy ??. rewrite Hp in Hx. rewrite isort_perm in Hy. by apply Hanti.
Qed.

End correctness.

(** [maxDepth] returns [2*ceil(lg(n+1))], as its comment says. *)
Lemma maxDepth_spec n : 0 <= n -> maxDepth n = 2 * Z.log2_up (n + 1).
Proof.
  intros Hn. unfold maxDepth. destruct n as [|i|i]; [done| |lia].
  rewrite maxDepth_loop_spec, Z.log2_up_eqn by lia.
  replace (Z.pred (Z.pos i + 1)) with (Z.pos i) by lia. lia.
Qed.

End sort.
