(* ===== verification/RedditIdSlice.v ===== *)
(** * [RedditIdSlice]: the sort interface over reddit ids

    [Len], [Less] and [Swap] of [src/reddit/redditbot.go], lines 171-198.
    An index outside the slice panics in Go: the operations return [None]
    there.  [Less] logs each id that fails to parse and still compares the
    values [strconv.ParseInt] returned with the errors; its result carries
    the log lines it wrote.  The theorems: [Less] compares the keys [decode],
    so it is a strict weak order whatever the ids are; on well-formed ids the
    key is the number the id denotes in base 36; what the key of a malformed
    id is; [Swap] exchanges two cells.  The last part makes [RedditIdSlice]
    an implementation of [sort.Interface], shows that it keeps the contract
    [sort.Lawful] of the library's sort, and runs the sort on ids: the
    order of the ids [sort.Sort] returns, its agreement with a plain
    insertion sort, the termination of [quickSort] and the three parts
    [doPivot] leaves. *)

From Stdlib Require Import ZArith Lia Ascii.
From stdpp Require Import base tactics option list strings sorting.
From S2P Require Import Prelude Strconv Sort HeapSort QuickSort.

#[local] Open Scope Z_scope.

(** ** The operations *)

(** [type RedditIdSlice []string]. *)
Definition RedditIdSlice : Type := list string.

(** [func (r RedditIdSlice) Len() int]. *)
Definition Len (r : RedditIdSlice) : Z := Z.of_nat (length r).

(** [if err != nil { logrus.WithError(err).Error("Failed parsing id") }]. *)
Definition log_parse_failure (err : option error) : list LogEntry :=
  match err with
  | Some e => [log_error e "Failed parsing id"]
  | None => []
  end.

(** [func (r RedditIdSlice) Less(i, j int) bool]: the order [a > b] on the
    decoded ids, and the lines logged. *)
Definition Less (r : RedditIdSlice) (i j : Z) : option (bool * list LogEntry) :=
  ri ← slice_index r i;
  let '(a, err1) := ParseInt ri 36 64 in
  rj ← slice_index r j;
  let '(b, err2) := ParseInt rj 36 64 in
  Some (b <? a, log_parse_failure err1 ++ log_parse_failure err2).

(** [func (r RedditIdSlice) Swap(i, j int)]. *)
Definition Swap (r : RedditIdSlice) (i j : Z) : option RedditIdSlice :=
  temp ← slice_index r i;
  rj ← slice_index r j;
  r' ← slice_store r i rj;
  slice_store r' j temp.

(** ** The key [Less] compares *)

(** The value [Less] gives an id: what [ParseInt] returns, error or not. *)
Definition decode (id : string) : Z := (ParseInt id 36 64).1.

(** An id [ParseInt] accepts. *)
Definition parses (id : string) : Prop := (ParseInt id 36 64).2 = None.

(** A canonical id: a non-empty string of base-36 digits whose number fits
    [int64]. *)
Definition well_formed (id : string) : Prop :=
  id <> EmptyString /\ all_digits 36 id = true /\ digits_value 36 id 0 <= maxInt64.

(** The order of the sort on ids: [a] comes before [b]. *)
Definition id_before (a b : string) : Prop := decode b < decode a.

#[export] Instance parses_dec id : Decision (parses id).
Proof. unfold parses. apply _. Defined.

#[export] Instance well_formed_dec id : Decision (well_formed id).
Proof. unfold well_formed. apply _. Defined.

#[export] Instance id_before_dec a b : Decision (id_before a b).
Proof. unfold id_before. apply _. Defined.

(** ** [Less] *)

Lemma Less_eq r i j a b :
  slice_index r i = Some a -> slice_index r j = Some b ->
  Less r i j =
    Some (decode b <? decode a,
          log_parse_failure (ParseInt a 36 64).2 ++
          log_parse_failure (ParseInt b 36 64).2).
Proof.
  intros Hi Hj. unfold Less, decode. rewrite Hi. simpl.
  destruct (ParseInt a 36 64) as [va ea]. rewrite Hj. simpl.
  by destruct (ParseInt b 36 64) as [vb eb].
Qed.

Lemma ltb_id_before a b : (decode b <? decode a) = bool_decide (id_before a b).
Proof. apply ltb_bool_decide. Qed.

Lemma Less_None r i j :
  Less r i j = None <-> ~ (0 <= i < Len r /\ 0 <= j < Len r).
Proof.
  unfold Len. split.
  - intros HL [Hi Hj].
    apply slice_index_is_Some in Hi as [a Ha]. apply slice_index_is_Some in Hj as [b Hb].
    by rewrite (Less_eq _ _ _ _ _ Ha Hb) in HL.
  - intros Hn. unfold Less.
    destruct (slice_index r i) as [a|] eqn:Hi; [|done]. simpl.
    destruct (ParseInt a 36 64). 
    destruct (slice_index r j) as [b|] eqn:Hj; [|done].
    exfalso. apply Hn. split; apply slice_index_is_Some; eauto.
Qed.

(** ** [id_before] is a strict weak order *)

#[export] Instance id_before_strict : StrictOrder id_before.
Proof.
  split.
  - intros a. unfold complement, id_before. lia.
  - intros a b c. unfold id_before. lia.
Qed.

Lemma id_before_neg_trans a b c :
  ~ id_before a b -> ~ id_before b c -> ~ id_before a c.
Proof. unfold id_before. lia. Qed.

Lemma id_before_total_on_keys a b :
  ~ id_before a b -> ~ id_before b a -> decode a = decode b.
Proof. unfold id_before. lia. Qed.

(** ** The key of an id *)

Lemma decode_int64 id : is_int64 (decode id).
Proof. apply ParseInt_int64. Qed.

Lemma well_formed_ParseInt id :
  well_formed id -> ParseInt id 36 64 = (digits_value 36 id 0, None).
Proof.
  intros (Hne & Hd & Hv). rewrite ParseInt_digits by (done || lia).
  destruct (Z.ltb_spec maxInt64 (digits_value 36 id 0)); [lia|done].
Qed.

Lemma well_formed_decode id : well_formed id -> decode id = digits_value 36 id 0.
Proof. intros H. unfold decode. by rewrite well_formed_ParseInt. Qed.

Lemma well_formed_parses id : well_formed id -> parses id.
Proof. intros H. unfold parses. by rewrite well_formed_ParseInt. Qed.

Lemma well_formed_decode_nonneg id : well_formed id -> 0 <= decode id.
Proof.
  intros H. rewrite well_formed_decode by done. apply digits_value_ge; lia.
Qed.

(** The key of an id with an error: [0] or a bound of [int64]. *)
Lemma decode_not_parses id :
  ~ parses id -> decode id = 0 \/ decode id = maxInt64 \/ decode id = minInt64.
Proof.
  unfold parses, decode. destruct (ParseInt id 36 64) as [v [e|]] eqn:H; [|done].
  intros _. by eapply ParseInt_error_value.
Qed.

(** ** [Swap] *)

Lemma Swap_eq (r : list string) i j a b :
  slice_index r i = Some a -> slice_index r j = Some b ->
  Swap r i j = Some (<[Z.to_nat j := a]> (<[Z.to_nat i := b]> r)).
Proof.
  intros Hi Hj. unfold Swap. rewrite Hi, Hj. simpl.
  apply slice_index_Some in Hi as [Hi _]. apply slice_index_Some in Hj as [Hj _].
  unfold slice_store. rewrite bool_decide_true by done. simpl.
  rewrite bool_decide_true; [done|]. by rewrite length_insert.
Qed.

Lemma Swap_None r i j :
  Swap r i j = None <-> ~ (0 <= i < Len r /\ 0 <= j < Len r).
Proof.
  unfold Len. split.
  - intros HS [Hi Hj].
    apply slice_index_is_Some in Hi as [a Ha]. apply slice_index_is_Some in Hj as [b Hb].
    by rewrite (Swap_eq _ _ _ _ _ Ha Hb) in HS.
  - intros Hn. unfold Swap.
    destruct (slice_index r i) as [a|] eqn:Hi; [|done]. simpl.
    destruct (slice_index r j) as [b|] eqn:Hj; [|done].
    exfalso. apply Hn. split; apply slice_index_is_Some; eauto.
Qed.

Lemma Swap_Some_inv (r r' : list string) i j :
  Swap r i j = Some r' ->
  exists a b, slice_index r i = Some a /\ slice_index r j = Some b /\
    r' = <[Z.to_nat j := a]> (<[Z.to_nat i := b]> r).
Proof.
  intros HS. destruct (decide (0 <= i < Len r /\ 0 <= j < Len r)) as [[Hi Hj]|Hn].
  - apply slice_index_is_Some in Hi as [a Ha]. apply slice_index_is_Some in Hj as [b Hb].
    exists a, b. rewrite (Swap_eq _ _ _ _ _ Ha Hb) in HS. by simplify_eq.
  - apply Swap_None in Hn. congruence.
Qed.

(** The cells after [Swap], one by one. *)
Lemma Swap_lookup (r r' : list string) i j k :
  Swap r i j = Some r' ->
  slice_index r' k =
    if decide (k = j) then slice_index r i
    else if decide (k = i) then slice_index r j else slice_index r k.
Proof.
  intros (a & b & Ha & Hb & ->)%Swap_Some_inv.
  pose proof Ha as [Hi _]%slice_index_Some. pose proof Hb as [Hj _]%slice_index_Some.
  destruct (decide (k = j)) as [->|Hkj].
  - rewrite slice_index_insert_eq by (by rewrite length_insert). done.
  - rewrite slice_index_insert_ne by lia. destruct (decide (k = i)) as [->|Hki].
    + by rewrite slice_index_insert_eq.
    + by rewrite slice_index_insert_ne by lia.
Qed.

Lemma Swap_Len (r r' : list string) i j : Swap r i j = Some r' -> Len r' = Len r.
Proof.
  intros (a & b & _ & _ & ->)%Swap_Some_inv. unfold Len. by rewrite !length_insert.
Qed.

Lemma Less_fst r i j a b :
  slice_index r i = Some a -> slice_index r j = Some b ->
  fst <$> Less r i j = Some (bool_decide (id_before a b)).
Proof. intros Hi Hj. by rewrite (Less_eq _ _ _ _ _ Hi Hj), ltb_id_before. Qed.

Lemma syntax_error_decode id k :
  (ParseInt id 36 64).2 = Some (NumError "ParseInt" id k) -> k <> ErrRange ->
  decode id = 0.
Proof.
  unfold decode. intros He Hk. pose proof (ParseInt_outcome id 36) as Ho.
  destruct (ParseInt id 36 64) as [v e]. simpl in *. subst e.
  inversion Ho; simplify_eq; done.
Qed.

Lemma overflow_decode id :
  id <> EmptyString -> all_digits 36 id = true -> maxInt64 < digits_value 36 id 0 ->
  ParseInt id 36 64 = (maxInt64, Some (NumError "ParseInt" id ErrRange)).
Proof.
  intros Hne Hd Hv. rewrite ParseInt_digits by (done || lia).
  destruct (Z.ltb_spec maxInt64 (digits_value 36 id 0)); [done|lia].
Qed.

Lemma log_parse_failure_length id :
  length (log_parse_failure (ParseInt id 36 64).2) =
    if decide (parses id) then 0%nat else 1%nat.
Proof.
  destruct (decide (parses id)) as [H|H]; unfold parses in H.
  - by rewrite H.
  - by destruct (ParseInt id 36 64).2.
Qed.

Lemma log_parse_failure_err e :
  omap log_err (log_parse_failure e) = option_list e.
Proof. by destruct e. Qed.

Lemma log_parse_failure_Forall e :
  Forall (fun l => log_level l = ErrorLevel /\ log_msg l = "Failed parsing id")
    (log_parse_failure e).
Proof. destruct e; by repeat constructor. Qed.

(** ** The properties of the sort interface *)

(** Claim C3.  [Less] is a strict weak order on the cells of a slice,
    whatever the ids are: no cell is before itself, "before" is transitive
    and so is "not before".  This is what the library's sort needs of [Less]
    to produce a sorted slice, malformed ids included. *)
Theorem Less_strict_weak_order (r : RedditIdSlice) (i j k : Z) :
  0 <= i < Len r -> 0 <= j < Len r -> 0 <= k < Len r ->
  fst <$> Less r i i = Some false /\
  (fst <$> Less r i j = Some true -> fst <$> Less r j k = Some true ->
   fst <$> Less r i k = Some true) /\
  (fst <$> Less r i j = Some false -> fst <$> Less r j k = Some false ->
   fst <$> Less r i k = Some false).
Proof.
  intros [a Ha]%slice_index_is_Some [b Hb]%slice_index_is_Some
         [c Hc]%slice_index_is_Some.
  rewrite (Less_fst _ _ _ _ _ Ha Ha), (Less_fst _ _ _ _ _ Ha Hb),
    (Less_fst _ _ _ _ _ Hb Hc), (Less_fst _ _ _ _ _ Ha Hc).
  repeat split.
  - f_equal. apply bool_decide_eq_false, irreflexivity, _.
  - intros [= Hab%bool_decide_eq_true] [= Hbc%bool_decide_eq_true].
    f_equal. apply bool_decide_eq_true. by trans b.
  - intros [= Hab%bool_decide_eq_false] [= Hbc%bool_decide_eq_false].
    f_equal. apply bool_decide_eq_false. by apply (id_before_neg_trans a b c).
Qed.

Lemma Less_strict_weak_order_witness :
  let r := ["b"; "a"; "c"] in
  fst <$> Less r 0 0 = Some false /\
  (fst <$> Less r 0 1 = Some true -> fst <$> Less r 1 2 = Some true ->
   fst <$> Less r 0 2 = Some true) /\
  (fst <$> Less r 0 1 = Some false -> fst <$> Less r 1 2 = Some false ->
   fst <$> Less r 0 2 = Some false).
Proof.
  apply (Less_strict_weak_order ["b"; "a"; "c"] 0 1 2); unfold Len; simpl; lia.
Defined.

(** Claim C9.  On well-formed ids (non-empty strings of base-36 digits that
    fit [int64]) [Less] puts the cell with the larger number first, and logs
    nothing: the order of the sort is numeric, newest first. *)
Theorem Less_orders_by_value (r : RedditIdSlice) (i j : Z) (a b : string) :
  slice_index r i = Some a -> slice_index r j = Some b ->
  well_formed a -> well_formed b ->
  Less r i j = Some (bool_decide (digits_value 36 b 0 < digits_value 36 a 0), []).
Proof.
  intros Hi Hj Ha Hb. rewrite (Less_eq _ _ _ _ _ Hi Hj).
  rewrite !well_formed_decode, !well_formed_ParseInt by done.
  by rewrite ltb_bool_decide.
Qed.

Lemma Less_orders_by_value_witness :
  Less ["z"; "10"] 1 0 = Some (true, []).
Proof.
  apply (Less_orders_by_value ["z"; "10"] 1 0 "10" "z"); try reflexivity;
    (split; [discriminate | split; [reflexivity | vm_compute; discriminate]]).
Defined.

(** Claim C28.  An id that is too large for [int64] does not parse, and yet
    [Less] puts it before every id that parses (other than [maxInt64]
    itself): [ParseInt] returns [maxInt64] with the range error, and [Less]
    compares that value.  The same holds for the key [0] of an id with a
    syntax error against the ids that parse to a negative number. *)
Theorem Less_overflow_id_first (r : RedditIdSlice) (i j : Z) (a b : string) :
  slice_index r i = Some a -> slice_index r j = Some b ->
  a <> EmptyString -> all_digits 36 a = true -> maxInt64 < digits_value 36 a 0 ->
  parses b -> decode b <> maxInt64 ->
  ~ parses a /\ fst <$> Less r i j = Some true.
Proof.
  intros Hi Hj Hne Hd Hv Hb Hmax. pose proof (overflow_decode a Hne Hd Hv) as Ha.
  split; [unfold parses; by rewrite Ha|].
  rewrite (Less_fst _ _ _ _ _ Hi Hj). f_equal. apply bool_decide_eq_true.
  unfold id_before. pose proof (decode_int64 b) as [_ ?].
  unfold decode at 2. rewrite Ha. simpl. lia.
Qed.

Lemma Less_overflow_id_first_witness :
  ~ parses "1y2p0ij32e8e8" /\ fst <$> Less ["1y2p0ij32e8e8"; "5"] 0 1 = Some true.
Proof.
  apply (Less_overflow_id_first ["1y2p0ij32e8e8"; "5"] 0 1 "1y2p0ij32e8e8" "5");
    try reflexivity; try discriminate; vm_compute; congruence.
Defined.

(** An id with a syntax error has the key [0]: it comes after
    every id whose number is positive, in both argument orders of [Less]. *)
Theorem Less_syntax_error_last (r : RedditIdSlice) (i j : Z) (a b : string) :
  slice_index r i = Some a -> slice_index r j = Some b ->
  (ParseInt a 36 64).2 = Some (NumError "ParseInt" a ErrSyntax) ->
  0 < decode b ->
  fst <$> Less r j i = Some true /\ fst <$> Less r i j = Some false.
Proof.
  intros Hi Hj Ha Hb. apply (syntax_error_decode a ErrSyntax) in Ha; [|done].
  rewrite (Less_fst _ _ _ _ _ Hi Hj), (Less_fst _ _ _ _ _ Hj Hi).
  split; f_equal; [apply bool_decide_eq_true|apply bool_decide_eq_false];
    unfold id_before; lia.
Qed.

Lemma Less_syntax_error_last_witness :
  fst <$> Less ["5!"; "5"] 1 0 = Some true /\ fst <$> Less ["5!"; "5"] 0 1 = Some false.
Proof.
  apply (Less_syntax_error_last ["5!"; "5"] 0 1 "5!" "5"); reflexivity.
Defined.

(** Claim C39.  [Less] writes one error line for each of the two ids that
    fails to parse, the line of cell [i] first, and none for an id that
    parses. *)
Theorem Less_logs_each_failure (r : RedditIdSlice) (i j : Z) (a b : string)
    (res : bool) (logs : list LogEntry) :
  slice_index r i = Some a -> slice_index r j = Some b ->
  Less r i j = Some (res, logs) ->
  length logs = length (filter (fun id => ~ parses id) [a; b]) /\
  omap log_err logs = omap (fun id => (ParseInt id 36 64).2) [a; b] /\
  Forall (fun l => log_level l = ErrorLevel /\ log_msg l = "Failed parsing id") logs.
Proof.
  intros Hi Hj. rewrite (Less_eq _ _ _ _ _ Hi Hj). intros [= _ <-]. split_and!.
  - rewrite length_app, !log_parse_failure_length, !filter_cons, filter_nil.
    repeat case_decide; simpl; done || tauto.
  - rewrite omap_app, !log_parse_failure_err. simpl.
    by destruct (ParseInt a 36 64).2, (ParseInt b 36 64).2.
  - apply Forall_app; split; apply log_parse_failure_Forall.
Qed.

Lemma Less_logs_each_failure_witness :
  length [log_error (NumError "ParseInt" "5!" ErrSyntax) "Failed parsing id"] =
  length (filter (fun id => ~ parses id) ["5!"; "5"]) /\
  omap log_err [log_error (NumError "ParseInt" "5!" ErrSyntax) "Failed parsing id"] =
  omap (fun id => (ParseInt id 36 64).2) ["5!"; "5"] /\
  Forall (fun l => log_level l = ErrorLevel /\ log_msg l = "Failed parsing id")
    [log_error (NumError "ParseInt" "5!" ErrSyntax) "Failed parsing id"].
Proof.
  apply (Less_logs_each_failure ["5!"; "5"] 0 1 "5!" "5" false); reflexivity.
Defined.

(** Claim C37.  [Less] and [Swap] panic exactly when one of the two indices
    is outside the slice, and return a result otherwise. *)
Theorem Less_Swap_panic_iff (r : RedditIdSlice) (i j : Z) :
  (Less r i j = None <-> ~ (0 <= i < Len r /\ 0 <= j < Len r)) /\
  (Swap r i j = None <-> ~ (0 <= i < Len r /\ 0 <= j < Len r)).
Proof. split; [apply Less_None|apply Swap_None]. Qed.

(** Claim C30.  [Swap] exchanges the cells [i] and [j], leaves every other
    cell as it was and keeps the length. *)
Theorem Swap_exchanges (r r' : RedditIdSlice) (i j : Z) :
  Swap r i j = Some r' ->
  slice_index r' i = slice_index r j /\ slice_index r' j = slice_index r i /\
  (forall k, k <> i -> k <> j -> slice_index r' k = slice_index r k) /\
  Len r' = Len r.
Proof.
  intros HS. split_and!; [..|by eapply Swap_Len].
  - rewrite (Swap_lookup _ _ _ _ i HS). repeat case_decide; congruence.
  - rewrite (Swap_lookup _ _ _ _ j HS). by rewrite decide_True.
  - intros k Hki Hkj. rewrite (Swap_lookup _ _ _ _ k HS). by rewrite !decide_False.
Qed.

Lemma Swap_exchanges_witness :
  let r := ["c"; "b"; "a"] in let r' := ["a"; "b"; "c"] in
  slice_index r' 0 = slice_index r 2 /\ slice_index r' 2 = slice_index r 0 /\
  (forall k, k <> 0 -> k <> 2 -> slice_index r' k = slice_index r k) /\
  Len r' = Len r.
Proof. apply (Swap_exchanges ["c"; "b"; "a"] ["a"; "b"; "c"] 0 2). reflexivity. Defined.

(** The slice after [Swap] is a permutation of the slice before:
    a sort that only calls [Swap] neither loses nor duplicates an id. *)
Theorem Swap_permutation (r r' : RedditIdSlice) (i j : Z) :
  Swap r i j = Some r' -> r' ≡ₚ r.
Proof.
  intros (a & b & [_ Ha]%slice_index_Some & [_ Hb]%slice_index_Some & ->)%Swap_Some_inv.
  by apply Permutation_insert_swap.
Qed.

Lemma Swap_permutation_witness : ["a"; "b"; "c"] ≡ₚ ["c"; "b"; "a"].
Proof. apply (Swap_permutation ["c"; "b"; "a"] ["a"; "b"; "c"] 0 2). reflexivity. Defined.

(** [Swap] is its own inverse: swapping the same two cells
    again restores the slice. *)
Theorem Swap_involutive (r r' : RedditIdSlice) (i j : Z) :
  Swap r i j = Some r' -> Swap r' i j = Some r.
Proof.
  intros HS. destruct (Swap r' i j) as [r''|] eqn:HS'.
  - f_equal. apply slice_ext. intros k.
    rewrite (Swap_lookup _ _ _ _ k HS'), !(Swap_lookup _ _ _ _ _ HS).
    repeat case_decide; congruence.
  - apply Swap_None in HS'. rewrite (Swap_Len _ _ _ _ HS) in HS'.
    apply Swap_None in HS'. congruence.
Qed.

Lemma Swap_involutive_witness : Swap ["a"; "b"; "c"] 0 2 = Some ["c"; "b"; "a"].
Proof. apply (Swap_involutive ["c"; "b"; "a"] ["a"; "b"; "c"] 0 2). reflexivity. Defined.

(** ** [RedditIdSlice] as an implementation of [sort.Interface] *)

(** [RedditIdSlice] has the three methods of [sort.Interface]. *)
#[export] Instance RedditIdSlice_Interface : sort.Interface RedditIdSlice := {|
  sort.Len := Len;
  sort.Less := Less;
  sort.Swap := Swap
|}.

(** The relation [Less] decides: [a > b] on the decoded ids. *)
Definition before_id (a b : string) : bool := decode b <? decode a.

Lemma before_id_strict_weak : sort.strict_weak before_id.
Proof. unfold sort.strict_weak, before_id. split_and!; intros; lia. Qed.

(** [RedditIdSlice] keeps the contract of the sort, with [before_id]. *)
Lemma RedditIdSlice_Lawful :
  sort.Lawful (I := RedditIdSlice_Interface) (fun r : RedditIdSlice => r) before_id.
Proof.
  split.
  - done.
  - intros r i j x y Hi Hj. cbn [sort.Less RedditIdSlice_Interface].
    by rewrite (Less_eq _ _ _ _ _ Hi Hj).
  - intros r i j x y Hi Hj. cbn [sort.Swap RedditIdSlice_Interface].
    rewrite (Swap_eq _ _ _ _ _ Hi Hj). by eexists.
Qed.

Lemma sorted_before_id l :
  sort.sorted before_id l <-> StronglySorted (fun x y => decode y <= decode x) l.
Proof.
  unfold sort.sorted, before_id.
  split; induction 1 as [|x l Hs IH Hx]; constructor; try done;
    (eapply Forall_impl; [apply Hx|]); intros y; simpl; lia.
Qed.

(** ** Ids with the same key *)

(** Two ids have the same key when they decode to the same number: [Less]
    cannot tell them apart.  The case of a letter does not change the key,
    and every id with a syntax error has the key of ["0"]. *)
Definition same_key (a b : string) : Prop := decode a = decode b.

#[export] Instance same_key_dec a b : Decision (same_key a b).
Proof. unfold same_key. apply _. Defined.

#[export] Instance same_key_equiv : Equivalence same_key.
Proof. unfold same_key. split; [by intros ?|by intros ??|by intros ??? ->]. Qed.

#[export] Instance before_id_proper : Proper (same_key ==> same_key ==> (=)) before_id.
Proof. unfold same_key, before_id. by intros a a' -> b b' ->. Qed.

#[export] Instance id_before_proper : Proper (same_key ==> same_key ==> iff) id_before.
Proof. unfold same_key, id_before. by intros a a' -> b b' ->. Qed.

(** Slices of ids with the same keys, cell by cell. *)
Definition same_keys : relation RedditIdSlice := Forall2 same_key.

#[export] Instance same_keys_equiv : Equivalence same_keys.
Proof. unfold same_keys. apply _. Qed.

Lemma same_keys_fmap r r' : same_keys r r' <-> decode <$> r = decode <$> r'.
Proof. unfold same_keys, same_key. by rewrite list_eq_Forall2, Forall2_fmap. Qed.

Lemma same_keys_lookup r r' i a :
  same_keys r r' -> slice_index r i = Some a ->
  exists a', slice_index r' i = Some a' /\ same_key a a'.
Proof.
  intros Hr [Hi Ha]%slice_index_Some.
  destruct (Forall2_lookup_l _ _ _ _ _ Hr Ha) as (a' & Ha' & Haa').
  exists a'. split; [|done]. apply slice_index_Some.
  by rewrite <- (Forall2_length _ _ _ Hr).
Qed.

(** [Less] answers the same on slices with the same keys: what it returns
    depends on the keys of the two cells only. *)
Lemma Less_proper :
  Proper (same_keys ==> (=) ==> (=) ==> (=)) (fun r i j => fst <$> Less r i j).
Proof.
  intros r r' Hr i ? <- j ? <-.
  assert (Len r' = Len r) as HL by (unfold Len; by rewrite (Forall2_length _ _ _ Hr)).
  destruct (decide (0 <= i < Len r /\ 0 <= j < Len r)) as [[Hi Hj]|Hn].
  - apply slice_index_is_Some in Hi as [a Hi]. apply slice_index_is_Some in Hj as [b Hj].
    destruct (same_keys_lookup _ _ _ _ Hr Hi) as (a' & Hi' & Ha).
    destruct (same_keys_lookup _ _ _ _ Hr Hj) as (b' & Hj' & Hb).
    rewrite (Less_fst _ _ _ _ _ Hi Hj), (Less_fst _ _ _ _ _ Hi' Hj').
    do 2 f_equal. apply bool_decide_ext. by rewrite Ha, Hb.
  - rewrite !(proj2 (Less_None _ _ _)); [done|by rewrite HL|done].
Qed.

(** Two sorted permutations of the same ids have the same keys. *)
Lemma sorted_same_keys (l1 l2 : list string) :
  l1 ≡ₚ l2 ->
  StronglySorted (fun x y => decode y <= decode x) l1 ->
  StronglySorted (fun x y => decode y <= decode x) l2 ->
  same_keys l1 l2.
Proof.
  intros Hp H1 H2. apply same_keys_fmap.
  apply (StronglySorted_unique_strong (fun a b : Z => b <= a));
    [intros; lia| | |by rewrite Hp];
    by apply (StronglySorted_fmap decode (fun x y => decode y <= decode x)).
Qed.

(** A run of a sorter on ids, from its weakest precondition. *)
Lemma wp_ids {A} (c : sort.Sorter RedditIdSlice A) Q (ids : RedditIdSlice) :
  sort.wp (fun r : RedditIdSlice => r) before_id c Q ids ->
  exists x ids' logs, c ids = Some (x, ids', logs) /\ Q x ids'.
Proof. intros H. exact (H ids eq_refl). Qed.

(** Ids that decode to different numbers are ordered one way or the
    other. *)
Lemma before_id_antisym (ids : RedditIdSlice) :
  NoDup (decode <$> ids) ->
  forall x y, x ∈ ids -> y ∈ ids -> before_id x y = false -> before_id y x = false -> x = y.
Proof.
  unfold before_id. intros Hnd x y Hx Hy ??.
  apply (NoDup_fmap_inj_on decode ids); [done..|lia].
Qed.

(** [sort.Sort] on ids: it returns a sorted permutation, which is the
    reference sort when no two ids decode to the same number. *)
Lemma sort_ids_sorted (ids : RedditIdSlice) :
  Len ids <= maxInt64 ->
  exists ids' logs,
    sort.Sort ids = Some (tt, ids', logs) /\ ids' ≡ₚ ids /\
    StronglySorted (fun x y => decode y <= decode x) ids' /\
    (NoDup (decode <$> ids) -> ids' = sort.isort before_id ids).
Proof.
  intros Hmax.
  destruct (wp_ids _ _ _ (sort.Sort_sorts (L := RedditIdSlice_Lawful) _ _
              before_id_strict_weak ids Hmax))
    as ([] & ids' & logs & Hrun & Hp & Hs).
  exists ids', logs. split_and!; [done..|by apply sorted_before_id|]. intros Hnd.
  destruct (wp_ids _ _ _ (sort.Sort_isort (L := RedditIdSlice_Lawful) _ _
              before_id_strict_weak ids Hmax (before_id_antisym ids Hnd)))
    as ([] & ? & ? & Hrun' & ->). congruence.
Qed.

(** Claim C8.  Sorting ids with the methods of [RedditIdSlice] does not
    panic and gives a permutation of the ids in descending order of the
    decoded numbers, malformed ids included; and when no two ids decode to
    the same number this is the only such permutation, so that every
    correct sort gives the same slice. *)
Theorem sort_ids_newest_first (ids : RedditIdSlice) :
  Len ids <= maxInt64 ->
  exists ids' logs,
    sort.Sort ids = Some (tt, ids', logs) /\
    ids' ≡ₚ ids /\
    StronglySorted (fun x y => decode y <= decode x) ids' /\
    forall l : list string,
      (forall x y, x ∈ ids -> y ∈ ids -> decode x = decode y -> x = y) ->
      l ≡ₚ ids -> StronglySorted (fun x y => decode y <= decode x) l -> l = ids'.
Proof.
  intros Hmax.
  destruct (sort_ids_sorted ids Hmax) as (ids' & logs & Hrun & Hp & Hs & _).
  exists ids', logs. split_and!; [done..|].
  intros l Hinj Hl Hsl.
  apply (StronglySorted_unique_strong (fun x y => decode y <= decode x));
    [|done..|by rewrite Hp].
  intros x1 x2 Hx1 Hx2 ??. apply Hinj; [by rewrite <- Hl|by rewrite <- Hp|lia].
Qed.

Lemma sort_ids_newest_first_witness :
  let ids : RedditIdSlice := ["a"; "z"; "5!"; "10"; "1y2p0ij32e8e8"] in
  exists ids' logs,
    sort.Sort ids = Some (tt, ids', logs) /\
    ids' ≡ₚ ids /\
    StronglySorted (fun x y => decode y <= decode x) ids' /\
    forall l : list string,
      (forall x y, x ∈ ids -> y ∈ ids -> decode x = decode y -> x = y) ->
      l ≡ₚ ids -> StronglySorted (fun x y => decode y <= decode x) l -> l = ids'.
Proof.
  apply (sort_ids_newest_first ["a"; "z"; "5!"; "10"; "1y2p0ij32e8e8"]).
  by vm_compute.
Defined.

(** A sort with a malformed id and an id that overflows: the first is
    sorted as [0], the second as the largest [int64], and each comparison
    that decodes one of them logs a line. *)
Example sort_ids_example :
  (fun r => (r.1.2, length r.2)) <$>
    sort.Sort (["a"; "z"; "5!"; "10"; "1y2p0ij32e8e8"] : RedditIdSlice) =
  Some (["1y2p0ij32e8e8"; "10"; "z"; "a"; "5!"], 7%nat).
Proof. vm_compute. reflexivity. Qed.

(** A sort of more than 12 ids, which goes through [doPivot]. *)
Example sort_ids_pivot_example :
  (fun r => r.1.2) <$>
    sort.Sort (["5abc"; "5abq"; "5abd"; "5abz"; "5aba"; "5abm"; "5abe"; "5abx";
                "5abb"; "5abk"; "5abf"; "5abv"; "5abg"; "5abh"] : RedditIdSlice) =
  Some ["5abz"; "5abx"; "5abv"; "5abq"; "5abm"; "5abk"; "5abh"; "5abg";
        "5abf"; "5abe"; "5abd"; "5abc"; "5abb"; "5aba"].
Proof. vm_compute. reflexivity. Qed.

(** Claim C12.  The sort of the library (quicksort, with heapsort and
    insertion sort as its phases) and a plain insertion sort of the whole
    slice are equivalent on ids: both return, and the slices they return
    have the same keys in every cell.  The insertion sort gives the
    reference sort [isort] of the list of ids, and so does the sort of the
    library when no two ids have the same key. *)
Theorem Sort_ids_insertionSort (ids : RedditIdSlice) :
  Len ids <= maxInt64 ->
  exists ids' logs1 logs2,
    sort.Sort ids = Some (tt, ids', logs1) /\
    sort.insertionSort 0 (Len ids) ids = Some (tt, sort.isort before_id ids, logs2) /\
    same_keys ids' (sort.isort before_id ids) /\
    (NoDup (decode <$> ids) -> ids' = sort.isort before_id ids).
Proof.
  intros Hmax.
  destruct (sort_ids_sorted ids Hmax) as (ids' & logs1 & H1 & Hp & Hs & Hiso).
  destruct (wp_ids _ _ _ (sort.insertionSort_spec (L := RedditIdSlice_Lawful) _ _
              [] ids [])) as ([] & ? & logs2 & H2 & ->).
  rewrite app_nil_r in H2. cbn [app length] in H2. rewrite !app_nil_r in H2.
  exists ids', logs1, logs2. split_and!; [done..| |done].
  apply sorted_same_keys; [by rewrite sort.isort_perm|done|].
  apply sorted_before_id, sort.isort_sorted, before_id_strict_weak.
Qed.

Lemma Sort_ids_insertionSort_witness :
  let ids : RedditIdSlice :=
    ["a"; "A"; "b"; "B"; "c"; "C"; "d"; "D"; "e"; "E"; "f"; "F"; "g"] in
  exists ids' logs1 logs2,
    sort.Sort ids = Some (tt, ids', logs1) /\
    sort.insertionSort 0 (Len ids) ids = Some (tt, sort.isort before_id ids, logs2) /\
    same_keys ids' (sort.isort before_id ids) /\
    (NoDup (decode <$> ids) -> ids' = sort.isort before_id ids).
Proof.
  apply (Sort_ids_insertionSort
    ["a"; "A"; "b"; "B"; "c"; "C"; "d"; "D"; "e"; "E"; "f"; "F"; "g"]).
  by vm_compute.
Defined.

(** The slices are not equal in general: ids that differ in the case of
    their letters have the same key, and the sort of the library, which is
    not stable, orders them differently from the insertion sort. *)
Example Sort_ids_not_stable :
  let ids : RedditIdSlice :=
    ["a"; "A"; "b"; "B"; "c"; "C"; "d"; "D"; "e"; "E"; "f"; "F"; "g"] in
  (fun r => r.1.2) <$> sort.Sort ids =
    Some ["g"; "F"; "f"; "E"; "e"; "D"; "d"; "C"; "c"; "B"; "b"; "A"; "a"] /\
  (fun r => r.1.2) <$> sort.insertionSort 0 (Len ids) ids =
    Some ["g"; "f"; "F"; "e"; "E"; "d"; "D"; "c"; "C"; "b"; "B"; "a"; "A"].
Proof. vm_compute. done. Qed.

(** Claim C13.  The recursion of the quicksort on ids terminates, whatever
    depth it is given and whatever the ids are: on every range of the slice
    [quickSort] returns, without a panic and within the bounds of its
    loops, the slice with the cells of the range sorted newest first and
    the other cells untouched.  With depth [0] and more than 12 cells this
    is the heapsort. *)
Theorem quickSort_ids_terminates (ids : RedditIdSlice) (maxDepth : nat) (a b : Z) :
  0 <= a <= b -> b <= Len ids -> Len ids <= maxInt64 ->
  exists ids' logs,
    sort.quickSort_rec maxDepth a b ids = Some (tt, ids', logs) /\
    sort.perm_on a b ids ids' /\
    forall p q x y, a <= p -> p < q -> q < b ->
      slice_index ids' p = Some x -> slice_index ids' q = Some y ->
      decode y <= decode x.
Proof.
  intros Hab Hb Hmax.
  destruct (wp_ids _ _ _ (sort.quickSort_rec_spec (L := RedditIdSlice_Lawful) _ _
              before_id_strict_weak maxDepth a b ids Hab Hb Hmax))
    as ([] & ids' & logs & Hrun & Hp & Hs).
  exists ids', logs. split_and!; [done..|].
  intros p q x y Hp1 Hpq Hq Hx Hy. specialize (Hs p q x y Hp1 Hpq Hq Hx Hy).
  unfold before_id in Hs. lia.
Qed.

Lemma quickSort_ids_terminates_witness :
  let ids : RedditIdSlice :=
    ["a"; "A"; "b"; "B"; "c"; "C"; "d"; "D"; "e"; "E"; "f"; "F"; "g"; "5!"] in
  exists ids' logs,
    sort.quickSort_rec 0 1 14 ids = Some (tt, ids', logs) /\
    sort.perm_on 1 14 ids ids' /\
    forall p q x y, 1 <= p -> p < q -> q < 14 ->
      slice_index ids' p = Some x -> slice_index ids' q = Some y ->
      decode y <= decode x.
Proof.
  apply (quickSort_ids_terminates
    ["a"; "A"; "b"; "B"; "c"; "C"; "d"; "D"; "e"; "E"; "f"; "F"; "g"; "5!"] 0 1 14);
    by vm_compute.
Defined.

(** Claim C15.  [doPivot] on a range of more than 12 ids returns two
    indices that cut the range in three: the ids before the first are not
    older than the pivot, the ids between the two, of which there is one at
    least, decode to the number of the pivot, and the ids from the second
    on are not newer; the cells outside the range are untouched. *)
Theorem doPivot_ids_partitions (ids : RedditIdSlice) (lo hi : Z) :
  0 <= lo -> hi <= Len ids -> Len ids <= maxInt64 -> 12 < hi - lo ->
  exists mlo mhi ids' logs,
    sort.doPivot lo hi ids = Some ((mlo, mhi), ids', logs) /\
    sort.perm_on lo hi ids ids' /\ lo <= mlo < mhi /\ mhi <= hi /\
    exists pv, forall k x, slice_index ids' k = Some x ->
      (lo <= k < mlo -> decode pv <= decode x) /\
      (mlo <= k < mhi -> decode x = decode pv) /\
      (mhi <= k < hi -> decode x <= decode pv).
Proof.
  intros Hlo Hhi Hmax Hn.
  destruct (wp_ids _ _ _ (sort.doPivot_spec (L := RedditIdSlice_Lawful) _ _
              before_id_strict_weak lo hi ids Hlo Hhi Hmax Hn))
    as ([mlo mhi] & ids' & logs & Hrun & Hp & pv & Hm & Hmhi & Hle & Heq & Hge).
  exists mlo, mhi, ids', logs. split_and!; [done|done|lia..|]. exists pv.
  intros k x Hx. unfold sort.range, sort.eq_pv, sort.le_pv, sort.ge_pv, before_id in *.
  split_and!; intros Hk.
  - specialize (Hle k x Hk Hx). simpl in Hle. lia.
  - destruct (Heq k x Hk Hx). lia.
  - specialize (Hge k x Hk Hx). simpl in Hge. lia.
Qed.

Lemma doPivot_ids_partitions_witness :
  let ids : RedditIdSlice :=
    ["a"; "A"; "b"; "B"; "c"; "C"; "d"; "D"; "e"; "E"; "f"; "F"; "g"; "5!"] in
  exists mlo mhi ids' logs,
    sort.doPivot 0 14 ids = Some ((mlo, mhi), ids', logs) /\
    sort.perm_on 0 14 ids ids' /\ 0 <= mlo < mhi /\ mhi <= 14 /\
    exists pv, forall k x, slice_index ids' k = Some x ->
      (0 <= k < mlo -> decode pv <= decode x) /\
      (mlo <= k < mhi -> decode x = decode pv) /\
      (mhi <= k < 14 -> decode x <= decode pv).
Proof.
  apply (doPivot_ids_partitions
    ["a"; "A"; "b"; "B"; "c"; "C"; "d"; "D"; "e"; "E"; "f"; "F"; "g"; "5!"] 0 14);
    by vm_compute.
Defined.

(** The run of the witness: the pivot is the median of the first, the
    middle and the last id, which decodes to 10, and the two ids that decode
    to 10 end between the two indices. *)
Example doPivot_ids_example :
  (fun r => (r.1.1, r.1.2)) <$>
    sort.doPivot 0 14 (["a"; "A"; "b"; "B"; "c"; "C"; "d"; "D"; "e"; "E"; "f"; "F";
                        "g"; "5!"] : RedditIdSlice) =
  Some ((11, 13),
        ["F"; "g"; "b"; "B"; "c"; "C"; "d"; "D"; "e"; "E"; "f"; "a"; "A"; "5!"]).
Proof. vm_compute. reflexivity. Qed.

(** Claim C29.  The number [Less] compares is always an [int64], and for an
    id that does not parse it is [0] or one of the two bounds of [int64]:
    no comparison is made on a wrapped value. *)
Theorem decode_int64_bounds (id : string) :
  minInt64 <= decode id <= maxInt64 /\
  (~ parses id -> decode id = 0 \/ decode id = maxInt64 \/ decode id = minInt64) /\
  (well_formed id -> decode id = digits_value 36 id 0 /\ 0 <= decode id).
Proof.
  split; [apply decode_int64|]. split; [apply decode_not_parses|].
  intros H. split; [by apply well_formed_decode|by apply well_formed_decode_nonneg].
Qed.
