(* ===== verification/Collaborators.v ===== *)
(** * The collaborators of the feed bot

    The program talks to redis, Discord and reddit through packages that are
    not part of [src/].  This file holds what the program sees of them:

    - the records it reads and builds, with the fields the source uses
      ([Link], [SubredditWatchItem], [MessageEmbed] and its parts, the
      reddit [Client] with the [Authenticator] and [Token] it is made of);
    - one class per package with the calls the source makes: what a call
      returns and how it changes the environment is the instance's business,
      the program's theorems hold for every instance;
    - the [World]: the environment and the trace of the events the program
      caused, in the order it caused them, and the calls as monadic
      operations that record their event;
    - [Sim], a small concrete environment (a [gmap] of subscriptions, a
      [gset] of channels whose sends fail) on which the theorems are
      instantiated. *)

From Stdlib Require Import ZArith Lia Ascii.
From stdpp Require Import base tactics option list strings gmap.
From S2P Require Import Prelude.

#[local] Open Scope Z_scope.

(** ** Records *)

(** [reddit.Link], the fields [handlePost] reads. *)
Record Link : Type := mkLink {
  link_ID : string;
  link_Subreddit : string;
  link_Author : string;
  link_Title : string;
  link_IsSelf : bool;
  link_Selftext : string;
  link_URL : string
}.

(** [SubredditWatchItem], the fields [handlePost] reads. *)
Record SubredditWatchItem : Type := mkWatch {
  watch_Guild : string;
  watch_Channel : string
}.

(** [discordgo.MessageEmbedAuthor]. *)
Record MessageEmbedAuthor : Type := mkEmbedAuthor {
  author_URL : string;
  author_Name : string;
  author_IconURL : string
}.

(** [discordgo.MessageEmbedProvider]. *)
Record MessageEmbedProvider : Type := mkEmbedProvider {
  provider_Name : string;
  provider_URL : string
}.

(** [discordgo.MessageEmbedImage] and [discordgo.MessageEmbedVideo]: the
    source sets their [URL] only. *)
Record MessageEmbedImage : Type := mkEmbedImage { image_URL : string }.
Record MessageEmbedVideo : Type := mkEmbedVideo { video_URL : string }.

(** [discordgo.MessageEmbed], the fields [handlePost] sets; a nil pointer is
    [None]. *)
Record MessageEmbed : Type := mkEmbed {
  embed_URL : string;
  embed_Title : string;
  embed_Description : string;
  embed_Color : Z;
  embed_Author : option MessageEmbedAuthor;
  embed_Provider : option MessageEmbedProvider;
  embed_Image : option MessageEmbedImage;
  embed_Video : option MessageEmbedVideo
}.

(** [oauth2.Token], the field [setupClient] sets. *)
Record Token : Type := mkToken { token_RefreshToken : string }.

(** The authenticator [reddit.NewAuthenticator] returns: its six arguments,
    in the order of the call. *)
Record Authenticator : Type := mkAuthenticator {
  auth_UserAgent : string;
  auth_ClientID : string;
  auth_ClientSecret : string;
  auth_RedirectURI : string;
  auth_State : string;
  auth_Scopes : string
}.

(** The client [authenticator.GetAuthClient(token, userAgent)] returns. *)
Record Client : Type := mkClient {
  client_Authenticator : Authenticator;
  client_Token : Token;
  client_UserAgent : string
}.

(** A [*sync.WaitGroup], by its name: the program passes it on and calls
    [Done] on it; its counter is the library's. *)
Definition WaitGroup : Type := Z.

#[export] Instance Token_eq_dec : EqDecision Token.
Proof. solve_decision. Defined.
#[export] Instance Authenticator_eq_dec : EqDecision Authenticator.
Proof. solve_decision. Defined.
#[export] Instance Client_eq_dec : EqDecision Client.
Proof. solve_decision. Defined.
#[export] Instance Link_eq_dec : EqDecision Link.
Proof. solve_decision. Defined.
#[export] Instance SubredditWatchItem_eq_dec : EqDecision SubredditWatchItem.
Proof. solve_decision. Defined.
#[export] Instance MessageEmbedAuthor_eq_dec : EqDecision MessageEmbedAuthor.
Proof. solve_decision. Defined.
#[export] Instance MessageEmbedProvider_eq_dec : EqDecision MessageEmbedProvider.
Proof. solve_decision. Defined.
#[export] Instance MessageEmbedImage_eq_dec : EqDecision MessageEmbedImage.
Proof. solve_decision. Defined.
#[export] Instance MessageEmbedVideo_eq_dec : EqDecision MessageEmbedVideo.
Proof. solve_decision. Defined.
#[export] Instance MessageEmbed_eq_dec : EqDecision MessageEmbed.
Proof. solve_decision. Defined.

(** ** The packages *)

(** Package [common]: the configured host, the version and the string
    helper [CutStringShort]. *)
Class Common : Type := {
  Conf_Host : string;
  VERSIONNUMBER : string;
  CutStringShort : string -> Z -> string
}.

(** Package [strings]. *)
Class GoStrings : Type := {
  ToLower : string -> string
}.

(** Redis as the program uses it: [GetConfig(client, key)] returns the
    subscriptions stored under a key, or an error. *)
Class Redis (E : Type) : Type := {
  GetConfig_call : string -> E -> (list SubredditWatchItem * option error) * E
}.

(** Discord as the program uses it:
    [common.BotSession.ChannelMessageSendEmbed(channel, embed)], of which the
    program keeps the error only. *)
Class Discord (E : Type) : Type := {
  ChannelMessageSendEmbed_call : string -> MessageEmbed -> E -> option error * E
}.

(** The process environment: [os.Getenv]. *)
Class Environ : Type := {
  Getenv : string -> string
}.

(** Package [reddit] of the client library: the two scopes the program
    asks for. *)
Class RedditLib : Type := {
  ScopeEdit : string;
  ScopeRead : string
}.

(** The redis pool and the JSON helper of package [common]:
    [common.RedisPool.Get()], of which [MustGetRedisClient] keeps the error,
    and [common.GetRedisJson(client, key, &result)] for a slice of strings,
    with what it decoded into [result] and its error. *)
Class RedisPool (E : Type) : Type := {
  RedisPool_Get : E -> option error * E;
  GetRedisJson_call : string -> E -> (list string * option error) * E
}.

(** The post fetcher, whose source is another file of the package: its
    state [F], the constructor [NewPostFetcher(redditClient, redisClient,
    lastIds)] and [fetcher.GetNewPosts()], which returns the new posts or an
    error and changes the fetcher and the store. *)
Class Fetcher (E F : Type) : Type := {
  NewPostFetcher_call : Client -> list string -> F;
  GetNewPosts_call : F -> E -> (list Link * option error) * F * E
}.

(** ** Events and the world *)

(** What an observer of the program sees. *)
Inductive Event : Type :=
| EvLog (entry : LogEntry)
| EvGetConfig (key : string) (config : list SubredditWatchItem) (err : option error)
| EvSend (channel : string) (embed : MessageEmbed) (err : option error)
| EvRedisGet (err : option error)
| EvGetRedisJson (key : string) (result : list string) (err : option error)
| EvGetNewPosts (links : list Link) (err : option error)
| EvNewTicker (period : Z)
| EvDone (wg : WaitGroup).

#[export] Instance Event_eq_dec : EqDecision Event.
Proof. solve_decision. Defined.

Record World (E : Type) : Type := mkWorld {
  w_env : E;
  w_trace : list Event
}.
Arguments mkWorld {E} _ _.
Arguments w_env {E} _.
Arguments w_trace {E} _.

(** The sends of a trace, in order. *)
Definition sends_of (tr : list Event) : list (string * MessageEmbed) :=
  omap (fun ev => match ev with EvSend ch em _ => Some (ch, em) | _ => None end) tr.

(** The sends of a trace that failed, with their errors. *)
Definition failed_sends_of (tr : list Event) : list (string * error) :=
  omap (fun ev => match ev with EvSend ch _ (Some e) => Some (ch, e) | _ => None end) tr.

(** The posts the fetcher returned without an error in a trace, in order. *)
Definition fetched_of (tr : list Event) : list Link :=
  mjoin (omap (fun ev => match ev with EvGetNewPosts links None => Some links | _ => None end) tr).

(** The fetches of a trace, failed ones included. *)
Definition fetches_of (tr : list Event) : list (list Link * option error) :=
  omap (fun ev => match ev with EvGetNewPosts links err => Some (links, err) | _ => None end) tr.

(** The events the handling of a post causes: look-ups, sends and log
    lines. *)
Definition delivery_event (ev : Event) : bool :=
  match ev with
  | EvLog _ | EvGetConfig _ _ _ | EvSend _ _ _ => true
  | _ => false
  end.

(** The wait groups acknowledged in a trace, in order. *)
Definition dones_of (tr : list Event) : list WaitGroup :=
  omap (fun ev => match ev with EvDone wg => Some wg | _ => None end) tr.

(** The lines logged in a trace, in order. *)
Definition logs_of (tr : list Event) : list LogEntry :=
  omap (fun ev => match ev with EvLog l => Some l | _ => None end) tr.

Section calls.
Context {E : Type}.

(** Record an event. *)
Definition emit (ev : Event) : Go (World E) unit :=
  fun w => (tt, mkWorld (w_env w) (w_trace w ++ [ev])).

(** A logrus call. *)
Definition logrus (entry : LogEntry) : Go (World E) unit := emit (EvLog entry).

(** [GetConfig(redisClient, key)]. *)
Definition GetConfig {Rd : Redis E} (key : string)
  : Go (World E) (list SubredditWatchItem * option error) :=
  fun w =>
    let '((config, err), e) := GetConfig_call key (w_env w) in
    ((config, err), mkWorld e (w_trace w ++ [EvGetConfig key config err])).

(** [common.BotSession.ChannelMessageSendEmbed(channel, embed)]. *)
Definition ChannelMessageSendEmbed {Dc : Discord E} (channel : string)
    (embed : MessageEmbed) : Go (World E) (option error) :=
  fun w =>
    let '(err, e) := ChannelMessageSendEmbed_call channel embed (w_env w) in
    (err, mkWorld e (w_trace w ++ [EvSend channel embed err])).

(** [common.RedisPool.Get()], as [MustGetRedisClient] calls it. *)
Definition RedisPoolGet {Rp : RedisPool E} : Go (World E) (option error) :=
  fun w =>
    let '(err, e) := RedisPool_Get (w_env w) in
    (err, mkWorld e (w_trace w ++ [EvRedisGet err])).

(** [common.GetRedisJson(client, key, &result)]: the value of [result]
    after the call, and the error. *)
Definition GetRedisJson {Rp : RedisPool E} (key : string)
  : Go (World E) (list string * option error) :=
  fun w =>
    let '((result, err), e) := GetRedisJson_call key (w_env w) in
    ((result, err), mkWorld e (w_trace w ++ [EvGetRedisJson key result err])).

(** [fetcher.GetNewPosts()]: the result and the fetcher after the call. *)
Definition GetNewPosts {F : Type} {Ft : Fetcher E F} (fetcher : F)
  : Go (World E) ((list Link * option error) * F) :=
  fun w =>
    let '((links, err), fetcher', e) := GetNewPosts_call fetcher (w_env w) in
    (((links, err), fetcher'), mkWorld e (w_trace w ++ [EvGetNewPosts links err])).

(** [time.NewTicker(d)]. *)
Definition NewTicker (d : Z) : Go (World E) unit := emit (EvNewTicker d).

(** [wg.Done()]. *)
Definition Done (wg : WaitGroup) : Go (World E) unit := emit (EvDone wg).

End calls.

(** ** Computations that only add to the trace *)

Section traced.
Context {E : Type}.

(** The result, the events and the final environment of a computation that
    starts in the environment [e]. *)
Definition result_of {A} (c : Go (World E) A) (e : E) : A :=
  (c (mkWorld e [])).1.
Definition events_of {A} (c : Go (World E) A) (e : E) : list Event :=
  w_trace (c (mkWorld e [])).2.
Definition env_after {A} (c : Go (World E) A) (e : E) : E :=
  w_env (c (mkWorld e [])).2.

(** A computation is traced when it does not read the trace and only adds
    to it.  Every operation of the program is. *)
Class Traced {A} (c : Go (World E) A) : Prop :=
  traced_run w :
    c w = (result_of c (w_env w),
           mkWorld (env_after c (w_env w)) (w_trace w ++ events_of c (w_env w))).

End traced.

(** ** Lemmas on traces *)

Lemma sends_of_app tr1 tr2 : sends_of (tr1 ++ tr2) = sends_of tr1 ++ sends_of tr2.
Proof. apply omap_app. Qed.

Lemma failed_sends_of_app tr1 tr2 :
  failed_sends_of (tr1 ++ tr2) = failed_sends_of tr1 ++ failed_sends_of tr2.
Proof. apply omap_app. Qed.

Lemma logs_of_app tr1 tr2 : logs_of (tr1 ++ tr2) = logs_of tr1 ++ logs_of tr2.
Proof. apply omap_app. Qed.

Lemma fetched_of_app tr1 tr2 : fetched_of (tr1 ++ tr2) = fetched_of tr1 ++ fetched_of tr2.
Proof. unfold fetched_of. by rewrite omap_app, join_app. Qed.

Lemma dones_of_app tr1 tr2 : dones_of (tr1 ++ tr2) = dones_of tr1 ++ dones_of tr2.
Proof. apply omap_app. Qed.

Lemma fetches_of_app tr1 tr2 : fetches_of (tr1 ++ tr2) = fetches_of tr1 ++ fetches_of tr2.
Proof. apply omap_app. Qed.

Lemma delivery_events_fetches evs :
  Forall (fun ev => delivery_event ev = true) evs ->
  fetches_of evs = [] /\ fetched_of evs = [] /\ dones_of evs = [].
Proof.
  induction 1 as [|ev evs Hev _ (IH1 & IH2 & IH3)]; [done|].
  unfold fetched_of in *. by destruct ev.
Qed.

#[export] Hint Rewrite sends_of_app failed_sends_of_app logs_of_app
  fetched_of_app fetches_of_app dones_of_app : go.

(** ** Lemmas on traced computations *)

Section traced_lemmas.
Context {E : Type}.
Implicit Types (w : World E) (e : E).

Lemma traced_intro {A} (c : Go (World E) A) (r : E -> A) (ev : E -> list Event)
    (env : E -> E) :
  (forall w, c w = (r (w_env w), mkWorld (env (w_env w)) (w_trace w ++ ev (w_env w)))) ->
  Traced c.
Proof.
  intros H w. unfold result_of, events_of, env_after. by rewrite !H.
Qed.

#[export] Instance ret_traced {A} (a : A) : Traced (E := E) (ret a).
Proof. apply (traced_intro _ (fun _ => a) (fun _ => []) id). intros [e tr]. simpl.
  unfold ret. by rewrite app_nil_r. Qed.

#[export] Instance emit_traced ev : Traced (E := E) (emit ev).
Proof. by apply (traced_intro _ (fun _ => tt) (fun _ => [ev]) id). Qed.

#[export] Instance logrus_traced entry : Traced (E := E) (logrus entry).
Proof. apply emit_traced. Qed.

#[export] Instance NewTicker_traced d : Traced (E := E) (NewTicker d).
Proof. apply emit_traced. Qed.

#[export] Instance Done_traced wg : Traced (E := E) (Done wg).
Proof. apply emit_traced. Qed.

#[export] Instance GetConfig_traced {Rd : Redis E} key : Traced (GetConfig key).
Proof.
  apply (traced_intro _ (fun e => (GetConfig_call key e).1)
    (fun e => [EvGetConfig key (GetConfig_call key e).1.1 (GetConfig_call key e).1.2])
    (fun e => (GetConfig_call key e).2)).
  intros w. unfold GetConfig. by destruct (GetConfig_call key (w_env w)) as [[??]?].
Qed.

#[export] Instance ChannelMessageSendEmbed_traced {Dc : Discord E} channel embed :
  Traced (ChannelMessageSendEmbed channel embed).
Proof.
  apply (traced_intro _ (fun e => (ChannelMessageSendEmbed_call channel embed e).1)
    (fun e => [EvSend channel embed (ChannelMessageSendEmbed_call channel embed e).1])
    (fun e => (ChannelMessageSendEmbed_call channel embed e).2)).
  intros w. unfold ChannelMessageSendEmbed.
  by destruct (ChannelMessageSendEmbed_call channel embed (w_env w)).
Qed.

#[export] Instance RedisPoolGet_traced {Rp : RedisPool E} : Traced RedisPoolGet.
Proof.
  apply (traced_intro _ (fun e => (RedisPool_Get e).1)
    (fun e => [EvRedisGet (RedisPool_Get e).1]) (fun e => (RedisPool_Get e).2)).
  intros w. unfold RedisPoolGet. by destruct (RedisPool_Get (w_env w)).
Qed.

#[export] Instance GetRedisJson_traced {Rp : RedisPool E} key : Traced (GetRedisJson key).
Proof.
  apply (traced_intro _ (fun e => (GetRedisJson_call key e).1)
    (fun e => [EvGetRedisJson key (GetRedisJson_call key e).1.1 (GetRedisJson_call key e).1.2])
    (fun e => (GetRedisJson_call key e).2)).
  intros w. unfold GetRedisJson. by destruct (GetRedisJson_call key (w_env w)) as [[??]?].
Qed.

#[export] Instance GetNewPosts_traced {F} {Ft : Fetcher E F} (fetcher : F) :
  Traced (GetNewPosts fetcher).
Proof.
  apply (traced_intro _
    (fun e => ((GetNewPosts_call fetcher e).1.1, (GetNewPosts_call fetcher e).1.2))
    (fun e => [EvGetNewPosts (GetNewPosts_call fetcher e).1.1.1
                 (GetNewPosts_call fetcher e).1.1.2])
    (fun e => (GetNewPosts_call fetcher e).2)).
  intros w. unfold GetNewPosts.
  by destruct (GetNewPosts_call fetcher (w_env w)) as [[[??]?]?].
Qed.

(** Sequencing: the events of the first computation, then those of the
    second, run from where the first ended. *)
Lemma bind_run {A B} (c : Go (World E) A) (k : A -> Go (World E) B)
    `{!Traced c} `{!forall a, Traced (k a)} w :
  bind c k w =
    (result_of (k (result_of c (w_env w))) (env_after c (w_env w)),
     mkWorld (env_after (k (result_of c (w_env w))) (env_after c (w_env w)))
       (w_trace w ++ events_of c (w_env w) ++
          events_of (k (result_of c (w_env w))) (env_after c (w_env w)))).
Proof.
  unfold bind. rewrite (traced_run (c := c)), (traced_run (c := k _)). simpl.
  by rewrite <- app_assoc.
Qed.

#[export] Instance bind_traced {A B} (c : Go (World E) A) (k : A -> Go (World E) B) :
  Traced c -> (forall a, Traced (k a)) -> Traced (bind c k).
Proof.
  intros Hc Hk.
  apply (traced_intro _
    (fun e => result_of (k (result_of c e)) (env_after c e))
    (fun e => events_of c e ++ events_of (k (result_of c e)) (env_after c e))
    (fun e => env_after (k (result_of c e)) (env_after c e))).
  intros w. by rewrite bind_run.
Qed.

#[export] Instance for_range_traced {A} (l : list A) (body : A -> Go (World E) unit) :
  (forall a, Traced (body a)) -> Traced (for_range l body).
Proof. intros Hb. induction l; simpl; apply _. Qed.

Lemma events_of_bind {A B} (c : Go (World E) A) (k : A -> Go (World E) B)
    `{!Traced c} `{!forall a, Traced (k a)} e :
  events_of (bind c k) e =
    events_of c e ++ events_of (k (result_of c e)) (env_after c e).
Proof. unfold events_of at 1. by rewrite bind_run. Qed.

Lemma env_after_bind {A B} (c : Go (World E) A) (k : A -> Go (World E) B)
    `{!Traced c} `{!forall a, Traced (k a)} e :
  env_after (bind c k) e = env_after (k (result_of c e)) (env_after c e).
Proof. unfold env_after at 1. by rewrite bind_run. Qed.

Lemma result_of_bind {A B} (c : Go (World E) A) (k : A -> Go (World E) B)
    `{!Traced c} `{!forall a, Traced (k a)} e :
  result_of (bind c k) e = result_of (k (result_of c e)) (env_after c e).
Proof. unfold result_of at 1. by rewrite bind_run. Qed.

Lemma events_of_ret {A} (a : A) e : events_of (E := E) (ret a) e = [].
Proof. done. Qed.

Lemma env_after_ret {A} (a : A) e : env_after (E := E) (ret a) e = e.
Proof. done. Qed.

Lemma result_of_ret {A} (a : A) e : result_of (E := E) (ret a) e = a.
Proof. done. Qed.

(** A traced computation extends the trace. *)
Lemma traced_prefix {A} (c : Go (World E) A) `{!Traced c} w :
  w_trace w `prefix_of` w_trace (c w).2.
Proof. rewrite (traced_run (c := c)). by apply prefix_app_r. Qed.

Lemma traced_trace {A} (c : Go (World E) A) `{!Traced c} w :
  w_trace (c w).2 = w_trace w ++ events_of c (w_env w).
Proof. by rewrite (traced_run (c := c)). Qed.

Lemma traced_env {A} (c : Go (World E) A) `{!Traced c} w :
  w_env (c w).2 = env_after c (w_env w).
Proof. by rewrite (traced_run (c := c)). Qed.

Lemma traced_result {A} (c : Go (World E) A) `{!Traced c} w :
  (c w).1 = result_of c (w_env w).
Proof. by rewrite (traced_run (c := c)). Qed.

End traced_lemmas.

(** Proves that a computation written with the monad's operations and the
    calls above is traced, by cases on what it branches on. *)
Ltac solve_traced :=
  repeat first
    [ progress intros
    | match goal with
      | |- Traced (match ?x with _ => _ end) => destruct x
      | |- Traced (for_range _ _) => apply for_range_traced
      | |- Traced (bind _ _) => apply bind_traced
      end
    | apply _ ].

(** ** A concrete environment *)

Module Sim.

(** Redis holds a map from keys to subscriptions and the stored ids, and
    may be down; Discord refuses the channels of [failing]; reddit answers
    the successive fetches with the listings of [feed]. *)
Record Env : Type := mkEnv {
  configs : gmap string (list SubredditWatchItem);
  redis_down : bool;
  failing : gset string;
  last_links : list string;
  feed : list (list Link * option error)
}.

#[export] Instance sim_environ : Environ := {|
  Getenv name := if bool_decide (name = "YAGPDB_REDDIT_CLIENTID") then "abc123"
                 else "<" +:+ name +:+ ">"
|}.

#[export] Instance sim_reddit : RedditLib := {| ScopeEdit := "edit"; ScopeRead := "read" |}.

#[export] Instance sim_common : Common := {|
  Conf_Host := "bot.example";
  VERSIONNUMBER := "0.1";
  CutStringShort s l :=
    if Z.of_nat (String.length s) <=? l then s
    else String.substring 0 (Z.to_nat (l - 3)) s +:+ "..."
|}.

(** Lower-casing of the ASCII letters; other bytes are kept. *)
Definition lower_byte (c : ascii) : ascii :=
  let n := byte_val c in
  if (65 <=? n) && (n <=? 90) then ascii_of_N (Z.to_N (n + 32)) else c.

Fixpoint lower (s : string) : string :=
  match s with
  | EmptyString => EmptyString
  | String c s' => String (lower_byte c) (lower s')
  end.

#[export] Instance sim_strings : GoStrings := {| ToLower := lower |}.

#[export] Instance sim_redis : Redis Env := {|
  GetConfig_call key e :=
    if redis_down e then (([], Some (ExtError "redis: connection refused")), e)
    else ((default [] (configs e !! key), None), e)
|}.

#[export] Instance sim_discord : Discord Env := {|
  ChannelMessageSendEmbed_call channel embed e :=
    (if bool_decide (channel ∈ failing e)
     then Some (ExtError "HTTP 403 Forbidden") else None, e)
|}.

#[export] Instance sim_pool : RedisPool Env := {|
  RedisPool_Get e :=
    (if redis_down e then Some (ExtError "redis: connection refused") else None, e);
  GetRedisJson_call key e :=
    if redis_down e then (([], Some (ExtError "redis: connection refused")), e)
    else ((if bool_decide (key = "reddit_last_links") then last_links e else [], None), e)
|}.

(** A fetcher that remembers the ids it returned: each call takes the next
    listing of [feed] and keeps the posts it has not returned before. *)
#[export] Instance sim_fetcher : Fetcher Env (list string) := {|
  NewPostFetcher_call _ lastIds := lastIds;
  GetNewPosts_call seen e :=
    match feed e with
    | [] => (([], None), seen, e)
    | (listing, Some err) :: rest =>
      (([], Some err), seen,
       mkEnv (configs e) (redis_down e) (failing e) (last_links e) rest)
    | (listing, None) :: rest =>
      let new := filter (fun l => link_ID l ∉ seen) listing in
      ((new, None), seen ++ (link_ID <$> new),
       mkEnv (configs e) (redis_down e) (failing e) (last_links e) rest)
    end
|}.

(** A subreddit with four subscriptions, two of them to the same channel
    and one that falls back to its guild; Discord refuses channel ["c1"]. *)
Definition golang_env : Env :=
  mkEnv {[ "global_subreddit_watch:golang" :=
             [mkWatch "g1" "c1"; mkWatch "g2" ""; mkWatch "g1" "c1"; mkWatch "g3" "g2"] ]}
        false {[ "c1" ]} [] [].

(** The same redis, unreachable. *)
Definition down_env : Env :=
  mkEnv (configs golang_env) true (failing golang_env) [] [].

Definition link_post : Link :=
  mkLink "5abc" "GoLang" "rob" "Go 2" false "" "https://go.dev".

Definition self_post : Link :=
  mkLink "5abd" "rust" "ferris" "Hello" true "A self text" "".

Definition link_post2 : Link :=
  mkLink "5abe" "golang" "ken" "Go 3" false "" "https://go.dev/3".

(** The environment of a run: one stored id, and three answers of reddit: a
    listing of three posts of which one is stored already, an error, and the
    first listing again with one more post. *)
Definition feed_env : Env :=
  mkEnv (configs golang_env) false (failing golang_env) ["5abd"]
    [([link_post; self_post], None);
     ([], Some (ExtError "reddit: 503"));
     ([link_post2; link_post], None)].

End Sim.
