(* ===== verification/HandlePost.v ===== *)
(** * [handlePost]: from a new post to its deliveries

    [handlePost] of [src/reddit/redditbot.go], lines 91-169, in the state
    monad over the [World]: the lookup of the subscriptions, the collection
    of the distinct destinations (the loop labelled [OUTER]), the embed, and
    the loop of sends.  The pieces are separate definitions so that each has
    its own specification:

    - [collectChannels] refines [dedup_first], the list of first
      occurrences, of the resolved channels of the configuration;
    - [sendEmbeds] attempts every destination once, in order, and logs the
      sends that failed;
    - [handlePost] composes them, with the early returns of the source. *)

From Stdlib Require Import ZArith Lia Ascii.
From stdpp Require Import base tactics option list strings.
From S2P Require Import Prelude Collaborators.

#[local] Open Scope Z_scope.
#[local] Open Scope go_scope.

(** ** The pure pieces *)

(** The redis key of a subreddit's subscriptions:
    ["global_subreddit_watch:"+strings.ToLower(post.Subreddit)]. *)
Definition configKey {St : GoStrings} (post : Link) : string :=
  "global_subreddit_watch:" +:+ ToLower (link_Subreddit post).

(** [if c.Channel == "" { c.Channel = c.Guild }]. *)
Definition resolveChannel (c : SubredditWatchItem) : SubredditWatchItem :=
  if bool_decide (watch_Channel c = "") then mkWatch (watch_Guild c) (watch_Guild c)
  else c.

(** The inner loop of [OUTER]: is [channel] one of [channels] already? *)
Fixpoint containsChannel (channels : list string) (channel : string) : bool :=
  match channels with
  | [] => false
  | currentChannel :: rest =>
    if bool_decide (currentChannel = channel) then true
    else containsChannel rest channel
  end.

(** One iteration of [OUTER]. *)
Definition addChannel (channels : list string) (c : SubredditWatchItem)
  : list string :=
  let c := resolveChannel c in
  if containsChannel channels (watch_Channel c) then channels
  else channels ++ [watch_Channel c].

(** The loop [OUTER] from [channels := make([]string, 0)]. *)
Definition collectChannels (config : list SubredditWatchItem) : list string :=
  foldl addChannel [] config.

(** ["\n"]. *)
Definition newline : string := String "010"%char EmptyString.

(** The embed of a post: the literal of lines 131-143 and the two branches
    on [post.IsSelf]. *)
Definition buildEmbed {Cm : Common} (post : Link) : MessageEmbed :=
  let author := link_Author post in
  let sub := link_Subreddit post in
  let embed_author :=
    mkEmbedAuthor ("https://reddit.com/u/" +:+ author) author
      ("https://" +:+ Conf_Host +:+ "/static/img/reddit_icon.png") in
  let provider := mkEmbedProvider "Reddit" "https://reddit.com" in
  let description := "**" +:+ link_Title post +:+ "**" +:+ newline in
  let url := "https://redd.it/" +:+ link_ID post in
  if link_IsSelf post then
    mkEmbed url ("New self post in /r/" +:+ sub)
      (description +:+ CutStringShort (link_Selftext post) 250)
      0xc3fc7e (Some embed_author) (Some provider) None None
  else
    mkEmbed url ("New link post in /r/" +:+ sub)
      (description +:+ link_URL post)
      0x718aed (Some embed_author) (Some provider)
      (Some (mkEmbedImage (link_URL post)))
      (Some (mkEmbedVideo (link_URL post))).

(** ** The effectful pieces *)

Section effects.
Context {E : Type} {Cm : Common} {St : GoStrings} {Rd : Redis E} {Dc : Discord E}.

(** The body of the loop of sends. *)
Definition sendEmbed (embed : MessageEmbed) (channel : string)
  : Go (World E) unit :=
  err <- ChannelMessageSendEmbed channel embed ;;
  match err with
  | Some e => logrus (log_error e "Error posting message")
  | None => ret tt
  end.

(** [for _, channel := range channels { ... }]. *)
Definition sendEmbeds (channels : list string) (embed : MessageEmbed)
  : Go (World E) unit :=
  for_range channels (sendEmbed embed).

(** The line logged when a post has subscribers. *)
Definition log_matched (channels : list string) (post : Link) : LogEntry :=
  mkLog InfoLevel "Found matched reddit post" None
    [("num_channels", FInt (Z.of_nat (length channels)));
     ("subreddit", FStr (link_Subreddit post))].

(** [func (p *Plugin) handlePost(post *reddit.Link, redisClient *redis.Client) error]. *)
Definition handlePost (post : Link) : Go (World E) (option error) :=
  r <- GetConfig (configKey post) ;;
  match r.2 with
  | Some err =>
    logrus (log_error err "Failed getting config from redis") ;;
    ret (Some err)
  | None =>
    let channels := collectChannels r.1 in
    if Z.of_nat (length channels) <? 1 then ret None
    else
      logrus (log_matched channels post) ;;
      sendEmbeds channels (buildEmbed post) ;;
      ret None
  end.

End effects.

(** ** The specification of the destinations *)

(** The destination of a subscription. *)
Definition destination (c : SubredditWatchItem) : string :=
  watch_Channel (resolveChannel c).

(** The first occurrences of a list, in order. *)
Fixpoint dedup_first (l : list string) : list string :=
  match l with
  | [] => []
  | x :: l' => x :: filter (fun y => y <> x) (dedup_first l')
  end.

(** ** Lemmas on the destinations *)

Lemma containsChannel_spec channels channel :
  containsChannel channels channel = bool_decide (channel ∈ channels).
Proof.
  induction channels as [|c channels IH].
  - symmetry. apply bool_decide_eq_false, not_elem_of_nil.
  - cbn [containsChannel]. destruct (bool_decide_reflect (c = channel)) as [->|Hne].
    + symmetry. apply bool_decide_eq_true, list_elem_of_here.
    + rewrite IH. apply bool_decide_ext. rewrite elem_of_cons. naive_solver.
Qed.

Lemma addChannel_spec channels c :
  addChannel channels c =
    if decide (destination c ∈ channels) then channels
    else channels ++ [destination c].
Proof.
  unfold addChannel, destination. rewrite containsChannel_spec.
  by destruct (decide (watch_Channel (resolveChannel c) ∈ channels));
    [rewrite bool_decide_true|rewrite bool_decide_false].
Qed.

Lemma destination_spec c :
  destination c = if decide (watch_Channel c = "") then watch_Guild c else watch_Channel c.
Proof.
  unfold destination, resolveChannel.
  by destruct (decide (watch_Channel c = ""));
    [rewrite bool_decide_true|rewrite bool_decide_false].
Qed.

Lemma elem_of_dedup_first l x : x ∈ dedup_first l <-> x ∈ l.
Proof.
  induction l as [|y l IH]; simpl; [done|].
  rewrite !elem_of_cons, list_elem_of_filter, IH.
  destruct (decide (x = y)); naive_solver.
Qed.

Lemma NoDup_dedup_first l : NoDup (dedup_first l).
Proof.
  induction l as [|y l IH]; simpl; constructor.
  - rewrite list_elem_of_filter. naive_solver.
  - by apply NoDup_filter.
Qed.

Lemma dedup_first_sublist l : dedup_first l `sublist_of` l.
Proof.
  induction l as [|y l IH]; simpl; [done|].
  apply sublist_skip. etrans; [apply sublist_filter|done].
Qed.

Lemma dedup_first_NoDup_id l : NoDup l -> dedup_first l = l.
Proof.
  induction 1 as [|x l Hx Hl IH]; simpl; [done|]. rewrite IH. f_equal.
  apply filter_all. intros y Hy ->. done.
Qed.

(** The loop from any list of channels found so far. *)
Lemma collect_from channels config :
  foldl addChannel channels config =
    channels ++ filter (fun x => x ∉ channels) (dedup_first (destination <$> config)).
Proof.
  revert channels. induction config as [|c config IH]; intros channels; simpl.
  - by rewrite app_nil_r.
  - rewrite IH, addChannel_spec. destruct (decide (destination c ∈ channels)) as [Hin|Hin].
    + rewrite filter_cons_False by tauto. f_equal.
      rewrite list_filter_filter. apply filter_ext_in. intros x _. naive_solver.
    + rewrite filter_cons_True by done. rewrite <- app_assoc. simpl. do 2 f_equal.
      rewrite list_filter_filter. apply filter_ext_in. intros x _.
      rewrite not_elem_of_app, list_elem_of_singleton. tauto.
Qed.

Lemma collectChannels_dedup config :
  collectChannels config = dedup_first (destination <$> config).
Proof.
  unfold collectChannels. rewrite collect_from. simpl.
  apply filter_all. intros x _. apply not_elem_of_nil.
Qed.

Lemma collectChannels_nil config : collectChannels config = [] <-> config = [].
Proof.
  rewrite collectChannels_dedup. by destruct config.
Qed.

(** ** Lemmas on the sends *)

Section runs.
Context {E : Type} {Cm : Common} {St : GoStrings} {Rd : Redis E} {Dc : Discord E}.
Implicit Types (w : World E) (e : E).

(** The events of one iteration of the loop of sends. *)
Definition send_events (embed : MessageEmbed) (channel : string)
    (err : option error) : list Event :=
  EvSend channel embed err ::
  match err with
  | Some e => [EvLog (log_error e "Error posting message")]
  | None => []
  end.

(** The events of the loop of sends and the environment after it. *)
Fixpoint send_run (embed : MessageEmbed) (channels : list string) (e : E)
  : list Event * E :=
  match channels with
  | [] => ([], e)
  | channel :: rest =>
    let '(err, e1) := ChannelMessageSendEmbed_call channel embed e in
    let '(evs, e2) := send_run embed rest e1 in
    (send_events embed channel err ++ evs, e2)
  end.

Lemma send_run_cons embed channel rest e :
  send_run embed (channel :: rest) e =
    (send_events embed channel (ChannelMessageSendEmbed_call channel embed e).1 ++
       (send_run embed rest (ChannelMessageSendEmbed_call channel embed e).2).1,
     (send_run embed rest (ChannelMessageSendEmbed_call channel embed e).2).2).
Proof.
  simpl. destruct (ChannelMessageSendEmbed_call channel embed e) as [err e1].
  simpl. by destruct (send_run embed rest e1).
Qed.

#[local] Arguments send_run : simpl never.

Lemma sendEmbed_run embed channel w :
  sendEmbed embed channel w =
    let '(err, e) := ChannelMessageSendEmbed_call channel embed (w_env w) in
    (tt, mkWorld e (w_trace w ++ send_events embed channel err)).
Proof.
  unfold sendEmbed, bind, ChannelMessageSendEmbed, send_events.
  destruct (ChannelMessageSendEmbed_call channel embed (w_env w)) as [[err|] e];
    simpl; [|done].
  unfold logrus, emit. simpl. by rewrite <- app_assoc.
Qed.

Lemma sendEmbeds_run channels embed w :
  sendEmbeds channels embed w =
    (tt, mkWorld (send_run embed channels (w_env w)).2
           (w_trace w ++ (send_run embed channels (w_env w)).1)).
Proof.
  unfold sendEmbeds. revert w.
  induction channels as [|channel rest IH]; intros [e tr].
  - change (send_run embed [] e) with (@nil Event, e). simpl. by rewrite app_nil_r.
  - cbn [for_range w_env w_trace]. unfold bind.
    rewrite sendEmbed_run, send_run_cons. cbn [w_env w_trace fst snd].
    destruct (ChannelMessageSendEmbed_call channel embed e) as [err e1].
    rewrite IH. cbn [w_env w_trace fst snd]. by rewrite <- app_assoc.
Qed.

Lemma sends_of_send_events embed channel err :
  sends_of (send_events embed channel err) = [(channel, embed)].
Proof. by destruct err. Qed.

Lemma failed_sends_of_send_events embed channel err :
  failed_sends_of (send_events embed channel err) =
    (fun x => (channel, x)) <$> option_list err.
Proof. by destruct err. Qed.

Lemma logs_of_send_events embed channel err :
  logs_of (send_events embed channel err) =
    (fun x => log_error x "Error posting message") <$> option_list err.
Proof. by destruct err. Qed.

Lemma send_run_sends embed channels e :
  sends_of (send_run embed channels e).1 = (fun ch => (ch, embed)) <$> channels.
Proof.
  revert e. induction channels as [|channel rest IH]; intros e; [done|].
  rewrite send_run_cons. cbn [fst snd].
  by rewrite sends_of_app, sends_of_send_events, IH.
Qed.

Lemma send_run_logs embed channels e :
  logs_of (send_run embed channels e).1 =
    (fun p => log_error p.2 "Error posting message") <$>
      failed_sends_of (send_run embed channels e).1.
Proof.
  revert e. induction channels as [|channel rest IH]; intros e; [done|].
  rewrite send_run_cons. cbn [fst snd].
  rewrite logs_of_app, failed_sends_of_app, fmap_app, IH.
  rewrite logs_of_send_events, failed_sends_of_send_events.
  by rewrite <- list_fmap_compose.
Qed.

Lemma send_run_failed_sublist embed channels e :
  (failed_sends_of (send_run embed channels e).1).*1 `sublist_of` channels.
Proof.
  revert e. induction channels as [|channel rest IH]; intros e; [done|].
  rewrite send_run_cons. cbn [fst snd].
  rewrite failed_sends_of_app, fmap_app, failed_sends_of_send_events.
  destruct (ChannelMessageSendEmbed_call channel embed e).1; simpl;
    by constructor.
Qed.

(** [handlePost], run: the result, the environment and the events added, by
    the answer of redis. *)
Lemma handlePost_run post w :
  handlePost post w =
    let '((config, err), e1) := GetConfig_call (configKey post) (w_env w) in
    let tr1 := w_trace w ++ [EvGetConfig (configKey post) config err] in
    match err with
    | Some err =>
      (Some err,
       mkWorld e1 (tr1 ++ [EvLog (log_error err "Failed getting config from redis")]))
    | None =>
      match collectChannels config with
      | [] => (None, mkWorld e1 tr1)
      | channels =>
        let '(evs, e2) := send_run (buildEmbed post) channels e1 in
        (None, mkWorld e2 (tr1 ++ EvLog (log_matched channels post) :: evs))
      end
    end.
Proof.
  unfold handlePost, bind, GetConfig.
  destruct (GetConfig_call (configKey post) (w_env w)) as [[config [err|]] e1];
    simpl; [done|].
  destruct (collectChannels config) as [|ch channels] eqn:Hch; [done|].
  destruct (Z.ltb_spec (Z.of_nat (length (ch :: channels))) 1); [simpl in *; lia|].
  unfold logrus, emit. simpl. rewrite sendEmbeds_run. simpl.
  destruct (send_run (buildEmbed post) (ch :: channels) e1) as [evs e2]. simpl.
  by rewrite <- app_assoc.
Qed.

Lemma send_run_delivery_events embed channels e :
  Forall (fun ev => delivery_event ev = true) (send_run embed channels e).1.
Proof.
  revert e. induction channels as [|channel rest IH]; intros e; [constructor|].
  rewrite send_run_cons. cbn [fst]. apply Forall_app. split; [|apply IH].
  destruct (ChannelMessageSendEmbed_call channel embed e).1; by repeat constructor.
Qed.

Lemma handlePost_delivery_events post e :
  Forall (fun ev => delivery_event ev = true) (events_of (handlePost post) e).
Proof.
  unfold events_of. rewrite handlePost_run. cbn [w_env w_trace app].
  destruct (GetConfig_call (configKey post) e) as [[config [err|]] e1];
    cbv beta iota zeta; [by repeat constructor|].
  destruct (collectChannels config) as [|ch channels]; [by repeat constructor|].
  pose proof (send_run_delivery_events (buildEmbed post) (ch :: channels) e1).
  destruct (send_run (buildEmbed post) (ch :: channels) e1). by repeat constructor.
Qed.

#[export] Instance sendEmbed_traced embed channel : Traced (sendEmbed embed channel).
Proof. unfold sendEmbed. solve_traced. Qed.

#[export] Instance sendEmbeds_traced channels embed : Traced (sendEmbeds channels embed).
Proof. unfold sendEmbeds. solve_traced. Qed.

#[export] Instance handlePost_traced post : Traced (handlePost post).
Proof. unfold handlePost. solve_traced. Qed.

End runs.

Arguments send_run : simpl never.

(** ** The library's duplicate removal as reference *)

Lemma remove_dups_snoc (l : list string) x :
  remove_dups (l ++ [x]) = filter (fun y => y <> x) (remove_dups l) ++ [x].
Proof.
  induction l as [|y l IH]; [done|]. cbn [app remove_dups]. rewrite IH.
  destruct (decide_rel elem_of y (l ++ [x])) as [H1|H1],
    (decide_rel elem_of y l) as [H2|H2];
    rewrite elem_of_app, list_elem_of_singleton in H1.
  - done.
  - destruct H1 as [? | ->]; [done|]. by rewrite filter_cons_False by tauto.
  - tauto.
  - by rewrite filter_cons_True by tauto.
Qed.

Lemma dedup_first_remove_dups l :
  dedup_first l = reverse (remove_dups (reverse l)).
Proof.
  induction l as [|x l IH]; [done|]. simpl.
  rewrite reverse_cons, remove_dups_snoc, reverse_app, <- filter_reverse, <- IH. done.
Qed.

(** ** The properties of the destinations *)

(** Claim C2.  The destinations [handlePost] sends a post to have no
    duplicates, and they are exactly the channels of the subscriptions, an
    empty channel standing for the guild: two subscriptions to the same
    channel give one delivery. *)
Theorem collectChannels_NoDup (config : list SubredditWatchItem) :
  NoDup (collectChannels config) /\
  forall ch, ch ∈ collectChannels config <-> exists c, c ∈ config /\ destination c = ch.
Proof.
  rewrite collectChannels_dedup. split; [apply NoDup_dedup_first|].
  intros ch. rewrite elem_of_dedup_first, list_elem_of_fmap. naive_solver.
Qed.

(** Claim C10.  The loop [OUTER] computes the first occurrences of the
    resolved channels, in the order of the configuration: it is the
    library's duplicate removal (which keeps last occurrences) on the
    reversed list, reversed, and a sublist of the resolved channels. *)
Theorem collectChannels_refines (config : list SubredditWatchItem) :
  collectChannels config = reverse (remove_dups (reverse (destination <$> config))) /\
  collectChannels config `sublist_of` (destination <$> config).
Proof.
  rewrite collectChannels_dedup. split.
  - apply dedup_first_remove_dups.
  - apply dedup_first_sublist.
Qed.

(** The embed determines the post it was built from as far as delivery is
    concerned: two posts with the same embed have the same id, the same
    author, the same subreddit and the same kind. *)
Lemma buildEmbed_inj {Cm : Common} (p q : Link) :
  buildEmbed p = buildEmbed q ->
  link_ID p = link_ID q /\ link_Author p = link_Author q /\
  link_Subreddit p = link_Subreddit q /\ link_IsSelf p = link_IsSelf q.
Proof.
  intros Heq.
  pose proof (f_equal embed_URL Heq) as HU. pose proof (f_equal embed_Title Heq) as HT.
  pose proof (f_equal embed_Author Heq) as HA. pose proof (f_equal embed_Color Heq) as HC.
  unfold buildEmbed in HU, HT, HA, HC.
  destruct (link_IsSelf p), (link_IsSelf q); simpl in *; try discriminate HC;
    apply (inj _) in HU; apply (inj _) in HT; by simplify_eq.
Qed.

(** ** The properties of the deliveries *)

Section deliveries.
Context {E : Type} {Cm : Common} {St : GoStrings} {Rd : Redis E} {Dc : Discord E}.
Implicit Types (w : World E).

(** The sends of a call whose lookup succeeds, in terms of the loop. *)
Lemma handlePost_sends (post : Link) w (config : list SubredditWatchItem) (e1 : E) :
  GetConfig_call (configKey post) (w_env w) = ((config, None), e1) ->
  (handlePost post w).1 = None /\
  sends_of (w_trace (handlePost post w).2) =
    sends_of (w_trace w) ++ ((fun ch => (ch, buildEmbed post)) <$> collectChannels config).
Proof.
  intros Hcfg. rewrite handlePost_run, Hcfg. cbv beta iota zeta.
  destruct (collectChannels config) as [|ch channels] eqn:Hch.
  - simpl. by rewrite sends_of_app, !app_nil_r.
  - pose proof (send_run_sends (buildEmbed post) (ch :: channels) e1) as Hs.
    destruct (send_run (buildEmbed post) (ch :: channels) e1) as [evs e2].
    cbn [fst snd w_trace] in *. split; [done|].
    rewrite !sends_of_app. change (?x :: evs) with ([x] ++ evs).
    rewrite sends_of_app, Hs. simpl. by rewrite app_nil_r.
Qed.

(** Claim C1.  When redis answers with the subscriptions of the post's
    subreddit, [handlePost] returns no error and sends the post's embed
    once to each distinct destination, in the order of their first
    occurrence in the configuration, whatever the sends return. *)
Theorem handlePost_delivers (post : Link) w
    (config : list SubredditWatchItem) (e1 : E) :
  GetConfig_call (configKey post) (w_env w) = ((config, None), e1) ->
  (handlePost post w).1 = None /\
  sends_of (w_trace (handlePost post w).2) =
    sends_of (w_trace w) ++
    ((fun ch => (ch, buildEmbed post)) <$> dedup_first (destination <$> config)).
Proof.
  intros Hcfg. rewrite <- collectChannels_dedup. by eapply handlePost_sends.
Qed.

(** Claim C26.  The loop of sends attempts every destination once, in order,
    with the same embed; a send that fails is logged with its error and the
    loop goes on: the error lines are exactly the failed sends, in order. *)
Theorem sendEmbeds_attempts_all (channels : list string) (embed : MessageEmbed) w :
  exists evs,
    w_trace (sendEmbeds channels embed w).2 = w_trace w ++ evs /\
    sends_of evs = (fun ch => (ch, embed)) <$> channels /\
    logs_of evs =
      (fun p => log_error p.2 "Error posting message") <$> failed_sends_of evs /\
    (failed_sends_of evs).*1 `sublist_of` channels.
Proof.
  exists (send_run embed channels (w_env w)).1. rewrite sendEmbeds_run.
  split_and!; [done|..].
  - apply send_run_sends.
  - apply send_run_logs.
  - apply send_run_failed_sublist.
Qed.

(** Claim C11.  When the lookup of the subscriptions fails, [handlePost]
    logs the failure, returns the error of the lookup and sends nothing. *)
Theorem handlePost_config_error (post : Link) w
    (config : list SubredditWatchItem) (err : error) (e1 : E) :
  GetConfig_call (configKey post) (w_env w) = ((config, Some err), e1) ->
  handlePost post w =
    (Some err,
     mkWorld e1 (w_trace w ++
       [EvGetConfig (configKey post) config (Some err);
        EvLog (log_error err "Failed getting config from redis")])) /\
  sends_of (w_trace (handlePost post w).2) = sends_of (w_trace w).
Proof.
  intros Hcfg. rewrite handlePost_run, Hcfg. cbn [fst snd w_trace].
  rewrite <- app_assoc. split; [done|].
  by rewrite sends_of_app, app_nil_r.
Qed.

(** Claim C38.  A subreddit without subscriptions: [handlePost] returns
    after the lookup, with no error, no send and no line logged; and a
    subreddit with a subscription always gets a send. *)
Theorem handlePost_no_subscribers (post : Link) w
    (config : list SubredditWatchItem) (e1 : E) :
  GetConfig_call (configKey post) (w_env w) = ((config, None), e1) ->
  (config = [] ->
   handlePost post w =
     (None, mkWorld e1 (w_trace w ++ [EvGetConfig (configKey post) [] None]))) /\
  (sends_of (w_trace (handlePost post w).2) = sends_of (w_trace w) <-> config = []).
Proof.
  intros Hcfg. split.
  - intros ->. by rewrite handlePost_run, Hcfg.
  - destruct (handlePost_sends post w config e1 Hcfg) as [_ ->].
    rewrite <- collectChannels_nil.
    split; [|by intros ->; rewrite app_nil_r].
    intros Heq. destruct (collectChannels config); [done|].
    apply (f_equal length) in Heq. rewrite length_app in Heq. simpl in Heq. lia.
Qed.

(** [handlePost] only adds to the trace: what was observed
    before the call is a prefix of what is observed after it. *)
Theorem handlePost_extends_trace (post : Link) w :
  w_trace w `prefix_of` w_trace (handlePost post w).2.
Proof.
  rewrite handlePost_run.
  destruct (GetConfig_call (configKey post) (w_env w)) as [[config [err|]] e1];
    cbv beta iota zeta.
  - cbn [snd w_trace]. rewrite <- app_assoc. by apply prefix_app_r.
  - destruct (collectChannels config) as [|ch channels].
    + by apply prefix_app_r.
    + destruct (send_run (buildEmbed post) (ch :: channels) e1) as [evs e2].
      cbn [snd w_trace]. rewrite <- app_assoc. by apply prefix_app_r.
Qed.

End deliveries.

(** ** The theorems on a concrete environment *)

Import Sim.

Lemma handlePost_delivers_witness :
  (handlePost Sim.link_post (mkWorld Sim.golang_env [])).1 = None /\
  sends_of (w_trace (handlePost Sim.link_post (mkWorld Sim.golang_env [])).2) =
    [("c1", buildEmbed Sim.link_post); ("g2", buildEmbed Sim.link_post)].
Proof.
  apply (handlePost_delivers (Cm := Sim.sim_common) (St := Sim.sim_strings)
           (Rd := Sim.sim_redis) (Dc := Sim.sim_discord)
           Sim.link_post (mkWorld Sim.golang_env [])
           [mkWatch "g1" "c1"; mkWatch "g2" ""; mkWatch "g1" "c1"; mkWatch "g3" "g2"]
           Sim.golang_env).
  vm_compute. reflexivity.
Defined.

Lemma handlePost_config_error_witness :
  handlePost Sim.link_post (mkWorld Sim.down_env []) =
    (Some (ExtError "redis: connection refused"),
     mkWorld Sim.down_env
       [EvGetConfig "global_subreddit_watch:golang" []
          (Some (ExtError "redis: connection refused"));
        EvLog (log_error (ExtError "redis: connection refused")
                 "Failed getting config from redis")]) /\
  sends_of (w_trace (handlePost Sim.link_post (mkWorld Sim.down_env [])).2) = [].
Proof.
  apply (handlePost_config_error (Cm := Sim.sim_common) (St := Sim.sim_strings)
           (Rd := Sim.sim_redis) (Dc := Sim.sim_discord)
           Sim.link_post (mkWorld Sim.down_env []) []
           (ExtError "redis: connection refused") Sim.down_env).
  vm_compute. reflexivity.
Defined.

Lemma handlePost_no_subscribers_witness :
  ([] = @nil SubredditWatchItem ->
   handlePost Sim.self_post (mkWorld Sim.golang_env []) =
     (None, mkWorld Sim.golang_env [EvGetConfig "global_subreddit_watch:rust" [] None])) /\
  (sends_of (w_trace (handlePost Sim.self_post (mkWorld Sim.golang_env [])).2) = [] <->
   [] = @nil SubredditWatchItem).
Proof.
  apply (handlePost_no_subscribers (Cm := Sim.sim_common) (St := Sim.sim_strings)
           (Rd := Sim.sim_redis) (Dc := Sim.sim_discord)
           Sim.self_post (mkWorld Sim.golang_env []) [] Sim.golang_env).
  vm_compute. reflexivity.
Defined.

(** A send that fails does not stop the loop: the destination after it is
    attempted, and the failure alone is logged. *)
Example sendEmbeds_failure_then_success :
  let em := buildEmbed Sim.link_post in
  w_trace (sendEmbeds ["c1"; "g2"] em (mkWorld Sim.golang_env [])).2 =
    [EvSend "c1" em (Some (ExtError "HTTP 403 Forbidden"));
     EvLog (log_error (ExtError "HTTP 403 Forbidden") "Error posting message");
     EvSend "g2" em None].
Proof. vm_compute. reflexivity. Qed.
