(* ===== verification/RunBot.v ===== *)
(** * [runBot]: the dispatch loop

    The upper half of [src/reddit/redditbot.go]: the configuration read from
    the process environment (lines 18-23), [UserAgent] and [setupClient]
    (33-41), [getLastIds] (81-89) and [runBot] (43-79).

    [runBot] is modelled in three parts.  [runBot_start] is the code before
    the loop; [tick] is the body of the loop after the [select]; the
    [select] itself receives what the scheduler delivers, a stop request or
    a tick of the timer, and [runBot_loop] runs the loop over the list of the
    signals delivered so far.  A loop that has consumed its signals is
    blocked in [select]: it is [Running].  The same loop is given as the
    relation [step], and [runBot_loop] is proved to compute it. *)

From Stdlib Require Import ZArith Lia Ascii.
From stdpp Require Import base tactics option list strings.
From S2P Require Import Prelude Collaborators HandlePost.

#[local] Open Scope Z_scope.
#[local] Open Scope go_scope.

(** ** Configuration and client *)

Section config.
Context {Ev : Environ} {Cm : Common} {Rl : RedditLib}.

Definition ClientID : string := Getenv "YAGPDB_REDDIT_CLIENTID".
Definition ClientSecret : string := Getenv "YAGPDB_REDDIT_CLIENTSECRET".
Definition RedirectURI : string := Getenv "YAGPDB_REDDIT_REDIRECT".
Definition RefreshToken : string := Getenv "YAGPDB_REDDIT_REFRESHTOKEN".

(** [fmt.Sprintf("YAGPDB:%s:%s (by /u/jonas747)", ClientID, common.VERSIONNUMBER)]. *)
Definition UserAgent : string :=
  "YAGPDB:" +:+ ClientID +:+ ":" +:+ VERSIONNUMBER +:+ " (by /u/jonas747)".

Definition setupClient : Client :=
  let authenticator :=
    mkAuthenticator UserAgent ClientID ClientSecret RedirectURI "a"
      (ScopeEdit +:+ " " +:+ ScopeRead) in
  let redditClient := mkClient authenticator (mkToken RefreshToken) UserAgent in
  redditClient.

End config.

(** ** The loop *)

(** [time.Second], in nanoseconds. *)
Definition Second : Z := 1000000000.

(** What the [select] of the loop receives: a wait group sent by [StopFeed],
    or a tick of the timer. *)
Inductive Signal : Type :=
| SigStop (wg : WaitGroup)
| SigTick.

#[export] Instance Signal_eq_dec : EqDecision Signal.
Proof. solve_decision. Defined.

(** Where a call of [runBot] is: blocked in the [select] with its fetcher,
    returned after a stop request, or ended by the panic of
    [common.MustGetRedisClient]. *)
Inductive LoopState (E F : Type) : Type :=
| Running (fetcher : F) (w : World E)
| Stopped (w : World E)
| Panicked (err : error) (w : World E).
Arguments Running {E F} _ _.
Arguments Stopped {E F} _.
Arguments Panicked {E F} _ _.

Definition world_of {E F} (s : LoopState E F) : World E :=
  match s with Running _ w | Stopped w | Panicked _ w => w end.

Definition is_Running {E F} (s : LoopState E F) : bool :=
  match s with Running _ _ => true | _ => false end.

Definition is_Stopped {E F} (s : LoopState E F) : bool :=
  match s with Stopped _ => true | _ => false end.

Section loop.
Context {E F : Type} {Ev : Environ} {Cm : Common} {Rl : RedditLib}
  {St : GoStrings} {Rd : Redis E} {Dc : Discord E} {Rp : RedisPool E}
  {Ft : Fetcher E F}.

(** [common.MustGetRedisClient()]: the error it panics with, if any. *)
Definition MustGetRedisClient : Go (World E) (option error) := RedisPoolGet.

Definition getLastIds : Go (World E) (list string) :=
  r <- GetRedisJson "reddit_last_links" ;;
  match r.2 with
  | Some err =>
    logrus (log_error err "Failed retrieving post buffer from redis") ;;
    ret r.1
  | None => ret r.1
  end.

(** [runBot] from the stored ids to the ticker. *)
Definition runBot_start (redditClient : Client) : Go (World E) F :=
  storedLastIds <- getLastIds ;;
  (if 0 <? Z.of_nat (length storedLastIds)
   then logrus (log_info "Found lastids, attempting resuming")
   else ret tt) ;;
  let fetcher := NewPostFetcher_call redditClient storedLastIds in
  NewTicker (Second * 5) ;;
  ret fetcher.

(** [for _, v := range links { p.handlePost(v, redisClient) }]. *)
Definition handlePosts (links : list Link) : Go (World E) unit :=
  for_range links (fun v => handlePost v ;; ret tt).

(** The body of the loop after the [select]. *)
Definition tick (fetcher : F) : Go (World E) F :=
  r <- GetNewPosts fetcher ;;
  let '((links, err), fetcher) := r in
  match err with
  | Some e =>
    logrus (log_error e "Error fetchind new links") ;;
    ret fetcher
  | None =>
    if Z.of_nat (length links) <? 1 then ret fetcher
    else handlePosts links ;; ret fetcher
  end.

(** The loop over the signals its [select] receives. *)
Fixpoint runBot_loop (signals : list Signal) (fetcher : F) (w : World E)
  : LoopState E F :=
  match signals with
  | [] => Running fetcher w
  | SigStop wg :: _ => Stopped (Done wg w).2
  | SigTick :: signals' =>
    let '(fetcher', w') := tick fetcher w in
    runBot_loop signals' fetcher' w'
  end.

(** [func (p *Plugin) runBot()]. *)
Definition runBot (signals : list Signal) (w : World E) : LoopState E F :=
  let redditClient := setupClient in
  let '(panic, w) := MustGetRedisClient w in
  match panic with
  | Some err => Panicked err w
  | None =>
    let '(fetcher, w) := runBot_start redditClient w in
    runBot_loop signals fetcher w
  end.

(** One iteration of the loop, as a relation. *)
Inductive step : LoopState E F -> Signal -> LoopState E F -> Prop :=
| step_stop fetcher w wg :
    step (Running fetcher w) (SigStop wg) (Stopped (Done wg w).2)
| step_tick fetcher w :
    step (Running fetcher w) SigTick (Running (tick fetcher w).1 (tick fetcher w).2).

(** Iterations in sequence. *)
Inductive steps : LoopState E F -> list Signal -> LoopState E F -> Prop :=
| steps_nil s : steps s [] s
| steps_cons s sig s' sigs s'' :
    step s sig s' -> steps s' sigs s'' -> steps s (sig :: sigs) s''.

End loop.

(** ** What the loop is measured against *)

(** The first stop request among the signals, if there is one. *)
Definition first_stop (signals : list Signal) : option WaitGroup :=
  head (omap (fun s => match s with SigStop wg => Some wg | SigTick => None end) signals).

(** The ticks that come before the first stop request. *)
Fixpoint ticks_before_stop (signals : list Signal) : list Signal :=
  match signals with
  | SigTick :: signals' => SigTick :: ticks_before_stop signals'
  | _ => []
  end.

(** A trace is justified when each of its sends carries the embed of a post
    that the fetcher returned earlier in the trace, or of a post of [seen]. *)
Fixpoint justified {Cm : Common} (seen : list Link) (tr : list Event) : bool :=
  match tr with
  | [] => true
  | EvGetNewPosts links None :: tr' => justified (seen ++ links) tr'
  | EvSend _ embed _ :: tr' =>
    bool_decide (embed ∈ buildEmbed <$> seen) && justified seen tr'
  | _ :: tr' => justified seen tr'
  end.

(** The deliveries owed to a list of posts when the subscriptions of a key
    are [cfg key]: for each post in order, its embed to each distinct
    destination. *)
Definition deliveries {Cm : Common} {St : GoStrings}
    (cfg : string -> list SubredditWatchItem) (links : list Link)
  : list (string * MessageEmbed) :=
  links ≫= (fun post =>
    (fun ch => (ch, buildEmbed post)) <$> dedup_first (destination <$> cfg (configKey post))).

(** ** Lemmas on signals and traces *)

Lemma first_stop_app_ticks ticks signals :
  Forall (fun s => s = SigTick) ticks ->
  first_stop (ticks ++ signals) = first_stop signals.
Proof.
  induction 1 as [|s ticks -> _ IH]; [done|]. apply IH.
Qed.

Lemma ticks_before_stop_spec signals :
  Forall (fun s => s = SigTick) (ticks_before_stop signals) /\
  match first_stop signals with
  | Some wg => exists rest, signals = ticks_before_stop signals ++ SigStop wg :: rest
  | None => signals = ticks_before_stop signals
  end.
Proof.
  induction signals as [|[wg|] signals [IH1 IH2]]; simpl.
  - done.
  - split; [done|]. by exists signals.
  - split; [by constructor|]. change (first_stop (SigTick :: signals)) with (first_stop signals).
    destruct (first_stop signals) as [wg|]; [|by f_equal].
    destruct IH2 as [rest Hrest]. exists rest. by f_equal.
Qed.

Section justified.
Context {Cm : Common}.

Lemma justified_app seen tr1 tr2 :
  justified seen (tr1 ++ tr2) =
    justified seen tr1 && justified (seen ++ fetched_of tr1) tr2.
Proof.
  revert seen. induction tr1 as [|ev tr1 IH]; intros seen.
  - by rewrite app_nil_r.
  - destruct ev as [| | | | |links [err|]| |]; cbn [app justified]; rewrite ?IH; try done.
    + by rewrite andb_assoc.
    + unfold fetched_of. simpl. by rewrite app_assoc.
Qed.

Lemma justified_mono seen seen' tr :
  seen ⊆ seen' -> justified seen tr = true -> justified seen' tr = true.
Proof.
  revert seen seen'. induction tr as [|ev tr IH]; intros seen seen' Hs; [done|].
  destruct ev as [| |ch em err| | |links [err|]| |]; cbn [justified]; eauto.
  - rewrite !andb_true_iff, !bool_decide_eq_true, !list_elem_of_fmap.
    intros [(post & -> & Hp) Hj]. split; [|by eauto]. exists post. split; [done|].
    by apply Hs.
  - apply IH. intros x [?|?]%elem_of_app; apply elem_of_app; auto.
Qed.

(** The sends of a justified trace, by the prefix before each of them. *)
Lemma justified_spec seen tr :
  justified seen tr = true <->
  forall tr1 ch embed err tr2, tr = tr1 ++ EvSend ch embed err :: tr2 ->
    exists post, post ∈ seen ++ fetched_of tr1 /\ embed = buildEmbed post.
Proof.
  split.
  - intros Hj tr1 ch embed err tr2 ->. rewrite justified_app in Hj.
    apply andb_true_iff in Hj as [_ Hj]. cbn [justified] in Hj.
    apply andb_true_iff in Hj as [Hj _]. apply bool_decide_eq_true in Hj.
    apply list_elem_of_fmap in Hj as (post & -> & Hp). by exists post.
  - revert seen. induction tr as [|ev tr IH] using rev_ind; intros seen H; [done|].
    rewrite justified_app. apply andb_true_iff. split.
    + apply IH. intros tr1 ch embed err tr2 ->.
      apply (H tr1 ch embed err (tr2 ++ [ev])). by rewrite <- app_assoc.
    + destruct ev as [| |ch em err| | |links [err|]| |]; try done.
      cbn [justified]. rewrite andb_true_r. apply bool_decide_eq_true.
      destruct (H tr ch em err [] eq_refl) as (post & Hp & ->).
      apply list_elem_of_fmap. by exists post.
Qed.

End justified.

(** Posts with distinct ids are owed distinct deliveries. *)
Lemma deliveries_NoDup {Cm : Common} {St : GoStrings} cfg links :
  NoDup (link_ID <$> links) -> NoDup (deliveries cfg links).
Proof.
  intros Hnd. unfold deliveries. apply NoDup_bind.
  - intros p q y Hp Hq (c1 & -> & _)%list_elem_of_fmap (c2 & [= _ Heq] & _)%list_elem_of_fmap.
    apply buildEmbed_inj in Heq as [Hid _]. by eapply NoDup_fmap_inj_on.
  - intros post _. apply NoDup_fmap_2_strong; [|apply NoDup_dedup_first].
    by intros ?? _ _ [= ->].
  - by apply NoDup_fmap_1 in Hnd.
Qed.

(** ** The loop, run *)

Section loop_lemmas.
Context {E F : Type} {Ev : Environ} {Cm : Common} {Rl : RedditLib}
  {St : GoStrings} {Rd : Redis E} {Dc : Discord E} {Rp : RedisPool E}
  {Ft : Fetcher E F}.
Implicit Types (w : World E) (fetcher : F) (signals : list Signal).

#[export] Instance getLastIds_traced : Traced getLastIds.
Proof. unfold getLastIds. solve_traced. Qed.

#[export] Instance runBot_start_traced client : Traced (runBot_start client).
Proof. unfold runBot_start. solve_traced. Qed.

#[export] Instance handlePosts_traced links : Traced (handlePosts links).
Proof. unfold handlePosts. solve_traced. Qed.

#[export] Instance tick_traced fetcher : Traced (tick fetcher).
Proof. unfold tick. solve_traced. Qed.

Lemma handlePosts_cons post links e :
  events_of (handlePosts (post :: links)) e =
    events_of (handlePost post) e ++
    events_of (handlePosts links) (env_after (handlePost post) e) /\
  env_after (handlePosts (post :: links)) e =
    env_after (handlePosts links) (env_after (handlePost post) e).
Proof.
  unfold handlePosts. cbn [for_range].
  rewrite !events_of_bind, !env_after_bind by apply _.
  by rewrite events_of_ret, !env_after_ret, app_nil_r.
Qed.

(** [tick], run: the result, the environment and the events added, by the
    answer of the fetcher. *)
Lemma tick_run fetcher w :
  tick fetcher w =
    let '((links, err), fetcher', e) := GetNewPosts_call fetcher (w_env w) in
    let tr := w_trace w ++ [EvGetNewPosts links err] in
    match err with
    | Some err =>
      (fetcher', mkWorld e (tr ++ [EvLog (log_error err "Error fetchind new links")]))
    | None =>
      (fetcher', mkWorld (env_after (handlePosts links) e)
                   (tr ++ events_of (handlePosts links) e))
    end.
Proof.
  unfold tick, bind, GetNewPosts.
  destruct (GetNewPosts_call fetcher (w_env w)) as [[[links [err|]] fetcher'] e];
    cbv beta iota zeta; [done|].
  destruct links as [|post links]; [by rewrite app_nil_r|].
  destruct (Z.ltb_spec (Z.of_nat (length (post :: links))) 1); [simpl in *; lia|].
  by rewrite (traced_run (c := handlePosts _)).
Qed.

Lemma runBot_loop_app signals1 signals2 fetcher w :
  runBot_loop (signals1 ++ signals2) fetcher w =
    match runBot_loop signals1 fetcher w with
    | Running fetcher' w' => runBot_loop signals2 fetcher' w'
    | s => s
    end.
Proof.
  revert fetcher w. induction signals1 as [|[wg|] signals1 IH]; intros fetcher w;
    cbn [app runBot_loop]; [done..|].
  destruct (tick fetcher w). apply IH.
Qed.

Lemma runBot_loop_ticks ticks fetcher w :
  Forall (fun s => s = SigTick) ticks ->
  is_Running (runBot_loop ticks fetcher w) = true.
Proof.
  intros H. revert fetcher w. induction H as [|s ticks -> _ IH]; intros fetcher w; [done|].
  cbn [runBot_loop]. destruct (tick fetcher w). apply IH.
Qed.

Lemma runBot_loop_stop ticks wg rest fetcher w :
  Forall (fun s => s = SigTick) ticks ->
  runBot_loop (ticks ++ SigStop wg :: rest) fetcher w =
    Stopped (Done wg (world_of (runBot_loop ticks fetcher w))).2.
Proof.
  intros H. rewrite runBot_loop_app. apply (runBot_loop_ticks _ fetcher w) in H.
  by destruct (runBot_loop ticks fetcher w).
Qed.

Lemma step_deterministic s sig s1 s2 : step s sig s1 -> step s sig s2 -> s1 = s2.
Proof. destruct 1; by inversion 1. Qed.

Lemma steps_deterministic s signals s1 s2 :
  steps s signals s1 -> steps s signals s2 -> s1 = s2.
Proof.
  intros H1. revert s2. induction H1 as [|s sig s' sigs s'' Hs _ IH]; inversion 1; subst.
  - done.
  - apply IH. by rewrite (step_deterministic _ _ _ _ Hs ltac:(eassumption)).
Qed.

Lemma steps_app s signals1 s' signals2 s'' :
  steps s signals1 s' -> steps s' signals2 s'' -> steps s (signals1 ++ signals2) s''.
Proof. induction 1; [done|]. intros. econstructor; eauto. Qed.

Lemma steps_ticks ticks fetcher w :
  Forall (fun s => s = SigTick) ticks ->
  steps (Running fetcher w) ticks (runBot_loop ticks fetcher w).
Proof.
  intros H. revert fetcher w. induction H as [|s ticks -> _ IH]; intros fetcher w.
  - constructor.
  - cbn [runBot_loop]. econstructor; [apply step_tick|].
    destruct (tick fetcher w). apply IH.
Qed.

Lemma handlePosts_delivery_events links e :
  Forall (fun ev => delivery_event ev = true) (events_of (handlePosts links) e).
Proof.
  revert e. induction links as [|post links IH]; intros e; [constructor|].
  destruct (handlePosts_cons post links e) as [-> _]. apply Forall_app. split.
  - apply handlePost_delivery_events.
  - apply IH.
Qed.

(** What a tick adds to the trace: one fetch, then events of deliveries. *)
Lemma tick_trace fetcher w :
  exists evs,
    w_trace (tick fetcher w).2 =
      w_trace w ++ [EvGetNewPosts (GetNewPosts_call fetcher (w_env w)).1.1.1
                      (GetNewPosts_call fetcher (w_env w)).1.1.2] ++ evs /\
    Forall (fun ev => delivery_event ev = true) evs.
Proof.
  rewrite tick_run.
  destruct (GetNewPosts_call fetcher (w_env w)) as [[[links [err|]] fetcher'] e];
    cbn [fst snd w_trace]; eexists; rewrite <- app_assoc; (split; [done|]).
  - by repeat constructor.
  - apply handlePosts_delivery_events.
Qed.

(** What a tick fetched, and the fetcher after it. *)
Lemma tick_fetched fetcher e :
  fetched_of (events_of (tick fetcher) e) =
    match (GetNewPosts_call fetcher e).1.1.2 with
    | None => (GetNewPosts_call fetcher e).1.1.1
    | Some _ => []
    end /\
  result_of (tick fetcher) e = (GetNewPosts_call fetcher e).1.2.
Proof.
  unfold events_of, result_of. rewrite tick_run. cbn [w_env w_trace app].
  destruct (GetNewPosts_call fetcher e) as [[[links [err|]] fetcher'] e1];
    cbn [fst snd w_trace]; [done|].
  destruct (delivery_events_fetches _ (handlePosts_delivery_events links e1))
    as (_ & Hf & _).
  change (?x :: ?l) with ([x] ++ l). rewrite fetched_of_app, Hf.
  change (fetched_of [EvGetNewPosts links None]) with (links ++ []).
  by rewrite !app_nil_r.
Qed.

Lemma steps_Stopped w signals s' :
  steps (Stopped w : LoopState E F) signals s' -> signals = [] /\ s' = Stopped w.
Proof. inversion 1 as [|? ? ? ? ? Hs]; [done|inversion Hs]. Qed.

Lemma steps_runBot_loop signals fetcher w s' :
  steps (Running fetcher w) signals s' -> runBot_loop signals fetcher w = s'.
Proof.
  revert fetcher w. induction signals as [|sig signals IH]; intros fetcher w;
    inversion 1 as [|? ? ? ? ? Hs Hss]; subst; [done|].
  inversion Hs; subst; cbn [runBot_loop].
  - by apply steps_Stopped in Hss as [_ ->].
  - destruct (tick fetcher w). by apply IH.
Qed.

(** The acknowledgements of a run of the loop. *)
Lemma runBot_loop_dones signals fetcher w :
  dones_of (w_trace (world_of (runBot_loop signals fetcher w))) =
    dones_of (w_trace w) ++ option_list (first_stop signals).
Proof.
  revert fetcher w. induction signals as [|[wg|] signals IH]; intros fetcher w;
    cbn [runBot_loop world_of].
  - by rewrite app_nil_r.
  - change (w_trace (Done wg w).2) with (w_trace w ++ [EvDone wg]).
    by rewrite dones_of_app.
  - destruct (tick_trace fetcher w) as (evs & Htr & [_ [_ Hd]]%delivery_events_fetches).
    destruct (tick fetcher w) as [fetcher' w']. rewrite IH. cbn [snd] in Htr.
    by rewrite Htr, !dones_of_app, Hd, !app_nil_r.
Qed.


Lemma runBot_loop_Stopped signals fetcher w :
  is_Stopped (runBot_loop signals fetcher w) = bool_decide (is_Some (first_stop signals)) /\
  is_Running (runBot_loop signals fetcher w) = bool_decide (first_stop signals = None).
Proof.
  revert fetcher w. induction signals as [|[wg|] signals IH]; intros fetcher w;
    cbn [runBot_loop]; [done..|].
  destruct (tick fetcher w). apply IH.
Qed.

(** The events of a run of the loop that starts in the environment [e]. *)
Definition run_events (signals : list Signal) (fetcher : F) (e : E) : list Event :=
  w_trace (world_of (runBot_loop signals fetcher (mkWorld e []))).

Lemma run_events_tick signals fetcher e :
  run_events (SigTick :: signals) fetcher e =
    events_of (tick fetcher) e ++
    run_events signals (result_of (tick fetcher) e) (env_after (tick fetcher) e).
Proof.
  unfold run_events at 1. cbn [runBot_loop]. rewrite (traced_run (c := tick fetcher)).
  cbn [w_env w_trace app]. clear.
  generalize (result_of (tick fetcher) e), (env_after (tick fetcher) e),
    (events_of (tick fetcher) e). intros f' e' evs. revert f' e' evs.
  induction signals as [|[wg|] signals IH]; intros f' e' evs; unfold run_events;
    cbn [runBot_loop world_of w_trace app]; [by rewrite app_nil_r|done|].
  rewrite !(traced_run (c := tick f')). cbn [w_env w_trace app].
  rewrite (IH _ _ (evs ++ _)), (IH _ _ (events_of (tick f') e')).
  by rewrite <- app_assoc.
Qed.

(** A run adds its events to the trace. *)
Lemma runBot_loop_trace signals fetcher w :
  w_trace (world_of (runBot_loop signals fetcher w)) =
    w_trace w ++ run_events signals fetcher (w_env w).
Proof.
  revert fetcher w. induction signals as [|[wg|] signals IH]; intros fetcher w.
  - cbn. by rewrite app_nil_r.
  - done.
  - rewrite run_events_tick. cbn [runBot_loop].
    rewrite (traced_run (c := tick fetcher)), IH. cbn [w_env w_trace].
    by rewrite <- app_assoc.
Qed.

(** The start of [runBot], run. *)
Definition lastIds_events (result : list string) (err : option error) : list Event :=
  EvGetRedisJson "reddit_last_links" result err ::
  match err with
  | Some err => [EvLog (log_error err "Failed retrieving post buffer from redis")]
  | None => []
  end.

Definition start_events (result : list string) (err : option error) : list Event :=
  lastIds_events result err ++
  (if bool_decide (result = []) then []
   else [EvLog (log_info "Found lastids, attempting resuming")]) ++
  [EvNewTicker 5000000000].

Lemma getLastIds_run w :
  getLastIds w =
    let '((result, err), e) := GetRedisJson_call "reddit_last_links" (w_env w) in
    (result, mkWorld e (w_trace w ++ lastIds_events result err)).
Proof.
  unfold getLastIds, bind, GetRedisJson, lastIds_events.
  destruct (GetRedisJson_call "reddit_last_links" (w_env w)) as [[result [err|]] e];
    simpl; [|done].
  unfold logrus, emit. simpl. by rewrite <- app_assoc.
Qed.

Lemma runBot_start_run client w :
  runBot_start client w =
    let '((result, err), e) := GetRedisJson_call "reddit_last_links" (w_env w) in
    (NewPostFetcher_call client result,
     mkWorld e (w_trace w ++ start_events result err)).
Proof.
  unfold runBot_start, bind, start_events. rewrite getLastIds_run.
  destruct (GetRedisJson_call "reddit_last_links" (w_env w)) as [[result err] e].
  destruct result as [|id result]; simpl; unfold NewTicker, logrus, emit; simpl;
    by rewrite <- !app_assoc.
Qed.

Lemma runBot_run signals w :
  runBot signals w =
    let '(panic, e1) := RedisPool_Get (w_env w) in
    let tr := w_trace w ++ [EvRedisGet panic] in
    match panic with
    | Some err => Panicked err (mkWorld e1 tr)
    | None =>
      let '((result, err), e2) := GetRedisJson_call "reddit_last_links" e1 in
      runBot_loop signals (NewPostFetcher_call setupClient result)
        (mkWorld e2 (tr ++ start_events result err))
    end.
Proof.
  unfold runBot, MustGetRedisClient, RedisPoolGet.
  destruct (RedisPool_Get (w_env w)) as [[err|] e1]; [done|].
  rewrite runBot_start_run. cbn [w_env w_trace].
  by destruct (GetRedisJson_call "reddit_last_links" e1) as [[result err] e2].
Qed.

Lemma start_events_quiet result err :
  sends_of (start_events result err) = [] /\ fetches_of (start_events result err) = [] /\
  fetched_of (start_events result err) = [] /\ dones_of (start_events result err) = [].
Proof. unfold start_events. by destruct err, result. Qed.

(** The deliveries of posts that were fetched are justified. *)
Lemma justified_send_run seen embed channels e :
  embed ∈ buildEmbed <$> seen -> justified seen (send_run embed channels e).1 = true.
Proof.
  intros Hin. revert e. induction channels as [|channel rest IH]; intros e; [done|].
  rewrite send_run_cons. cbn [fst]. rewrite justified_app. apply andb_true_iff. split.
  - destruct (ChannelMessageSendEmbed_call channel embed e).1; cbn [send_events justified];
      by rewrite bool_decide_true.
  - eapply justified_mono; [|apply IH]. intros x ?. apply elem_of_app. by left.
Qed.

Lemma justified_handlePost seen post e :
  post ∈ seen -> justified seen (events_of (handlePost post) e) = true.
Proof.
  intros Hin. unfold events_of. rewrite handlePost_run. cbn [w_env w_trace app].
  destruct (GetConfig_call (configKey post) e) as [[config [err|]] e1];
    cbv beta iota zeta; [done|].
  destruct (collectChannels config) as [|ch channels]; [done|].
  pose proof (justified_send_run seen (buildEmbed post) (ch :: channels) e1) as Hj.
  destruct (send_run (buildEmbed post) (ch :: channels) e1). cbn [snd w_trace app justified].
  apply Hj, list_elem_of_fmap. by exists post.
Qed.

Lemma justified_handlePosts seen links e :
  links ⊆ seen -> justified seen (events_of (handlePosts links) e) = true.
Proof.
  revert e. induction links as [|post links IH]; intros e Hsub; [done|].
  destruct (handlePosts_cons post links e) as [-> _].
  rewrite justified_app. apply andb_true_iff. split.
  - apply justified_handlePost, Hsub. by left.
  - eapply justified_mono; [|apply IH].
    + intros x ?. apply elem_of_app. by left.
    + intros x ?. apply Hsub. by right.
Qed.

Lemma justified_tick seen fetcher w :
  justified seen (w_trace w) = true -> justified seen (w_trace (tick fetcher w).2) = true.
Proof.
  intros Hj. rewrite tick_run.
  destruct (GetNewPosts_call fetcher (w_env w)) as [[[links [err|]] fetcher'] e];
    cbn [snd w_trace]; rewrite <- app_assoc, justified_app, Hj; [done|].
  cbn [app justified andb]. apply justified_handlePosts.
  intros x ?. apply elem_of_app. by right.
Qed.

Lemma justified_runBot_loop seen signals fetcher w :
  justified seen (w_trace w) = true ->
  justified seen (w_trace (world_of (runBot_loop signals fetcher w))) = true.
Proof.
  revert fetcher w. induction signals as [|[wg|] signals IH]; intros fetcher w Hj;
    cbn [runBot_loop world_of]; [done|..].
  - change (w_trace (Done wg w).2) with (w_trace w ++ [EvDone wg]).
    by rewrite justified_app, Hj.
  - pose proof (justified_tick seen fetcher w Hj).
    destruct (tick fetcher w). by apply IH.
Qed.

End loop_lemmas.

(** ** Deliveries under a stable configuration *)

(** The environments of [Inv] answer every look-up of subscriptions with
    [cfg], and the calls of the handler keep the environment in [Inv]. *)
Section stable.
Context {E F : Type} {Cm : Common} {St : GoStrings} {Rd : Redis E} {Dc : Discord E}
  {Ft : Fetcher E F}.
Variable Inv : E -> Prop.
Variable cfg : string -> list SubredditWatchItem.
Hypothesis Inv_config : forall key e, Inv e ->
  (GetConfig_call key e).1 = (cfg key, None) /\ Inv (GetConfig_call key e).2.
Hypothesis Inv_send : forall channel embed e, Inv e ->
  Inv (ChannelMessageSendEmbed_call channel embed e).2.

Lemma Inv_send_run embed channels e : Inv e -> Inv (send_run embed channels e).2.
Proof.
  revert e. induction channels as [|channel rest IH]; intros e He; [done|].
  rewrite send_run_cons. cbn [snd]. by apply IH, Inv_send.
Qed.

Lemma handlePost_stable post e :
  Inv e ->
  sends_of (events_of (handlePost post) e) =
    ((fun ch => (ch, buildEmbed post)) <$> dedup_first (destination <$> cfg (configKey post))) /\
  Inv (env_after (handlePost post) e).
Proof.
  intros He. destruct (Inv_config (configKey post) e He) as [Hc He1].
  destruct (GetConfig_call (configKey post) e) as [r e1] eqn:Hcall. simpl in Hc, He1.
  subst r. split.
  - rewrite <- collectChannels_dedup.
    by destruct (handlePost_sends post (mkWorld e []) _ _ Hcall) as [_ Hs].
  - unfold env_after. rewrite handlePost_run. cbn [w_env]. rewrite Hcall.
    cbv beta iota zeta. destruct (collectChannels _) as [|ch channels]; [done|].
    pose proof (Inv_send_run (buildEmbed post) (ch :: channels) e1 He1).
    by destruct (send_run (buildEmbed post) (ch :: channels) e1).
Qed.

Lemma handlePosts_stable links e :
  Inv e ->
  sends_of (events_of (handlePosts links) e) = deliveries cfg links /\
  Inv (env_after (handlePosts links) e).
Proof.
  revert e. induction links as [|post links IH]; intros e He; [done|].
  destruct (handlePosts_cons post links e) as [-> ->].
  destruct (handlePost_stable post e He) as [Hs He1].
  destruct (IH _ He1) as [Hs' He2]. split; [|done].
  by rewrite sends_of_app, Hs, Hs'.
Qed.

(** Claim C5.  A tick whose fetch returns posts, in an environment with a
    stable configuration: every post, in the order the fetcher returned
    them, is delivered once to each distinct destination subscribed to its
    subreddit, and nothing else is sent. *)
Theorem tick_delivers (fetcher fetcher' : F) (w : World E) (links : list Link) (e' : E) :
  GetNewPosts_call fetcher (w_env w) = ((links, None), fetcher', e') -> Inv e' ->
  (tick fetcher w).1 = fetcher' /\
  sends_of (w_trace (tick fetcher w).2) = sends_of (w_trace w) ++ deliveries cfg links /\
  Inv (w_env (tick fetcher w).2).
Proof.
  intros Hcall He'. rewrite tick_run, Hcall. cbn [fst snd w_env w_trace].
  destruct (handlePosts_stable links e' He') as [Hs Hi].
  split_and!; [done| |done]. rewrite !sends_of_app, Hs. simpl. by rewrite app_nil_r.
Qed.

(** The same for a run, when the fetcher keeps the environment stable: the
    sends of the run are the deliveries owed to the posts it fetched. *)
Hypothesis Inv_poll : forall (fetcher : F) e, Inv e -> Inv (GetNewPosts_call fetcher e).2.

Lemma deliveries_app links1 links2 :
  deliveries cfg (links1 ++ links2) = deliveries cfg links1 ++ deliveries cfg links2.
Proof. unfold deliveries. by rewrite bind_app. Qed.

Lemma tick_stable fetcher e :
  Inv e ->
  sends_of (events_of (tick fetcher) e) =
    deliveries cfg (fetched_of (events_of (tick fetcher) e)) /\
  Inv (env_after (tick fetcher) e).
Proof.
  intros He. pose proof (Inv_poll fetcher e He) as He1.
  unfold events_of, env_after. rewrite tick_run. cbn [w_env w_trace app].
  destruct (GetNewPosts_call fetcher e) as [[[links [err|]] fetcher'] e1];
    cbn [snd w_env w_trace] in *; [done|].
  destruct (handlePosts_stable links e1 He1) as [Hs Hi]. split; [|done].
  destruct (delivery_events_fetches _ (handlePosts_delivery_events links e1))
    as (_ & Hf & _).
  change (?x :: ?l) with ([x] ++ l). rewrite sends_of_app, fetched_of_app, Hs, Hf.
  change (fetched_of [EvGetNewPosts links None]) with (links ++ []).
  by rewrite !app_nil_r.
Qed.

Lemma run_events_stable signals fetcher e :
  Inv e ->
  sends_of (run_events signals fetcher e) =
    deliveries cfg (fetched_of (run_events signals fetcher e)).
Proof.
  revert fetcher e. induction signals as [|[wg|] signals IH]; intros fetcher e He;
    [done..|].
  rewrite run_events_tick, sends_of_app, fetched_of_app, deliveries_app.
  destruct (tick_stable fetcher e He) as [-> He1]. by rewrite IH.
Qed.

End stable.

(** ** The properties of the loop *)

Section loop_properties.
Context {E F : Type} {Ev : Environ} {Cm : Common} {Rl : RedditLib}
  {St : GoStrings} {Rd : Redis E} {Dc : Discord E} {Rp : RedisPool E}
  {Ft : Fetcher E F}.
Implicit Types (w : World E) (fetcher : F) (signals : list Signal).

Lemma runBot_loop_prefix signals fetcher w :
  w_trace w `prefix_of` w_trace (world_of (runBot_loop signals fetcher w)).
Proof.
  revert fetcher w. induction signals as [|[wg|] signals IH]; intros fetcher w;
    cbn [runBot_loop world_of]; [done|by apply prefix_app_r|].
  pose proof (traced_prefix (tick fetcher) w). destruct (tick fetcher w) as [fetcher' w'].
  by etrans; [|apply IH].
Qed.

(** Claim C4.  The loop computes the step relation: the state it reaches is
    the one reached by taking the ticks before the first stop request and
    then that request, one step each; and every sequence of steps over the
    signals ends in the state the loop computes. *)
Theorem runBot_loop_refines_step signals fetcher w :
  steps (Running fetcher w)
    (ticks_before_stop signals ++ option_list (SigStop <$> first_stop signals))
    (runBot_loop signals fetcher w) /\
  forall s', steps (Running fetcher w) signals s' -> runBot_loop signals fetcher w = s'.
Proof.
  split; [|apply steps_runBot_loop].
  destruct (ticks_before_stop_spec signals) as [Ht Hs].
  destruct (first_stop signals) as [wg|]; cbn [fmap option_fmap option_map option_list].
  - destruct Hs as [rest Hs]. rewrite Hs at 2. rewrite runBot_loop_stop by done.
    eapply steps_app; [by apply steps_ticks|].
    pose proof (runBot_loop_ticks _ fetcher w Ht).
    destruct (runBot_loop _ fetcher w); try done. repeat econstructor.
  - rewrite app_nil_r. rewrite Hs at 2. by apply steps_ticks.
Qed.

(** Claim C6.  A stop request is served between ticks: the ticks delivered
    before it run to their end, then the loop acknowledges the wait group of
    the request and returns; what is delivered after the request is never
    looked at. *)
Theorem runBot_stop_acknowledged ticks wg rest fetcher w :
  Forall (fun s => s = SigTick) ticks ->
  is_Running (runBot_loop ticks fetcher w) = true /\
  runBot_loop (ticks ++ SigStop wg :: rest) fetcher w =
    Stopped (mkWorld (w_env (world_of (runBot_loop ticks fetcher w)))
               (w_trace (world_of (runBot_loop ticks fetcher w)) ++ [EvDone wg])).
Proof.
  intros Ht. split; [by apply runBot_loop_ticks|]. by rewrite runBot_loop_stop.
Qed.

(** The loop acknowledges at most one wait group, the one of the
    first stop request, and it has returned exactly when it has
    acknowledged it; without a stop request it is still in its [select]. *)
Theorem runBot_acknowledges_once signals fetcher w :
  dones_of (w_trace (world_of (runBot_loop signals fetcher w))) =
    dones_of (w_trace w) ++ option_list (first_stop signals) /\
  (is_Stopped (runBot_loop signals fetcher w) = true <-> is_Some (first_stop signals)) /\
  (is_Running (runBot_loop signals fetcher w) = true <-> first_stop signals = None).
Proof.
  destruct (runBot_loop_Stopped signals fetcher w) as [-> ->].
  rewrite !bool_decide_eq_true. split; [apply runBot_loop_dones|done].
Qed.

(** Claim C27.  A tick whose fetch fails logs the error and does nothing
    else: no look-up, no send; the loop goes on with the fetcher as the
    failed call left it. *)
Theorem tick_fetch_error fetcher fetcher' w (links : list Link) (err : error) (e' : E) :
  GetNewPosts_call fetcher (w_env w) = ((links, Some err), fetcher', e') ->
  tick fetcher w =
    (fetcher',
     mkWorld e' (w_trace w ++ [EvGetNewPosts links (Some err);
                               EvLog (log_error err "Error fetchind new links")])).
Proof. intros Hcall. rewrite tick_run, Hcall. cbn [w_trace]. by rewrite <- app_assoc. Qed.

(** Claim C7.  Every send of a run of [runBot] carries the embed of a post
    that the fetcher returned, without an error, earlier in the same run. *)
Theorem runBot_sends_fetched signals w tr1 ch embed err tr2 :
  w_trace w = [] ->
  w_trace (world_of (runBot (F := F) signals w)) = tr1 ++ EvSend ch embed err :: tr2 ->
  exists post, post ∈ fetched_of tr1 /\ embed = buildEmbed post.
Proof.
  intros Hw Htr. cut (justified [] (w_trace (world_of (runBot (F := F) signals w))) = true).
  { intros Hj. by eapply (justified_spec []) in Hj. }
  clear Htr. rewrite runBot_run, Hw.
  destruct (RedisPool_Get (w_env w)) as [[e|] e1]; [done|].
  destruct (GetRedisJson_call "reddit_last_links" e1) as [[result e] e2].
  apply justified_runBot_loop. by destruct e, result.
Qed.

(** Every tick delivered before the first stop request is
    served by one call of the fetcher, and there is no other call. *)
Theorem runBot_one_fetch_per_tick signals fetcher w :
  length (fetches_of (w_trace (world_of (runBot_loop signals fetcher w)))) =
    (length (fetches_of (w_trace w)) + length (ticks_before_stop signals))%nat.
Proof.
  revert fetcher w. induction signals as [|[wg|] signals IH]; intros fetcher w;
    cbn [runBot_loop world_of ticks_before_stop length].
  - lia.
  - change (w_trace (Done wg w).2) with (w_trace w ++ [EvDone wg]).
    rewrite fetches_of_app, length_app. simpl. lia.
  - destruct (tick_trace fetcher w) as (evs & Htr & [Hf _]%delivery_events_fetches).
    destruct (tick fetcher w) as [fetcher' w']. rewrite IH. cbn [snd] in Htr.
    rewrite Htr, !fetches_of_app, Hf, !length_app. simpl. lia.
Qed.

(** Claim C40.  [getLastIds] returns what the JSON helper decoded, also
    when the helper reports an error, which is logged. *)
Theorem getLastIds_returns_decoded w (result : list string) (err : option error) (e : E) :
  GetRedisJson_call "reddit_last_links" (w_env w) = ((result, err), e) ->
  getLastIds w =
    (result,
     mkWorld e (w_trace w ++ EvGetRedisJson "reddit_last_links" result err ::
       ((fun x => EvLog (log_error x "Failed retrieving post buffer from redis")) <$>
          option_list err))).
Proof. intros Hcall. rewrite getLastIds_run, Hcall. by destruct err. Qed.

(** Claim C32.  Without a redis client [runBot] panics before anything
    else: no id is loaded, no ticker made, no fetch. *)
Theorem runBot_panics_without_redis signals w (err : error) (e1 : E) :
  RedisPool_Get (w_env w) = (Some err, e1) ->
  runBot (F := F) signals w =
    Panicked err (mkWorld e1 (w_trace w ++ [EvRedisGet (Some err)])).
Proof. intros Hcall. by rewrite runBot_run, Hcall. Qed.

(** Claim C33.  [runBot] resumes from the stored ids: the fetcher is made
    from the client of [setupClient] and the ids [getLastIds] returned, the
    ticker has a period of five seconds, and the resumption is announced
    exactly when ids were found. *)
Theorem runBot_resumes_from_stored_ids w (result : list string) (err : option error)
    (e1 e2 : E) :
  RedisPool_Get (w_env w) = (None, e1) ->
  GetRedisJson_call "reddit_last_links" e1 = ((result, err), e2) ->
  runBot [] w =
    Running (NewPostFetcher_call setupClient result)
      (mkWorld e2 (w_trace w ++ [EvRedisGet None] ++ start_events result err)) /\
  (log_info "Found lastids, attempting resuming" ∈ logs_of (start_events result err)
     <-> result <> []) /\
  EvNewTicker (5 * Second) ∈ start_events result err.
Proof.
  intros Hpool Hjson. rewrite runBot_run, Hpool, Hjson. cbn [runBot_loop].
  rewrite <- app_assoc. split_and!; [done| |].
  - unfold start_events. rewrite !logs_of_app.
    destruct err, result; cbn; rewrite ?elem_of_cons, ?elem_of_nil; split;
      try done; intros H; decompose [or] H; try done; auto.
  - unfold start_events. rewrite !elem_of_app, list_elem_of_singleton. by right; right.
Qed.

(** What a run of [runBot] has done is never undone by the
    signals that follow: the trace of the run over a prefix of the signals
    is a prefix of the trace of the run over all of them. *)
Theorem runBot_trace_monotone signals1 signals2 w :
  signals1 `prefix_of` signals2 ->
  w_trace (world_of (runBot (F := F) signals1 w)) `prefix_of`
    w_trace (world_of (runBot (F := F) signals2 w)).
Proof.
  intros [k ->]. rewrite !runBot_run.
  destruct (RedisPool_Get (w_env w)) as [[e|] e1]; [done|].
  destruct (GetRedisJson_call "reddit_last_links" e1) as [[result e] e2].
  rewrite runBot_loop_app. destruct (runBot_loop signals1 _ _); [|done..].
  apply runBot_loop_prefix.
Qed.

End loop_properties.

(** ** The theorems on a concrete environment *)

Import Sim.

(** The simulated redis is stable as long as it is up: the subscriptions of
    [golang_env] never change. *)
Definition sim_Inv (e : Env) : Prop :=
  configs e = configs golang_env /\ redis_down e = false.

Definition sim_cfg (key : string) : list SubredditWatchItem :=
  default [] (configs golang_env !! key).

Lemma sim_Inv_config key e :
  sim_Inv e -> (GetConfig_call key e).1 = (sim_cfg key, None) /\ sim_Inv (GetConfig_call key e).2.
Proof. intros [Hc Hd]. unfold sim_cfg. simpl. by rewrite Hd, Hc. Qed.

Lemma sim_Inv_send channel embed e :
  sim_Inv e -> sim_Inv (ChannelMessageSendEmbed_call channel embed e).2.
Proof. done. Qed.

Lemma sim_deliveries :
  sends_of (w_trace (mkWorld feed_env [])) ++ deliveries sim_cfg [link_post] =
    [("c1", buildEmbed link_post); ("g2", buildEmbed link_post)].
Proof. vm_compute. reflexivity. Qed.

Lemma tick_delivers_witness :
  (tick ["5abd"] (mkWorld feed_env [])).1 = ["5abd"; "5abc"] /\
  sends_of (w_trace (tick ["5abd"] (mkWorld feed_env [])).2) =
    [("c1", buildEmbed link_post); ("g2", buildEmbed link_post)] /\
  sim_Inv (w_env (tick ["5abd"] (mkWorld feed_env [])).2).
Proof.
  rewrite <- sim_deliveries.
  apply (tick_delivers sim_Inv sim_cfg sim_Inv_config sim_Inv_send
           ["5abd"] ["5abd"; "5abc"] (mkWorld feed_env []) [link_post]
           (mkEnv (configs golang_env) false (failing golang_env) ["5abd"]
              [([], Some (ExtError "reddit: 503")); ([link_post2; link_post], None)])).
  - vm_compute. reflexivity.
  - split; reflexivity.
Defined.

Lemma runBot_stop_acknowledged_witness :
  is_Running (runBot_loop [SigTick] ["5abd"] (mkWorld feed_env [])) = true /\
  runBot_loop ([SigTick] ++ SigStop 7 :: [SigTick; SigStop 8]) ["5abd"] (mkWorld feed_env []) =
    Stopped (mkWorld (w_env (world_of (runBot_loop [SigTick] ["5abd"] (mkWorld feed_env []))))
               (w_trace (world_of (runBot_loop [SigTick] ["5abd"] (mkWorld feed_env []))) ++
                  [EvDone 7])).
Proof.
  apply (runBot_stop_acknowledged [SigTick] 7 [SigTick; SigStop 8] ["5abd"]
           (mkWorld feed_env [])).
  repeat constructor.
Defined.

Lemma tick_fetch_error_witness :
  tick ["5abd"] (mkWorld (mkEnv ∅ false ∅ [] [([link_post], Some (ExtError "reddit: 503"))]) []) =
    (["5abd"],
     mkWorld (mkEnv ∅ false ∅ [] [])
       [EvGetNewPosts [] (Some (ExtError "reddit: 503"));
        EvLog (log_error (ExtError "reddit: 503") "Error fetchind new links")]).
Proof.
  apply (tick_fetch_error ["5abd"] ["5abd"]
           (mkWorld (mkEnv ∅ false ∅ [] [([link_post], Some (ExtError "reddit: 503"))]) [])
           [] (ExtError "reddit: 503") (mkEnv ∅ false ∅ [] [])).
  reflexivity.
Defined.

Lemma runBot_sends_fetched_witness :
  exists post, post ∈ [link_post] /\ buildEmbed link_post = buildEmbed post.
Proof.
  apply (runBot_sends_fetched (F := list string) [SigTick] (mkWorld feed_env [])
           [EvRedisGet None; EvGetRedisJson "reddit_last_links" ["5abd"] None;
            EvLog (log_info "Found lastids, attempting resuming");
            EvNewTicker 5000000000; EvGetNewPosts [link_post] None;
            EvGetConfig "global_subreddit_watch:golang" (sim_cfg "global_subreddit_watch:golang") None;
            EvLog (log_matched ["c1"; "g2"] link_post)]
           "c1" (buildEmbed link_post) (Some (ExtError "HTTP 403 Forbidden"))
           [EvLog (log_error (ExtError "HTTP 403 Forbidden") "Error posting message");
            EvSend "g2" (buildEmbed link_post) None]).
  - reflexivity.
  - vm_compute. reflexivity.
Defined.

Lemma getLastIds_returns_decoded_witness :
  getLastIds (mkWorld down_env []) =
    ([], mkWorld down_env
           [EvGetRedisJson "reddit_last_links" [] (Some (ExtError "redis: connection refused"));
            EvLog (log_error (ExtError "redis: connection refused")
                     "Failed retrieving post buffer from redis")]).
Proof.
  apply (getLastIds_returns_decoded (mkWorld down_env []) []
           (Some (ExtError "redis: connection refused")) down_env).
  reflexivity.
Defined.

Lemma runBot_panics_without_redis_witness :
  runBot (F := list string) [SigTick; SigStop 1] (mkWorld down_env []) =
    Panicked (ExtError "redis: connection refused")
      (mkWorld down_env [EvRedisGet (Some (ExtError "redis: connection refused"))]).
Proof.
  apply (runBot_panics_without_redis (F := list string) [SigTick; SigStop 1]
           (mkWorld down_env []) (ExtError "redis: connection refused") down_env).
  reflexivity.
Defined.

Lemma runBot_resumes_from_stored_ids_witness :
  runBot [] (mkWorld feed_env []) =
    Running (NewPostFetcher_call setupClient ["5abd"])
      (mkWorld feed_env ([] ++ [EvRedisGet None] ++ start_events ["5abd"] None)) /\
  (log_info "Found lastids, attempting resuming" ∈ logs_of (start_events ["5abd"] None)
     <-> ["5abd"] <> []) /\
  EvNewTicker (5 * Second) ∈ start_events ["5abd"] None.
Proof.
  apply (runBot_resumes_from_stored_ids (F := list string) (mkWorld feed_env [])
           ["5abd"] None feed_env feed_env); reflexivity.
Defined.

Lemma runBot_trace_monotone_witness :
  w_trace (world_of (runBot (F := list string) [SigTick] (mkWorld feed_env []))) `prefix_of`
    w_trace (world_of (runBot (F := list string) [SigTick; SigTick; SigStop 3]
                         (mkWorld feed_env []))).
Proof.
  apply (runBot_trace_monotone (F := list string) [SigTick] [SigTick; SigTick; SigStop 3]
           (mkWorld feed_env [])).
  by exists [SigTick; SigStop 3].
Defined.

(** A run over three ticks and a stop request: the stored post is not
    delivered, the failed fetch is skipped, the post returned twice is
    delivered once, and the wait group is acknowledged. *)
Example runBot_run_example :
  let s := runBot (F := list string) [SigTick; SigTick; SigTick; SigStop 7; SigTick]
             (mkWorld feed_env []) in
  is_Stopped s = true /\
  sends_of (w_trace (world_of s)) =
    [("c1", buildEmbed link_post); ("g2", buildEmbed link_post);
     ("c1", buildEmbed link_post2); ("g2", buildEmbed link_post2)] /\
  dones_of (w_trace (world_of s)) = [7] /\
  length (fetches_of (w_trace (world_of s))) = 3%nat.
Proof. vm_compute. by repeat split. Qed.
