(* ===== verification/Protocol.v ===== *)
(** * The protocol of [runBot]: a monitor of its trace

    What [runBot] does to its collaborators, in which order, is a protocol:
    redis is asked for a client, then for the stored ids, the ticker is
    created; from then on each tick is one call of the fetcher, followed,
    for each post it returned without error, by one look-up of the
    subscriptions of the post and one send to each distinct destination,
    each failure being logged where it occurred; a stop request is
    acknowledged between two ticks and ends the trace.

    [monitor] checks a trace against this protocol, event by event, knowing
    nothing of the environment: what it expects next is computed from the
    answers the events carry.  The theorem [runBot_trace_conforms] is that
    every trace of [runBot] is accepted, in any environment and for any
    fetcher, and that the monitor ends in the mode of the state of the
    loop. *)

From Stdlib Require Import ZArith Lia Ascii.
From stdpp Require Import base tactics option list sets strings.
From S2P Require Import Prelude Collaborators HandlePost RunBot.

#[local] Open Scope Z_scope.

(** ** The monitor *)

(** Where the program is: before the client of redis is obtained, ended by
    the panic of [MustGetRedisClient], before the stored ids are read, in
    the loop with the sends and the posts of the current tick that are
    still to come, or returned. *)
Inductive Mode : Type :=
| MInit
| MPanicked
| MConnected
| MLoop (sends : list (string * MessageEmbed)) (posts : list Link)
| MDone.

(** The state of the monitor: the events that must come next, then the
    mode. *)
Record Monitor : Type := mkMonitor {
  expect : list Event;
  mode : Mode
}.

#[export] Instance Mode_eq_dec : EqDecision Mode.
Proof. solve_decision. Defined.

#[export] Instance Monitor_eq_dec : EqDecision Monitor.
Proof. solve_decision. Defined.

Definition monitor_init : Monitor := mkMonitor [] MInit.

Section monitor.
Context {Cm : Common} {St : GoStrings}.

(** The sends owed for a post to its destinations. *)
Definition sends_for (post : Link) (channels : list string)
  : list (string * MessageEmbed) :=
  (fun ch => (ch, buildEmbed post)) <$> channels.

(** What the look-up of the subscriptions of [post] leads to. *)
Definition after_config (post : Link) (posts : list Link)
    (config : list SubredditWatchItem) (err : option error) : Monitor :=
  match err with
  | Some e =>
    mkMonitor [EvLog (log_error e "Failed getting config from redis")] (MLoop [] posts)
  | None =>
    match collectChannels config with
    | [] => mkMonitor [] (MLoop [] posts)
    | channels =>
      mkMonitor [EvLog (log_matched channels post)] (MLoop (sends_for post channels) posts)
    end
  end.

(** What a call of the fetcher leads to. *)
Definition after_fetch (links : list Link) (err : option error) : Monitor :=
  match err with
  | Some e => mkMonitor [EvLog (log_error e "Error fetchind new links")] (MLoop [] [])
  | None => mkMonitor [] (MLoop [] links)
  end.

(** One event: [None] when the protocol does not allow it. *)
Definition monitor_step (m : Monitor) (ev : Event) : option Monitor :=
  match expect m with
  | x :: xs => if decide (ev = x) then Some (mkMonitor xs (mode m)) else None
  | [] =>
    match mode m, ev with
    | MInit, EvRedisGet None => Some (mkMonitor [] MConnected)
    | MInit, EvRedisGet (Some _) => Some (mkMonitor [] MPanicked)
    | MConnected, EvGetRedisJson key result err =>
      if decide (key = "reddit_last_links")
      then Some (mkMonitor (tail (start_events result err)) (MLoop [] []))
      else None
    | MLoop ((ch, embed) :: sends) posts, EvSend ch' embed' err =>
      if decide (ch' = ch /\ embed' = embed)
      then Some (mkMonitor (tail (send_events embed ch err)) (MLoop sends posts))
      else None
    | MLoop [] (post :: posts), EvGetConfig key config err =>
      if decide (key = configKey post)
      then Some (after_config post posts config err)
      else None
    | MLoop [] [], EvGetNewPosts links err => Some (after_fetch links err)
    | MLoop [] [], EvDone _ => Some (mkMonitor [] MDone)
    | _, _ => None
    end
  end.

(** A trace. *)
Fixpoint monitor (m : Monitor) (tr : list Event) : option Monitor :=
  match tr with
  | [] => Some m
  | ev :: tr' => m' ← monitor_step m ev; monitor m' tr'
  end.

(** The mode of a state of the loop. *)
Definition mode_of {E F} (s : LoopState E F) : Mode :=
  match s with
  | Running _ _ => MLoop [] []
  | Stopped _ => MDone
  | Panicked _ _ => MPanicked
  end.

(** ** The monitor on the parts of a run *)

Lemma monitor_app m tr1 tr2 :
  monitor m (tr1 ++ tr2) = m' ← monitor m tr1; monitor m' tr2.
Proof.
  revert m. induction tr1 as [|ev tr1 IH]; intros m; [done|]. simpl.
  destruct (monitor_step m ev) as [m'|]; [apply IH|done].
Qed.

(** The events that are expected are accepted. *)
Lemma monitor_step_expected ev evs md :
  monitor_step (mkMonitor (ev :: evs) md) ev = Some (mkMonitor evs md).
Proof. unfold monitor_step. simpl. by rewrite decide_True. Qed.

Lemma monitor_expected evs md : monitor (mkMonitor evs md) evs = Some (mkMonitor [] md).
Proof.
  induction evs as [|ev evs IH]; [done|]. simpl. by rewrite monitor_step_expected.
Qed.

Lemma monitor_seq m tr1 m1 tr2 :
  monitor m tr1 = Some m1 -> monitor m (tr1 ++ tr2) = monitor m1 tr2.
Proof. intros H. by rewrite monitor_app, H. Qed.

Lemma monitor_one m ev m1 tr :
  monitor_step m ev = Some m1 -> monitor m (ev :: tr) = monitor m1 tr.
Proof. intros H. simpl. by rewrite H. Qed.

(** ** What an accepted trace satisfies *)

(** The events that are neither a send nor a call of the fetcher. *)
Definition quiet (ev : Event) : bool :=
  match ev with
  | EvSend _ _ _ | EvGetNewPosts _ _ => false
  | _ => true
  end.

(** The monitor only owes sends of embeds of posts of [seen]. *)
Definition owes (seen : list Link) (m : Monitor) : Prop :=
  forallb quiet (expect m) = true /\
  match mode m with
  | MLoop sends posts =>
    Forall (fun s => s.2 ∈ buildEmbed <$> seen) sends /\ posts ⊆ seen
  | _ => True
  end.

Lemma quiet_justified seen ev :
  quiet ev = true -> justified seen [ev] = true /\ fetched_of [ev] = [].
Proof. by destruct ev. Qed.

Lemma owes_loop seen evs sends posts :
  forallb quiet evs = true ->
  Forall (fun s => s.2 ∈ buildEmbed <$> seen) sends -> posts ⊆ seen ->
  owes seen (mkMonitor evs (MLoop sends posts)).
Proof. by intros Hq Hs Hp. Qed.

Lemma owes_start result err seen :
  owes seen (mkMonitor (tail (start_events result err)) (MLoop [] [])).
Proof.
  apply owes_loop; [|constructor|apply list_subseteq_nil].
  unfold start_events, lastIds_events. by destruct err; case_bool_decide.
Qed.

Lemma owes_after_config seen post posts config err :
  post ∈ seen -> posts ⊆ seen -> owes seen (after_config post posts config err).
Proof.
  intros Hpost Hposts. unfold after_config.
  destruct err; [by apply owes_loop|].
  destruct (collectChannels config) as [|ch channels] eqn:Hc; [by apply owes_loop|].
  apply owes_loop; [done| |done].
  apply Forall_fmap, Forall_true. intros ?. by apply (list_elem_of_fmap_2 buildEmbed).
Qed.

Lemma owes_after_send seen ch embed err sends posts :
  owes seen (mkMonitor [] (MLoop ((ch, embed) :: sends) posts)) ->
  justified seen [EvSend ch embed err] = true /\
  owes seen (mkMonitor (tail (send_events embed ch err)) (MLoop sends posts)).
Proof.
  intros [_ [[Hem Hs]%Forall_cons Hp]]. cbn [justified].
  rewrite bool_decide_true by done. split; [done|].
  apply owes_loop; [by destruct err|done..].
Qed.

Lemma monitor_step_sound seen m ev m' :
  owes seen m -> monitor_step m ev = Some m' ->
  justified seen [ev] = true /\ owes (seen ++ fetched_of [ev]) m'.
Proof.
  destruct m as [[|x xs] md]; unfold monitor_step; cbn [expect mode].
  - intros Hm Hstep.
    destruct md as [| | |[|[ch em] sends] [|post posts]|],
      ev as [| | |[?|]|key result err|links [?|]| |];
      try case_decide; simplify_eq; cbn [fetched_of]; rewrite ?app_nil_r;
      try (destruct_and!; simplify_eq; by apply owes_after_send);
      (split; [done|]).
    + by split.
    + by split.
    + apply owes_start.
    + apply owes_loop; [done|constructor|apply list_subseteq_nil].
    + apply owes_loop; [done|constructor|set_solver].
    + by split.
    + destruct Hm as [_ [_ Hp]]. apply owes_after_config; set_solver.
  - intros [[Hx Hxs]%andb_true_iff Hm] Hstep. case_decide; simplify_eq.
    destruct (quiet_justified seen _ Hx) as [-> ->]. by rewrite app_nil_r.
Qed.

(** The sends of a trace the monitor accepts are justified: each carries
    the embed of a post that a call of the fetcher returned before it. *)
Lemma monitor_sound seen m tr m' :
  owes seen m -> monitor m tr = Some m' -> justified seen tr = true.
Proof.
  revert seen m. induction tr as [|ev tr IH]; intros seen m Hm Htr; [done|].
  cbn [monitor] in Htr. destruct (monitor_step m ev) as [m1|] eqn:Hstep; [|done].
  destruct (monitor_step_sound _ _ _ _ Hm Hstep) as [Hj Hm1].
  rewrite (justified_app seen [ev] tr), Hj. by apply (IH _ m1).
Qed.

Section runs.
Context {E F : Type} {Ev : Environ} {Rl : RedditLib} {Rd : Redis E} {Dc : Discord E}
  {Rp : RedisPool E} {Ft : Fetcher E F}.
Implicit Types (e : E) (w : World E) (posts links : list Link).

Lemma monitor_sends post channels posts e :
  monitor (mkMonitor [] (MLoop (sends_for post channels) posts))
    (send_run (buildEmbed post) channels e).1 = Some (mkMonitor [] (MLoop [] posts)).
Proof.
  revert e. induction channels as [|ch channels IH]; intros e; [done|].
  rewrite send_run_cons. cbn [fst].
  change (sends_for post (ch :: channels))
    with ((ch, buildEmbed post) :: sends_for post channels).
  cbn [monitor send_events app]. unfold monitor_step at 1.
  cbn [expect mode]. rewrite decide_True by done. cbn [mbind option_bind].
  by rewrite (monitor_seq _ _ _ _ (monitor_expected _ _)).
Qed.

Lemma monitor_handlePost post posts e :
  monitor (mkMonitor [] (MLoop [] (post :: posts))) (events_of (handlePost post) e) =
    Some (mkMonitor [] (MLoop [] posts)).
Proof.
  unfold events_of. rewrite handlePost_run. cbn [w_env w_trace app].
  destruct (GetConfig_call (configKey post) e) as [[config err] e1].
  assert (monitor_step (mkMonitor [] (MLoop [] (post :: posts)))
            (EvGetConfig (configKey post) config err) =
          Some (after_config post posts config err)) as Hstep.
  { unfold monitor_step. cbn [expect mode]. by rewrite decide_True. }
  unfold after_config in Hstep. destruct err as [err|].
  { cbn [snd w_trace app]. rewrite (monitor_one _ _ _ _ Hstep). apply monitor_expected. }
  destruct (collectChannels config) as [|ch channels] eqn:Hch.
  { cbn [snd w_trace]. by rewrite (monitor_one _ _ _ _ Hstep). }
  pose proof (monitor_sends post (ch :: channels) posts e1) as Hsends.
  destruct (send_run (buildEmbed post) (ch :: channels) e1) as [evs e2].
  cbn [snd w_trace app]. rewrite (monitor_one _ _ _ _ Hstep).
  by rewrite (monitor_one _ _ _ _ (monitor_step_expected _ _ _)).
Qed.

Lemma monitor_handlePosts links e :
  monitor (mkMonitor [] (MLoop [] links)) (events_of (handlePosts links) e) =
    Some (mkMonitor [] (MLoop [] [])).
Proof.
  revert e. induction links as [|post links IH]; intros e; [done|].
  destruct (handlePosts_cons post links e) as [-> _].
  by rewrite (monitor_seq _ _ _ _ (monitor_handlePost _ _ _)).
Qed.

Lemma monitor_tick (fetcher : F) e :
  monitor (mkMonitor [] (MLoop [] [])) (events_of (tick fetcher) e) =
    Some (mkMonitor [] (MLoop [] [])).
Proof.
  unfold events_of. rewrite tick_run. cbn [w_env w_trace app].
  destruct (GetNewPosts_call fetcher e) as [[[links [err|]] fetcher'] e1];
    cbn [snd w_trace app]; rewrite (monitor_one _ _ (after_fetch links _)) by done.
  - apply monitor_expected.
  - apply monitor_handlePosts.
Qed.

(** The mode of the loop does not depend on the trace it started with. *)
Lemma mode_of_runBot_loop signals (fetcher : F) e tr :
  mode_of (runBot_loop signals fetcher (mkWorld e tr)) =
  mode_of (runBot_loop signals fetcher (mkWorld e [])).
Proof.
  revert fetcher e tr. induction signals as [|[wg|] signals IH]; intros f e tr;
    cbn [runBot_loop]; [done..|].
  rewrite !(traced_run (c := tick f)). cbn [w_env w_trace].
  by rewrite (IH _ _ (tr ++ _)), (IH _ _ ([] ++ _)).
Qed.

Lemma monitor_loop signals (fetcher : F) e :
  monitor (mkMonitor [] (MLoop [] [])) (run_events signals fetcher e) =
    Some (mkMonitor [] (mode_of (runBot_loop signals fetcher (mkWorld e [])))).
Proof.
  revert fetcher e. induction signals as [|[wg|] signals IH]; intros fetcher e;
    [done..|].
  rewrite run_events_tick, (monitor_seq _ _ _ _ (monitor_tick _ _)), IH.
  cbn [runBot_loop]. rewrite (traced_run (c := tick fetcher)). cbn [w_env].
  do 2 f_equal. symmetry. apply mode_of_runBot_loop.
Qed.

End runs.

End monitor.

(** ** Every run conforms *)

Section conformance.
Context {E F : Type} {Ev : Environ} {Cm : Common} {Rl : RedditLib}
  {St : GoStrings} {Rd : Redis E} {Dc : Discord E} {Rp : RedisPool E}
  {Ft : Fetcher E F}.

(** Claim C18.  Whatever the environment answers and whatever signals the
    loop receives, the trace of [runBot] follows the protocol: the monitor
    accepts it, expects nothing more at its end, and is then in the mode of
    the state of the loop: blocked in the [select] between two ticks,
    returned after the acknowledgement of a stop request, or ended by the
    panic of [MustGetRedisClient] before anything else was done. *)
Theorem runBot_trace_conforms (signals : list Signal) (w : World E) :
  w_trace w = [] ->
  monitor monitor_init (w_trace (world_of (runBot signals w))) =
    Some (mkMonitor [] (mode_of (runBot signals w))).
Proof.
  intros Hw. rewrite runBot_run, Hw. cbn [app].
  destruct (RedisPool_Get (w_env w)) as [[err|] e1]; [done|].
  destruct (GetRedisJson_call "reddit_last_links" e1) as [[result err] e2].
  rewrite runBot_loop_trace. cbn [w_trace w_env app].
  change (start_events result err) with
    (EvGetRedisJson "reddit_last_links" result err :: tail (start_events result err)).
  cbn [app]. rewrite (monitor_one _ _ (mkMonitor [] MConnected)) by done.
  rewrite (monitor_one _ _ (mkMonitor (tail (start_events result err)) (MLoop [] [])))
    by done.
  rewrite (monitor_seq _ _ _ _ (monitor_expected _ _)), monitor_loop.
  do 2 f_equal. symmetry. apply mode_of_runBot_loop.
Qed.

End conformance.

(** ** The monitor at work *)

Import Sim.

Lemma runBot_trace_conforms_witness :
  monitor monitor_init
    (w_trace (world_of (runBot (F := list string) [SigTick; SigTick; SigStop 7]
                          (mkWorld feed_env [])))) =
    Some (mkMonitor [] (mode_of (runBot (F := list string) [SigTick; SigTick; SigStop 7]
                                   (mkWorld feed_env [])))).
Proof.
  apply (runBot_trace_conforms (F := list string) [SigTick; SigTick; SigStop 7]
           (mkWorld feed_env [])).
  reflexivity.
Defined.

(** The run of the witness is in the loop, makes sends, and ends in the
    mode of a returned loop. *)
Example monitor_run_example :
  let tr := w_trace (world_of (runBot (F := list string) [SigTick; SigTick; SigStop 7]
                                 (mkWorld feed_env []))) in
  monitor monitor_init tr = Some (mkMonitor [] MDone) /\
  length (sends_of tr) = 2%nat /\ length tr = 13%nat.
Proof. by vm_compute. Qed.

(** The monitor is not the trivial one: a send that no look-up announced, a
    second call of the fetcher while a post is still to be handled, and an
    acknowledgement before the stored ids are read are refused. *)
Example monitor_refuses :
  let start := [EvRedisGet None; EvGetRedisJson "reddit_last_links" [] None;
                EvNewTicker 5000000000] in
  monitor (Cm := sim_common) (St := sim_strings) monitor_init
    (start ++ [EvSend "c1" (buildEmbed link_post) None]) = None /\
  monitor (Cm := sim_common) (St := sim_strings) monitor_init
    (start ++ [EvGetNewPosts [link_post] None; EvGetNewPosts [] None]) = None /\
  monitor (Cm := sim_common) (St := sim_strings) monitor_init
    [EvRedisGet None; EvDone 7] = None /\
  monitor (Cm := sim_common) (St := sim_strings) monitor_init start =
    Some (mkMonitor [] (MLoop [] [])).
Proof. by vm_compute. Qed.
