(* ===== verification/Plugin.v ===== *)
(** * [StartFeed] and [StopFeed]: the feed and its supervisor

    [StartFeed] starts a goroutine that runs [runBot]; [StopFeed] sends a
    wait group on [stopFeedChan] and returns when a loop has received it
    (lines 25-31 of [src/reddit/redditbot.go]).  The plugin is modelled as
    the world, the goroutines started so far and the callers blocked in
    [StopFeed], and its behaviour as a relation [pstep] labelled by what
    happens next: a call of one of the two methods, or a goroutine that
    runs up to its [select], serves a tick, or receives a stop request.
    [plugin_step] is the same relation as a function.

    What this file abstracts.  A step of a goroutine is a whole iteration
    of the loop of [runBot] (lines 64-77), and the receive of line 58 is
    one step with the [wg.Done()] of line 59: the goroutines interleave
    only at their [select].  The program interleaves them at every
    instruction; [Feed] has the goroutines interleaved at every call of a
    collaborator and shows that each step of this file is a sequence of
    its moves ([Feed.feed_simulates_plugin]).  What depends on the order
    of two goroutines between their receive and their [Done] is stated
    there, not here.  The channel, whose [make] is not in [src/], is the
    queue of the wait groups whose senders are blocked in line 30, oldest
    first; a caller of [StopFeed] has returned when its wait group has
    left the queue.  A wait group is a name: its counter and the [Wait] of
    the caller are outside [src/], and [Done] is an event of the trace. *)

From Stdlib Require Import ZArith Lia Ascii.
From stdpp Require Import base tactics option list strings.
From S2P Require Import Prelude Collaborators HandlePost RunBot.

#[local] Open Scope Z_scope.

(** A goroutine started by [StartFeed]: not scheduled yet, blocked in the
    [select] of its loop, returned, or ended by a panic. *)
Inductive Bot (F : Type) : Type :=
| BotSpawned
| BotRunning (fetcher : F)
| BotStopped
| BotPanicked (err : error).
Arguments BotSpawned {F}.
Arguments BotRunning {F} _.
Arguments BotStopped {F}.
Arguments BotPanicked {F} _.

(** The plugin: the world, its goroutines and the wait groups of the
    callers blocked in [StopFeed], oldest first. *)
Record Plugin (E F : Type) : Type := mkPlugin {
  p_world : World E;
  p_bots : list (Bot F);
  stopFeedChan : list WaitGroup
}.
Arguments mkPlugin {E F} _ _ _.
Arguments p_world {E F} _.
Arguments p_bots {E F} _.
Arguments stopFeedChan {E F} _.

(** What happens next: a method is called, or the goroutine [k] moves. *)
Inductive Action : Type :=
| ActStartFeed
| ActStopFeed (wg : WaitGroup)
| ActRun (k : nat)
| ActTick (k : nat)
| ActRecv (k : nat).

#[export] Instance Action_eq_dec : EqDecision Action.
Proof. solve_decision. Defined.

Definition bot_of {E F} (s : LoopState E F) : Bot F :=
  match s with
  | Running fetcher _ => BotRunning fetcher
  | Stopped _ => BotStopped
  | Panicked err _ => BotPanicked err
  end.

Definition is_live {F} (b : Bot F) : bool :=
  match b with BotSpawned | BotRunning _ => true | _ => false end.

Section plugin.
Context {E F : Type} {Ev : Environ} {Cm : Common} {Rl : RedditLib}
  {St : GoStrings} {Rd : Redis E} {Dc : Discord E} {Rp : RedisPool E}
  {Ft : Fetcher E F}.

(** [func (p *Plugin) StartFeed()]: [go p.runBot()]. *)
Definition StartFeed (p : Plugin E F) : Plugin E F :=
  mkPlugin (p_world p) (p_bots p ++ [BotSpawned]) (stopFeedChan p).

(** [func (p *Plugin) StopFeed(wg *sync.WaitGroup)]: the caller blocks in
    [p.stopFeedChan <- wg]. *)
Definition StopFeed (wg : WaitGroup) (p : Plugin E F) : Plugin E F :=
  mkPlugin (p_world p) (p_bots p) (stopFeedChan p ++ [wg]).

(** The goroutine [k] moves to the state [s] of its loop. *)
Definition move (k : nat) (s : LoopState E F) (chan : list WaitGroup)
    (p : Plugin E F) : Plugin E F :=
  mkPlugin (world_of s) (<[k := bot_of s]> (p_bots p)) chan.

(** The plugin's steps. *)
Inductive pstep : Plugin E F -> Action -> Plugin E F -> Prop :=
| pstep_start p : pstep p ActStartFeed (StartFeed p)
| pstep_stop p wg : pstep p (ActStopFeed wg) (StopFeed wg p)
| pstep_run p k :
    p_bots p !! k = Some BotSpawned ->
    pstep p (ActRun k) (move k (runBot [] (p_world p)) (stopFeedChan p) p)
| pstep_tick p k fetcher :
    p_bots p !! k = Some (BotRunning fetcher) ->
    pstep p (ActTick k)
      (move k (runBot_loop [SigTick] fetcher (p_world p)) (stopFeedChan p) p)
| pstep_recv p k fetcher wg rest :
    p_bots p !! k = Some (BotRunning fetcher) -> stopFeedChan p = wg :: rest ->
    pstep p (ActRecv k)
      (move k (runBot_loop [SigStop wg] fetcher (p_world p)) rest p).

Inductive psteps : Plugin E F -> list Action -> Plugin E F -> Prop :=
| psteps_nil p : psteps p [] p
| psteps_cons p a p' actions p'' :
    pstep p a p' -> psteps p' actions p'' -> psteps p (a :: actions) p''.

(** The steps as a function: [None] where the action is not enabled. *)
Definition plugin_step (a : Action) (p : Plugin E F) : option (Plugin E F) :=
  match a with
  | ActStartFeed => Some (StartFeed p)
  | ActStopFeed wg => Some (StopFeed wg p)
  | ActRun k =>
    match p_bots p !! k with
    | Some BotSpawned => Some (move k (runBot [] (p_world p)) (stopFeedChan p) p)
    | _ => None
    end
  | ActTick k =>
    match p_bots p !! k with
    | Some (BotRunning fetcher) =>
      Some (move k (runBot_loop [SigTick] fetcher (p_world p)) (stopFeedChan p) p)
    | _ => None
    end
  | ActRecv k =>
    match p_bots p !! k, stopFeedChan p with
    | Some (BotRunning fetcher), wg :: rest =>
      Some (move k (runBot_loop [SigStop wg] fetcher (p_world p)) rest p)
    | _, _ => None
    end
  end.

Fixpoint plugin_run (actions : list Action) (p : Plugin E F) : option (Plugin E F) :=
  match actions with
  | [] => Some p
  | a :: actions' => p' ← plugin_step a p; plugin_run actions' p'
  end.

End plugin.

(** ** What the plugin is measured against *)

(** The wait groups of the calls of [StopFeed] among the actions. *)
Definition stop_requests (actions : list Action) : list WaitGroup :=
  omap (fun a => match a with ActStopFeed wg => Some wg | _ => None end) actions.

(** The plugin before any call. *)
Definition plugin_init {E F} (w : World E) : Plugin E F := mkPlugin w [] [].

(** ** Lemmas *)

Section plugin_lemmas.
Context {E F : Type} {Ev : Environ} {Cm : Common} {Rl : RedditLib}
  {St : GoStrings} {Rd : Redis E} {Dc : Discord E} {Rp : RedisPool E}
  {Ft : Fetcher E F}.
Implicit Types (p : Plugin E F) (w : World E).

Lemma pstep_plugin_step p a p' : pstep p a p' <-> plugin_step a p = Some p'.
Proof.
  split.
  - destruct 1 as [| |p k Hk|p k fetcher Hk|p k fetcher wg rest Hk Hc]; simpl;
      rewrite ?Hk, ?Hc; done.
  - destruct a as [|wg|k|k|k]; cbn [plugin_step].
    + intros [= <-]. apply pstep_start.
    + intros [= <-]. apply pstep_stop.
    + destruct (p_bots p !! k) as [[]|] eqn:Hk; intros [= <-]. by apply pstep_run.
    + destruct (p_bots p !! k) as [[]|] eqn:Hk; intros [= <-]. by apply (pstep_tick p k fetcher).
    + destruct (p_bots p !! k) as [[]|] eqn:Hk; try done.
      destruct (stopFeedChan p) eqn:Hc; intros [= <-]. by apply (pstep_recv p k fetcher).
Qed.

Lemma psteps_plugin_run p actions p' :
  psteps p actions p' <-> plugin_run actions p = Some p'.
Proof.
  split.
  - induction 1 as [|p a p1 actions p2 Hs%pstep_plugin_step _ IH]; [done|].
    simpl. by rewrite Hs.
  - revert p. induction actions as [|a actions IH]; intros p; simpl.
    + intros [= ->]. constructor.
    + destruct (plugin_step a p) as [p1|] eqn:Hs; [|done]. simpl. intros H.
      econstructor; [by apply pstep_plugin_step|by apply IH].
Qed.

End plugin_lemmas.

(** ** The properties of the plugin *)

Section plugin_properties.
Context {E F : Type} {Ev : Environ} {Cm : Common} {Rl : RedditLib}
  {St : GoStrings} {Rd : Redis E} {Dc : Discord E} {Rp : RedisPool E}
  {Ft : Fetcher E F}.
Implicit Types (p : Plugin E F) (w : World E).

(** Claim C31.  Without a feed that is running or about to run, a call of
    [StopFeed] is never acknowledged: whatever happens, as long as
    [StartFeed] is not called, nothing changes but the callers blocked. *)
Theorem StopFeed_blocks_without_feed p actions p' :
  Forall (fun b => is_live b = false) (p_bots p) ->
  ActStartFeed ∉ actions ->
  psteps p actions p' ->
  p' = mkPlugin (p_world p) (p_bots p) (stopFeedChan p ++ stop_requests actions).
Proof.
  intros Hb Ha Hs. induction Hs as [p|p a p1 actions p2 Hs _ IH].
  - destruct p. by rewrite app_nil_r.
  - apply not_elem_of_cons in Ha as [Hne Ha].
    assert (exists wg, a = ActStopFeed wg) as [wg ->].
    { destruct Hs as [| |p k Hk|p k fetcher Hk|p k fetcher wg rest Hk Hc];
        [done|by eexists|..];
        by apply (proj1 (Forall_lookup _ _) Hb) in Hk. }
    inversion Hs; subst. rewrite (IH Hb Ha).
    cbn [StopFeed p_world p_bots stopFeedChan stop_requests omap].
    by rewrite <- app_assoc.
Qed.

End plugin_properties.

(** ** The theorems on a concrete environment *)

Import Sim.

Lemma StopFeed_blocks_without_feed_witness :
  StopFeed 2 (StopFeed 1 (mkPlugin (mkWorld feed_env []) [@BotStopped (list string)] [])) =
    mkPlugin (mkWorld feed_env []) [BotStopped] ([] ++ [1; 2]).
Proof.
  apply (StopFeed_blocks_without_feed
           (mkPlugin (mkWorld feed_env []) [@BotStopped (list string)] [])
           [ActStopFeed 1; ActStopFeed 2]).
  - by repeat constructor.
  - by intros [[=]|[[=]|[]%elem_of_nil]%elem_of_cons]%elem_of_cons.
  - repeat econstructor.
Defined.

(** [StartFeed] called twice starts two loops, each with a fetcher of its
    own: a post that both fetch is delivered by both. *)
Example two_feeds_deliver_twice :
  let p := plugin_run [ActStartFeed; ActStartFeed; ActRun 0; ActRun 1;
                       ActTick 0; ActTick 1; ActTick 1]
             (plugin_init (mkWorld feed_env [])) in
  (fun s => s.1) <$> filter (fun s => s.2 = buildEmbed link_post)
    (sends_of (w_trace (p_world (default (plugin_init (mkWorld feed_env [])) p)))) =
  ["c1"; "g2"; "c1"; "g2"].
Proof. vm_compute. reflexivity. Qed.
