(* ===== verification/Goroutine.v ===== *)
(** * A goroutine of [runBot], one call at a time

    [RunBot] runs an iteration of the loop of [runBot] as one function.
    Here the same code (lines 43-79 and 91-169 of
    [src/reddit/redditbot.go]) is cut at every call of a collaborator: a
    goroutine is at a program point [Pc], with the variables that are live
    there, and [goroutine_step] runs it up to the next call, which is one
    event of the trace.  At its [select] the goroutine is blocked until
    [goroutine_recv] gives it a tick or a stop request.

    The steps use the calls of [Collaborators] and the pieces of
    [HandlePost] that the functions of [RunBot] use.  The theorems say
    that they compute these functions: the steps of a goroutine from its
    start to its [select] are [runBot] without a signal, the steps from a
    tick to the [select] are [tick], as many as it has events
    ([tick_nsteps]), a goroutine that is given its signals computes
    [runBot] ([goroutine_refines_runBot]), each step is a step of the
    protocol of [Protocol] ([goroutine_step_monitor]), and the steps of a
    goroutine always end ([goroutine_terminates]); in the loop they end in
    its [select] ([select_reached]); the only step that calls [Done] is
    the step of a goroutine that holds a wait group, which then returns
    ([gstep_accounts]). *)

From Stdlib Require Import ZArith Lia Ascii.
From stdpp Require Import base tactics option list strings relations.
From S2P Require Import Prelude Collaborators HandlePost RunBot Protocol.

#[local] Open Scope Z_scope.
#[local] Open Scope go_scope.

(** ** Program points *)

(** Where a goroutine of [runBot] is: before [MustGetRedisClient], before
    [getLastIds], before a call of logrus, before [time.NewTicker], in the
    [select], before [fetcher.GetNewPosts], before [wg.Done], before the
    [GetConfig] of [handlePost] for a post with the posts that follow it,
    before a send to a channel with the channels and the posts that
    follow, returned, or ended by a panic. *)
Inductive Pc (F : Type) : Type :=
| PcStart
| PcGetLastIds
| PcLog (entry : LogEntry) (next : Pc F)
| PcNewTicker (fetcher : F)
| PcSelect (fetcher : F)
| PcFetch (fetcher : F)
| PcDone (wg : WaitGroup)
| PcHandle (fetcher : F) (post : Link) (posts : list Link)
| PcSend (fetcher : F) (embed : MessageEmbed) (channel : string)
    (channels : list string) (posts : list Link)
| PcReturned
| PcPanicked (err : error).
Arguments PcStart {F}.
Arguments PcGetLastIds {F}.
Arguments PcLog {F} _ _.
Arguments PcNewTicker {F} _.
Arguments PcSelect {F} _.
Arguments PcFetch {F} _.
Arguments PcDone {F} _.
Arguments PcHandle {F} _ _ _.
Arguments PcSend {F} _ _ _ _ _.
Arguments PcReturned {F}.
Arguments PcPanicked {F} _.

#[export] Instance Pc_eq_dec {F} `{EqDecision F} : EqDecision (Pc F).
Proof. solve_decision. Defined.

(** The goroutine is blocked in its [select]. *)
Definition at_select {F} (pc : Pc F) : bool :=
  match pc with PcSelect _ => true | _ => false end.

(** The goroutine has ended. *)
Definition ended {F} (pc : Pc F) : bool :=
  match pc with PcReturned | PcPanicked _ => true | _ => false end.

(** The goroutine is in the loop of [runBot] or on its way to it with the
    client of redis in hand: it cannot panic any more and has not been
    told to stop. *)
Fixpoint in_loop {F} (pc : Pc F) : bool :=
  match pc with
  | PcLog _ next => in_loop next
  | PcGetLastIds | PcNewTicker _ | PcSelect _ | PcFetch _ | PcHandle _ _ _
  | PcSend _ _ _ _ _ => true
  | PcStart | PcDone _ | PcReturned | PcPanicked _ => false
  end.

(** The wait group that the goroutine has received from [stopFeedChan]
    (line 58) and on which it has not called [Done] yet (line 59). *)
Definition holds {F} (pc : Pc F) : option WaitGroup :=
  match pc with PcDone wg => Some wg | _ => None end.

(** The goroutine has returned from [runBot] (line 60). *)
Definition returned {F} (pc : Pc F) : bool :=
  match pc with PcReturned => true | _ => false end.

(** The program points of the code: every call of logrus but the one of
    the panic is followed by the loop. *)
Definition proper {F} (pc : Pc F) : bool :=
  match pc with PcLog _ next => in_loop next | _ => true end.

(** The program point of a state of the loop of [RunBot]. *)
Definition pc_of {E F} (s : LoopState E F) : Pc F :=
  match s with
  | Running fetcher _ => PcSelect fetcher
  | Stopped _ => PcReturned
  | Panicked err _ => PcPanicked err
  end.

Section goroutine.
Context {E F : Type} {Ev : Environ} {Cm : Common} {Rl : RedditLib}
  {St : GoStrings} {Rd : Redis E} {Dc : Discord E} {Rp : RedisPool E}
  {Ft : Fetcher E F}.

(** [for _, v := range links]: the next post, or the end of the iteration
    of the loop of [runBot]. *)
Definition handle_next (fetcher : F) (posts : list Link) : Pc F :=
  match posts with
  | [] => PcSelect fetcher
  | post :: posts => PcHandle fetcher post posts
  end.

(** [for _, channel := range channels]: the next send, or the return of
    [handlePost]. *)
Definition send_next (fetcher : F) (embed : MessageEmbed) (channels : list string)
    (posts : list Link) : Pc F :=
  match channels with
  | [] => handle_next fetcher posts
  | channel :: channels => PcSend fetcher embed channel channels posts
  end.

(** [if len(storedLastIds) > 0 { logrus.Info(...) }], then
    [NewPostFetcher]. *)
Definition resume (storedLastIds : list string) : Pc F :=
  let next := PcNewTicker (NewPostFetcher_call setupClient storedLastIds) in
  if 0 <? Z.of_nat (length storedLastIds)
  then PcLog (log_info "Found lastids, attempting resuming") next
  else next.

(** One step of a goroutine: the call at its program point, and the program
    point after it.  [None]: the goroutine is blocked or has ended. *)
Definition goroutine_step (pc : Pc F) : option (Go (World E) (Pc F)) :=
  match pc with
  | PcStart => Some (
      panic <- MustGetRedisClient ;;
      ret (match panic with
           | Some err => PcPanicked err
           | None => PcGetLastIds
           end))
  | PcGetLastIds => Some (
      r <- GetRedisJson "reddit_last_links" ;;
      ret (match r.2 with
           | Some err =>
             PcLog (log_error err "Failed retrieving post buffer from redis") (resume r.1)
           | None => resume r.1
           end))
  | PcLog entry next => Some (logrus entry ;; ret next)
  | PcNewTicker fetcher => Some (NewTicker (Second * 5) ;; ret (PcSelect fetcher))
  | PcFetch fetcher => Some (
      r <- GetNewPosts fetcher ;;
      let '((links, err), fetcher) := r in
      ret (match err with
           | Some e => PcLog (log_error e "Error fetchind new links") (PcSelect fetcher)
           | None =>
             if Z.of_nat (length links) <? 1 then PcSelect fetcher
             else handle_next fetcher links
           end))
  | PcDone wg => Some (Done wg ;; ret PcReturned)
  | PcHandle fetcher post posts => Some (
      r <- GetConfig (configKey post) ;;
      ret (match r.2 with
           | Some err =>
             PcLog (log_error err "Failed getting config from redis")
               (handle_next fetcher posts)
           | None =>
             let channels := collectChannels r.1 in
             if Z.of_nat (length channels) <? 1 then handle_next fetcher posts
             else PcLog (log_matched channels post)
                    (send_next fetcher (buildEmbed post) channels posts)
           end))
  | PcSend fetcher embed channel channels posts => Some (
      err <- ChannelMessageSendEmbed channel embed ;;
      ret (match err with
           | Some e =>
             PcLog (log_error e "Error posting message")
               (send_next fetcher embed channels posts)
           | None => send_next fetcher embed channels posts
           end))
  | PcSelect _ | PcReturned | PcPanicked _ => None
  end.

(** The [select]: a goroutine blocked in it receives a tick or the wait
    group of a stop request. *)
Definition goroutine_recv (sig : Signal) (pc : Pc F) : option (Pc F) :=
  match pc, sig with
  | PcSelect fetcher, SigTick => Some (PcFetch fetcher)
  | PcSelect fetcher, SigStop wg => Some (PcDone wg)
  | _, _ => None
  end.

(** The steps as a relation on the program point and the world. *)
Definition gstep (c c' : Pc F * World E) : Prop :=
  exists m, goroutine_step c.1 = Some m /\ m c.2 = c'.

(** A goroutine run until it blocks or ends, for [fuel] steps at most. *)
Fixpoint goroutine_run (fuel : nat) (pc : Pc F) (w : World E) : Pc F * World E :=
  match fuel with
  | O => (pc, w)
  | S fuel' =>
    match goroutine_step pc with
    | None => (pc, w)
    | Some m => let '(pc', w') := m w in goroutine_run fuel' pc' w'
    end
  end.

(** A goroutine and the signals its [select] receives: it runs until it
    blocks, receives the next signal, and so on; it stops where it is when
    it cannot receive. *)
Fixpoint goroutine_loop (fuel : nat) (signals : list Signal) (pc : Pc F) (w : World E)
  : Pc F * World E :=
  let '(pc1, w1) := goroutine_run fuel pc w in
  match signals with
  | [] => (pc1, w1)
  | sig :: signals' =>
    match goroutine_recv sig pc1 with
    | Some pc2 => goroutine_loop fuel signals' pc2 w1
    | None => (pc1, w1)
    end
  end.

(** What the monitor of [Protocol] knows at a program point. *)
Fixpoint monitor_of (pc : Pc F) : Monitor :=
  match pc with
  | PcStart => monitor_init
  | PcGetLastIds => mkMonitor [] MConnected
  | PcLog entry next =>
    mkMonitor (EvLog entry :: expect (monitor_of next)) (mode (monitor_of next))
  | PcNewTicker _ => mkMonitor [EvNewTicker (Second * 5)] (MLoop [] [])
  | PcSelect _ | PcFetch _ | PcDone _ => mkMonitor [] (MLoop [] [])
  | PcHandle _ post posts => mkMonitor [] (MLoop [] (post :: posts))
  | PcSend _ embed channel channels posts =>
    mkMonitor [] (MLoop ((fun ch => (ch, embed)) <$> channel :: channels) posts)
  | PcReturned => mkMonitor [] MDone
  | PcPanicked _ => mkMonitor [] MPanicked
  end.

(** ** Steps and runs *)

Lemma gstep_det c c1 c2 : gstep c c1 -> gstep c c2 -> c1 = c2.
Proof. intros (m1 & H1 & <-) (m2 & H2 & <-). congruence. Qed.

Lemma gstep_run fuel pc w pc' w' :
  gstep (pc, w) (pc', w') -> goroutine_run (S fuel) pc w = goroutine_run fuel pc' w'.
Proof. intros (m & Hm & Hw). simpl in *. by rewrite Hm, Hw. Qed.

Lemma goroutine_run_blocked fuel pc w :
  goroutine_step pc = None -> goroutine_run fuel pc w = (pc, w).
Proof. intros H. destruct fuel; [done|]. simpl. by rewrite H. Qed.

(** A run with enough fuel follows the steps. *)
Lemma nsteps_run n fuel c c' :
  nsteps gstep n c c' ->
  goroutine_run (n + fuel) c.1 c.2 = goroutine_run fuel c'.1 c'.2.
Proof.
  induction 1 as [|n [pc w] [pc1 w1] c' Hstep _ IH]; [done|].
  cbn [Nat.add fst snd]. by rewrite (gstep_run _ _ _ _ _ Hstep).
Qed.

(** [len(l) < 1] for a slice that is not empty. *)
Lemma len_cons_lt_1 {A} (x : A) (l : list A) : (Z.of_nat (length (x :: l)) <? 1) = false.
Proof. apply Z.ltb_ge. cbn [length]. lia. Qed.

(** The monitor at the next post and at the next send. *)
Lemma monitor_of_handle_next fetcher posts :
  monitor_of (handle_next fetcher posts) = mkMonitor [] (MLoop [] posts).
Proof. by destruct posts. Qed.

Lemma monitor_of_send_next fetcher embed channels posts :
  monitor_of (send_next fetcher embed channels posts) =
    mkMonitor [] (MLoop ((fun ch => (ch, embed)) <$> channels) posts).
Proof. destruct channels; [apply monitor_of_handle_next|done]. Qed.

Lemma monitor_of_resume result err :
  monitor_of (match err with
              | Some err =>
                PcLog (log_error err "Failed retrieving post buffer from redis")
                  (resume result)
              | None => resume result
              end) =
    mkMonitor (tail (start_events result err)) (MLoop [] []).
Proof.
  unfold resume, start_events, lastIds_events.
  by destruct err, result; case_bool_decide.
Qed.

Lemma monitor_of_fetched fetcher links err :
  monitor_of (match err with
              | Some e => PcLog (log_error e "Error fetchind new links") (PcSelect fetcher)
              | None =>
                if Z.of_nat (length links) <? 1 then PcSelect fetcher
                else handle_next fetcher links
              end) = after_fetch links err.
Proof. destruct err, links; try done. by rewrite len_cons_lt_1. Qed.

Lemma monitor_of_config fetcher post posts config err :
  monitor_of (match err with
              | Some err =>
                PcLog (log_error err "Failed getting config from redis")
                  (handle_next fetcher posts)
              | None =>
                if Z.of_nat (length (collectChannels config)) <? 1
                then handle_next fetcher posts
                else PcLog (log_matched (collectChannels config) post)
                       (send_next fetcher (buildEmbed post) (collectChannels config) posts)
              end) = after_config post posts config err.
Proof.
  unfold after_config. destruct err; cbn [monitor_of].
  - by rewrite monitor_of_handle_next.
  - destruct (collectChannels config) as [|ch channels].
    + apply monitor_of_handle_next.
    + rewrite len_cons_lt_1. cbn [monitor_of]. by rewrite monitor_of_send_next.
Qed.

Lemma monitor_of_sent fetcher embed channel channels posts err :
  monitor_of (match err with
              | Some e =>
                PcLog (log_error e "Error posting message")
                  (send_next fetcher embed channels posts)
              | None => send_next fetcher embed channels posts
              end) =
    mkMonitor (tail (send_events embed channel err))
      (MLoop ((fun ch => (ch, embed)) <$> channels) posts).
Proof. destruct err; cbn [monitor_of]; by rewrite monitor_of_send_next. Qed.

(** The steps of the monitor at a look-up and at a send. *)
Lemma monitor_step_config post posts config err :
  monitor_step (mkMonitor [] (MLoop [] (post :: posts)))
    (EvGetConfig (configKey post) config err) = Some (after_config post posts config err).
Proof. unfold monitor_step. cbn [expect mode]. by rewrite decide_True. Qed.

Lemma monitor_step_send channel embed sends posts err :
  monitor_step (mkMonitor [] (MLoop ((channel, embed) :: sends) posts))
    (EvSend channel embed err) =
    Some (mkMonitor (tail (send_events embed channel err)) (MLoop sends posts)).
Proof. unfold monitor_step. cbn [expect mode]. by rewrite decide_True. Qed.

(** The calls, unfolded to the calls of the environment. *)
Ltac unfold_calls H :=
  unfold bind, ret, MustGetRedisClient, RedisPoolGet, GetRedisJson, logrus, NewTicker,
    Done, emit, GetNewPosts, GetConfig, ChannelMessageSendEmbed in H;
  repeat match type of H with
  | context [let '(_, _) := ?c in _] =>
    lazymatch c with
    | context [let '(_, _) := _ in _] => fail
    | _ => destruct c as [? ?] eqn:?; cbv beta iota in H
    end
  end;
  simplify_eq/=.

(** Each step is one event, and a step of the monitor. *)
Lemma goroutine_step_monitor pc w pc' w' :
  gstep (pc, w) (pc', w') ->
  exists ev, w_trace w' = w_trace w ++ [ev] /\
    monitor_step (monitor_of pc) ev = Some (monitor_of pc').
Proof.
  intros (m & Hm & Hw). cbn [fst snd] in *.
  destruct pc; simplify_eq/=; unfold_calls Hw; (eexists; split; [done|]).
  - by destruct o.
  - by rewrite monitor_of_resume.
  - rewrite monitor_step_expected. by destruct (monitor_of pc').
  - apply monitor_step_expected.
  - by rewrite monitor_of_fetched.
  - done.
  - rewrite monitor_of_config. apply monitor_step_config.
  - rewrite (monitor_of_sent _ _ channel). apply monitor_step_send.
Qed.

(** ** The steps and the stop requests *)

Lemma in_loop_quiet (pc : Pc F) :
  in_loop pc = true -> proper pc = true /\ holds pc = None /\ returned pc = false.
Proof. by destruct pc. Qed.

Lemma in_loop_handle_next fetcher posts : in_loop (handle_next fetcher posts) = true.
Proof. by destruct posts. Qed.

Lemma in_loop_send_next fetcher embed channels posts :
  in_loop (send_next fetcher embed channels posts) = true.
Proof. destruct channels; [apply in_loop_handle_next|done]. Qed.

Lemma in_loop_resume result : in_loop (resume result) = true.
Proof. unfold resume. by destruct (0 <? Z.of_nat (length result)). Qed.

(** A goroutine in the loop stays in the loop, and acknowledges nothing:
    it leaves the loop only by a receive in its [select]. *)
Lemma gstep_in_loop pc w pc' w' :
  in_loop pc = true -> gstep (pc, w) (pc', w') ->
  in_loop pc' = true /\ exists ev, w_trace w' = w_trace w ++ [ev] /\ dones_of [ev] = [].
Proof.
  intros Hpc (m & Hm & Hw). cbn [fst snd] in *.
  destruct pc; simplify_eq/=; unfold_calls Hw; (split; [|by eexists]).
  - destruct o; cbn [in_loop]; apply in_loop_resume.
  - done.
  - done.
  - destruct o; [done|]. destruct (_ <? 1); [done|apply in_loop_handle_next].
  - destruct o; cbn [in_loop]; [apply in_loop_handle_next|].
    destruct (_ <? 1); cbn [in_loop]; [apply in_loop_handle_next|apply in_loop_send_next].
  - destruct o; cbn [in_loop]; apply in_loop_send_next.
Qed.

(** What a step does to the stop requests: the goroutine that holds a wait
    group acknowledges it and returns; any other step acknowledges nothing,
    receives nothing and does not return. *)
Lemma gstep_accounts pc w pc' w' :
  proper pc = true -> gstep (pc, w) (pc', w') ->
  proper pc' = true /\ returned pc = false /\
  exists ev, w_trace w' = w_trace w ++ [ev] /\
    dones_of [ev] = option_list (holds pc) /\ holds pc' = None /\
    returned pc' = bool_decide (is_Some (holds pc)).
Proof.
  intros Hpc Hstep.
  destruct (decide (in_loop pc = true)) as [Hin|Hout].
  - destruct (gstep_in_loop _ _ _ _ Hin Hstep) as [(? & ? & ?)%in_loop_quiet (ev & ? & ?)].
    destruct (in_loop_quiet pc Hin) as (_ & -> & ?). split_and!; [done..|]. by exists ev.
  - destruct Hstep as (m & Hm & Hw). cbn [fst snd] in *.
    destruct pc; simplify_eq/=; unfold_calls Hw; try destruct o;
      (split_and!; [done..|by eexists]).
Qed.

(** The trace after [n] steps has [n] more events. *)
Lemma nsteps_trace n c c' :
  nsteps gstep n c c' -> exists evs, w_trace c'.2 = w_trace c.2 ++ evs /\ length evs = n.
Proof.
  induction 1 as [c|n [pc w] [pc1 w1] c' Hstep _ (evs & -> & <-)].
  - exists []. by rewrite app_nil_r.
  - destruct (goroutine_step_monitor _ _ _ _ Hstep) as (ev & Hev & _).
    exists (ev :: evs). cbn [fst snd] in *. by rewrite Hev, <- app_assoc.
Qed.


(** ** The steps compute the functions of [RunBot] *)

(** The step at each program point, by the result of its call. *)
Lemma gstep_log entry next w : gstep (PcLog entry next, w) (next, (logrus entry w).2).
Proof. by eexists. Qed.

Lemma gstep_start w :
  gstep (PcStart, w)
    (match (MustGetRedisClient w).1 with
     | Some err => PcPanicked err
     | None => PcGetLastIds
     end, (MustGetRedisClient w).2).
Proof. eexists. split; [done|]. cbn [fst snd]. unfold bind, ret. by destruct (MustGetRedisClient w). Qed.

Lemma gstep_lastIds w :
  let r := GetRedisJson "reddit_last_links" w in
  gstep (PcGetLastIds, w)
    (match r.1.2 with
     | Some err =>
       PcLog (log_error err "Failed retrieving post buffer from redis") (resume r.1.1)
     | None => resume r.1.1
     end, r.2).
Proof.
  eexists. split; [done|]. cbn [fst snd]. unfold bind, ret.
  by destruct (GetRedisJson "reddit_last_links" w).
Qed.

Lemma gstep_ticker fetcher w :
  gstep (PcNewTicker fetcher, w) (PcSelect fetcher, (NewTicker (Second * 5) w).2).
Proof. by eexists. Qed.

Lemma gstep_done wg w : gstep (PcDone wg, w) (PcReturned, (Done wg w).2).
Proof. by eexists. Qed.

Lemma gstep_fetch fetcher w :
  let r := GetNewPosts fetcher w in
  gstep (PcFetch fetcher, w)
    (match r.1.1.2 with
     | Some e => PcLog (log_error e "Error fetchind new links") (PcSelect r.1.2)
     | None =>
       if Z.of_nat (length r.1.1.1) <? 1 then PcSelect r.1.2
       else handle_next r.1.2 r.1.1.1
     end, r.2).
Proof.
  eexists. split; [done|]. cbn [fst snd]. unfold bind, ret.
  by destruct (GetNewPosts fetcher w) as [[[links err] fetcher'] w'].
Qed.

Lemma gstep_handle fetcher post posts w :
  let r := GetConfig (configKey post) w in
  gstep (PcHandle fetcher post posts, w)
    (match r.1.2 with
     | Some err =>
       PcLog (log_error err "Failed getting config from redis") (handle_next fetcher posts)
     | None =>
       if Z.of_nat (length (collectChannels r.1.1)) <? 1 then handle_next fetcher posts
       else PcLog (log_matched (collectChannels r.1.1) post)
              (send_next fetcher (buildEmbed post) (collectChannels r.1.1) posts)
     end, r.2).
Proof.
  eexists. split; [done|]. cbn [fst snd]. unfold bind, ret.
  by destruct (GetConfig (configKey post) w).
Qed.

Lemma gstep_send fetcher embed channel channels posts w :
  let r := ChannelMessageSendEmbed channel embed w in
  gstep (PcSend fetcher embed channel channels posts, w)
    (match r.1 with
     | Some e =>
       PcLog (log_error e "Error posting message") (send_next fetcher embed channels posts)
     | None => send_next fetcher embed channels posts
     end, r.2).
Proof.
  eexists. split; [done|]. cbn [fst snd]. unfold bind, ret.
  by destruct (ChannelMessageSendEmbed channel embed w).
Qed.

(** The loop of sends. *)
Lemma sendEmbeds_steps fetcher embed channels posts w :
  rtc gstep (send_next fetcher embed channels posts, w)
    (handle_next fetcher posts, (sendEmbeds channels embed w).2).
Proof.
  revert w. induction channels as [|channel channels IH]; intros w; [done|].
  eapply rtc_l; [apply gstep_send|]. cbv zeta.
  unfold sendEmbeds in *. cbn [for_range]. unfold bind at 1, sendEmbed, bind at 1.
  destruct (ChannelMessageSendEmbed channel embed w) as [[e|] w1]; cbn [fst snd].
  - eapply rtc_l; [apply gstep_log|]. destruct (logrus _ w1) as [[] w2] eqn:Hlog.
    apply IH.
  - apply IH.
Qed.

(** No step: the two configurations are the same once their projections
    are computed. *)
Ltac rtc_here := unfold ret; cbn [fst snd]; exact (rtc_refl _ _).

(** [handlePost], and the loop over the posts. *)
Lemma handlePost_steps fetcher post posts w :
  rtc gstep (PcHandle fetcher post posts, w)
    (handle_next fetcher posts, (handlePost post w).2).
Proof.
  eapply rtc_l; [apply gstep_handle|]. cbv zeta. unfold handlePost, bind at 1.
  destruct (GetConfig (configKey post) w) as [[config [err|]] w1]; cbn [fst snd].
  - eapply rtc_l; [apply gstep_log|]. unfold bind, ret.
    destruct (logrus _ w1) as [[] w2]. rtc_here.
  - destruct (Z.of_nat (length (collectChannels config)) <? 1); [rtc_here|].
    eapply rtc_l; [apply gstep_log|]. unfold bind at 1.
    destruct (logrus _ w1) as [[] w2]. cbn [snd]. unfold bind.
    pose proof (sendEmbeds_steps fetcher (buildEmbed post) (collectChannels config) posts w2).
    by destruct (sendEmbeds _ _ w2).
Qed.

Lemma handlePosts_steps fetcher posts w :
  rtc gstep (handle_next fetcher posts, w) (PcSelect fetcher, (handlePosts posts w).2).
Proof.
  revert w. induction posts as [|post posts IH]; intros w; [done|].
  etrans; [apply handlePost_steps|]. unfold handlePosts in *. cbn [for_range].
  unfold bind at 1 2. destruct (handlePost post w) as [r w1]. apply IH.
Qed.

(** An iteration of the loop, from the tick to the [select]. *)
Lemma tick_unfold fetcher w :
  tick fetcher w =
    let r := GetNewPosts fetcher w in
    (r.1.2,
     match r.1.1.2 with
     | Some e => (logrus (log_error e "Error fetchind new links") r.2).2
     | None =>
       if Z.of_nat (length r.1.1.1) <? 1 then r.2 else (handlePosts r.1.1.1 r.2).2
     end).
Proof.
  unfold tick, bind. destruct (GetNewPosts fetcher w) as [[[links [err|]] fetcher'] w1];
    cbn [fst snd]; [by unfold logrus, emit, ret|].
  destruct (Z.of_nat (length links) <? 1); [done|]. by destruct (handlePosts links w1).
Qed.

Lemma tick_steps fetcher w :
  rtc gstep (PcFetch fetcher, w) (PcSelect (tick fetcher w).1, (tick fetcher w).2).
Proof.
  rewrite tick_unfold. eapply rtc_l; [apply gstep_fetch|]. cbv zeta.
  destruct (GetNewPosts fetcher w) as [[[links [err|]] fetcher'] w1]; cbn [fst snd].
  - eapply rtc_l; [apply gstep_log|]. rtc_here.
  - destruct (Z.of_nat (length links) <? 1); [rtc_here|]. apply handlePosts_steps.
Qed.

(** The start of [runBot], up to the [select] or to the panic. *)
Lemma runBot_start_unfold client w :
  runBot_start client w =
    let r := GetRedisJson "reddit_last_links" w in
    let w1 := match r.1.2 with
              | Some err =>
                (logrus (log_error err "Failed retrieving post buffer from redis") r.2).2
              | None => r.2
              end in
    let w2 := if 0 <? Z.of_nat (length r.1.1)
              then (logrus (log_info "Found lastids, attempting resuming") w1).2
              else w1 in
    (NewPostFetcher_call client r.1.1, (NewTicker (Second * 5) w2).2).
Proof.
  unfold runBot_start, getLastIds, bind, ret, NewTicker, logrus, emit.
  destruct (GetRedisJson "reddit_last_links" w) as [[result [err|]] w1];
    cbv beta iota zeta; cbn [fst snd];
    by destruct (0 <? Z.of_nat (length result)).
Qed.

Lemma resume_steps result w :
  rtc gstep (resume result, w)
    (PcSelect (NewPostFetcher_call setupClient result),
     (NewTicker (Second * 5)
        (if 0 <? Z.of_nat (length result)
         then (logrus (log_info "Found lastids, attempting resuming") w).2
         else w)).2).
Proof.
  unfold resume. destruct (0 <? Z.of_nat (length result)).
  - eapply rtc_l; [apply gstep_log|]. eapply rtc_l; [apply gstep_ticker|]. rtc_here.
  - eapply rtc_l; [apply gstep_ticker|]. rtc_here.
Qed.

Lemma runBot_steps w :
  rtc gstep (PcStart, w) (pc_of (runBot [] w), world_of (runBot [] w)).
Proof.
  eapply rtc_l; [apply gstep_start|]. unfold runBot.
  destruct (MustGetRedisClient w) as [[err|] w1]; cbn [fst snd]; [rtc_here|].
  eapply rtc_l; [apply gstep_lastIds|]. cbv zeta. rewrite runBot_start_unfold. cbv zeta.
  destruct (GetRedisJson "reddit_last_links" w1) as [[result [err|]] w2]; cbn [fst snd].
  - eapply rtc_l; [apply gstep_log|]. apply resume_steps.
  - apply resume_steps.
Qed.

(** ** Every goroutine comes back to its [select] *)

(** A goroutine in the loop reaches its [select], whatever the
    collaborators answer. *)
Lemma select_reached pc w :
  in_loop pc = true -> exists fetcher w', rtc gstep (pc, w) (PcSelect fetcher, w').
Proof.
  revert w. induction pc as [| |entry next IH|fetcher|fetcher|fetcher|wg
    |fetcher post posts|fetcher embed channel channels posts| |err]; intros w Hpc;
    try done.
  - pose proof (gstep_lastIds w) as Hstep. cbv zeta in Hstep.
    destruct (GetRedisJson "reddit_last_links" w) as [[result [err|]] w1];
      cbn [fst snd] in Hstep; eexists _, _; (eapply rtc_l; [apply Hstep|]).
    + eapply rtc_l; [apply gstep_log|]. apply resume_steps.
    + apply resume_steps.
  - destruct (IH (logrus entry w).2 Hpc) as (fetcher & w' & Hsteps).
    exists fetcher, w'. by eapply rtc_l; [apply gstep_log|].
  - eexists _, _. eapply rtc_l; [apply gstep_ticker|]. apply rtc_refl.
  - by eexists _, _.
  - eexists _, _. apply tick_steps.
  - eexists _, _. etrans; [apply handlePost_steps|apply handlePosts_steps].
  - eexists _, _.
    etrans; [apply (sendEmbeds_steps fetcher embed (channel :: channels))|].
    apply handlePosts_steps.
Qed.

(** No goroutine makes infinitely many steps: the relation of its steps is
    strongly normalising. *)
Lemma sn_blocked pc w : goroutine_step pc = None -> sn gstep (pc, w).
Proof. intros H. constructor. intros c' (m & Hm & _). simpl in *. congruence. Qed.

Lemma sn_next c c' : gstep c c' -> sn gstep c' -> sn gstep c.
Proof. intros Hc Hsn. constructor. intros c'' Hc'. by rewrite (gstep_det _ _ _ Hc' Hc). Qed.

Lemma sn_log entry next w : (forall w', sn gstep (next, w')) -> sn gstep (PcLog entry next, w).
Proof. intros H. eapply sn_next; [apply gstep_log|apply H]. Qed.

Lemma sn_send_next fetcher embed channels posts :
  (forall w, sn gstep (handle_next fetcher posts, w)) ->
  forall w, sn gstep (send_next fetcher embed channels posts, w).
Proof.
  intros Hposts. induction channels as [|channel channels IH]; intros w; [apply Hposts|].
  eapply sn_next; [apply gstep_send|]. cbv zeta.
  destruct (ChannelMessageSendEmbed channel embed w) as [[e|] w1]; cbn [fst snd];
    [by apply sn_log|apply IH].
Qed.

Lemma sn_handle_next fetcher posts w : sn gstep (handle_next fetcher posts, w).
Proof.
  revert w. induction posts as [|post posts IH]; intros w; [by apply sn_blocked|].
  eapply sn_next; [apply gstep_handle|]. cbv zeta.
  destruct (GetConfig (configKey post) w) as [[config [err|]] w1]; cbn [fst snd];
    [by apply sn_log|].
  destruct (Z.of_nat (length (collectChannels config)) <? 1); [apply IH|].
  apply sn_log. by apply sn_send_next.
Qed.

Lemma sn_resume result w : sn gstep (resume result, w).
Proof.
  assert (forall fetcher w', sn gstep (PcNewTicker fetcher, w')) as Hticker.
  { intros fetcher w'. eapply sn_next; [apply gstep_ticker|]. by apply sn_blocked. }
  unfold resume. destruct (0 <? Z.of_nat (length result)); [by apply sn_log|apply Hticker].
Qed.

Lemma sn_lastIds w : sn gstep (PcGetLastIds, w).
Proof.
  eapply sn_next; [apply gstep_lastIds|]. cbv zeta.
  destruct (GetRedisJson "reddit_last_links" w) as [[result [err|]] w1]; cbn [fst snd];
    [apply sn_log; intros; apply sn_resume|apply sn_resume].
Qed.

Lemma sn_fetch fetcher w : sn gstep (PcFetch fetcher, w).
Proof.
  eapply sn_next; [apply gstep_fetch|]. cbv zeta.
  destruct (GetNewPosts fetcher w) as [[[links [err|]] fetcher'] w1]; cbn [fst snd].
  - apply sn_log. intros. by apply sn_blocked.
  - destruct (Z.of_nat (length links) <? 1); [by apply sn_blocked|apply sn_handle_next].
Qed.

(** Claim C22.  A goroutine makes no infinite sequence of steps, whatever
    the collaborators answer: from every program point and in every world
    its steps end, in its [select], at its return or at its panic.  An
    iteration of the loop of [runBot] always ends. *)
Theorem goroutine_terminates (pc : Pc F) (w : World E) : sn gstep (pc, w).
Proof.
  revert w. induction pc as [| |entry next IH|fetcher|fetcher|fetcher|wg
    |fetcher post posts|fetcher embed channel channels posts| |err]; intros w.
  - eapply sn_next; [apply gstep_start|].
    destruct (MustGetRedisClient w) as [[err|] w1]; [by apply sn_blocked|apply sn_lastIds].
  - apply sn_lastIds.
  - by apply sn_log.
  - eapply sn_next; [apply gstep_ticker|]. by apply sn_blocked.
  - by apply sn_blocked.
  - apply sn_fetch.
  - eapply sn_next; [apply gstep_done|]. by apply sn_blocked.
  - apply (sn_handle_next fetcher (post :: posts)).
  - apply (sn_send_next fetcher embed (channel :: channels)). intros. apply sn_handle_next.
  - by apply sn_blocked.
  - by apply sn_blocked.
Qed.

(** ** Enough fuel *)

(** A run whose fuel covers the events of the steps reaches the
    configuration where they block. *)
Lemma rtc_run fuel c c' :
  rtc gstep c c' -> goroutine_step c'.1 = None ->
  (length (w_trace c'.2) <= length (w_trace c.2) + fuel)%nat ->
  goroutine_run fuel c.1 c.2 = c'.
Proof.
  intros [n Hn]%rtc_nsteps Hblock Hlen.
  destruct (nsteps_trace _ _ _ Hn) as (evs & Hevs & <-).
  rewrite Hevs, length_app in Hlen.
  replace fuel with (length evs + (fuel - length evs))%nat by lia.
  rewrite (nsteps_run _ _ _ _ Hn), goroutine_run_blocked by done. by destruct c'.
Qed.

Lemma goroutine_loop_run fuel signals pc w pc1 w1 :
  goroutine_run fuel pc w = (pc1, w1) -> goroutine_step pc1 = None ->
  goroutine_loop fuel signals pc w = goroutine_loop fuel signals pc1 w1.
Proof.
  intros Hrun Hblock. destruct signals; cbn [goroutine_loop];
    by rewrite Hrun, goroutine_run_blocked.
Qed.

Lemma goroutine_loop_ended fuel signals (pc : Pc F) w :
  ended pc = true -> goroutine_loop fuel signals pc w = (pc, w).
Proof.
  intros Hpc. destruct signals; cbn [goroutine_loop];
    rewrite goroutine_run_blocked by (by destruct pc); [done|by destruct pc].
Qed.

(** The loop of [runBot] from its [select]. *)
Lemma goroutine_loop_select fuel signals fetcher w :
  (length (w_trace (world_of (runBot_loop signals fetcher w))) <=
     length (w_trace w) + fuel)%nat ->
  goroutine_loop fuel signals (PcSelect fetcher) w =
    (pc_of (runBot_loop signals fetcher w), world_of (runBot_loop signals fetcher w)).
Proof.
  revert fetcher w. induction signals as [|[wg|] signals IH]; intros fetcher w Hlen;
    cbn [goroutine_loop runBot_loop] in *; rewrite goroutine_run_blocked by done;
    [done|..]; cbn [goroutine_recv].
  - cbn [world_of Done emit w_trace snd] in Hlen. rewrite length_app in Hlen.
    rewrite (goroutine_loop_run _ _ _ _ PcReturned (Done wg w).2), goroutine_loop_ended;
      try done.
    destruct fuel as [|fuel]; [simpl in Hlen; lia|].
    rewrite (gstep_run _ _ _ _ _ (gstep_done wg w)). by apply goroutine_run_blocked.
  - pose proof (tick_steps fetcher w) as Hsteps.
    pose proof (runBot_loop_prefix signals (tick fetcher w).1 (tick fetcher w).2) as Hpre.
    pose proof (traced_prefix (tick fetcher) w) as Hpre'.
    destruct (tick fetcher w) as [fetcher' w'] eqn:Htick. cbn [fst snd] in *.
    apply prefix_length in Hpre, Hpre'.
    rewrite (goroutine_loop_run _ _ _ _ (PcSelect fetcher') w');
      [apply IH; lia|by apply (rtc_run fuel (_, _) (_, _)); [..|cbn [snd]; lia]|done].
Qed.

(** The number of steps of an iteration of the loop is the number of its
    events. *)
Lemma tick_nsteps fetcher w :
  nsteps gstep (length (events_of (tick fetcher) (w_env w))) (PcFetch fetcher, w)
    (PcSelect (tick fetcher w).1, (tick fetcher w).2).
Proof.
  destruct (proj1 (rtc_nsteps _ _) (tick_steps fetcher w)) as [n Hn].
  destruct (nsteps_trace _ _ _ Hn) as (evs & Hevs & <-). cbn [snd] in Hevs.
  rewrite (traced_trace (tick fetcher)) in Hevs. by apply app_inv_head in Hevs as ->.
Qed.

(** Claim C16.  The steps of a goroutine compute [runBot]: a goroutine
    started at the first line of [runBot], run call by call until it blocks
    and given the signals of its [select] one after the other, ends at the
    program point and in the world of [runBot] on these signals, whenever
    the fuel of a run covers the events of the trace. *)
Theorem goroutine_refines_runBot fuel signals w :
  (length (w_trace (world_of (runBot signals w))) <= length (w_trace w) + fuel)%nat ->
  goroutine_loop fuel signals PcStart w =
    (pc_of (runBot signals w), world_of (runBot signals w)).
Proof.
  intros Hlen. pose proof (runBot_steps w) as Hsteps. unfold runBot in *.
  destruct (MustGetRedisClient w) as [[err|] w1].
  - rewrite (goroutine_loop_run _ _ _ _ (PcPanicked err) w1), goroutine_loop_ended; try done.
    by apply (rtc_run fuel (_, _) (_, _)).
  - destruct (runBot_start setupClient w1) as [fetcher w2].
    cbn [runBot_loop pc_of world_of] in Hsteps.
    pose proof (runBot_loop_prefix signals fetcher w2) as Hpre%prefix_length.
    assert (length (w_trace w) <= length (w_trace w2))%nat as Hw.
    { apply rtc_nsteps in Hsteps as [n (evs & Hevs & _)%nsteps_trace].
      cbn [snd] in Hevs. rewrite Hevs, length_app. lia. }
    rewrite (goroutine_loop_run _ _ _ _ (PcSelect fetcher) w2);
      [apply goroutine_loop_select; lia|by apply (rtc_run fuel (_, _) (_, _)); [..|cbn [snd]; lia]|done].
Qed.

End goroutine.

(** ** A goroutine at work *)

Import Sim.

Lemma goroutine_refines_runBot_witness :
  goroutine_loop 20 [SigTick; SigTick; SigStop 7] PcStart (mkWorld feed_env []) =
    (pc_of (runBot (F := list string) [SigTick; SigTick; SigStop 7] (mkWorld feed_env [])),
     world_of (runBot (F := list string) [SigTick; SigTick; SigStop 7]
                 (mkWorld feed_env []))).
Proof.
  apply (goroutine_refines_runBot (F := list string) 20 [SigTick; SigTick; SigStop 7]
           (mkWorld feed_env [])).
  vm_compute. lia.
Defined.

(** With too little fuel the goroutine is still on its way: after three
    steps of its first iteration it is about to send; the iteration has six
    events. *)
Example goroutine_run_short :
  (fun c => (at_select c.1, length (w_trace c.2))) <$>
    Some (goroutine_run 3 (PcFetch ["5abd"]) (mkWorld feed_env [])) = Some (false, 3%nat) /\
  (fun c => (at_select c.1, length (w_trace c.2))) <$>
    Some (goroutine_run 20 (PcFetch ["5abd"]) (mkWorld feed_env [])) = Some (true, 6%nat).
Proof. by vm_compute. Qed.
