(* ===== verification/Feed.v ===== *)
(** * The feed with its goroutines interleaved

    [Plugin] lets a goroutine run an iteration of its loop in one step.
    Here the goroutines started by [StartFeed] (line 26 of
    [src/reddit/redditbot.go]) advance by the steps of [Goroutine], one
    call of a collaborator at a time, in any order: between two calls of
    one goroutine the others may run, [StartFeed] may start more of them
    and [StopFeed] (line 30) may block more callers on [stopFeedChan].  A
    goroutine receives a tick or a wait group only in its [select].

    The [Feed] keeps, beside the world, the goroutine that caused each
    event of the trace.  The theorems: whatever the moves are, the events
    of each goroutine follow the protocol of [Protocol] and leave its
    monitor at the program point of the goroutine ([feed_conforms]); every
    send of the trace carries a post fetched earlier in the trace
    ([feed_sends_fetched]); the steps of [Plugin] are moves of the feed
    ([feed_simulates_plugin]), so that what holds of every interleaving
    holds of [Plugin]; every wait group passed to [StopFeed] is received
    in the order of the calls and acknowledged at most once, by a goroutine
    that returns, though not in the order of the calls
    ([stop_requests_accounted]); and a goroutine in its loop can always
    come back to its [select] and serve a caller of [StopFeed]
    ([stop_can_be_served]).

    What is abstracted.  [stopFeedChan], whose [make] is not in [src/], is
    the queue of the wait groups whose senders are blocked in line 30,
    oldest first: a caller of [StopFeed] has returned when its wait group
    has left the queue.  A wait group is a name and [Done] an event: the
    counter of [sync.WaitGroup] and the [Wait] of the caller are outside
    [src/].  The theorem on the stop requests gives what a counter needs:
    a wait group is acknowledged at most as often as it was passed
    ([acks_submseteq]). *)

From Stdlib Require Import ZArith Lia Ascii.
From stdpp Require Import base tactics option list sets strings relations.
From S2P Require Import Prelude Collaborators HandlePost RunBot Protocol Plugin Goroutine.

#[local] Open Scope Z_scope.

(** ** The feed *)

(** The world, the program points of the goroutines started so far, the
    wait groups of the callers blocked in [StopFeed], oldest first, and
    the events caused so far with the goroutine that caused each. *)
Record Feed (E F : Type) : Type := mkFeed {
  f_world : World E;
  f_pcs : list (Pc F);
  f_chan : list WaitGroup;
  f_events : list (nat * Event)
}.
Arguments mkFeed {E F} _ _ _ _.
Arguments f_world {E F} _.
Arguments f_pcs {E F} _.
Arguments f_chan {E F} _.
Arguments f_events {E F} _.

(** What happens next: a method is called, the goroutine [k] makes the call
    at its program point, its ticker fires, or it receives the oldest wait
    group. *)
Inductive Move : Type :=
| MvStartFeed
| MvStopFeed (wg : WaitGroup)
| MvStep (k : nat)
| MvTick (k : nat)
| MvRecv (k : nat).

#[export] Instance Move_eq_dec : EqDecision Move.
Proof. solve_decision. Defined.

(** The feed before any call. *)
Definition feed_init {E F} (w : World E) : Feed E F := mkFeed w [] [] [].

(** The events of the goroutine [k]. *)
Definition events_by (k : nat) (evs : list (nat * Event)) : list Event :=
  snd <$> filter (fun x => x.1 = k) evs.

(** The events added to the trace between two worlds. *)
Definition new_events {E} (w w' : World E) : list Event :=
  drop (length (w_trace w)) (w_trace w').

(** The feed after a step of the goroutine [k]. *)
Definition stepped {E F} (k : nat) (pc' : Pc F) (w' : World E) (p : Feed E F) : Feed E F :=
  mkFeed w' (<[k := pc']> (f_pcs p)) (f_chan p)
    (f_events p ++ (pair k <$> new_events (f_world p) w')).

(** The feed after the goroutine [k] has received from a channel. *)
Definition received {E F} (k : nat) (pc' : Pc F) (chan : list WaitGroup) (p : Feed E F)
  : Feed E F :=
  mkFeed (f_world p) (<[k := pc']> (f_pcs p)) chan (f_events p).

(** The wait groups of the calls of [StopFeed] among the moves, in the
    order of the calls. *)
Definition stop_calls (moves : list Move) : list WaitGroup :=
  omap (fun mv => match mv with MvStopFeed wg => Some wg | _ => None end) moves.

(** The wait groups that goroutines hold: received and not acknowledged. *)
Definition held {F} (pcs : list (Pc F)) : list WaitGroup := omap holds pcs.

(** The wait groups acknowledged so far, in the order of the calls of
    [Done]. *)
Definition acks {E F} (p : Feed E F) : list WaitGroup :=
  dones_of (snd <$> f_events p).

(** The number of goroutines that have returned. *)
Definition returned_count {F} (pcs : list (Pc F)) : nat :=
  length (filter (fun pc => returned pc = true) pcs).

Section feed.
Context {E F : Type} {Ev : Environ} {Cm : Common} {Rl : RedditLib}
  {St : GoStrings} {Rd : Redis E} {Dc : Discord E} {Rp : RedisPool E}
  {Ft : Fetcher E F}.

(** [func (p *Plugin) StartFeed()]: [go p.runBot()]. *)
Definition start_feed (p : Feed E F) : Feed E F :=
  mkFeed (f_world p) (f_pcs p ++ [PcStart]) (f_chan p) (f_events p).

(** [func (p *Plugin) StopFeed(wg *sync.WaitGroup)]: the caller blocks in
    [p.stopFeedChan <- wg]. *)
Definition stop_feed (wg : WaitGroup) (p : Feed E F) : Feed E F :=
  mkFeed (f_world p) (f_pcs p) (f_chan p ++ [wg]) (f_events p).

(** The moves of the feed. *)
Inductive fstep : Feed E F -> Move -> Feed E F -> Prop :=
| fstep_start p : fstep p MvStartFeed (start_feed p)
| fstep_stop p wg : fstep p (MvStopFeed wg) (stop_feed wg p)
| fstep_step p k pc pc' w' :
    f_pcs p !! k = Some pc -> gstep (pc, f_world p) (pc', w') ->
    fstep p (MvStep k) (stepped k pc' w' p)
| fstep_tick p k fetcher :
    f_pcs p !! k = Some (PcSelect fetcher) ->
    fstep p (MvTick k) (received k (PcFetch fetcher) (f_chan p) p)
| fstep_recv p k fetcher wg rest :
    f_pcs p !! k = Some (PcSelect fetcher) -> f_chan p = wg :: rest ->
    fstep p (MvRecv k) (received k (PcDone wg) rest p).

Inductive fsteps : Feed E F -> list Move -> Feed E F -> Prop :=
| fsteps_nil p : fsteps p [] p
| fsteps_cons p mv p' moves p'' :
    fstep p mv p' -> fsteps p' moves p'' -> fsteps p (mv :: moves) p''.

(** The moves as a function: [None] where the move is not enabled. *)
Definition feed_step (mv : Move) (p : Feed E F) : option (Feed E F) :=
  match mv with
  | MvStartFeed => Some (start_feed p)
  | MvStopFeed wg => Some (stop_feed wg p)
  | MvStep k =>
    pc ← f_pcs p !! k;
    m ← goroutine_step pc;
    Some (stepped k (m (f_world p)).1 (m (f_world p)).2 p)
  | MvTick k =>
    pc ← f_pcs p !! k;
    pc' ← goroutine_recv SigTick pc;
    Some (received k pc' (f_chan p) p)
  | MvRecv k =>
    pc ← f_pcs p !! k;
    match f_chan p with
    | [] => None
    | wg :: rest =>
      pc' ← goroutine_recv (SigStop wg) pc;
      Some (received k pc' rest p)
    end
  end.

Fixpoint feed_run (moves : list Move) (p : Feed E F) : option (Feed E F) :=
  match moves with
  | [] => Some p
  | mv :: moves' => p' ← feed_step mv p; feed_run moves' p'
  end.

(** The feed of a plugin of [Plugin]: each goroutine at the program point
    of its state. *)
Definition pc_of_bot (b : Bot F) : Pc F :=
  match b with
  | BotSpawned => PcStart
  | BotRunning fetcher => PcSelect fetcher
  | BotStopped => PcReturned
  | BotPanicked err => PcPanicked err
  end.

Definition feed_of (p : Plugin E F) (evs : list (nat * Event)) : Feed E F :=
  mkFeed (p_world p) (pc_of_bot <$> p_bots p) (stopFeedChan p) evs.

(** ** The relation and the function *)

Lemma fstep_feed_step p mv p' : fstep p mv p' <-> feed_step mv p = Some p'.
Proof.
  split.
  - destruct 1 as [| |p k pc pc' w' Hk (m & Hm & Hw)|p k fetcher Hk|p k fetcher wg rest Hk Hc];
      cbn [feed_step]; rewrite ?Hk, ?Hc; try done.
    cbn [fst snd mbind option_bind] in *. rewrite Hm. cbn [mbind option_bind].
    by rewrite Hw.
  - destruct mv as [|wg|k|k|k]; cbn [feed_step].
    + intros [= <-]. constructor.
    + intros [= <-]. constructor.
    + destruct (f_pcs p !! k) as [pc|] eqn:Hk; [|done]. cbn [mbind option_bind].
      destruct (goroutine_step pc) as [m|] eqn:Hm; [|done]. intros [= <-].
      apply (fstep_step p k pc); [done|]. exists m. split; [done|].
      cbn [fst snd]. by destruct (m (f_world p)).
    + destruct (f_pcs p !! k) as [[]|] eqn:Hk; try done. intros [= <-].
      by apply fstep_tick.
    + destruct (f_pcs p !! k) as [pc|] eqn:Hk; [|done]. cbn [mbind option_bind].
      destruct (f_chan p) as [|wg rest] eqn:Hc; [done|].
      destruct pc; try done. intros [= <-]. by apply (fstep_recv p k fetcher wg rest).
Qed.

Lemma fsteps_feed_run p moves p' : fsteps p moves p' <-> feed_run moves p = Some p'.
Proof.
  split.
  - induction 1 as [|p mv p1 moves p2 Hs%fstep_feed_step _ IH]; [done|].
    simpl. by rewrite Hs.
  - revert p. induction moves as [|mv moves IH]; intros p; simpl.
    + intros [= ->]. constructor.
    + destruct (feed_step mv p) as [p1|] eqn:Hs; [|done]. simpl. intros H.
      econstructor; [by apply fstep_feed_step|by apply IH].
Qed.

Lemma fsteps_app p moves1 p1 moves2 p2 :
  fsteps p moves1 p1 -> fsteps p1 moves2 p2 -> fsteps p (moves1 ++ moves2) p2.
Proof. induction 1; [done|]. intros. econstructor; eauto. Qed.

(** ** The events of a goroutine *)

Lemma events_by_app k evs1 evs2 :
  events_by k (evs1 ++ evs2) = events_by k evs1 ++ events_by k evs2.
Proof. unfold events_by. by rewrite filter_app, fmap_app. Qed.

Lemma events_by_one k j ev : events_by k [(j, ev)] = if decide (j = k) then [ev] else [].
Proof. unfold events_by. rewrite filter_cons. simpl. by case_decide. Qed.

Lemma events_by_fresh k evs :
  Forall (fun x => (x.1 < k)%nat) evs -> events_by k evs = [].
Proof.
  unfold events_by. induction 1 as [|[j ev] evs Hj _ IH]; [done|].
  rewrite filter_cons_False by (simpl in *; lia). apply IH.
Qed.

Lemma fetched_of_events_by k evs : fetched_of (events_by k evs) ⊆ fetched_of (snd <$> evs).
Proof.
  induction evs as [|[j ev] evs IH]; [done|].
  change ((j, ev) :: evs) with ([(j, ev)] ++ evs).
  rewrite events_by_app, fmap_app, !fetched_of_app, events_by_one.
  case_decide; [|by apply list_subseteq_app_r].
  intros x [Hx|Hx]%elem_of_app; apply elem_of_app; [by left|right; by apply IH].
Qed.

(** A step of a goroutine adds one event, which its monitor accepts. *)
Lemma new_events_step (pc pc' : Pc F) (w w' : World E) :
  gstep (pc, w) (pc', w') ->
  exists ev, new_events w w' = [ev] /\ w_trace w' = w_trace w ++ [ev] /\
    monitor_step (monitor_of pc) ev = Some (monitor_of pc').
Proof.
  intros (ev & Hev & Hm)%goroutine_step_monitor. exists ev. split_and!; [|done..].
  unfold new_events. by rewrite Hev, drop_app_length.
Qed.

(** ** The invariant of the feed *)

Section invariant.
Context (w0 : World E).

(** The trace is the events in their order; each event is owned by a
    goroutine that was started; the events of each goroutine lead its
    monitor to its program point. *)
Record feed_inv (p : Feed E F) : Prop := mk_feed_inv {
  inv_trace : w_trace (f_world p) = w_trace w0 ++ (snd <$> f_events p);
  inv_owner : Forall (fun x => (x.1 < length (f_pcs p))%nat) (f_events p);
  inv_conf k pc :
    f_pcs p !! k = Some pc ->
    monitor monitor_init (events_by k (f_events p)) = Some (monitor_of pc)
}.

Lemma feed_inv_init : feed_inv (feed_init w0).
Proof. split; [by rewrite app_nil_r|done|done]. Qed.

Lemma feed_inv_start p : feed_inv p -> feed_inv (start_feed p).
Proof.
  intros [Ht Ho Hc]. split; cbn [start_feed f_world f_pcs f_events]; [done|..].
  - rewrite length_app. eapply Forall_impl; [done|]. simpl. lia.
  - intros k pc [Hk|[Hk [Hk0 <-]%list_lookup_singleton_Some]]%lookup_app_Some; [eauto|].
    assert (k = length (f_pcs p)) as -> by lia. by rewrite events_by_fresh.
Qed.

Lemma feed_inv_received p k pc pc' chan :
  f_pcs p !! k = Some pc -> monitor_of pc' = monitor_of pc ->
  feed_inv p -> feed_inv (received k pc' chan p).
Proof.
  intros Hk Hm [Ht Ho Hc]. split; cbn [received f_world f_pcs f_events]; [done|..].
  - by rewrite length_insert.
  - intros j pcj. destruct (decide (j = k)) as [->|Hj].
    + rewrite list_lookup_insert_eq by by eapply lookup_lt_Some.
      intros [= <-]. rewrite Hm. eauto.
    + rewrite list_lookup_insert_ne by done. eauto.
Qed.

Lemma feed_inv_stepped p k pc pc' w' :
  f_pcs p !! k = Some pc -> gstep (pc, f_world p) (pc', w') ->
  feed_inv p -> feed_inv (stepped k pc' w' p).
Proof.
  intros Hk (ev & Hnew & Hev & Hm)%new_events_step [Ht Ho Hc]. unfold stepped.
  rewrite Hnew. split; cbn [f_world f_pcs f_events fmap list_fmap].
  - by rewrite Hev, Ht, fmap_app, app_assoc.
  - rewrite length_insert. apply Forall_app. split; [done|].
    repeat constructor. by eapply lookup_lt_Some.
  - intros j pcj. rewrite events_by_app, events_by_one, monitor_app.
    destruct (decide (j = k)) as [->|Hj].
    + rewrite list_lookup_insert_eq by by eapply lookup_lt_Some.
      intros [= <-]. rewrite (Hc _ _ Hk), decide_True by done. simpl. by rewrite Hm.
    + rewrite list_lookup_insert_ne, decide_False by done. intros Hpc.
      by rewrite (Hc _ _ Hpc).
Qed.

Lemma feed_inv_step p mv p' : feed_inv p -> fstep p mv p' -> feed_inv p'.
Proof.
  intros Hinv. destruct 1 as [| |p k pc pc' w' Hk Hs|p k fetcher Hk|p k fetcher wg rest Hk Hc].
  - by apply feed_inv_start.
  - by destruct Hinv.
  - by eapply feed_inv_stepped.
  - by eapply feed_inv_received.
  - by eapply feed_inv_received.
Qed.

Lemma feed_inv_steps p moves p' : feed_inv p -> fsteps p moves p' -> feed_inv p'.
Proof. intros Hinv. induction 1; eauto using feed_inv_step. Qed.

End invariant.

(** A trace whose sends are justified goroutine by goroutine is
    justified: a post fetched by a goroutine before one of its sends was
    fetched before that send. *)
Lemma justified_interleaved evs :
  (forall x, x ∈ evs -> justified [] (events_by x.1 evs) = true) ->
  justified [] (snd <$> evs) = true.
Proof.
  intros H. apply justified_spec. intros tr1 ch embed err tr2 Heq.
  apply fmap_app_inv in Heq as (evs1 & evs2' & -> & Heq2 & ->). symmetry in Heq2.
  apply fmap_cons_inv in Heq2 as ([j ev] & evs2 & Hev & -> & ->). simpl in Hev. subst ev.
  specialize (H (j, EvSend ch embed err) ltac:(set_solver)). cbn [fst] in H.
  change ((j, EvSend ch embed err) :: evs2) with ([(j, EvSend ch embed err)] ++ evs2) in H.
  rewrite !events_by_app, events_by_one, decide_True in H by done.
  destruct (proj1 (justified_spec _ _) H _ _ _ _ _ eq_refl) as (post & Hpost & ->).
  exists post. split; [|done]. simpl in *. by apply (fetched_of_events_by j).
Qed.

(** What is reached from a feed without goroutines. *)
Lemma feed_run_inv w moves p : feed_run moves (feed_init w) = Some p -> feed_inv w p.
Proof. intros Hrun%fsteps_feed_run. by eapply feed_inv_steps; [apply feed_inv_init|]. Qed.

(** ** The stop requests *)

(** From [p] to [p'] the calls of [StopFeed] with the wait groups [calls]
    were made: the goroutines are at program points of the code; the wait
    groups received since are the callers blocked in [p] and the new calls,
    up to the callers blocked in [p'], and they are the wait groups
    acknowledged or held since; a goroutine has returned for each
    acknowledgement. *)
Definition accounted (p p' : Feed E F) (calls : list WaitGroup) : Prop :=
  Forall (fun pc => proper pc = true) (f_pcs p') /\
  (exists r, r ++ f_chan p' = f_chan p ++ calls /\
     acks p' ++ held (f_pcs p') ≡ₚ (acks p ++ held (f_pcs p)) ++ r) /\
  (returned_count (f_pcs p') + length (acks p) =
   returned_count (f_pcs p) + length (acks p'))%nat.

Lemma accounted_refl p :
  Forall (fun pc => proper pc = true) (f_pcs p) -> accounted p p [].
Proof. intros Hp. split_and!; [done| |done]. exists []. by rewrite !app_nil_r. Qed.

Lemma accounted_trans p p1 p2 calls1 calls2 :
  accounted p p1 calls1 -> accounted p1 p2 calls2 -> accounted p p2 (calls1 ++ calls2).
Proof.
  intros (_ & (r1 & Hr1 & Hp1) & Hc1) (Hp & (r2 & Hr2 & Hp2) & Hc2).
  split_and!; [done| |lia]. exists (r1 ++ r2). split.
  - by rewrite <- app_assoc, Hr2, !app_assoc, Hr1.
  - by rewrite Hp2, Hp1, <- !app_assoc.
Qed.

(** The goroutine [k] moves from [pc] to [pc']: it acknowledges [d] and
    receives [r]. *)
Lemma moved_accounted p k pc pc' w' chan' evs' r d :
  Forall (fun pc => proper pc = true) (f_pcs p) -> f_pcs p !! k = Some pc ->
  proper pc' = true -> returned pc = false ->
  r ++ chan' = f_chan p -> dones_of (snd <$> evs') = acks p ++ d ->
  d ++ option_list (holds pc') = option_list (holds pc) ++ r ->
  length d = (if returned pc' then 1 else 0)%nat ->
  accounted p (mkFeed w' (<[k := pc']> (f_pcs p)) chan' evs') [].
Proof.
  intros Hps Hk Hpc' Hret Hr Hd Hh Hn.
  set (p' := mkFeed _ _ _ _). assert (acks p' = acks p ++ d) as Ha by done.
  split_and!; rewrite ?Ha; cbn [p' f_pcs f_chan].
  - by apply Forall_insert.
  - exists r. split; [by rewrite app_nil_r|].
    apply (Permutation_app_inv_r (option_list (holds pc))).
    rewrite <- !app_assoc, (omap_insert_perm holds _ _ _ pc' Hk : held _ ++ _ ≡ₚ _).
    fold (held (f_pcs p)). f_equiv. rewrite (comm (++) r), <- Hh.
    by rewrite !app_assoc, (comm (++) d).
  - pose proof (length_filter_insert (fun pc => returned pc = true) _ _ _ pc' Hk) as Hl.
    rewrite decide_False in Hl by (by rewrite Hret). unfold returned_count.
    rewrite length_app, Hn. destruct (returned pc'); simpl in Hl; lia.
Qed.

Lemma fstep_accounted p mv p' :
  Forall (fun pc => proper pc = true) (f_pcs p) -> fstep p mv p' ->
  accounted p p' (stop_calls [mv]).
Proof.
  intros Hps. destruct 1 as [| |p k pc pc' w' Hk Hs|p k fetcher Hk|p k fetcher wg rest Hk Hc].
  - split_and!; change (acks (start_feed p)) with (acks p);
      cbn [start_feed f_pcs f_chan stop_calls omap].
    + apply Forall_app. split; [done|by repeat constructor].
    + exists []. unfold held. by rewrite omap_app, !app_nil_r.
    + unfold returned_count. rewrite filter_app, length_app, filter_cons_False by done.
      rewrite filter_nil. simpl. lia.
  - split_and!; [done| |done]. exists []. by rewrite !app_nil_r.
  - pose proof (proj1 (Forall_lookup _ _) Hps _ _ Hk) as Hpc. cbv beta in Hpc.
    destruct (gstep_accounts _ _ _ _ Hpc Hs) as (Hpc' & Hret & ev & Hev & Hd & Hh & Hr).
    apply (moved_accounted p k pc pc' _ _ _ [] (option_list (holds pc))); try done.
    + unfold new_events. rewrite Hev, drop_app_length, fmap_app, dones_of_app.
      by rewrite <- Hd.
    + by rewrite Hh, !app_nil_r.
    + rewrite Hr. by destruct (holds pc).
  - apply (moved_accounted p k (PcSelect fetcher) _ _ _ _ [] []); try done.
    by rewrite app_nil_r.
  - apply (moved_accounted p k (PcSelect fetcher) _ _ _ _ [wg] []); try done.
    by rewrite app_nil_r.
Qed.

Lemma fsteps_accounted p moves p' :
  Forall (fun pc => proper pc = true) (f_pcs p) -> fsteps p moves p' ->
  accounted p p' (stop_calls moves).
Proof.
  intros Hps. induction 1 as [p|p mv p1 moves p2 Hstep _ IH]; [by apply accounted_refl|].
  pose proof (fstep_accounted _ _ _ Hps Hstep) as H1.
  change (mv :: moves) with ([mv] ++ moves). unfold stop_calls. rewrite omap_app.
  apply (accounted_trans _ _ _ _ _ H1), IH, H1.
Qed.

(** [Done] is called at most as often on a wait group as the wait group
    was passed to [StopFeed]. *)
Lemma acks_submseteq w moves (p : Feed E F) :
  feed_run moves (feed_init w) = Some p -> acks p ⊆+ stop_calls moves.
Proof.
  intros Hrun%fsteps_feed_run.
  destruct (fsteps_accounted (feed_init w) moves p) as (_ & (r & Hr & Hp) & _);
    [by constructor|done|].
  cbn in Hr, Hp. rewrite <- Hr, <- Hp. by do 2 apply submseteq_inserts_r.
Qed.

(** ** The steps of [Plugin] are moves of the feed *)

(** Steps of the goroutine [k] are moves of the feed. *)
Lemma goroutine_moves k (c c' : Pc F * World E) pcs chan evs :
  rtc gstep c c' -> pcs !! k = Some c.1 ->
  exists n evs',
    fsteps (mkFeed c.2 pcs chan evs) (replicate n (MvStep k))
      (mkFeed c'.2 (<[k := c'.1]> pcs) chan evs').
Proof.
  intros Hsteps. revert pcs evs.
  induction Hsteps as [[pc w]|[pc w] [pc1 w1] c' Hstep _ IH]; intros pcs evs Hk.
  - exists 0%nat, evs. rewrite list_insert_id by done. constructor.
  - destruct (IH (<[k := pc1]> pcs) (evs ++ (pair k <$> new_events w w1))) as (n & evs' & Hn).
    { apply list_lookup_insert_eq. by eapply lookup_lt_Some. }
    exists (S n), evs'. rewrite list_insert_insert_eq in Hn.
    econstructor; [|apply Hn]. by apply (fstep_step (mkFeed w pcs chan evs) k pc).
Qed.

Lemma pc_of_bot_of (s : LoopState E F) : pc_of_bot (bot_of s) = pc_of s.
Proof. by destruct s. Qed.

Lemma feed_of_move k (s : LoopState E F) chan (p : Plugin E F) evs :
  feed_of (move k s chan p) evs =
    mkFeed (world_of s) (<[k := pc_of s]> (pc_of_bot <$> p_bots p)) chan evs.
Proof. unfold feed_of, move. cbn. by rewrite list_fmap_insert, pc_of_bot_of. Qed.

(** The goroutine [k] receives, then runs to the state [s] of its loop. *)
Lemma received_moves (p : Plugin E F) evs k fetcher mv pc chan s :
  p_bots p !! k = Some (BotRunning fetcher) ->
  fstep (feed_of p evs) mv (received k pc chan (feed_of p evs)) ->
  rtc gstep (pc, p_world p) (pc_of s, world_of s) ->
  exists moves evs', fsteps (feed_of p evs) moves (feed_of (move k s chan p) evs').
Proof.
  intros Hk Hrecv Hsteps.
  destruct (goroutine_moves k _ _ (<[k := pc]> (pc_of_bot <$> p_bots p)) chan evs Hsteps)
    as (n & evs' & Hn).
  { apply list_lookup_insert_eq. rewrite length_fmap. by eapply lookup_lt_Some. }
  exists (mv :: replicate n (MvStep k)), evs'. rewrite feed_of_move.
  rewrite list_insert_insert_eq in Hn. by econstructor.
Qed.

Lemma pstep_moves (p : Plugin E F) a p' evs :
  pstep p a p' -> exists moves evs', fsteps (feed_of p evs) moves (feed_of p' evs').
Proof.
  destruct 1 as [p|p wg|p k Hk|p k fetcher Hk|p k fetcher wg rest Hk Hc].
  - exists [MvStartFeed], evs. econstructor; [|constructor].
    unfold feed_of, StartFeed. cbn. rewrite fmap_app. constructor.
  - exists [MvStopFeed wg], evs. econstructor; [|constructor]. constructor.
  - destruct (goroutine_moves k _ _ (pc_of_bot <$> p_bots p) (stopFeedChan p) evs
                (runBot_steps (p_world p))) as (n & evs' & Hn);
      [by rewrite list_lookup_fmap, Hk|].
    exists (replicate n (MvStep k)), evs'. by rewrite feed_of_move.
  - eapply received_moves; [done|..].
    + apply (fstep_tick (feed_of p evs) k fetcher). cbn [feed_of f_pcs].
      by rewrite list_lookup_fmap, Hk.
    + pose proof (tick_steps fetcher (p_world p)) as Hsteps. cbn [runBot_loop].
      by destruct (tick fetcher (p_world p)).
  - eapply received_moves; [done|..].
    + apply (fstep_recv (feed_of p evs) k fetcher wg rest); [|done].
      cbn [feed_of f_pcs]. by rewrite list_lookup_fmap, Hk.
    + eapply rtc_l; [apply gstep_done|]. apply rtc_refl.
Qed.

(** A goroutine in the loop can be run to its [select]. *)
Lemma select_moves (p : Feed E F) k pc :
  f_pcs p !! k = Some pc -> in_loop pc = true ->
  exists n fetcher w' evs',
    fsteps p (replicate n (MvStep k))
      (mkFeed w' (<[k := PcSelect fetcher]> (f_pcs p)) (f_chan p) evs').
Proof.
  intros Hk Hpc. destruct (select_reached pc (f_world p) Hpc) as (fetcher & w' & Hsteps).
  destruct (goroutine_moves k _ _ (f_pcs p) (f_chan p) (f_events p) Hsteps Hk)
    as (n & evs' & Hn).
  exists n, fetcher, w', evs'. by destruct p.
Qed.

Lemma psteps_moves (p : Plugin E F) actions p' evs :
  psteps p actions p' -> exists moves evs', fsteps (feed_of p evs) moves (feed_of p' evs').
Proof.
  intros Hsteps. revert evs.
  induction Hsteps as [p|p a p1 actions p2 Hstep _ IH]; intros evs.
  - exists [], evs. constructor.
  - destruct (pstep_moves _ _ _ evs Hstep) as (moves1 & evs1 & H1).
    destruct (IH evs1) as (moves2 & evs2 & H2).
    exists (moves1 ++ moves2), evs2. by eapply fsteps_app.
Qed.

End feed.

(** ** The properties of the interleaved feed *)

Section feed_properties.
Context {E F : Type} {Ev : Environ} {Cm : Common} {Rl : RedditLib}
  {St : GoStrings} {Rd : Redis E} {Dc : Discord E} {Rp : RedisPool E}
  {Ft : Fetcher E F}.

(** Claim C17.  However the goroutines of the feed are interleaved with each
    other and with the calls of [StartFeed] and [StopFeed], the events of
    each goroutine follow the protocol of [runBot]: the monitor accepts
    them and is left at the program point of the goroutine.  In
    particular a goroutine acknowledges a stop request only between two
    iterations of its loop, after the deliveries of the posts it fetched. *)
Theorem feed_conforms (w : World E) (moves : list Move) (p : Feed E F) (k : nat)
    (pc : Pc F) :
  feed_run moves (feed_init w) = Some p -> f_pcs p !! k = Some pc ->
  monitor monitor_init (events_by k (f_events p)) = Some (monitor_of pc) /\
  w_trace (f_world p) = w_trace w ++ (snd <$> f_events p).
Proof. intros [Ht _ Hc]%feed_run_inv Hk. eauto. Qed.

(** Claim C19.  In every interleaving, each send of the trace carries the
    embed of a post that a call of the fetcher returned earlier in the
    trace: no goroutine sends what was not fetched. *)
Theorem feed_sends_fetched (w : World E) (moves : list Move) (p : Feed E F) :
  feed_run moves (feed_init w) = Some p ->
  justified [] (snd <$> f_events p) = true /\
  w_trace (f_world p) = w_trace w ++ (snd <$> f_events p).
Proof.
  intros [Ht Ho Hc]%feed_run_inv. split; [|done].
  apply justified_interleaved. intros [j ev] Hx. cbn [fst].
  rewrite Forall_forall in Ho. apply Ho, lookup_lt_is_Some in Hx as [pc Hpc].
  by eapply monitor_sound; [|apply (Hc _ _ Hpc)].
Qed.

(** Claim C20.  The feed simulates the plugin of [Plugin]: a schedule in
    which each goroutine runs an iteration of its loop in one step is a
    schedule of the feed, which reaches the same world, the goroutines at
    the program points of their states and the same blocked callers.  The
    properties of every interleaving are properties of that plugin. *)
Theorem feed_simulates_plugin (p p' : Plugin E F) (actions : list Action)
    (evs : list (nat * Event)) :
  plugin_run actions p = Some p' ->
  exists moves evs', feed_run moves (feed_of p evs) = Some (feed_of p' evs').
Proof.
  intros Hrun%psteps_plugin_run.
  destruct (psteps_moves _ _ _ evs Hrun) as (moves & evs' & Hmoves).
  exists moves, evs'. by apply fsteps_feed_run.
Qed.

(** Claim C21.  Every stop request is accounted for, however the goroutines
    are interleaved.  The wait groups passed to [StopFeed] are received in
    the order of the calls, and those not received yet are the callers
    still blocked; each wait group received is held by the goroutine that
    received it or has been acknowledged by one call of [Done], and these
    are the calls of [Done] of the trace; as many goroutines have returned
    as there are acknowledgements.  So [Done] is never called on a wait
    group that was not passed to [StopFeed], nor more often than it was
    passed, and each acknowledgement stops one goroutine.  The
    acknowledgements need not come in the order of the calls
    ([stop_acks_out_of_order]). *)
Theorem stop_requests_accounted (w : World E) (moves : list Move) (p : Feed E F) :
  feed_run moves (feed_init w) = Some p ->
  exists recvd,
    stop_calls moves = recvd ++ f_chan p /\
    recvd ≡ₚ acks p ++ held (f_pcs p) /\
    dones_of (w_trace (f_world p)) = dones_of (w_trace w) ++ acks p /\
    returned_count (f_pcs p) = length (acks p).
Proof.
  intros Hrun. destruct (feed_run_inv _ _ _ Hrun) as [Ht _ _].
  apply fsteps_feed_run in Hrun.
  destruct (fsteps_accounted (feed_init w) moves p) as (_ & (r & Hr & Hp) & Hc);
    [by constructor|done|].
  exists r. split_and!; [done|done|by rewrite Ht, dones_of_app|simpl in Hc; lia].
Qed.

(** Claim C23.  A caller blocked in [StopFeed] can always be served: a
    goroutine that is in the loop of [runBot], wherever it is in its
    iteration and whatever the collaborators answer, comes back to its
    [select] by its own steps, receives the oldest wait group, calls [Done]
    on it and returns. *)
Theorem stop_can_be_served (p : Feed E F) (k : nat) (pc : Pc F) (wg : WaitGroup)
    (rest : list WaitGroup) :
  f_pcs p !! k = Some pc -> in_loop pc = true -> f_chan p = wg :: rest ->
  exists n p',
    feed_run (replicate n (MvStep k) ++ [MvRecv k; MvStep k]) p = Some p' /\
    f_pcs p' !! k = Some PcReturned /\ f_chan p' = rest /\
    last (f_events p') = Some (k, EvDone wg).
Proof.
  intros Hk Hpc Hchan.
  destruct (select_moves p k pc Hk Hpc) as (n & fetcher & w' & evs' & Hn).
  pose proof (lookup_lt_Some _ _ _ Hk) as Hlt.
  set (p1 := mkFeed w' (<[k := PcSelect fetcher]> (f_pcs p)) (f_chan p) evs') in *.
  set (p2 := received k (PcDone wg) rest p1).
  exists n, (stepped k PcReturned (Done wg (f_world p2)).2 p2). split_and!.
  - apply fsteps_feed_run. eapply fsteps_app; [apply Hn|].
    econstructor; [apply (fstep_recv p1 k fetcher wg rest)|econstructor; [|constructor]].
    + by apply list_lookup_insert_eq.
    + done.
    + apply (fstep_step p2 k (PcDone wg)); [|apply gstep_done].
      cbn [p2 p1 received f_pcs]. apply list_lookup_insert_eq. by rewrite length_insert.
  - cbn [stepped p2 p1 received f_pcs]. apply list_lookup_insert_eq.
    by rewrite !length_insert.
  - done.
  - unfold stepped, new_events. cbn [f_events f_world p2 received Done emit snd w_trace].
    rewrite drop_app_length. cbn [fmap list_fmap]. apply last_snoc.
Qed.

End feed_properties.

(** ** The feed at work *)

Import Sim.

(** Two goroutines on the simulated environment.  The first is started,
    reaches its [select] and receives a tick while the second starts; a
    caller of [StopFeed] arrives while the first goroutine is in
    [handlePost], before its sends. *)
Definition sim_moves : list Move :=
  [MvStartFeed; MvStep 0; MvStep 0; MvStartFeed; MvStep 0; MvStep 0; MvTick 0;
   MvStep 1; MvStep 0; MvStep 0; MvStopFeed 7; MvStep 1; MvStep 0].

Definition sim_feed : Feed Env (list string) :=
  Eval vm_compute in
    default (feed_init (mkWorld feed_env []))
      (feed_run sim_moves (feed_init (mkWorld feed_env []))).

Lemma feed_conforms_witness :
  monitor monitor_init (events_by 0 (f_events sim_feed)) =
    Some (monitor_of (default PcStart (f_pcs sim_feed !! 0%nat))) /\
  w_trace (f_world sim_feed) = w_trace (mkWorld feed_env []) ++ (snd <$> f_events sim_feed).
Proof.
  apply (feed_conforms (mkWorld feed_env []) sim_moves sim_feed 0%nat); by vm_compute.
Defined.

Lemma feed_sends_fetched_witness :
  justified [] (snd <$> f_events sim_feed) = true /\
  w_trace (f_world sim_feed) = w_trace (mkWorld feed_env []) ++ (snd <$> f_events sim_feed).
Proof.
  apply (feed_sends_fetched (mkWorld feed_env []) sim_moves sim_feed). by vm_compute.
Defined.

(** The caller of [StopFeed] waits for the iteration in progress: the
    goroutine cannot receive the wait group before its two sends are made,
    then receives it, calls [Done] and returns, while the second goroutine
    is still starting. *)
Example stop_waits_for_the_sends :
  feed_step (MvRecv 0) sim_feed = None /\
  feed_run [MvStep 0; MvRecv 0] sim_feed = None /\
  (fun p => (at_select <$> f_pcs p, f_chan p, sends_of (w_trace (f_world p)))) <$>
    feed_run [MvStep 0; MvStep 0; MvStep 0] sim_feed =
    Some ([true; false], [7],
          [("c1", buildEmbed link_post); ("g2", buildEmbed link_post)]) /\
  (fun p => (ended <$> f_pcs p, f_chan p, dones_of (w_trace (f_world p)))) <$>
    feed_run [MvStep 0; MvStep 0; MvStep 0; MvRecv 0; MvStep 0] sim_feed =
    Some ([true; false], [], [7]).
Proof. by vm_compute. Qed.

(** Two goroutines in their [select] and two callers of [StopFeed]: each
    goroutine receives a wait group, the first goroutine the first one, and
    the second goroutine is the first to call [Done]. *)
Definition two_stops : list Move :=
  [MvStartFeed; MvStartFeed] ++ replicate 4 (MvStep 0) ++ replicate 4 (MvStep 1) ++
  [MvStopFeed 1; MvStopFeed 2; MvRecv 0; MvRecv 1; MvStep 1; MvStep 0].

Definition two_stops_feed : Feed Env (list string) :=
  Eval vm_compute in
    default (feed_init (mkWorld feed_env []))
      (feed_run two_stops (feed_init (mkWorld feed_env []))).

Lemma stop_requests_accounted_witness :
  exists recvd,
    stop_calls two_stops = recvd ++ f_chan two_stops_feed /\
    recvd ≡ₚ acks two_stops_feed ++ held (f_pcs two_stops_feed) /\
    dones_of (w_trace (f_world two_stops_feed)) =
      dones_of (w_trace (mkWorld feed_env [])) ++ acks two_stops_feed /\
    returned_count (f_pcs two_stops_feed) = length (acks two_stops_feed).
Proof.
  apply (stop_requests_accounted (mkWorld feed_env []) two_stops two_stops_feed).
  by vm_compute.
Defined.

(** The acknowledgements are not in the order of the calls of [StopFeed]:
    between the receive of a goroutine and its [Done] another goroutine
    may receive and acknowledge.  Before the two calls of [Done] both
    wait groups are held and no caller is blocked any more. *)
Example stop_acks_out_of_order :
  stop_calls two_stops = [1; 2] /\ acks two_stops_feed = [2; 1] /\
  f_pcs two_stops_feed = [PcReturned; PcReturned] /\
  (fun p => (held (f_pcs p), f_chan p, acks p)) <$>
    feed_run (take 14 two_stops) (feed_init (mkWorld feed_env [])) =
    Some ([1; 2], [], []).
Proof. by vm_compute. Qed.

(** The schedule of [Plugin] in which the goroutine serves a tick in one
    step, as moves of the feed. *)
Lemma feed_simulates_plugin_witness :
  exists moves evs',
    feed_run moves (feed_of (plugin_init (mkWorld feed_env [])) []) =
      Some (feed_of (mkPlugin
              (world_of (runBot (F := list string) [SigTick] (mkWorld feed_env [])))
              [bot_of (runBot (F := list string) [SigTick] (mkWorld feed_env []))] [])
            evs').
Proof.
  apply (feed_simulates_plugin (F := list string) (plugin_init (mkWorld feed_env [])) _
           [ActStartFeed; ActRun 0; ActTick 0] []).
  by vm_compute.
Defined.

(** The first goroutine of [sim_feed] is about to send: three steps bring
    it to its [select], where it serves the caller of [StopFeed]. *)
Lemma stop_can_be_served_witness :
  exists n p',
    feed_run (replicate n (MvStep 0) ++ [MvRecv 0; MvStep 0]) sim_feed = Some p' /\
    f_pcs p' !! 0%nat = Some PcReturned /\ f_chan p' = [] /\
    last (f_events p') = Some (0%nat, EvDone 7).
Proof.
  apply (stop_can_be_served sim_feed 0 (default PcStart (f_pcs sim_feed !! 0%nat)) 7 []);
    by vm_compute.
Defined.

