(* ===== verification/PostFetcher.v ===== *)
(** * The post fetcher: which posts are new

    [NewPostFetcher] and [GetNewPosts] are called by [runBot] and defined in
    another file of the package, which is not part of [src/].  Nothing of
    this file is translated from code: it is written from the
    specification of the repository (section 4.1, the delta engine
    [computeNewItems], and section 6, persistence).  A post of the listing
    is new when its id is not among the last seen ids; the new posts are
    returned newest first; the last seen ids are the new ids merged into
    the old ones, newest first, cut to the size of the window, and stored.

    Where the specification leaves a choice, the file makes one and says
    so:
    - the order of ids is the one the code has, [before_id], which is what
      [Less] of [RedditIdSlice] computes; the specification wants an id
      that does not parse to be older than every id that parses, which
      [Less] does not do ([RedditIdSlice.Less_overflow_id_first]);
    - the last seen ids are always merged, put in order and cut, also when
      the snapshot is empty; they are returned unchanged, as the
      specification asks for an empty snapshot, when they were a window
      already ([computeNewItems_nothing_new], [empty_snapshot_normalises]);
    - [poll] returns the new items together with the error of the store
      when the write fails, the fetcher keeping the updated ids; the
      specification does not say what a failed write does
      ([poll_store_error]);
    - [updateLastSeen] is not in the specification: it is the window of
      [computeNewItems] written as a program over [sort.Sort] and the
      methods of [RedditIdSlice], which are code, and
      [updateLastSeen_refines] relates the two.

    [PostFetcher_Fetcher] makes this fetcher an instance of the class
    [Fetcher] that [runBot] is written against, so that the theorems on the
    loop apply to it.  The section [delivery] does so for a run of the
    loop ([runBot_delivers_once]) and the section [restart] for two calls
    of [runBot], the second started from what the first has stored
    ([restart_no_redelivery]).  Both are theorems about environments that
    behave: what they assume is said in the sections, [Persistent] is the
    contract of the store, and [Sim] is an environment that keeps it. *)

From Stdlib Require Import ZArith Lia.
From stdpp Require Import base tactics option list strings sorting.
From S2P Require Import Prelude Strconv Sort HeapSort QuickSort RedditIdSlice.
From S2P Require Import Collaborators HandlePost RunBot.

#[local] Open Scope Z_scope.

(** ** The delta engine *)

(** An item is new iff its id is not a member of the last seen ids. *)
Definition is_new (lastSeen : list string) (item : Link) : Prop :=
  link_ID item ∉ lastSeen.

#[export] Instance is_new_dec lastSeen item : Decision (is_new lastSeen item).
Proof. unfold is_new. apply _. Defined.

(** The order of the new items: by decoded id, as [Less] compares ids. *)
Definition item_before (a b : Link) : bool :=
  before_id (link_ID a) (link_ID b).

(** [computeNewItems(snapshot, lastSeen)] for a window of [N] ids. *)
Definition computeNewItems (N : nat) (snapshot : list Link) (lastSeen : list string)
  : list Link * list string :=
  let newItems := sort.isort item_before (filter (is_new lastSeen) snapshot) in
  let merged := sort.isort before_id ((link_ID <$> newItems) ++ lastSeen) in
  (newItems, take N merged).

(** The update of the last seen ids as a program: the new ids put before
    the old ones, the slice sorted by [sort.Sort] through the methods of
    [RedditIdSlice], and cut to the window.  The result carries the lines
    that [Less] logged. *)
Definition updateLastSeen (N : nat) (newIds lastSeen : list string)
  : option (list string * list LogEntry) :=
  r ← sort.Sort ((newIds ++ lastSeen) : RedditIdSlice);
  Some (take N r.1.2, r.2).

(** ** The fetcher as [runBot] sees it *)

(** The listing of the source, and the store of the last seen ids. *)
Class Listing (E : Type) : Type := {
  fetchLatest : E -> (list Link * option error) * E;
  SetRedisJson_call : string -> list string -> E -> option error * E
}.

(** The persistence contract of the specification (section 6), as the
    environments of [Holds ids]: redis is reachable, answers the look-ups
    of subscriptions from [cfg], keeps under the key of the last seen ids
    the ids last written and returns them; the calls that do not write
    leave them; the listings of reddit have no id twice. *)
Class Persistent {E : Type} {Rd : Redis E} {Dc : Discord E} {Rp : RedisPool E}
    {Li : Listing E} (cfg : string -> list SubredditWatchItem)
    (Holds : list string -> E -> Prop) : Prop := {
  holds_config ids key e : Holds ids e ->
    (GetConfig_call key e).1 = (cfg key, None) /\ Holds ids (GetConfig_call key e).2;
  holds_send ids channel embed e : Holds ids e ->
    Holds ids (ChannelMessageSendEmbed_call channel embed e).2;
  holds_fetch ids e : Holds ids e ->
    NoDup (link_ID <$> (fetchLatest e).1.1) /\ Holds ids (fetchLatest e).2;
  holds_store ids ids' e : Holds ids e ->
    (SetRedisJson_call "reddit_last_links" ids' e).1 = None /\
    Holds ids' (SetRedisJson_call "reddit_last_links" ids' e).2;
  holds_pool ids e : Holds ids e ->
    (RedisPool_Get e).1 = None /\ Holds ids (RedisPool_Get e).2;
  holds_load ids e : Holds ids e ->
    (GetRedisJson_call "reddit_last_links" e).1 = (ids, None) /\
    Holds ids (GetRedisJson_call "reddit_last_links" e).2
}.

(** The state of a fetcher: its window and the last seen ids. *)
Record PostFetcher : Type := mkPostFetcher {
  pf_window : nat;
  pf_lastSeen : list string
}.

(** One poll: fetch the listing, compute the new items, store the updated
    ids.  A failed fetch leaves the fetcher as it is; the error of the store
    is the error of the poll. *)
Definition poll {E} {Li : Listing E} (f : PostFetcher) (e : E)
  : (list Link * option error) * PostFetcher * E :=
  let '((snapshot, err), e1) := fetchLatest e in
  match err with
  | Some err => (([], Some err), f, e1)
  | None =>
    let '(newItems, updated) := computeNewItems (pf_window f) snapshot (pf_lastSeen f) in
    let '(err', e2) := SetRedisJson_call "reddit_last_links" updated e1 in
    ((newItems, err'), mkPostFetcher (pf_window f) updated, e2)
  end.

(** The fetcher of [runBot], for a window of [N] ids. *)
Definition PostFetcher_Fetcher {E} {Li : Listing E} (N : nat) : Fetcher E PostFetcher := {|
  NewPostFetcher_call _ lastIds := mkPostFetcher N lastIds;
  GetNewPosts_call := poll
|}.

(** ** Lemmas *)

Lemma computeNewItems_fst N snapshot lastSeen :
  (computeNewItems N snapshot lastSeen).1 =
    sort.isort item_before (filter (is_new lastSeen) snapshot).
Proof. done. Qed.

Lemma computeNewItems_snd N snapshot lastSeen :
  (computeNewItems N snapshot lastSeen).2 =
    take N (sort.isort before_id
              ((link_ID <$> (computeNewItems N snapshot lastSeen).1) ++ lastSeen)).
Proof. done. Qed.

Lemma computeNewItems_perm N snapshot lastSeen :
  (computeNewItems N snapshot lastSeen).1 ≡ₚ filter (is_new lastSeen) snapshot.
Proof. rewrite computeNewItems_fst. apply sort.isort_perm. Qed.

Lemma isort_nil {K} (before : K -> K -> bool) : sort.isort before [] = [].
Proof. done. Qed.

Lemma filter_is_new_nil lastSeen snapshot :
  filter (is_new lastSeen) snapshot = [] <-> Forall (fun it => link_ID it ∈ lastSeen) snapshot.
Proof.
  induction snapshot as [|it snapshot IH]; [by split; [constructor|]|].
  rewrite filter_cons, Forall_cons. unfold is_new at 1. case_decide as Hn.
  - split; [done|]. by intros [? _].
  - rewrite IH. tauto.
Qed.

Lemma take_sorted {A} (R : relation A) n l :
  StronglySorted R l -> StronglySorted R (take n l).
Proof.
  intros H. rewrite <- (take_drop n l) in H. by apply StronglySorted_app_1_l in H.
Qed.

Lemma computeNewItems_window_bounds N snapshot lastSeen :
  (length (computeNewItems N snapshot lastSeen).2 <= N)%nat /\
  ((length (computeNewItems N snapshot lastSeen).1 + length lastSeen <= N)%nat ->
   forall x, x ∈ (computeNewItems N snapshot lastSeen).2 <->
             x ∈ (link_ID <$> (computeNewItems N snapshot lastSeen).1) ++ lastSeen).
Proof.
  rewrite computeNewItems_snd. set (merged := (link_ID <$> _) ++ lastSeen).
  pose proof (sort.isort_perm before_id merged) as Hp. split.
  - rewrite length_take. lia.
  - intros Hlen x. rewrite take_ge; [by rewrite Hp|].
    rewrite Hp. unfold merged. rewrite length_app, length_fmap. lia.
Qed.

(** ** The properties of the delta engine *)

(** Claim C35.  The updated last seen ids are the [N] newest of the new ids
    and the old ones: with the ids that were dropped after them they are
    the merged ids in descending order of their decoded numbers, so no id
    that was dropped is newer than an id that was kept, and ids are dropped
    only when the window is full. *)
Theorem computeNewItems_keeps_newest N snapshot lastSeen :
  let r := computeNewItems N snapshot lastSeen in
  exists dropped,
    r.2 ++ dropped ≡ₚ (link_ID <$> r.1) ++ lastSeen /\
    StronglySorted (fun x y => decode y <= decode x) (r.2 ++ dropped) /\
    length r.2 = (N `min` length ((link_ID <$> r.1) ++ lastSeen))%nat.
Proof.
  intros r. unfold r. rewrite computeNewItems_snd.
  set (merged := (link_ID <$> _) ++ lastSeen).
  exists (drop N (sort.isort before_id merged)). rewrite take_drop. split_and!.
  - apply sort.isort_perm.
  - apply sorted_before_id, sort.isort_sorted, before_id_strict_weak.
  - by rewrite length_take, sort.isort_perm.
Qed.

(** Claim C36.  A snapshot without a new item changes nothing, given that
    the last seen ids are a window: when every id of the snapshot, if it
    has any, is among the last seen ids, and these are in descending order
    of their decoded numbers and not more than [N], no item is new and the
    last seen ids are returned as they are. *)
Theorem computeNewItems_nothing_new N snapshot lastSeen :
  Forall (fun it => link_ID it ∈ lastSeen) snapshot ->
  StronglySorted (fun x y => decode y <= decode x) lastSeen ->
  (length lastSeen <= N)%nat ->
  computeNewItems N snapshot lastSeen = ([], lastSeen).
Proof.
  intros Hseen%filter_is_new_nil Hs%sorted_before_id Hlen. unfold computeNewItems.
  rewrite Hseen, isort_nil. cbn [fmap list_fmap app].
  by rewrite sort.isort_sorted_id, take_ge.
Qed.

(** Claim C14.  The window of [computeNewItems] is what the program
    computes with the sort of the library and the methods of
    [RedditIdSlice]: [updateLastSeen] returns, without a panic, at most [N]
    ids in descending order of their decoded numbers, which have the keys
    of the updated last seen ids of [computeNewItems] cell by cell, and are
    these ids when no two ids decode to the same number. *)
Theorem updateLastSeen_refines N snapshot lastSeen :
  let r := computeNewItems N snapshot lastSeen in
  Len ((link_ID <$> r.1) ++ lastSeen) <= maxInt64 ->
  exists ids logs,
    updateLastSeen N (link_ID <$> r.1) lastSeen = Some (ids, logs) /\
    (length ids <= N)%nat /\
    StronglySorted (fun x y => decode y <= decode x) ids /\
    same_keys ids r.2 /\
    (NoDup (decode <$> (link_ID <$> r.1) ++ lastSeen) -> ids = r.2).
Proof.
  intros r Hmax. unfold updateLastSeen. set (merged := (link_ID <$> r.1) ++ lastSeen) in *.
  destruct (sort_ids_sorted merged Hmax) as (ids & logs & -> & Hp & Hs & Hiso).
  exists (take N ids), logs. split_and!; [done| |by apply take_sorted| |].
  - rewrite length_take. lia.
  - unfold r. rewrite computeNewItems_snd. apply Forall2_take, sorted_same_keys;
      [by rewrite sort.isort_perm|done|].
    apply sorted_before_id, sort.isort_sorted, before_id_strict_weak.
  - intros Hnd. unfold r. by rewrite computeNewItems_snd, (Hiso Hnd).
Qed.

(** Claim C34.  When the window holds the new ids and the old ones, the
    same snapshot gives no new item against the updated ids: nothing is
    delivered again. *)
Theorem computeNewItems_idempotent N snapshot lastSeen :
  (length (filter (is_new lastSeen) snapshot) + length lastSeen <= N)%nat ->
  (computeNewItems N snapshot (computeNewItems N snapshot lastSeen).2).1 = [].
Proof.
  intros Hlen. pose proof (computeNewItems_perm N snapshot lastSeen) as Hp.
  destruct (computeNewItems_window_bounds N snapshot lastSeen) as [_ Hall].
  rewrite computeNewItems_fst.
  replace (filter _ snapshot) with (@nil Link); [done|]. symmetry.
  apply filter_is_new_nil, Forall_forall. intros item Hin.
  rewrite Hall by (by rewrite Hp). apply elem_of_app.
  destruct (decide (is_new lastSeen item)) as [Hn|Hn].
  - left. apply list_elem_of_fmap. exists item. split; [done|].
    rewrite Hp. by apply list_elem_of_filter.
  - right. by apply dec_stable in Hn.
Qed.

(** A poll whose fetch fails returns the error and no item,
    stores nothing and leaves the fetcher as it was: the next poll starts
    from the same last seen ids. *)
Theorem poll_fetch_error {E} {Li : Listing E} (f : PostFetcher) (e e1 : E)
    (snapshot : list Link) (err : error) :
  fetchLatest e = ((snapshot, Some err), e1) ->
  poll f e = (([], Some err), f, e1).
Proof. intros Hf. unfold poll. by rewrite Hf. Qed.

(** ** The loop with this fetcher: every post is delivered once *)

(** The environments of [Inv]: the subscriptions are stable, a listing has
    no id twice and the store accepts the ids. *)
Section delivery.
Context {E : Type} {Cm : Common} {St : GoStrings} {Rd : Redis E} {Dc : Discord E}
  {Li : Listing E}.
Variable N : nat.
Variable Inv : E -> Prop.
Variable cfg : string -> list SubredditWatchItem.
Hypothesis Inv_config : forall key e, Inv e ->
  (GetConfig_call key e).1 = (cfg key, None) /\ Inv (GetConfig_call key e).2.
Hypothesis Inv_send : forall channel embed e, Inv e ->
  Inv (ChannelMessageSendEmbed_call channel embed e).2.
Hypothesis Inv_fetch : forall e, Inv e ->
  NoDup (link_ID <$> (fetchLatest e).1.1) /\ Inv (fetchLatest e).2.
Hypothesis Inv_store : forall ids e, Inv e ->
  (SetRedisJson_call "reddit_last_links" ids e).1 = None /\
  Inv (SetRedisJson_call "reddit_last_links" ids e).2.

(** One poll in such an environment. *)
Lemma poll_spec (f : PostFetcher) e :
  Inv e ->
  Inv (poll f e).2 /\ pf_window (poll f e).1.2 = pf_window f /\
  match (poll f e).1.1.2 with
  | Some _ => (poll f e).1.2 = f
  | None =>
    NoDup (link_ID <$> (poll f e).1.1.1) /\
    Forall (fun post => link_ID post ∉ pf_lastSeen f) (poll f e).1.1.1 /\
    ((length (poll f e).1.1.1 + length (pf_lastSeen f) <= pf_window f)%nat ->
     pf_lastSeen (poll f e).1.2 ≡ₚ (link_ID <$> (poll f e).1.1.1) ++ pf_lastSeen f)
  end.
Proof.
  intros He. destruct (Inv_fetch e He) as [Hnd He1]. unfold poll.
  destruct (fetchLatest e) as [[snapshot [err|]] e1]; cbn [fst snd] in *; [done|].
  pose proof (computeNewItems_perm (pf_window f) snapshot (pf_lastSeen f)) as Hp.
  pose proof (computeNewItems_window_bounds (pf_window f) snapshot (pf_lastSeen f)) as Hw.
  pose proof (computeNewItems_snd (pf_window f) snapshot (pf_lastSeen f)) as Hs.
  destruct (computeNewItems _ snapshot _) as [newItems updated]. cbn [fst snd] in *.
  destruct (Inv_store updated e1 He1) as [Herr He2].
  destruct (SetRedisJson_call _ updated e1) as [err' e2]. cbn [fst snd] in *. subst err'.
  split_and!; [done..| | |].
  - rewrite Hp. by apply NoDup_fmap_filter.
  - apply Forall_forall. intros post. rewrite Hp. by intros [? _]%list_elem_of_filter.
  - intros Hlen. rewrite Hs, take_ge; [apply sort.isort_perm|].
    rewrite sort.isort_perm, length_app, length_fmap. lia.
Qed.

#[local] Hint Extern 0 (Fetcher _ PostFetcher) =>
  exact (PostFetcher_Fetcher N) : typeclass_instances.

Lemma Inv_poll (f : PostFetcher) e : Inv e -> Inv (GetNewPosts_call f e).2.
Proof. intros He. by destruct (poll_spec f e He) as [? _]. Qed.

(** One tick in such an environment, after the posts [D] were fetched
    since the last seen ids were [L0]: the posts it fetches are new, and
    the ids of the fetcher are those of the posts fetched and [L0], as long
    as the window holds them all. *)
Lemma tick_fetched_spec (f : PostFetcher) e (L0 : list string) (D : list Link) :
  Inv e ->
  pf_lastSeen f ≡ₚ (link_ID <$> D) ++ L0 ->
  NoDup (link_ID <$> D) -> Forall (fun post => link_ID post ∉ L0) D ->
  (length L0 + length D + length (fetched_of (events_of (tick f) e)) <= pf_window f)%nat ->
  Inv (env_after (tick f) e) /\ pf_window (result_of (tick f) e) = pf_window f /\
  pf_lastSeen (result_of (tick f) e) ≡ₚ
    (link_ID <$> D ++ fetched_of (events_of (tick f) e)) ++ L0 /\
  NoDup (link_ID <$> D ++ fetched_of (events_of (tick f) e)) /\
  Forall (fun post => link_ID post ∉ L0) (D ++ fetched_of (events_of (tick f) e)).
Proof.
  intros He Hf HD HL Hlen.
  destruct (tick_fetched f e) as [Hfe Hre]. rewrite Hfe, Hre in *. clear Hfe Hre.
  destruct (tick_stable Inv cfg Inv_config Inv_send Inv_poll f e He) as [_ He1].
  destruct (poll_spec f e He) as (_ & Hw & Hpoll).
  change (GetNewPosts_call f e) with (poll f e) in *.
  destruct (poll f e) as [[[new [err|]] f'] e']; cbn [fst snd] in *.
  - subst f'. by rewrite app_nil_r.
  - destruct Hpoll as (Hnew & Hdis & Hupd). split_and!; [done..| | |].
    + rewrite Hupd, Hf, fmap_app by (rewrite Hf, length_app, length_fmap; lia).
      by rewrite (comm (++) (link_ID <$> new)), <- !app_assoc, (comm (++) L0).
    + rewrite fmap_app. apply NoDup_app. split_and!; [done| |done].
      intros id (post & -> & Hin)%list_elem_of_fmap (post' & Heq & Hin')%list_elem_of_fmap.
      apply (proj1 (Forall_forall _ _) Hdis post' Hin'). rewrite <- Heq, Hf.
      apply elem_of_app. left. apply list_elem_of_fmap. eauto.
    + apply Forall_app. split; [done|]. eapply Forall_impl; [apply Hdis|].
      intros post Hn Hin. apply Hn. rewrite Hf. apply elem_of_app. by right.
Qed.

(** The posts a run fetches, after the posts [D] fetched before it: no id
    twice and no id of [L0], as long as the window holds them all. *)
Lemma run_fetched_NoDup signals (f : PostFetcher) e (L0 : list string) (D : list Link) :
  Inv e ->
  pf_lastSeen f ≡ₚ (link_ID <$> D) ++ L0 ->
  NoDup (link_ID <$> D) -> Forall (fun post => link_ID post ∉ L0) D ->
  (length L0 + length D + length (fetched_of (run_events signals f e)) <= pf_window f)%nat ->
  NoDup (link_ID <$> D ++ fetched_of (run_events signals f e)) /\
  Forall (fun post => link_ID post ∉ L0) (D ++ fetched_of (run_events signals f e)).
Proof.
  revert f e D. induction signals as [|[wg|] signals IH]; intros f e D He Hf HD HL Hlen;
    [by rewrite app_nil_r..|].
  rewrite run_events_tick, fetched_of_app, length_app in *.
  destruct (tick_fetched_spec f e L0 D He Hf HD HL) as (He1 & Hw & Hf1 & HD1 & HL1); [lia|].
  rewrite app_assoc. apply IH; [done..|]. rewrite Hw, length_app. lia.
Qed.

(** The ids of the fetcher when the loop is back in its [select]. *)
Lemma run_lastSeen signals (f : PostFetcher) w (L0 : list string) (D : list Link) f' w' :
  Inv (w_env w) ->
  pf_lastSeen f ≡ₚ (link_ID <$> D) ++ L0 ->
  NoDup (link_ID <$> D) -> Forall (fun post => link_ID post ∉ L0) D ->
  (length L0 + length D + length (fetched_of (run_events signals f (w_env w)))
     <= pf_window f)%nat ->
  runBot_loop signals f w = Running f' w' ->
  pf_lastSeen f' ≡ₚ (link_ID <$> D ++ fetched_of (run_events signals f (w_env w))) ++ L0.
Proof.
  revert f w D. induction signals as [|[wg|] signals IH]; intros f w D He Hf HD HL Hlen Hrun.
  - injection Hrun as <- <-. by rewrite app_nil_r.
  - done.
  - rewrite run_events_tick, fetched_of_app, length_app in *.
    cbn [runBot_loop] in Hrun. rewrite (traced_run (c := tick f)) in Hrun.
    destruct (tick_fetched_spec f (w_env w) L0 D He Hf HD HL)
      as (He1 & Hw & Hf1 & HD1 & HL1); [lia|].
    rewrite app_assoc. refine (IH _ (mkWorld _ _) _ He1 Hf1 HD1 HL1 _ Hrun).
    cbn [w_env]. rewrite Hw, length_app. lia.
Qed.

(** Claim C24.  With the delta engine as its fetcher a run of the loop of
    [runBot] delivers every fetched post once, under four assumptions on
    the environment, which the invariant [Inv] keeps: every look-up of
    subscriptions succeeds and answers from the same configuration [cfg];
    the sends, whatever they return, keep the environment in [Inv]; every
    listing of reddit has no id twice; every write of the last seen ids
    succeeds.  Then, as long as the window holds the ids seen before the
    run and those fetched during it, the sends of the run are the
    deliveries owed under [cfg] to the posts fetched, in order, no send is
    made twice, no post is fetched twice and none was seen before the run.
    A post whose look-up fails is not delivered at all
    ([HandlePost.handlePost_config_error]), and a window that overflows
    lets a post be delivered again ([window_overflow_redelivers]). *)
Theorem runBot_delivers_once signals (f : PostFetcher) (w : World E) :
  Inv (w_env w) ->
  let evs := run_events signals f (w_env w) in
  (length (pf_lastSeen f) + length (fetched_of evs) <= pf_window f)%nat ->
  w_trace (world_of (runBot_loop signals f w)) = w_trace w ++ evs /\
  sends_of evs = deliveries cfg (fetched_of evs) /\
  NoDup (sends_of evs) /\
  NoDup (link_ID <$> fetched_of evs) /\
  Forall (fun post => link_ID post ∉ pf_lastSeen f) (fetched_of evs).
Proof.
  intros He evs Hlen. unfold evs in *. clear evs.
  destruct (run_fetched_NoDup signals f (w_env w) (pf_lastSeen f) [] He)
    as [Hnd Hdis]; [done|apply NoDup_nil_2|apply Forall_nil_2|simpl; lia|].
  pose proof (run_events_stable Inv cfg Inv_config Inv_send Inv_poll signals f _ He) as Hs.
  split_and!; [apply runBot_loop_trace|done| |done..].
  rewrite Hs. by apply deliveries_NoDup.
Qed.

End delivery.

(** ** A restart: the stored ids carry the fetcher over *)

Section restart.
Context {E : Type} {Ev : Environ} {Cm : Common} {Rl : RedditLib} {St : GoStrings}
  {Rd : Redis E} {Dc : Discord E} {Rp : RedisPool E} {Li : Listing E}.
Context (N : nat) (cfg : string -> list SubredditWatchItem)
  (Holds : list string -> E -> Prop) {Ps : Persistent cfg Holds}.

#[local] Hint Extern 0 (Fetcher _ PostFetcher) =>
  exact (PostFetcher_Fetcher N) : typeclass_instances.

(** The environments that hold some ids are those of the section
    [delivery]. *)
Definition holding (e : E) : Prop := exists ids, Holds ids e.

Lemma holding_config key e :
  holding e -> (GetConfig_call key e).1 = (cfg key, None) /\ holding (GetConfig_call key e).2.
Proof. intros [ids [? ?]%(holds_config _ key)]. split; [done|by exists ids]. Qed.

Lemma holding_send channel embed e :
  holding e -> holding (ChannelMessageSendEmbed_call channel embed e).2.
Proof. intros [ids ?%(holds_send _ channel embed)]. by exists ids. Qed.

Lemma holding_fetch e :
  holding e -> NoDup (link_ID <$> (fetchLatest e).1.1) /\ holding (fetchLatest e).2.
Proof. intros [ids [? ?]%holds_fetch]. split; [done|by exists ids]. Qed.

Lemma holding_store ids e :
  holding e ->
  (SetRedisJson_call "reddit_last_links" ids e).1 = None /\
  holding (SetRedisJson_call "reddit_last_links" ids e).2.
Proof. intros [ids0 [? ?]%(holds_store _ ids)]. split; [done|by exists ids]. Qed.

(** The store holds the ids of the fetcher, tick after tick. *)
Lemma poll_holds (f : PostFetcher) e :
  Holds (pf_lastSeen f) e ->
  Holds (pf_lastSeen (poll f e).1.2) (poll f e).2 /\ pf_window (poll f e).1.2 = pf_window f.
Proof.
  intros [_ He1]%holds_fetch. unfold poll.
  destruct (fetchLatest e) as [[snapshot [err|]] e1]; cbn [fst snd] in *; [done|].
  destruct (computeNewItems _ snapshot _) as [newItems updated].
  destruct (holds_store _ updated _ He1) as [_ He2].
  by destruct (SetRedisJson_call _ updated e1).
Qed.

Lemma tick_holds (f : PostFetcher) w :
  Holds (pf_lastSeen f) (w_env w) ->
  Holds (pf_lastSeen (tick f w).1) (w_env (tick f w).2) /\
  pf_window (tick f w).1 = pf_window f.
Proof.
  intros [He1 Hw]%poll_holds. rewrite tick_run.
  change (GetNewPosts_call f (w_env w)) with (poll f (w_env w)).
  destruct (poll f (w_env w)) as [[[links [err|]] f'] e1]; cbn [fst snd w_env] in *;
    [done|]. split; [|done].
  apply (handlePosts_stable (Holds (pf_lastSeen f')) cfg); [|apply holds_send|done].
  apply holds_config.
Qed.

Lemma ticks_hold ticks (f : PostFetcher) w :
  Forall (fun s => s = SigTick) ticks -> Holds (pf_lastSeen f) (w_env w) ->
  exists f' w', runBot_loop ticks f w = Running f' w' /\
    Holds (pf_lastSeen f') (w_env w') /\ pf_window f' = pf_window f.
Proof.
  intros Ht. revert f w. induction Ht as [|s ticks -> _ IH]; intros f w He.
  - by exists f, w.
  - cbn [runBot_loop]. destruct (tick_holds f w He) as [He1 Hw].
    destruct (tick f w) as [f1 w1]. cbn [fst snd] in *.
    destruct (IH f1 w1 He1) as (f' & w' & ? & ? & ?). exists f', w'. by rewrite <- Hw.
Qed.

(** [runBot] in such an environment: the client of redis, the stored ids,
    then the loop with the fetcher made of them. *)
Lemma runBot_holds signals w ids :
  Holds ids (w_env w) ->
  exists e, Holds ids e /\
    runBot signals w =
      runBot_loop signals (mkPostFetcher N ids)
        (mkWorld e (w_trace w ++ EvRedisGet None :: start_events ids None)).
Proof.
  intros [Hp [Hl He]%holds_load]%holds_pool. rewrite runBot_run.
  destruct (RedisPool_Get (w_env w)) as [panic e1]. cbn [fst snd] in *. subst panic.
  destruct (GetRedisJson_call "reddit_last_links" e1) as [r e2]. cbn [fst snd] in *.
  subst r. exists e2. by rewrite <- app_assoc.
Qed.

(** The events of a start of [runBot] in such an environment carry no
    post and no send. *)
Lemma restart_quiet ids (tr1 tr2 : list Event) :
  fetched_of (tr1 ++ EvRedisGet None :: start_events ids None ++ tr2) =
    fetched_of tr1 ++ fetched_of tr2 /\
  sends_of (tr1 ++ EvRedisGet None :: start_events ids None ++ tr2) =
    sends_of tr1 ++ sends_of tr2.
Proof.
  destruct (start_events_quiet ids None) as (Hs & _ & Hf & _).
  change (?x :: ?l ++ tr2) with ([x] ++ l ++ tr2).
  by rewrite !fetched_of_app, !sends_of_app, Hs, Hf.
Qed.

Lemma restart_fetched ids0 ids1 wg (R1 R2 : list Event) :
  let evs := [] ++ EvRedisGet None :: start_events ids0 None ++
               ((R1 ++ [EvDone wg]) ++ EvRedisGet None :: start_events ids1 None ++ R2) in
  fetched_of evs = fetched_of R1 ++ fetched_of R2 /\
  sends_of evs = sends_of R1 ++ sends_of R2.
Proof.
  cbv zeta. destruct (restart_quiet ids0 []
    ((R1 ++ [EvDone wg]) ++ EvRedisGet None :: start_events ids1 None ++ R2)) as [-> ->].
  destruct (restart_quiet ids1 (R1 ++ [EvDone wg]) R2) as [-> ->].
  rewrite !fetched_of_app, !sends_of_app.
  change (fetched_of [EvDone wg]) with (@nil Link).
  change (sends_of [EvDone wg]) with (@nil (string * MessageEmbed)).
  by rewrite !app_nil_r.
Qed.

(** A run stopped by a call of [StopFeed] and the run of a second call of
    [runBot] after it: the first run returns, the second starts from the
    environment and the trace it left, with a fetcher made of the ids the
    first one stored. *)
Lemma restart_trace ticks signals wg w ids0 :
  Holds ids0 (w_env w) -> Forall (fun s => s = SigTick) ticks ->
  let s1 := runBot (F := PostFetcher) (ticks ++ [SigStop wg]) w in
  exists e0 f1 e1,
    let R1 := run_events ticks (mkPostFetcher N ids0) e0 in
    is_Stopped s1 = true /\
    w_trace (world_of (runBot (F := PostFetcher) signals (world_of s1))) =
      w_trace w ++ ([] ++ EvRedisGet None :: start_events ids0 None ++
        ((R1 ++ [EvDone wg]) ++ EvRedisGet None :: start_events (pf_lastSeen f1) None ++
         run_events signals f1 e1)) /\
    holding e0 /\ holding e1 /\ pf_window f1 = N /\
    ((length ids0 + length (fetched_of R1) <= N)%nat ->
     pf_lastSeen f1 ≡ₚ (link_ID <$> fetched_of R1) ++ ids0).
Proof.
  intros He Ht s1. unfold s1.
  destruct (runBot_holds (ticks ++ [SigStop wg]) w ids0 He) as (e0 & He0 & ->).
  destruct (ticks_hold ticks (mkPostFetcher N ids0) (mkWorld e0
              (w_trace w ++ EvRedisGet None :: start_events ids0 None)) Ht He0)
    as (f1 & w1 & Hrun & He1 & Hw).
  pose proof (runBot_loop_trace ticks (mkPostFetcher N ids0) (mkWorld e0
                (w_trace w ++ EvRedisGet None :: start_events ids0 None))) as Htr.
  rewrite runBot_loop_stop, Hrun by done. rewrite Hrun in Htr. cbn [world_of] in *.
  destruct (runBot_holds signals (Done wg w1).2 _ He1) as (e1 & He1' & ->).
  exists e0, f1, e1. cbv zeta. split_and!; [done| |by exists ids0|by eexists|done|].
  - rewrite runBot_loop_trace. cbn [w_env w_trace Done emit snd].
    replace (mkPostFetcher N (pf_lastSeen f1)) with f1 by (destruct f1; simpl in *; congruence).
    rewrite Htr. cbn [w_env w_trace app]. by rewrite <- !app_assoc.
  - intros Hlen.
    apply (run_lastSeen N holding cfg holding_config holding_send holding_fetch
             holding_store ticks (mkPostFetcher N ids0) (mkWorld e0
               (w_trace w ++ EvRedisGet None :: start_events ids0 None)) ids0 [] f1 w1);
      try done; [by exists ids0|apply NoDup_nil_2|simpl in *; lia].
Qed.

(** Claim C25.  A restart delivers nothing again.  When redis is reachable,
    keeps the ids that were stored and answers the look-ups from stable
    subscriptions, and the listings of reddit have no id twice
    ([Persistent]): a call of [runBot] that serves ticks and is stopped by
    [StopFeed], followed by a second call of [runBot] in the environment
    the first one left, fetches no post twice over the two runs and none
    whose id was stored before the first, sends exactly the deliveries owed
    to the posts fetched and sends nothing twice, as long as the window
    holds the ids stored before and those fetched. *)
Theorem restart_no_redelivery (ticks signals : list Signal) (wg : WaitGroup)
    (w : World E) (ids0 : list string) :
  Holds ids0 (w_env w) -> Forall (fun s => s = SigTick) ticks ->
  let s1 := runBot (F := PostFetcher) (ticks ++ [SigStop wg]) w in
  let s2 := runBot (F := PostFetcher) signals (world_of s1) in
  let evs := drop (length (w_trace w)) (w_trace (world_of s2)) in
  (length ids0 + length (fetched_of evs) <= N)%nat ->
  is_Stopped s1 = true /\
  w_trace (world_of s2) = w_trace w ++ evs /\
  NoDup (link_ID <$> fetched_of evs) /\
  Forall (fun post => link_ID post ∉ ids0) (fetched_of evs) /\
  sends_of evs = deliveries cfg (fetched_of evs) /\
  NoDup (sends_of evs).
Proof.
  intros He Ht s1 s2 evs. unfold evs, s2, s1.
  destruct (restart_trace ticks signals wg w ids0 He Ht)
    as (e0 & f1 & e1 & Hstop & -> & He0 & He1 & Hw & Hperm).
  rewrite drop_app_length.
  destruct (restart_fetched ids0 (pf_lastSeen f1) wg
              (run_events ticks (mkPostFetcher N ids0) e0) (run_events signals f1 e1))
    as [-> ->].
  rewrite length_app. intros Hlen.
  destruct (run_fetched_NoDup N holding cfg holding_config holding_send holding_fetch
              holding_store ticks (mkPostFetcher N ids0) e0 ids0 [])
    as [HD1 HL1]; [done|done|apply NoDup_nil_2|constructor|simpl; lia|].
  destruct (run_fetched_NoDup N holding cfg holding_config holding_send holding_fetch
              holding_store signals f1 e1 ids0 _ He1 (Hperm ltac:(lia)) HD1 HL1)
    as [HD HL]; [rewrite Hw; simpl; lia|].
  rewrite !(run_events_stable holding cfg holding_config holding_send
              (Inv_poll N holding holding_fetch holding_store)) by done.
  rewrite <- deliveries_app. split_and!; [done..|]. by apply deliveries_NoDup.
Qed.

End restart.

(** ** The theorems on a concrete environment *)

Import Sim.

(** Reddit answers a fetch with the next listing of [feed]; redis stores
    the ids under their key. *)
#[export] Instance sim_listing : Listing Env := {|
  fetchLatest e :=
    match feed e with
    | [] => (([], None), e)
    | (listing, err) :: rest =>
      ((listing, err), mkEnv (configs e) (redis_down e) (failing e) (last_links e) rest)
    end;
  SetRedisJson_call key ids e :=
    if redis_down e then (Some (ExtError "redis: connection refused"), e)
    else (None, mkEnv (configs e) (redis_down e) (failing e)
                  (if bool_decide (key = "reddit_last_links") then ids else last_links e)
                  (feed e))
|}.

Definition item (id : string) : Link := mkLink id "golang" "rob" id false "" "".

Lemma updateLastSeen_refines_witness :
  let r := computeNewItems 3 [item "5abc"; item "5abe"; item "5ABC"] ["5abd"; "5abc"] in
  exists ids logs,
    updateLastSeen 3 (link_ID <$> r.1) ["5abd"; "5abc"] = Some (ids, logs) /\
    (length ids <= 3)%nat /\
    StronglySorted (fun x y => decode y <= decode x) ids /\
    same_keys ids r.2 /\
    (NoDup (decode <$> (link_ID <$> r.1) ++ ["5abd"; "5abc"]) -> ids = r.2).
Proof.
  apply (updateLastSeen_refines 3 [item "5abc"; item "5abe"; item "5ABC"] ["5abd"; "5abc"]).
  by vm_compute.
Defined.

Lemma computeNewItems_idempotent_witness :
  (computeNewItems 3 [item "a"; item "c"; item "b"]
     (computeNewItems 3 [item "a"; item "c"; item "b"] ["b"]).2).1 = [].
Proof.
  apply (computeNewItems_idempotent 3 [item "a"; item "c"; item "b"] ["b"]).
  vm_compute. lia.
Defined.

Lemma poll_fetch_error_witness :
  poll (mkPostFetcher 25 ["5abd"])
    (mkEnv ∅ false ∅ ["5abd"] [([link_post], Some (ExtError "reddit: 503"))]) =
  (([], Some (ExtError "reddit: 503")), mkPostFetcher 25 ["5abd"],
   mkEnv ∅ false ∅ ["5abd"] []).
Proof.
  apply (poll_fetch_error (mkPostFetcher 25 ["5abd"])
           (mkEnv ∅ false ∅ ["5abd"] [([link_post], Some (ExtError "reddit: 503"))])
           (mkEnv ∅ false ∅ ["5abd"] []) [link_post] (ExtError "reddit: 503")).
  reflexivity.
Defined.

Lemma computeNewItems_nothing_new_witness :
  computeNewItems 3 [item "b"; item "B"] ["c"; "b"; "B"] = ([], ["c"; "b"; "B"]).
Proof.
  apply (computeNewItems_nothing_new 3 [item "b"; item "B"] ["c"; "b"; "B"]).
  - apply Forall_forall. intros it Hit. apply (bool_decide_unpack _).
    revert it Hit. apply Forall_forall, (bool_decide_unpack _). by vm_compute.
  - apply (sorted_before_id ["c"; "b"; "B"]), (bool_decide_unpack _). by vm_compute.
  - simpl. lia.
Defined.

(** The scenarios of the specification. *)
Example scenario_cold_start :
  computeNewItems 25 [item "b"; item "a"] [] = ([item "b"; item "a"], ["b"; "a"]).
Proof. vm_compute. reflexivity. Qed.

Example scenario_one_seen :
  (computeNewItems 25 [item "b"; item "a"] ["b"]).1 = [item "a"].
Proof. vm_compute. reflexivity. Qed.

(** Last seen ids that are not a window are made one, even by an empty
    snapshot: they are put in order and cut. *)
Example empty_snapshot_normalises :
  computeNewItems 25 [] ["a"; "b"] = ([], ["b"; "a"]) /\
  computeNewItems 1 [] ["b"; "a"] = ([], ["b"]).
Proof. by vm_compute. Qed.

(** A snapshot with more new ids than the window holds: the oldest new id
    falls out of the window at once, and the same snapshot delivers it
    again. *)
Example window_overflow_redelivers :
  let r := computeNewItems 2 [item "c"; item "b"; item "a"] [] in
  r = ([item "c"; item "b"; item "a"], ["c"; "b"]) /\
  (computeNewItems 2 [item "c"; item "b"; item "a"] r.2).1 = [item "a"].
Proof. vm_compute. done. Qed.

(** An id that overflows [int64] stays at the head of the window whatever
    comes after it. *)
Example overflow_id_stays_in_window :
  (computeNewItems 2 [item "zz"; item "zy"] ["1y2p0ij32e8e8"; "5"]).2 =
    ["1y2p0ij32e8e8"; "zz"].
Proof. vm_compute. reflexivity. Qed.

(** A poll whose write fails returns the new items with the error of the
    store and keeps the updated ids; the tick of [runBot] that made the
    poll logs the error and delivers nothing, and the next poll does not
    return these items again. *)
Example poll_store_error :
  let e := mkEnv (configs golang_env) true (failing golang_env) []
             [([link_post], None); ([link_post], None)] in
  let r := poll (mkPostFetcher 25 []) e in
  r.1.1 = ([link_post], Some (ExtError "redis: connection refused")) /\
  pf_lastSeen r.1.2 = ["5abc"] /\
  sends_of (w_trace (tick (Ft := PostFetcher_Fetcher 25) (mkPostFetcher 25 [])
                       (mkWorld e [])).2) = [] /\
  (poll r.1.2 r.2).1.1 = ([], Some (ExtError "redis: connection refused")).
Proof. by vm_compute. Qed.

(** [runBot] with this fetcher: the stored post is not delivered, the post
    listed twice is delivered once, and the ids of both ticks are stored. *)
Example runBot_with_PostFetcher :
  let s := runBot (Ft := PostFetcher_Fetcher 25) [SigTick; SigTick; SigTick; SigStop 7]
             (mkWorld feed_env []) in
  (fun s => s.2) <$> sends_of (w_trace (world_of s)) =
    [buildEmbed link_post; buildEmbed link_post;
     buildEmbed link_post2; buildEmbed link_post2] /\
  last_links (w_env (world_of s)) = ["5abe"; "5abd"; "5abc"].
Proof. vm_compute. done. Qed.

(** The simulated environment is stable while redis is up and the listings
    of reddit have no id twice. *)
Definition sim_feed_Inv (e : Env) : Prop :=
  configs e = configs golang_env /\ redis_down e = false /\
  Forall (fun l => NoDup (link_ID <$> l.1)) (feed e).

Lemma sim_feed_Inv_config key e :
  sim_feed_Inv e ->
  (GetConfig_call key e).1 = (sim_cfg key, None) /\ sim_feed_Inv (GetConfig_call key e).2.
Proof. intros (Hc & Hd & Hf). unfold sim_cfg. simpl. by rewrite Hd, Hc. Qed.

Lemma sim_feed_Inv_send channel embed e :
  sim_feed_Inv e -> sim_feed_Inv (ChannelMessageSendEmbed_call channel embed e).2.
Proof. done. Qed.

Lemma sim_feed_Inv_fetch e :
  sim_feed_Inv e ->
  NoDup (link_ID <$> (fetchLatest e).1.1) /\ sim_feed_Inv (fetchLatest e).2.
Proof.
  intros (Hc & Hd & Hf). unfold sim_feed_Inv. simpl.
  destruct (feed e) as [|[listing err] rest] eqn:Hfeed; simpl.
  - rewrite Hfeed. split; [apply NoDup_nil_2|done].
  - apply Forall_cons in Hf as [Hl Hf]. by split.
Qed.

Lemma sim_feed_Inv_store ids e :
  sim_feed_Inv e ->
  (SetRedisJson_call "reddit_last_links" ids e).1 = None /\
  sim_feed_Inv (SetRedisJson_call "reddit_last_links" ids e).2.
Proof. intros (Hc & Hd & Hf). unfold sim_feed_Inv. simpl. by rewrite Hd. Qed.

Lemma sim_feed_Inv_feed_env : sim_feed_Inv feed_env.
Proof.
  split_and!; [done..|]. apply (bool_decide_unpack _). by vm_compute.
Qed.

(** The simulated environment that holds [ids]. *)
Definition sim_holds (ids : list string) (e : Env) : Prop :=
  sim_feed_Inv e /\ last_links e = ids.

Lemma sim_persistent : Persistent sim_cfg sim_holds.
Proof.
  split; intros; destruct e as [c d fl ll fd];
    unfold sim_holds, sim_feed_Inv, sim_cfg in *; cbn in *; destruct_and!; simplify_eq/=;
    try done.
  match goal with H : Forall _ fd |- _ => destruct H as [|[listing err] rest Hl Hr] end;
    cbn; [split; [apply NoDup_nil_2|done]|done].
Qed.

Lemma restart_no_redelivery_witness :
  let w := mkWorld feed_env [] in
  let s1 := runBot (F := PostFetcher) (Ft := PostFetcher_Fetcher 25)
              ([SigTick; SigTick] ++ [SigStop 7]) w in
  let s2 := runBot (F := PostFetcher) (Ft := PostFetcher_Fetcher 25)
              [SigTick; SigStop 8] (world_of s1) in
  let evs := drop (length (w_trace w)) (w_trace (world_of s2)) in
  is_Stopped s1 = true /\
  w_trace (world_of s2) = w_trace w ++ evs /\
  NoDup (link_ID <$> fetched_of evs) /\
  Forall (fun post => link_ID post ∉ ["5abd"]) (fetched_of evs) /\
  sends_of evs = deliveries sim_cfg (fetched_of evs) /\
  NoDup (sends_of evs).
Proof.
  apply (restart_no_redelivery 25 sim_cfg sim_holds (Ps := sim_persistent)
           [SigTick; SigTick] [SigTick; SigStop 8] 7 (mkWorld feed_env []) ["5abd"]).
  - split; [apply sim_feed_Inv_feed_env|done].
  - by repeat constructor.
  - vm_compute. lia.
Defined.

(** The restart on the simulated environment: the post of the first run
    is listed again after the restart and is not fetched again; each of
    the two posts is sent once to each of the two destinations, and both
    callers of [StopFeed] are acknowledged. *)
Example restart_example :
  let s1 := runBot (F := PostFetcher) (Ft := PostFetcher_Fetcher 25)
              [SigTick; SigTick; SigStop 7] (mkWorld feed_env []) in
  let tr := w_trace (world_of (runBot (F := PostFetcher) (Ft := PostFetcher_Fetcher 25)
                                 [SigTick; SigStop 8] (world_of s1))) in
  fetches_of tr = [([link_post], None); ([], Some (ExtError "reddit: 503"));
                   ([link_post2], None)] /\
  (fun s => (s.1, embed_URL s.2)) <$> sends_of tr =
    [("c1", "https://redd.it/5abc"); ("g2", "https://redd.it/5abc");
     ("c1", "https://redd.it/5abe"); ("g2", "https://redd.it/5abe")] /\
  dones_of tr = [7; 8].
Proof. by vm_compute. Qed.

Lemma runBot_delivers_once_witness :
  let f := mkPostFetcher 25 ["5abd"] in
  let signals := [SigTick; SigTick; SigTick; SigStop 7] in
  let evs := run_events (Ft := PostFetcher_Fetcher 25) signals f feed_env in
  w_trace (world_of (runBot_loop (Ft := PostFetcher_Fetcher 25) signals f
                       (mkWorld feed_env []))) = [] ++ evs /\
  sends_of evs = deliveries sim_cfg (fetched_of evs) /\
  NoDup (sends_of evs) /\
  NoDup (link_ID <$> fetched_of evs) /\
  Forall (fun post => link_ID post ∉ ["5abd"]) (fetched_of evs).
Proof.
  apply (runBot_delivers_once 25 sim_feed_Inv sim_cfg sim_feed_Inv_config
           sim_feed_Inv_send sim_feed_Inv_fetch sim_feed_Inv_store
           [SigTick; SigTick; SigTick; SigStop 7] (mkPostFetcher 25 ["5abd"])
           (mkWorld feed_env [])).
  - apply sim_feed_Inv_feed_env.
  - vm_compute. lia.
Defined.
